(** * Impala coordinator frontend: lifecycle engine of [impala-server.cc]

    A shallow embedding of the session registry, the query registry, the
    query archive, the fragment executor endpoint, the membership and
    catalog callbacks, the proxy-user check and the query-option parser of
    [be/src/service/impala-server.cc], together with [Status] from
    [be/src/common/status.cc].

    Conventions.
    - C++ integers are [Z]; the comparisons the code makes are written out.
    - [std::map]/[unordered_map] are [gmap], [unordered_set] is [gset],
      [std::list]/[vector] are [list].
    - A [shared_ptr<SessionState>] is an address into [session_heap]: the
      session registry and every [QueryExecState] alias the same object.
    - Every member function is a function from the server state to a result
      and a new server state; what the clock or an external collaborator
      returns is an argument. *)

From Stdlib Require Import ZArith Ascii DecimalZ.
From stdpp Require Import gmap strings list fin_maps sorting.

Open Scope Z_scope.

(* ===================================================================== *)
(** ** Identifiers and addresses (gen-cpp/Types_types.h)                  *)
(* ===================================================================== *)

(** [TUniqueId] is a pair of 64-bit halves. *)
Record TUniqueId := { hi : Z; lo : Z }.

#[global] Instance TUniqueId_eq_dec : EqDecision TUniqueId.
Proof. solve_decision. Defined.

#[global] Instance TUniqueId_countable : Countable TUniqueId.
Proof.
  refine (inj_countable' (fun u => (hi u, lo u))
                         (fun p => {| hi := p.1; lo := p.2 |}) _).
  by intros [].
Defined.

Record TNetworkAddress := { hostname : string; port : Z }.

#[global] Instance TNetworkAddress_eq_dec : EqDecision TNetworkAddress.
Proof. solve_decision. Defined.

#[global] Instance TNetworkAddress_countable : Countable TNetworkAddress.
Proof.
  refine (inj_countable' (fun a => (hostname a, port a))
                         (fun p => {| hostname := p.1; port := p.2 |}) _).
  by intros [].
Defined.

(* ===================================================================== *)
(** ** Status (common/status.cc)                                          *)
(* ===================================================================== *)

(** [struct Status::ErrorDetail] holds only the messages. *)
Record ErrorDetail := { error_msgs : list string }.

#[global] Instance ErrorDetail_eq_dec : EqDecision ErrorDetail.
Proof. solve_decision. Defined.

(** A [Status] is its [error_detail_] pointer: [NULL] is success. *)
Definition Status : Type := option ErrorDetail.

(** [const Status Status::OK] *)
Definition Status_OK : Status := None.

(** [Status::Status(const string& error_msg)] *)
Definition Status_of_msg (error_msg : string) : Status :=
  Some {| error_msgs := [error_msg] |}.

Inductive TStatusCode := TStatusCode_OK | TStatusCode_INTERNAL_ERROR.

#[global] Instance TStatusCode_eq_dec : EqDecision TStatusCode.
Proof. solve_decision. Defined.

(** [Status(TStatusCode::type code, const string& error_msg)] is declared in
    status.h; [ErrorDetail] has no field for the code, so only the message
    is kept. *)
Definition Status_of_code (code : TStatusCode) (error_msg : string) : Status :=
  Status_of_msg error_msg.

(** [bool ok() const { return error_detail_ == NULL; }] *)
Definition ok (s : Status) : bool :=
  match s with None => true | Some _ => false end.

(** [Status::GetErrorMsgs] *)
Definition GetErrorMsgs (s : Status) : list string :=
  match s with None => [] | Some d => error_msgs d end.

(** [boost::algorithm::join] *)
Fixpoint join (sep : string) (l : list string) : string :=
  match l with
  | [] => ""
  | [x] => x
  | x :: r => x +:+ sep +:+ join sep r
  end.

(** [Status::GetErrorMsg]: the messages joined by newlines. *)
Definition GetErrorMsg (s : Status) : string :=
  join (String "010"%char "") (GetErrorMsgs s).

Record TStatus := { status_code : TStatusCode; t_error_msgs : list string }.

(** [Status::ToThrift]: every failure is reported as [INTERNAL_ERROR]. *)
Definition ToThrift (s : Status) : TStatus :=
  match s with
  | None => {| status_code := TStatusCode_OK; t_error_msgs := [] |}
  | Some d => {| status_code := TStatusCode_INTERNAL_ERROR;
                 t_error_msgs := error_msgs d |}
  end.

(* ===================================================================== *)
(** ** Flags, sessions and query execution states                         *)
(* ===================================================================== *)

(** The gflags of impala-server.cc that the modelled functions read. *)
Record Flags := {
  FLAGS_query_log_size : Z;               (* int32, default 25 *)
  FLAGS_log_query_to_file : bool;
  FLAGS_idle_query_timeout : Z;           (* int32, seconds, 0 = off *)
  FLAGS_idle_session_timeout : Z;         (* int32, seconds, 0 = off *)
  FLAGS_audit_event_log_dir : string;
  FLAGS_abort_on_failed_audit_event : bool
}.

(** Address of a heap-allocated [SessionState]. *)
Definition SessionPtr : Type := positive.

(** [ImpalaServer::SessionState], the members the lifecycle code touches. *)
Record SessionState := {
  closed : bool;
  expired : bool;
  ref_count : Z;
  last_accessed_ms : Z;
  inflight_queries : gset TUniqueId;
  connected_user : string;
  do_as_user : string;
  database : string
}.

Definition set_closed (b : bool) (ss : SessionState) : SessionState :=
  {| closed := b; expired := expired ss; ref_count := ref_count ss;
     last_accessed_ms := last_accessed_ms ss;
     inflight_queries := inflight_queries ss;
     connected_user := connected_user ss; do_as_user := do_as_user ss;
     database := database ss |}.


Definition set_ref_count (n : Z) (ss : SessionState) : SessionState :=
  {| closed := closed ss; expired := expired ss; ref_count := n;
     last_accessed_ms := last_accessed_ms ss;
     inflight_queries := inflight_queries ss;
     connected_user := connected_user ss; do_as_user := do_as_user ss;
     database := database ss |}.

Definition set_inflight_queries (f : gset TUniqueId → gset TUniqueId)
    (ss : SessionState) : SessionState :=
  {| closed := closed ss; expired := expired ss; ref_count := ref_count ss;
     last_accessed_ms := last_accessed_ms ss;
     inflight_queries := f (inflight_queries ss);
     connected_user := connected_user ss; do_as_user := do_as_user ss;
     database := database ss |}.

Inductive TStmtType := TStmtType_QUERY | TStmtType_DDL | TStmtType_DML
                     | TStmtType_EXPLAIN | TStmtType_LOAD.

#[global] Instance TStmtType_eq_dec : EqDecision TStmtType.
Proof. solve_decision. Defined.

(** [TExecRequest], as far as [ExecuteInternal] inspects it. *)
Record TExecRequest := {
  stmt_type : TStmtType;
  result_set_metadata : option string     (* __isset.result_set_metadata *)
}.

(** [TQueryCtx]: the id is filled in by [PrepareQueryContext]. *)
Record TQueryCtx := {
  ctx_query_id : TUniqueId;
  ctx_sql_stmt : string;
  ctx_query_timeout_s : Z        (* request.query_options.query_timeout_s *)
}.

(** What [Coordinator] and the query schedule expose to the server. *)
Record Coordinator := {
  unique_hosts : gset TNetworkAddress;    (* schedule()->unique_hosts() *)
  exec_summary : string                   (* coord()->exec_summary(), printed *)
}.

(** The member functions of [ImpalaServer::QueryExecState] are defined in
    service/query-exec-state.cc, which impala-server.cc only calls. They are
    an interface here: the state they own is [QBody], and every theorem of
    the query registry holds for each implementation of it. *)
Class QueryExecStateOps (QBody : Type) := {
  qes_new : TQueryCtx → QBody;
  qes_MarkEvent : string → QBody → QBody;
  qes_UpdateQueryStatus : Status → QBody → Status * QBody;
  qes_set_result_metadata : string → QBody → QBody;
  qes_Exec : TExecRequest → QBody → Status * QBody;
  qes_Cancel : option Status → QBody → QBody;
  qes_Done : QBody → QBody;
  qes_query_status : QBody → Status;
  qes_exec_request : QBody → TExecRequest;
  qes_coord : QBody → option Coordinator;
  qes_AddInfoString : string → string → QBody → QBody;
  qes_SerializeToArchiveString : QBody → string;
  qes_PrettyPrint : QBody → string;
  qes_last_active : QBody → Z;
  qes_is_active : QBody → bool
}.

(** A [QueryExecState]: what the constructor fixes ([query_id()], the owning
    session, the query options) and the state behind the interface. *)
Record QueryExecState {QBody : Type} := {
  query_id_of : TUniqueId;        (* query_id() *)
  session : SessionPtr;
  query_timeout_s : Z;           (* query_options().query_timeout_s, int32 *)
  body : QBody
}.
Arguments QueryExecState : clear implicits.

Definition set_body {QBody} (f : QBody → QBody) (q : QueryExecState QBody)
    : QueryExecState QBody :=
  {| query_id_of := query_id_of q; session := session q;
     query_timeout_s := query_timeout_s q; body := f (body q) |}.

(** [QueryStateRecord]: the snapshot kept in the query log. *)
Record QueryStateRecord {QBody : Type} := {
  id : TUniqueId;
  query_status : Status;
  has_coord : bool;
  profile_str : string;
  encoded_profile_str : string;
  rec_exec_summary : string;
  snapshot : QBody               (* stmt, plan, users, times, progress *)
}.
Arguments QueryStateRecord : clear implicits.

(** One line of the profile log: timestamp, query id, encoded profile. *)
Record ProfileLogEntry := {
  ple_timestamp : Z; ple_query_id : TUniqueId; ple_profile : string
}.

(** Work item of the cancellation thread pool. *)
Record CancellationWork := {
  cw_query_id : TUniqueId;
  cw_cause : Status;
  cw_unregister : bool
}.

(** Entry handed to the audit event logger by [LogAuditRecord]. *)
Record AuditEntry := {
  ae_timestamp : Z;
  ae_query_id : TUniqueId;
  ae_status : Status;
  ae_stmt_type : TStmtType
}.

(** External collaborators of the server: the planner front end, the audit
    log writer and the printers of util/. *)
Record ExecEnv := {
  frontend_GetExecRequest : TQueryCtx → Status * TExecRequest;
  frontend_IsAuthorizationError : Status → bool;
  audit_AppendEntry : AuditEntry → Status;
  PrintId : TUniqueId → string;
  PrintInt : Z → string;
  PrintTime : Z → string;          (* PrettyPrinter::Print(ns, TIME_NS) *)
  TimestampDebugString : Z → string;
  PrintAddr : TNetworkAddress → string;      (* operator<< *)
  DeserializeBackendDescriptor : string → option TNetworkAddress
}.

(** Statestore topic deltas (gen-cpp/StatestoreService_types.h). *)
Record TTopicItem := { ti_key : string; ti_value : string }.

Record TTopicDelta := {
  is_delta : bool;
  topic_entries : list TTopicItem;
  topic_deletions : list string
}.

(** [SimpleScheduler::IMPALA_MEMBERSHIP_TOPIC] *)
Definition IMPALA_MEMBERSHIP_TOPIC : string := "impala-membership".

Definition MAX_CANCELLATION_QUEUE_SIZE : Z := 65536.

(** [std::map::insert(make_pair(k, v))]: an existing key keeps its value. *)
Definition map_insert_new `{Countable K} {V} (k : K) (v : V)
    (m : gmap K V) : gmap K V :=
  match m !! k with
  | Some _ => m
  | None => <[k := v]> m
  end.


(* ===================================================================== *)
(** ** The server state                                                   *)
(* ===================================================================== *)

(** Order of [std::pair<int64_t, TUniqueId>], the element type of
    [ExpirationQueue]: lexicographic, ids compared on [hi] then [lo]. *)
Definition TUniqueId_ltb (a b : TUniqueId) : bool :=
  (hi a <? hi b) || ((hi a =? hi b) && (lo a <? lo b)).

Definition TUniqueId_leb (a b : TUniqueId) : bool := negb (TUniqueId_ltb b a).

(** Key order of [std::map<TUniqueId, vector<TNetworkAddress> >]. *)
Definition cancellation_entry_le (a b : TUniqueId * list TNetworkAddress)
    : Prop :=
  TUniqueId_leb a.1 b.1 = true.

#[global] Instance cancellation_entry_le_dec : RelDecision cancellation_entry_le.
Proof. intros a b. unfold cancellation_entry_le. apply _. Defined.

Definition expiration_ltb (a b : Z * TUniqueId) : bool :=
  (a.1 <? b.1) || ((a.1 =? b.1) && TUniqueId_ltb a.2 b.2).

(** [std::set::insert] on the ordered queue: an equal element is kept. *)
Fixpoint queue_insert (x : Z * TUniqueId) (l : list (Z * TUniqueId))
    : list (Z * TUniqueId) :=
  match l with
  | [] => [x]
  | y :: r =>
      if expiration_ltb x y then x :: y :: r
      else if expiration_ltb y x then y :: queue_insert x r
      else y :: r
  end.

Section Server.

Context {QBody : Type} `{QueryExecStateOps QBody}.
Variable flags : Flags.
Variable env : ExecEnv.

Record ImpalaServer := {
  session_state_map_ : gmap TUniqueId SessionPtr;
  session_heap : gmap SessionPtr SessionState;
  query_exec_state_map_ : gmap TUniqueId (QueryExecState QBody);
  queries_by_timestamp_ : list (Z * TUniqueId);
  query_locations_ : gmap TNetworkAddress (gset TUniqueId);
  query_log_ : list (QueryStateRecord QBody);
  query_log_index_ : gmap TUniqueId (QueryStateRecord QBody);
  profile_logger_ : list ProfileLogEntry;
  audit_event_logger_ : list AuditEntry;
  cancellation_thread_pool_ : list CancellationWork;
  known_backends_ : gmap string TNetworkAddress;
  closed_connections : list TNetworkAddress;
  is_offline_ : bool
}.

Definition set_session_heap (f : gmap SessionPtr SessionState → gmap SessionPtr SessionState)
    (s : ImpalaServer) : ImpalaServer :=
  {| session_state_map_ := session_state_map_ s;
     session_heap := f (session_heap s);
     query_exec_state_map_ := query_exec_state_map_ s;
     queries_by_timestamp_ := queries_by_timestamp_ s;
     query_locations_ := query_locations_ s;
     query_log_ := query_log_ s;
     query_log_index_ := query_log_index_ s;
     profile_logger_ := profile_logger_ s;
     audit_event_logger_ := audit_event_logger_ s;
     cancellation_thread_pool_ := cancellation_thread_pool_ s;
     known_backends_ := known_backends_ s;
     closed_connections := closed_connections s;
     is_offline_ := is_offline_ s |}.

Definition set_query_exec_state_map_
    (f : gmap TUniqueId (QueryExecState QBody) → gmap TUniqueId (QueryExecState QBody))
    (s : ImpalaServer) : ImpalaServer :=
  {| session_state_map_ := session_state_map_ s;
     session_heap := session_heap s;
     query_exec_state_map_ := f (query_exec_state_map_ s);
     queries_by_timestamp_ := queries_by_timestamp_ s;
     query_locations_ := query_locations_ s;
     query_log_ := query_log_ s;
     query_log_index_ := query_log_index_ s;
     profile_logger_ := profile_logger_ s;
     audit_event_logger_ := audit_event_logger_ s;
     cancellation_thread_pool_ := cancellation_thread_pool_ s;
     known_backends_ := known_backends_ s;
     closed_connections := closed_connections s;
     is_offline_ := is_offline_ s |}.

Definition set_queries_by_timestamp_
    (f : list (Z * TUniqueId) → list (Z * TUniqueId))
    (s : ImpalaServer) : ImpalaServer :=
  {| session_state_map_ := session_state_map_ s;
     session_heap := session_heap s;
     query_exec_state_map_ := query_exec_state_map_ s;
     queries_by_timestamp_ := f (queries_by_timestamp_ s);
     query_locations_ := query_locations_ s;
     query_log_ := query_log_ s;
     query_log_index_ := query_log_index_ s;
     profile_logger_ := profile_logger_ s;
     audit_event_logger_ := audit_event_logger_ s;
     cancellation_thread_pool_ := cancellation_thread_pool_ s;
     known_backends_ := known_backends_ s;
     closed_connections := closed_connections s;
     is_offline_ := is_offline_ s |}.

Definition set_query_locations_
    (f : gmap TNetworkAddress (gset TUniqueId) → gmap TNetworkAddress (gset TUniqueId))
    (s : ImpalaServer) : ImpalaServer :=
  {| session_state_map_ := session_state_map_ s;
     session_heap := session_heap s;
     query_exec_state_map_ := query_exec_state_map_ s;
     queries_by_timestamp_ := queries_by_timestamp_ s;
     query_locations_ := f (query_locations_ s);
     query_log_ := query_log_ s;
     query_log_index_ := query_log_index_ s;
     profile_logger_ := profile_logger_ s;
     audit_event_logger_ := audit_event_logger_ s;
     cancellation_thread_pool_ := cancellation_thread_pool_ s;
     known_backends_ := known_backends_ s;
     closed_connections := closed_connections s;
     is_offline_ := is_offline_ s |}.

Definition set_query_log
    (l : list (QueryStateRecord QBody))
    (ix : gmap TUniqueId (QueryStateRecord QBody))
    (s : ImpalaServer) : ImpalaServer :=
  {| session_state_map_ := session_state_map_ s;
     session_heap := session_heap s;
     query_exec_state_map_ := query_exec_state_map_ s;
     queries_by_timestamp_ := queries_by_timestamp_ s;
     query_locations_ := query_locations_ s;
     query_log_ := l;
     query_log_index_ := ix;
     profile_logger_ := profile_logger_ s;
     audit_event_logger_ := audit_event_logger_ s;
     cancellation_thread_pool_ := cancellation_thread_pool_ s;
     known_backends_ := known_backends_ s;
     closed_connections := closed_connections s;
     is_offline_ := is_offline_ s |}.

Definition set_profile_logger_
    (f : list ProfileLogEntry → list ProfileLogEntry)
    (s : ImpalaServer) : ImpalaServer :=
  {| session_state_map_ := session_state_map_ s;
     session_heap := session_heap s;
     query_exec_state_map_ := query_exec_state_map_ s;
     queries_by_timestamp_ := queries_by_timestamp_ s;
     query_locations_ := query_locations_ s;
     query_log_ := query_log_ s;
     query_log_index_ := query_log_index_ s;
     profile_logger_ := f (profile_logger_ s);
     audit_event_logger_ := audit_event_logger_ s;
     cancellation_thread_pool_ := cancellation_thread_pool_ s;
     known_backends_ := known_backends_ s;
     closed_connections := closed_connections s;
     is_offline_ := is_offline_ s |}.

Definition set_audit_event_logger_
    (f : list AuditEntry → list AuditEntry)
    (s : ImpalaServer) : ImpalaServer :=
  {| session_state_map_ := session_state_map_ s;
     session_heap := session_heap s;
     query_exec_state_map_ := query_exec_state_map_ s;
     queries_by_timestamp_ := queries_by_timestamp_ s;
     query_locations_ := query_locations_ s;
     query_log_ := query_log_ s;
     query_log_index_ := query_log_index_ s;
     profile_logger_ := profile_logger_ s;
     audit_event_logger_ := f (audit_event_logger_ s);
     cancellation_thread_pool_ := cancellation_thread_pool_ s;
     known_backends_ := known_backends_ s;
     closed_connections := closed_connections s;
     is_offline_ := is_offline_ s |}.

Definition set_cancellation_thread_pool_
    (f : list CancellationWork → list CancellationWork)
    (s : ImpalaServer) : ImpalaServer :=
  {| session_state_map_ := session_state_map_ s;
     session_heap := session_heap s;
     query_exec_state_map_ := query_exec_state_map_ s;
     queries_by_timestamp_ := queries_by_timestamp_ s;
     query_locations_ := query_locations_ s;
     query_log_ := query_log_ s;
     query_log_index_ := query_log_index_ s;
     profile_logger_ := profile_logger_ s;
     audit_event_logger_ := audit_event_logger_ s;
     cancellation_thread_pool_ := f (cancellation_thread_pool_ s);
     known_backends_ := known_backends_ s;
     closed_connections := closed_connections s;
     is_offline_ := is_offline_ s |}.

Definition set_known_backends_
    (f : gmap string TNetworkAddress → gmap string TNetworkAddress)
    (s : ImpalaServer) : ImpalaServer :=
  {| session_state_map_ := session_state_map_ s;
     session_heap := session_heap s;
     query_exec_state_map_ := query_exec_state_map_ s;
     queries_by_timestamp_ := queries_by_timestamp_ s;
     query_locations_ := query_locations_ s;
     query_log_ := query_log_ s;
     query_log_index_ := query_log_index_ s;
     profile_logger_ := profile_logger_ s;
     audit_event_logger_ := audit_event_logger_ s;
     cancellation_thread_pool_ := cancellation_thread_pool_ s;
     known_backends_ := f (known_backends_ s);
     closed_connections := closed_connections s;
     is_offline_ := is_offline_ s |}.

Definition set_closed_connections
    (f : list TNetworkAddress → list TNetworkAddress)
    (s : ImpalaServer) : ImpalaServer :=
  {| session_state_map_ := session_state_map_ s;
     session_heap := session_heap s;
     query_exec_state_map_ := query_exec_state_map_ s;
     queries_by_timestamp_ := queries_by_timestamp_ s;
     query_locations_ := query_locations_ s;
     query_log_ := query_log_ s;
     query_log_index_ := query_log_index_ s;
     profile_logger_ := profile_logger_ s;
     audit_event_logger_ := audit_event_logger_ s;
     cancellation_thread_pool_ := cancellation_thread_pool_ s;
     known_backends_ := known_backends_ s;
     closed_connections := f (closed_connections s);
     is_offline_ := is_offline_ s |}.

(** The server right after construction: every container is empty. *)
Definition initial_server : ImpalaServer :=
  {| session_state_map_ := ∅; session_heap := ∅;
     query_exec_state_map_ := ∅; queries_by_timestamp_ := [];
     query_locations_ := ∅; query_log_ := []; query_log_index_ := ∅;
     profile_logger_ := []; audit_event_logger_ := [];
     cancellation_thread_pool_ := []; known_backends_ := ∅;
     closed_connections := []; is_offline_ := false |}.

(** A call either returns a value and the next server state, or ends the
    process with [exit(1)]. *)
Inductive Outcome (A : Type) :=
  | Returns (a : A) (s : ImpalaServer)
  | Exits.
Arguments Returns {A} a s.
Arguments Exits {A}.

Definition bindO {A B} (o : Outcome A) (k : A → ImpalaServer → Outcome B)
    : Outcome B :=
  match o with
  | Returns a s => k a s
  | Exits => Exits
  end.

Notation "'call' x , st ← o ; k" := (bindO o (fun x st => k))
  (at level 10, x name, st name, o at level 100, k at level 200,
   only parsing).

(* ===================================================================== *)
(** ** Query archive                                                      *)
(* ===================================================================== *)

(** [QueryStateRecord::QueryStateRecord(exec_state, copy_profile = true,
    encoded_profile)]. *)
Definition QueryStateRecord_of (exec_state : QueryExecState QBody)
    (encoded_profile : string) : QueryStateRecord QBody :=
  {| id := query_id_of exec_state;
     query_status := qes_query_status (body exec_state);
     has_coord := bool_decide (is_Some (qes_coord (body exec_state)));
     profile_str := qes_PrettyPrint (body exec_state);
     encoded_profile_str :=
       if bool_decide (encoded_profile = "")
       then qes_SerializeToArchiveString (body exec_state)
       else encoded_profile;
     rec_exec_summary := "";
     snapshot := body exec_state |}.

Definition set_rec_exec_summary (e : string) (r : QueryStateRecord QBody)
    : QueryStateRecord QBody :=
  {| id := id r; query_status := query_status r; has_coord := has_coord r;
     profile_str := profile_str r;
     encoded_profile_str := encoded_profile_str r;
     rec_exec_summary := e; snapshot := snapshot r |}.

(** [ImpalaServer::ArchiveQuery]. [now] is [time_since_epoch()]. The status
    of the profile writer is only logged. The comparison of the int32 flag
    with [query_log_.size()] is made on a flag already known to exceed -1,
    so the conversion to [size_t] does not change it. *)
Definition ArchiveQuery (now : Z) (query : QueryExecState QBody)
    (s : ImpalaServer) : ImpalaServer :=
  let encoded_profile_str := qes_SerializeToArchiveString (body query) in
  let s :=
    if FLAGS_log_query_to_file flags then
      set_profile_logger_
        (λ l, l ++ [ {| ple_timestamp := now; ple_query_id := query_id_of query;
                        ple_profile := encoded_profile_str |} ]) s
    else s in
  if FLAGS_query_log_size flags =? 0 then s
  else
    let record := QueryStateRecord_of query encoded_profile_str in
    let record :=
      match qes_coord (body query) with
      | Some c => set_rec_exec_summary (exec_summary c) record
      | None => record
      end in
    (* Add record to the beginning of the log, and to the lookup index. *)
    let log := record :: query_log_ s in
    let index := <[query_id_of query := record]> (query_log_index_ s) in
    if (-1 <? FLAGS_query_log_size flags)
       && (FLAGS_query_log_size flags <? Z.of_nat (length log))
    then
      let index :=
        match last log with
        | Some back => delete (id back) index
        | None => index
        end in
      set_query_log (removelast log) index s
    else set_query_log log index s.

(** Archiving a sequence of finished queries, oldest first. *)
Definition archive_all (now : Z) (qs : list (QueryExecState QBody))
    (s : ImpalaServer) : ImpalaServer :=
  foldl (λ s q, ArchiveQuery now q s) s qs.

(* ===================================================================== *)
(** ** Query registry                                                     *)
(* ===================================================================== *)

(** The idle timeout of a query, as [RegisterQuery] and [ExpireQueries]
    both compute it from the flag [g] and the query option [p]. *)
Definition idle_timeout_s (g p : Z) : Z :=
  if (0 <? g) && (0 <? p) then Z.min g p
  else (* Use a non-zero timeout, if one exists *) Z.max g p.

(** [ImpalaServer::RegisterQuery]. [now] is [ms_since_epoch()]. A
    [shared_ptr] always points at a live session, so the first branch has
    no counterpart in the source. *)
Definition RegisterQuery (now : Z) (session_state : SessionPtr)
    (exec_state : QueryExecState QBody) (s : ImpalaServer)
    : Status * ImpalaServer :=
  match session_heap s !! session_state with
  | None => (Status_of_msg "dangling session handle", s)
  | Some ss =>
      (* The session may have been closed after it was checked out. *)
      if closed ss then
        (Status_of_msg "Session has been closed, ignoring query.", s)
      else
        let query_id := query_id_of exec_state in
        match query_exec_state_map_ s !! query_id with
        | Some _ =>
            (Status_of_code TStatusCode_INTERNAL_ERROR
               ("query id " +:+ PrintId env query_id +:+ " already exists"), s)
        | None =>
            let s := set_session_heap
                       (alter (set_inflight_queries (λ X, {[query_id]} ∪ X))
                              session_state) s in
            let s := set_query_exec_state_map_ (<[query_id := exec_state]>) s in
            let timeout_s :=
              idle_timeout_s (FLAGS_idle_query_timeout flags)
                             (query_timeout_s exec_state) in
            let s :=
              if 0 <? timeout_s then
                set_queries_by_timestamp_
                  (queue_insert (now + 1000 * timeout_s, query_id)) s
              else s in
            (Status_OK, s)
        end
  end.

(** [ImpalaServer::GetQueryExecState]; taking the lock is not modelled. *)
Definition GetQueryExecState (query_id : TUniqueId) (s : ImpalaServer)
    : option (QueryExecState QBody) :=
  query_exec_state_map_ s !! query_id.

(** [ImpalaServer::CancelInternal]: the registered object is cancelled in
    place. *)
Definition CancelInternal (query_id : TUniqueId) (cause : option Status)
    (s : ImpalaServer) : Status * ImpalaServer :=
  match GetQueryExecState query_id s with
  | None => (Status_of_msg "Invalid or unknown query handle", s)
  | Some exec_state =>
      (Status_OK,
       set_query_exec_state_map_
         (<[query_id := set_body (qes_Cancel cause) exec_state]>) s)
  end.

(** [ImpalaServer::IsAuditEventLoggingEnabled] *)
Definition IsAuditEventLoggingEnabled : bool :=
  negb (bool_decide (FLAGS_audit_event_log_dir flags = "")).

(** [ImpalaServer::LogAuditRecord]: the entry is handed to the audit
    logger; a failed write ends the process when
    [--abort_on_failed_audit_event] is set. *)
Definition LogAuditRecord (now : Z) (exec_state : QueryExecState QBody)
    (request : TExecRequest) (s : ImpalaServer) : Outcome Status :=
  let entry := {| ae_timestamp := now; ae_query_id := query_id_of exec_state;
                  ae_status := qes_query_status (body exec_state);
                  ae_stmt_type := stmt_type request |} in
  let status := audit_AppendEntry env entry in
  let s := set_audit_event_logger_ (λ l, l ++ [entry]) s in
  if negb (ok status) && FLAGS_abort_on_failed_audit_event flags then Exits
  else Returns status s.

(** [ImpalaServer::UnregisterQuery]. *)
Definition UnregisterQuery (now : Z) (query_id : TUniqueId)
    (cause : option Status) (s : ImpalaServer) : Outcome bool :=
  (* Cancel the query if it's still running *)
  let s := (CancelInternal query_id cause s).2 in
  match query_exec_state_map_ s !! query_id with
  | None => Returns false s
  | Some exec_state =>
      let s := set_query_exec_state_map_ (delete query_id) s in
      (* Ignore all audit events except for those due to an
         AuthorizationException. *)
      call _, s ← (if IsAuditEventLoggingEnabled
              && frontend_IsAuthorizationError env
                   (qes_query_status (body exec_state))
           then LogAuditRecord now exec_state
                  (qes_exec_request (body exec_state)) s
           else Returns Status_OK s);
      let exec_state := set_body qes_Done exec_state in
      let s := set_session_heap
                 (alter (set_inflight_queries (λ X, X ∖ {[query_id]}))
                        (session exec_state)) s in
      match qes_coord (body exec_state) with
      | Some c =>
          let exec_state :=
            set_body (qes_AddInfoString "ExecSummary" (exec_summary c))
                     exec_state in
          let s := set_query_locations_
                     (λ m, set_fold
                             (λ hostport m,
                                alter (λ X, X ∖ {[query_id_of exec_state]})
                                      hostport m)
                             m (unique_hosts c)) s in
          Returns true (ArchiveQuery now exec_state s)
      | None => Returns true (ArchiveQuery now exec_state s)
      end
  end.

(** The registry and a caller's handle hold a [shared_ptr] to the same
    object: what a member function changes through the handle is changed
    in [query_exec_state_map_]. *)
Definition write_exec_state (exec_state : QueryExecState QBody)
    (s : ImpalaServer) : ImpalaServer :=
  set_query_exec_state_map_ (<[query_id_of exec_state := exec_state]>) s.

(** [ImpalaServer::PrepareQueryContext]: [query_uuid] is the id drawn from
    the random generator. *)
Definition PrepareQueryContext (query_uuid : TUniqueId) (query_ctx : TQueryCtx)
    : TQueryCtx :=
  {| ctx_query_id := query_uuid; ctx_sql_stmt := ctx_sql_stmt query_ctx;
     ctx_query_timeout_s := ctx_query_timeout_s query_ctx |}.

(** [ImpalaServer::ExecuteInternal]. The result is the status, the flag
    [*registered_exec_state] and the handle [*exec_state]. *)
Definition ExecuteInternal (now : Z) (query_ctx : TQueryCtx)
    (session_state : SessionPtr) (s : ImpalaServer)
    : Outcome (Status * bool * option (QueryExecState QBody)) :=
  if is_offline_ s then
    Returns (Status_of_msg
               "This Impala server is offline. Please retry your query later.",
             false, None) s
  else
    let exec_state :=
      {| query_id_of := ctx_query_id query_ctx; session := session_state;
         query_timeout_s := ctx_query_timeout_s query_ctx;
         body := qes_MarkEvent "Start execution" (qes_new query_ctx) |} in
    (* register exec state as early as possible *)
    let '(status, s) := RegisterQuery now session_state exec_state s in
    if negb (ok status) then Returns (status, false, Some exec_state) s
    else
      let '(plan_status, result) := frontend_GetExecRequest env query_ctx in
      let '(status, b) := qes_UpdateQueryStatus plan_status (body exec_state) in
      let exec_state := set_body (λ _, b) exec_state in
      let s := write_exec_state exec_state s in
      if negb (ok status) then Returns (status, true, Some exec_state) s
      else
        let exec_state :=
          set_body (qes_MarkEvent "Planning finished") exec_state in
        let exec_state :=
          match result_set_metadata result with
          | Some md => set_body (qes_set_result_metadata md) exec_state
          | None => exec_state
          end in
        let s := write_exec_state exec_state s in
        (* the status of the audit record is not looked at *)
        call _, s ← (if IsAuditEventLoggingEnabled
             then LogAuditRecord now exec_state result s
             else Returns Status_OK s);
        (* start execution of query *)
        let '(status, b) := qes_Exec result (body exec_state) in
        let exec_state := set_body (λ _, b) exec_state in
        let s := write_exec_state exec_state s in
        if negb (ok status) then Returns (status, true, Some exec_state) s
        else
          let s :=
            match qes_coord (body exec_state) with
            | Some c =>
                set_query_locations_
                  (λ m, set_fold
                          (λ port m,
                             <[port := default ∅ (m !! port)
                                       ∪ {[query_id_of exec_state]}]> m)
                          m (unique_hosts c)) s
            | None => s
            end in
          Returns (Status_OK, true, Some exec_state) s.

(** [ImpalaServer::Execute]. *)
Definition Execute (now : Z) (query_uuid : TUniqueId) (query_ctx : TQueryCtx)
    (session_state : SessionPtr) (s : ImpalaServer)
    : Outcome (Status * option (QueryExecState QBody)) :=
  let query_ctx := PrepareQueryContext query_uuid query_ctx in
  call r, s ← ExecuteInternal now query_ctx session_state s;
  let '(status, registered_exec_state, exec_state) := r in
  if negb (ok status) && registered_exec_state then
    call _, s ← UnregisterQuery now (ctx_query_id query_ctx) (Some status) s;
    Returns (status, exec_state) s
  else Returns (status, exec_state) s.

(* ===================================================================== *)
(** ** Session registry                                                   *)
(* ===================================================================== *)

(** [ImpalaServer::GetSessionState]. [session_state] is what the caller's
    out-parameter held before the call; the result carries what it holds
    afterwards. Integer division of the timestamp truncates. *)
Definition GetSessionState (session_id : TUniqueId)
    (session_state : option SessionPtr) (mark_active : bool)
    (s : ImpalaServer) : Status * option SessionPtr * ImpalaServer :=
  match session_state_map_ s !! session_id with
  | None => (Status_of_msg "Invalid session id", None, s)
  | Some i =>
      if mark_active then
        match session_heap s !! i with
        | None => (Status_of_msg "dangling session handle", session_state, s)
        | Some ss =>
            if expired ss then
              (Status_of_msg
                 ("Client session expired due to more than "
                  +:+ PrintInt env (FLAGS_idle_session_timeout flags)
                  +:+ "s of inactivity (last activity was at: "
                  +:+ TimestampDebugString env
                        (Z.quot (last_accessed_ms ss) 1000)
                  +:+ ")."),
               session_state, s)
            else if closed ss then
              (Status_of_msg "Session is closed", session_state, s)
            else
              (Status_OK, Some i,
               set_session_heap
                 (<[i := set_ref_count (ref_count ss + 1) ss]>) s)
        end
      else (Status_OK, Some i, s)
  end.

(* ===================================================================== *)
(** ** Query expiration sweep                                             *)
(* ===================================================================== *)

(** [ThreadPool::Offer]: the work item joins the queue. *)
Definition Offer (w : CancellationWork) (s : ImpalaServer) : ImpalaServer :=
  set_cancellation_thread_pool_ (λ q, q ++ [w]) s.

(** The loop of one pass of [ImpalaServer::ExpireQueries] over the ordered
    set [queries_by_timestamp_]. [passed] are the entries before the
    iterator [expiration_event], [rest] the entries from it on. An entry
    re-inserted during the pass lands before or after the iterator as the
    order of the set says. Every turn of the loop spends one unit of
    [fuel]; [None] means the fuel ran out. *)
Fixpoint ExpireQueries_loop (fuel : nat) (now : Z)
    (passed rest : list (Z * TUniqueId)) (s : ImpalaServer)
    : option ImpalaServer :=
  match rest with
  | [] => Some (set_queries_by_timestamp_ (λ _, passed) s)
  | expiration_event :: rest' =>
      (* the last-observed expiration time is still in the future *)
      if now <? expiration_event.1 then
        Some (set_queries_by_timestamp_ (λ _, passed ++ rest) s)
      else
        match fuel with
        | O => None
        | S fuel =>
            match GetQueryExecState expiration_event.2 s with
            | None =>
                (* Query was deleted some other way. *)
                ExpireQueries_loop fuel now passed rest' s
            | Some query_state =>
                let timeout_s :=
                  idle_timeout_s (FLAGS_idle_query_timeout flags)
                                 (query_timeout_s query_state) in
                let expiration :=
                  qes_last_active (body query_state) + timeout_s * 1000 in
                if now <? expiration then
                  if expiration =? expiration_event.1 then
                    Some (set_queries_by_timestamp_ (λ _, passed ++ rest) s)
                  else
                    (* Erase and re-insert with an updated expiration time. *)
                    let e := (expiration, expiration_event.2) in
                    match rest' with
                    | next :: _ =>
                        if expiration_ltb e next then
                          ExpireQueries_loop fuel now
                            (queue_insert e passed) rest' s
                        else
                          ExpireQueries_loop fuel now
                            passed (queue_insert e rest') s
                    | [] =>
                        ExpireQueries_loop fuel now
                          (queue_insert e passed) rest' s
                    end
                else if negb (qes_is_active (body query_state)) then
                  (* Otherwise time to expire this query *)
                  let err_msg :=
                    "Query " +:+ PrintId env expiration_event.2
                    +:+ " expired due to client inactivity (timeout is "
                    +:+ PrintTime env (timeout_s * 1000000000) +:+ ")" in
                  ExpireQueries_loop fuel now passed rest'
                    (Offer {| cw_query_id := expiration_event.2;
                              cw_cause := Status_of_msg err_msg;
                              cw_unregister := false |} s)
                else
                  (* Iterator is moved on in every other branch. *)
                  ExpireQueries_loop fuel now
                    (passed ++ [expiration_event]) rest' s
            end
        end
  end.

(** One pass of [ImpalaServer::ExpireQueries] at time [now]. *)
Definition ExpireQueries_pass (now : Z) (s : ImpalaServer)
    : option ImpalaServer :=
  ExpireQueries_loop (length (queries_by_timestamp_ s)) now []
                     (queries_by_timestamp_ s) s.

(* ===================================================================== *)
(** ** Membership reconciler                                              *)
(* ===================================================================== *)

(** [queries_to_cancel[*query_id].push_back(loc)] for every query of a
    failed backend. *)
Definition add_failed_host (loc : TNetworkAddress) (query_ids : gset TUniqueId)
    (queries_to_cancel : gmap TUniqueId (list TNetworkAddress))
    : gmap TUniqueId (list TNetworkAddress) :=
  set_fold (λ query_id m, <[query_id := default [] (m !! query_id) ++ [loc]]> m)
           queries_to_cancel query_ids.

(** The scan of [query_locations_] under [query_locations_lock_]: a backend
    absent from the membership fails all its queries, loses its cached
    connections and its entry. *)
Definition scan_query_locations (current_membership : gset TNetworkAddress)
    (s : ImpalaServer)
    : gmap TUniqueId (list TNetworkAddress) * ImpalaServer :=
  foldl (λ (acc : gmap TUniqueId (list TNetworkAddress) * ImpalaServer)
           (loc_entry : TNetworkAddress * gset TUniqueId),
           if bool_decide (loc_entry.1 ∈ current_membership) then acc
           else
             (add_failed_host loc_entry.1 loc_entry.2 acc.1,
              set_query_locations_ (delete loc_entry.1)
                (set_closed_connections (λ l, l ++ [loc_entry.1]) acc.2)))
        (∅, s) (map_to_list (query_locations_ s)).

(** The cause of a cancellation: the failed hosts, separated by ", ". *)
Definition cancellation_cause (failed_hosts : list TNetworkAddress) : Status :=
  Status_of_msg ("Cancelled due to unreachable impalad(s): "
                 +:+ join ", " (PrintAddr env <$> failed_hosts)).

(** The entries of the [std::map] [queries_to_cancel], in key order. *)
Definition cancellation_entries
    (queries_to_cancel : gmap TUniqueId (list TNetworkAddress))
    : list (TUniqueId * list TNetworkAddress) :=
  merge_sort cancellation_entry_le (map_to_list queries_to_cancel).

(** [known_backends_] after the additions and deletions of a delta. *)
Definition update_known_backends (delta : TTopicDelta) (s : ImpalaServer)
    : ImpalaServer :=
  let s := if is_delta delta then s else set_known_backends_ (λ _, ∅) s in
  (* Process membership additions. *)
  let s :=
    foldl (λ s item,
             match DeserializeBackendDescriptor env (ti_value item) with
             | None => s
             | Some address =>
                 set_known_backends_ (map_insert_new (ti_key item) address) s
             end)
          s (topic_entries delta) in
  (* Process membership deletions. *)
  foldl (λ s backend_id, set_known_backends_ (delete backend_id) s)
        s (topic_deletions delta).

(** The set of known backend network addresses. *)
Definition current_membership_of (s : ImpalaServer) : gset TNetworkAddress :=
  list_to_set ((map_to_list (known_backends_ s)).*2).

(** [ImpalaServer::MembershipCallback]. *)
Definition MembershipCallback (incoming_topic_deltas : gmap string TTopicDelta)
    (s : ImpalaServer) : ImpalaServer :=
  match incoming_topic_deltas !! IMPALA_MEMBERSHIP_TOPIC with
  | None => s
  | Some delta =>
      let s := update_known_backends delta s in
      let current_membership := current_membership_of s in
      let '(queries_to_cancel, s) :=
        scan_query_locations current_membership s in
      if MAX_CANCELLATION_QUEUE_SIZE
           <? Z.of_nat (length (cancellation_thread_pool_ s))
              + Z.of_nat (size queries_to_cancel)
      then
        (* Ignore the cancellations *)
        s
      else
        foldl (λ s cancellation_entry,
                 Offer {| cw_query_id := cancellation_entry.1;
                          cw_cause := cancellation_cause cancellation_entry.2;
                          cw_unregister := false |} s)
              s (cancellation_entries queries_to_cancel)
  end.

End Server.

Arguments Returns {QBody A} a s.
Arguments Exits {QBody A}.

(* ===================================================================== *)
(** ** Catalog update barrier                                             *)
(* ===================================================================== *)

Module Catalog.

Record CatalogUpdateInfo := {
  catalog_version : Z;
  catalog_topic_version : Z;
  catalog_service_id : TUniqueId
}.

(** What [catalog_version_lock_] guards. *)
Record CatalogState := {
  catalog_update_info_ : CatalogUpdateInfo;
  min_subscriber_catalog_topic_version_ : Z
}.

Record TCatalogUpdateResult := {
  version : Z;
  result_catalog_service_id : TUniqueId;
  updated_catalog_object : option string;    (* __isset + the object *)
  removed_catalog_object : option string
}.

Record TUpdateCatalogCacheRequest := {
  req_is_delta : bool;
  req_catalog_service_id : TUniqueId;
  updated_objects : list string;
  removed_objects : list string
}.

Section Barrier.

(** [Frontend::UpdateCatalogCache], an external collaborator. *)
Variable UpdateCatalogCache : TUpdateCatalogCacheRequest → Status.

(** The first wait loop. The thread holds the lock whenever it evaluates
    the loop condition: [cur] is the guarded state it sees now, [wakeups]
    are the states it will see each time
    [catalog_version_update_cv_.wait] returns. The result is the state at
    which the loop ended together with the wake-ups left, or [None] when
    the thread is still blocked after the last of them. *)
Fixpoint wait_processed_locally (min_req_catalog_version : Z)
    (catalog_service_id' : TUniqueId) (cur : CatalogState)
    (wakeups : list CatalogState) : option (CatalogState * list CatalogState) :=
  if (catalog_version (catalog_update_info_ cur) <? min_req_catalog_version)
     && bool_decide (catalog_service_id (catalog_update_info_ cur)
                     = catalog_service_id')
  then
    match wakeups with
    | [] => None
    | next :: wakeups' =>
        wait_processed_locally min_req_catalog_version catalog_service_id'
                               next wakeups'
    end
  else Some (cur, wakeups).

(** The second wait loop, for the propagation to all subscribers. *)
Fixpoint wait_all_subscribers (min_req_subscriber_topic_version : Z)
    (catalog_service_id' : TUniqueId) (cur : CatalogState)
    (wakeups : list CatalogState) : option (CatalogState * list CatalogState) :=
  if (min_subscriber_catalog_topic_version_ cur
        <? min_req_subscriber_topic_version)
     && bool_decide (catalog_service_id (catalog_update_info_ cur)
                     = catalog_service_id')
  then
    match wakeups with
    | [] => None
    | next :: wakeups' =>
        wait_all_subscribers min_req_subscriber_topic_version
                             catalog_service_id' next wakeups'
    end
  else Some (cur, wakeups).

(** [ImpalaServer::ProcessCatalogUpdateResult]. [None]: the call has not
    returned by the end of [wakeups]. *)
Definition ProcessCatalogUpdateResult
    (catalog_update_result : TCatalogUpdateResult)
    (wait_for_all_subscribers : bool)
    (cur : CatalogState) (wakeups : list CatalogState) : option Status :=
  if (bool_decide (is_Some (updated_catalog_object catalog_update_result))
      || bool_decide (is_Some (removed_catalog_object catalog_update_result)))
     && negb wait_for_all_subscribers
  then
    let update_req :=
      {| req_is_delta := true;
         req_catalog_service_id :=
           result_catalog_service_id catalog_update_result;
         updated_objects :=
           option_list (updated_catalog_object catalog_update_result);
         removed_objects :=
           option_list (removed_catalog_object catalog_update_result) |} in
    (* Apply the changes to the local catalog cache. *)
    Some (UpdateCatalogCache update_req)
  else
    let min_req_catalog_version := version catalog_update_result in
    let catalog_service_id' :=
      result_catalog_service_id catalog_update_result in
    (* Wait for the update to be processed locally. *)
    match wait_processed_locally min_req_catalog_version catalog_service_id'
                                 cur wakeups with
    | None => None
    | Some (cur, wakeups) =>
        if negb wait_for_all_subscribers then Some Status_OK
        else
          let min_req_subscriber_topic_version :=
            catalog_topic_version (catalog_update_info_ cur) in
          match wait_all_subscribers min_req_subscriber_topic_version
                                     catalog_service_id' cur wakeups with
          | None => None
          | Some _ => Some Status_OK
          end
    end.

End Barrier.

(** The condition under which the first wait ends at a guarded state. *)
Definition barrier_passed (r : TCatalogUpdateResult) (c : CatalogState) : Prop :=
  (version r ≤ catalog_version (catalog_update_info_ c)
   ∧ catalog_service_id (catalog_update_info_ c) = result_catalog_service_id r)
  ∨ catalog_service_id (catalog_update_info_ c) ≠ result_catalog_service_id r.

End Catalog.

(* ===================================================================== *)
(** ** Fragment executor service                                          *)
(* ===================================================================== *)

Module Fragments.

(** Address of a heap-allocated [FragmentExecState]. *)
Definition FragPtr : Type := nat.

Record TExecPlanFragmentParams := {
  has_output_sink : bool;              (* fragment.__isset.output_sink *)
  fragment_instance_id : TUniqueId;    (* fragment_instance_ctx.... *)
  plan_fragment : string
}.

(** The calls made on [FragmentExecState] objects, as they happen. *)
Inductive Event :=
  | PrepareCalled (o : FragPtr)
  | PrepareReturned (o : FragPtr) (status : Status)
  | CancelCalled (o : FragPtr)
  | ExecThreadStarted (o : FragPtr).

#[global] Instance Event_eq_dec : EqDecision Event.
Proof. solve_decision. Defined.

(** The backend side of the server. [objects] is the heap of
    [FragmentExecState]s, each with the parameters it was built from;
    [preparing] are the objects whose [Prepare()] is running, [prepared]
    those whose [Prepare()] returned OK in a thread that has not yet taken
    [fragment_exec_state_map_lock_]; [trace] lists the events, oldest
    first. *)
Record Backend := {
  fragment_exec_state_map_ : gmap TUniqueId FragPtr;
  objects : list TExecPlanFragmentParams;
  preparing : gset FragPtr;
  prepared : gset FragPtr;
  trace : list Event
}.

Definition initial_backend : Backend :=
  {| fragment_exec_state_map_ := ∅; objects := []; preparing := ∅;
     prepared := ∅; trace := [] |}.

Section Service.

(** [FragmentExecState::Prepare] and [FragmentExecState::Cancel] are
    defined in service/fragment-exec-state.cc; only their status matters
    here. [print_id] is [operator<<] on a [TUniqueId]. *)
Variable Prepare : TExecPlanFragmentParams → Status.
Variable Cancel : FragPtr → Status.
Variable print_id : TUniqueId → string.

(** [new FragmentExecState(...)] followed by the call of [Prepare()]. *)
Definition call_Prepare (exec_params : TExecPlanFragmentParams) (b : Backend)
    : FragPtr * Backend :=
  let exec_state := length (objects b) in
  (exec_state,
   {| fragment_exec_state_map_ := fragment_exec_state_map_ b;
      objects := objects b ++ [exec_params];
      preparing := {[exec_state]} ∪ preparing b;
      prepared := prepared b;
      trace := trace b ++ [PrepareCalled exec_state] |}).

(** The return of [Prepare()]. *)
Definition return_Prepare (exec_state : FragPtr)
    (exec_params : TExecPlanFragmentParams) (b : Backend) : Status * Backend :=
  let status := Prepare exec_params in
  (status,
   {| fragment_exec_state_map_ := fragment_exec_state_map_ b;
      objects := objects b;
      preparing := preparing b ∖ {[exec_state]};
      prepared := if ok status then {[exec_state]} ∪ prepared b
                  else prepared b;
      trace := trace b ++ [PrepareReturned exec_state status] |}).

(** Registration under [fragment_exec_state_map_lock_] and the start of
    the exec thread. *)
Definition register_exec_state (exec_state : FragPtr)
    (exec_params : TExecPlanFragmentParams) (b : Backend) : Backend :=
  {| fragment_exec_state_map_ :=
       map_insert_new (fragment_instance_id exec_params) exec_state
                      (fragment_exec_state_map_ b);
     objects := objects b;
     preparing := preparing b;
     prepared := prepared b ∖ {[exec_state]};
     trace := trace b ++ [ExecThreadStarted exec_state] |}.

(** [ImpalaServer::StartPlanFragmentExecution]. *)
Definition StartPlanFragmentExecution (exec_params : TExecPlanFragmentParams)
    (b : Backend) : Status * Backend :=
  if negb (has_output_sink exec_params) then
    (Status_of_msg "missing sink in plan fragment", b)
  else
    (* Call Prepare() now, before registering the exec state *)
    let '(exec_state, b) := call_Prepare exec_params b in
    let '(status, b) := return_Prepare exec_state exec_params b in
    if negb (ok status) then (status, b)
    else (Status_OK, register_exec_state exec_state exec_params b).

(** [ImpalaServer::ExecPlanFragment] *)
Definition ExecPlanFragment (params : TExecPlanFragmentParams) (b : Backend)
    : TStatus * Backend :=
  let '(status, b) := StartPlanFragmentExecution params b in
  (ToThrift status, b).

(** [ImpalaServer::GetFragmentExecState] *)
Definition GetFragmentExecState (fragment_instance_id' : TUniqueId)
    (b : Backend) : option FragPtr :=
  fragment_exec_state_map_ b !! fragment_instance_id'.

(** [ImpalaServer::CancelPlanFragment] *)
Definition CancelPlanFragment (fragment_instance_id' : TUniqueId)
    (b : Backend) : TStatus * Backend :=
  match GetFragmentExecState fragment_instance_id' b with
  | None =>
      (ToThrift (Status_of_code TStatusCode_INTERNAL_ERROR
                   ("unknown fragment id: " +:+ print_id fragment_instance_id')),
       b)
  | Some exec_state =>
      (* we only initiate cancellation here *)
      (ToThrift (Cancel exec_state),
       {| fragment_exec_state_map_ := fragment_exec_state_map_ b;
          objects := objects b;
          preparing := preparing b;
          prepared := prepared b;
          trace := trace b ++ [CancelCalled exec_state] |})
  end.

(** The end of [ImpalaServer::RunExecPlanFragment], after [Exec()]: the
    entry found under the object's instance id is erased. *)
Definition RunExecPlanFragment_done (exec_params : TExecPlanFragmentParams)
    (b : Backend) : Backend :=
  {| fragment_exec_state_map_ :=
       delete (fragment_instance_id exec_params) (fragment_exec_state_map_ b);
     objects := objects b;
     preparing := preparing b;
     prepared := prepared b;
     trace := trace b |}.

(** One atomic step of the service. The three parts of
    [StartPlanFragmentExecution] are steps of their own, so that the RPCs of
    other threads interleave with them. *)
Inductive step : Backend → Backend → Prop :=
  | step_call_Prepare b exec_params :
      has_output_sink exec_params = true →
      step b (call_Prepare exec_params b).2
  | step_return_Prepare b exec_state exec_params :
      exec_state ∈ preparing b →
      objects b !! exec_state = Some exec_params →
      step b (return_Prepare exec_state exec_params b).2
  | step_register b exec_state exec_params :
      exec_state ∈ prepared b →
      objects b !! exec_state = Some exec_params →
      step b (register_exec_state exec_state exec_params b)
  | step_cancel b fragment_instance_id' :
      step b (CancelPlanFragment fragment_instance_id' b).2
  | step_exec_done b exec_state exec_params :
      objects b !! exec_state = Some exec_params →
      step b (RunExecPlanFragment_done exec_params b).

(** The states the service can be in. *)
Definition reachable (b : Backend) : Prop := rtc step initial_backend b.

End Service.

(** Every [Cancel()] in a trace comes after the OK return of [Prepare()] on
    the same object. *)
Definition cancel_after_prepare (tr : list Event) : Prop :=
  ∀ (i : nat) (o : FragPtr), tr !! i = Some (CancelCalled o) →
    ∃ j : nat, (j < i)%nat ∧ tr !! j = Some (PrepareReturned o Status_OK).

(** What holds in every state of the service: the trace is in order, and
    an object that is registered or about to be registered has been
    prepared. *)
Definition service_invariant (b : Backend) : Prop :=
  cancel_after_prepare (trace b)
  ∧ (∀ fid o, fragment_exec_state_map_ b !! fid = Some o →
              PrepareReturned o Status_OK ∈ trace b)
  ∧ (∀ o, o ∈ prepared b → PrepareReturned o Status_OK ∈ trace b).

End Fragments.

(* ===================================================================== *)
(** ** Strings: the std::string and boost::algorithm calls of the file    *)
(* ===================================================================== *)

(** [std::string::npos], the largest [size_t]. *)
Definition npos : Z := 2 ^ 64 - 1.

Fixpoint find_from (c : ascii) (s : string) (i : Z) : Z :=
  match s with
  | EmptyString => npos
  | String d r => if Ascii.eqb d c then i else find_from c r (i + 1)
  end.

(** [s.find(c)] for a one-character needle: the first index, or [npos]. *)
Definition find (s : string) (c : ascii) : Z := find_from c s 0.

Fixpoint str_take (n : nat) (s : string) : string :=
  match n, s with
  | S n, String c r => String c (str_take n r)
  | _, _ => EmptyString
  end.

Fixpoint str_drop (n : nat) (s : string) : string :=
  match n, s with
  | S n, String _ r => str_drop n r
  | _, _ => s
  end.

(** [s.substr(pos, n)] and [s.substr(pos)] for [pos] within the string. *)
Definition substr (s : string) (pos n : Z) : string :=
  str_take (Z.to_nat n) (str_drop (Z.to_nat pos) s).

Definition substr_from (s : string) (pos : Z) : string :=
  str_drop (Z.to_nat pos) s.

(** [boost::is_any_of(set)] *)
Fixpoint is_any_of (set : string) (c : ascii) : bool :=
  match set with
  | EmptyString => false
  | String d r => Ascii.eqb c d || is_any_of r c
  end.

(** [boost::split(result, input, pred, token_compress_on)]: the pieces
    between separators, adjacent separators counting as one. [tok] is the
    piece being read, [prev_sep] tells that the previous character was a
    separator. A separator at either end leaves an empty piece there. *)
Fixpoint split_go (pred : ascii → bool) (tok : string) (prev_sep : bool)
    (input : string) : list string :=
  match input with
  | EmptyString => [tok]
  | String c r =>
      if pred c then
        if prev_sep then split_go pred EmptyString true r
        else tok :: split_go pred EmptyString true r
      else split_go pred (tok +:+ String c EmptyString) false r
  end.

Definition split (pred : ascii → bool) (input : string) : list string :=
  split_go pred EmptyString false input.

(** [std::isspace] in the C locale. *)
Definition is_space (c : ascii) : bool :=
  let n := nat_of_ascii c in
  Nat.eqb n 32 || (Nat.leb 9 n && Nat.leb n 13).

Fixpoint trim_left (s : string) : string :=
  match s with
  | EmptyString => EmptyString
  | String c r => if is_space c then trim_left r else s
  end.

Fixpoint trim_right (s : string) : string :=
  match s with
  | EmptyString => EmptyString
  | String c r =>
      match trim_right r with
      | EmptyString => if is_space c then EmptyString else String c EmptyString
      | r' => String c r'
      end
  end.

(** [boost::trim] *)
Definition trim (s : string) : string := trim_right (trim_left s).

(** [std::tolower] in the C locale. *)
Definition to_lower (c : ascii) : ascii :=
  let n := nat_of_ascii c in
  if Nat.leb 65 n && Nat.leb n 90 then ascii_of_nat (n + 32) else c.

(** [boost::iequals] *)
Fixpoint iequals (a b : string) : bool :=
  match a, b with
  | EmptyString, EmptyString => true
  | String x a', String y b' =>
      Ascii.eqb (to_lower x) (to_lower y) && iequals a' b'
  | _, _ => false
  end.

(** Every character of a string passes a test. *)
Fixpoint str_forallb (p : ascii → bool) (s : string) : bool :=
  match s with
  | EmptyString => true
  | String c r => p c && str_forallb p r
  end.

(* ===================================================================== *)
(** ** Proxy-user authorization                                           *)
(* ===================================================================== *)

Module Proxy.

(** [ProxyUserMap] *)
Abbreviation ProxyUserMap := (gmap string (gset string)).

(** One entry of [--authorized_proxy_user_config]; [None] is the [exit(1)]
    taken when the entry has no '='. *)
Definition parse_proxy_entry (config : string) (m : ProxyUserMap)
    : option ProxyUserMap :=
  let pos := find config "="%char in
  if pos =? npos then None
  else
    let proxy_user := substr config 0 pos in
    let config_str := substr_from config (pos + 1) in
    let parsed_allowed_users := split (is_any_of ",") config_str in
    let allowed_users : gset string := list_to_set parsed_allowed_users in
    Some (map_insert_new proxy_user allowed_users m).

(** The part of the constructor [ImpalaServer::ImpalaServer] that fills
    [authorized_proxy_user_config_] from the flag. *)
Definition parse_authorized_proxy_user_config
    (FLAGS_authorized_proxy_user_config : string) : option ProxyUserMap :=
  if bool_decide (FLAGS_authorized_proxy_user_config = "") then Some ∅
  else
    let proxy_user_config :=
      split (is_any_of ";") FLAGS_authorized_proxy_user_config in
    foldl (λ acc config, m ← acc; parse_proxy_entry config m)
          (Some ∅) proxy_user_config.

(** [ImpalaServer::AuthorizeProxyUser]. The second test repeats the first,
    as in the source. *)
Definition AuthorizeProxyUser (authorized_proxy_user_config_ : ProxyUserMap)
    (user do_as_user : string) : Status :=
  if bool_decide (user = "") then
    Status_of_msg "Unable to delegate using empty proxy username."
  else if bool_decide (user = "") then
    Status_of_msg "Unable to delegate using empty doAs username."
  else
    let error_msg :=
      "User '" +:+ user +:+ "' is not authorized to delegate to '"
      +:+ do_as_user +:+ "'." in
    if bool_decide (size authorized_proxy_user_config_ = 0%nat) then
      Status_of_msg (error_msg +:+ " User delegation is disabled.")
    else
      (* Get the short version of the user name *)
      let end_idx := Z.min (find user "/"%char) (find user "@"%char) in
      let short_user :=
        if (end_idx =? npos) || (end_idx =? 0) then user
        else substr user 0 end_idx in
      match authorized_proxy_user_config_ !! short_user with
      | Some allowed =>
          if bool_decide (Exists (λ u, u = "*" ∨ u = do_as_user)
                                 (elements allowed))
          then Status_OK
          else Status_of_msg error_msg
      | None => Status_of_msg error_msg
      end.

(** The short form of a principal in the words of the specification: the
    part before the first '/' or '@', the whole principal when there is
    none. *)
Fixpoint spec_short_form (user : string) : string :=
  match user with
  | EmptyString => EmptyString
  | String c r =>
      if Ascii.eqb c "/"%char || Ascii.eqb c "@"%char then EmptyString
      else String c (spec_short_form r)
  end.

(** The short form the code uses: a separator in first position does not
    cut the principal. *)
Definition short_form (user : string) : string :=
  match spec_short_form user with
  | EmptyString => user
  | p => p
  end.

(** A delegation the configuration allows. *)
Definition permitted (cfg : ProxyUserMap) (short do_as_user : string) : Prop :=
  ∃ allowed : gset string,
    cfg !! short = Some allowed ∧ (do_as_user ∈ allowed ∨ "*" ∈ allowed).

End Proxy.

(* ===================================================================== *)
(** ** Query options                                                      *)
(* ===================================================================== *)

Module Options.

(** [THdfsCompression]: the codecs [SetQueryOptions] can set. *)
Inductive THdfsCompression :=
  | THdfsCompression_NONE
  | THdfsCompression_DEFAULT
  | THdfsCompression_GZIP
  | THdfsCompression_BZIP2
  | THdfsCompression_SNAPPY
  | THdfsCompression_SNAPPY_BLOCKED.

#[global] Instance THdfsCompression_eq_dec : EqDecision THdfsCompression.
Proof. solve_decision. Defined.

Inductive TExplainLevel :=
  | TExplainLevel_MINIMAL
  | TExplainLevel_STANDARD
  | TExplainLevel_EXTENDED
  | TExplainLevel_VERBOSE.

#[global] Instance TExplainLevel_eq_dec : EqDecision TExplainLevel.
Proof. solve_decision. Defined.

(** The integer of an explain level: minimal=0, standard=1, extended=2,
    verbose=3. *)
Definition TExplainLevel_value (l : TExplainLevel) : Z :=
  match l with
  | TExplainLevel_MINIMAL => 0
  | TExplainLevel_STANDARD => 1
  | TExplainLevel_EXTENDED => 2
  | TExplainLevel_VERBOSE => 3
  end.

(** [TImpalaQueryOptions] (gen-cpp/ImpalaService_types.h), the options the
    two switches of the file enumerate. *)
Inductive TImpalaQueryOptions :=
  | ABORT_ON_ERROR
  | MAX_ERRORS
  | DISABLE_CODEGEN
  | BATCH_SIZE
  | MEM_LIMIT
  | NUM_NODES
  | MAX_SCAN_RANGE_LENGTH
  | MAX_IO_BUFFERS
  | NUM_SCANNER_THREADS
  | ALLOW_UNSUPPORTED_FORMATS
  | DEFAULT_ORDER_BY_LIMIT
  | DEBUG_ACTION
  | ABORT_ON_DEFAULT_LIMIT_EXCEEDED
  | COMPRESSION_CODEC
  | HBASE_CACHING
  | HBASE_CACHE_BLOCKS
  | PARQUET_FILE_SIZE
  | EXPLAIN_LEVEL
  | SYNC_DDL
  | REQUEST_POOL
  | V_CPU_CORES
  | RESERVATION_REQUEST_TIMEOUT
  | DISABLE_CACHED_READS
  | DISABLE_OUTERMOST_TOPN
  | RM_INITIAL_MEM
  | QUERY_TIMEOUT_S
  | MAX_BLOCK_MGR_MEMORY.

#[global] Instance TImpalaQueryOptions_eq_dec : EqDecision TImpalaQueryOptions.
Proof. solve_decision. Defined.

(** [_TImpalaQueryOptions_VALUES_TO_NAMES], in the order of the enum: each
    option is named by its enumerator. *)
Definition _TImpalaQueryOptions_VALUES_TO_NAMES
    : list (TImpalaQueryOptions * string) :=
  [(ABORT_ON_ERROR, "ABORT_ON_ERROR"); (MAX_ERRORS, "MAX_ERRORS");
   (DISABLE_CODEGEN, "DISABLE_CODEGEN"); (BATCH_SIZE, "BATCH_SIZE");
   (MEM_LIMIT, "MEM_LIMIT"); (NUM_NODES, "NUM_NODES");
   (MAX_SCAN_RANGE_LENGTH, "MAX_SCAN_RANGE_LENGTH");
   (MAX_IO_BUFFERS, "MAX_IO_BUFFERS");
   (NUM_SCANNER_THREADS, "NUM_SCANNER_THREADS");
   (ALLOW_UNSUPPORTED_FORMATS, "ALLOW_UNSUPPORTED_FORMATS");
   (DEFAULT_ORDER_BY_LIMIT, "DEFAULT_ORDER_BY_LIMIT");
   (DEBUG_ACTION, "DEBUG_ACTION");
   (ABORT_ON_DEFAULT_LIMIT_EXCEEDED, "ABORT_ON_DEFAULT_LIMIT_EXCEEDED");
   (COMPRESSION_CODEC, "COMPRESSION_CODEC");
   (HBASE_CACHING, "HBASE_CACHING");
   (HBASE_CACHE_BLOCKS, "HBASE_CACHE_BLOCKS");
   (PARQUET_FILE_SIZE, "PARQUET_FILE_SIZE");
   (EXPLAIN_LEVEL, "EXPLAIN_LEVEL"); (SYNC_DDL, "SYNC_DDL");
   (REQUEST_POOL, "REQUEST_POOL"); (V_CPU_CORES, "V_CPU_CORES");
   (RESERVATION_REQUEST_TIMEOUT, "RESERVATION_REQUEST_TIMEOUT");
   (DISABLE_CACHED_READS, "DISABLE_CACHED_READS");
   (DISABLE_OUTERMOST_TOPN, "DISABLE_OUTERMOST_TOPN");
   (RM_INITIAL_MEM, "RM_INITIAL_MEM");
   (QUERY_TIMEOUT_S, "QUERY_TIMEOUT_S");
   (MAX_BLOCK_MGR_MEMORY, "MAX_BLOCK_MGR_MEMORY")].

(** [TQueryOptions] (gen-cpp/ImpalaInternalService_types.h): one field per
    option. Integer fields are [Z]. *)
Record TQueryOptions := {
  abort_on_error : bool;
  max_errors : Z;
  disable_codegen : bool;
  batch_size : Z;
  mem_limit : Z;
  num_nodes : Z;
  max_scan_range_length : Z;
  max_io_buffers : Z;
  num_scanner_threads : Z;
  allow_unsupported_formats : bool;
  default_order_by_limit : Z;
  debug_action : string;
  abort_on_default_limit_exceeded : bool;
  compression_codec : THdfsCompression;
  hbase_caching : Z;
  hbase_cache_blocks : bool;
  parquet_file_size : Z;
  explain_level : TExplainLevel;
  sync_ddl : bool;
  request_pool : string;
  v_cpu_cores : Z;
  reservation_request_timeout : Z;
  disable_cached_reads : bool;
  disable_outermost_topn : bool;
  rm_initial_mem : Z;
  query_timeout_s : Z;
  max_block_mgr_memory : Z
}.

#[global] Instance TQueryOptions_eq_dec : EqDecision TQueryOptions.
Proof. solve_decision. Defined.

(** The [__set_...] member functions. *)
Definition set_abort_on_error (v : bool) (o : TQueryOptions) : TQueryOptions :=
  {| abort_on_error := v; max_errors := max_errors o;
     disable_codegen := disable_codegen o; batch_size := batch_size o;
     mem_limit := mem_limit o; num_nodes := num_nodes o;
     max_scan_range_length := max_scan_range_length o;
     max_io_buffers := max_io_buffers o;
     num_scanner_threads := num_scanner_threads o;
     allow_unsupported_formats := allow_unsupported_formats o;
     default_order_by_limit := default_order_by_limit o;
     debug_action := debug_action o;
     abort_on_default_limit_exceeded := abort_on_default_limit_exceeded o;
     compression_codec := compression_codec o;
     hbase_caching := hbase_caching o;
     hbase_cache_blocks := hbase_cache_blocks o;
     parquet_file_size := parquet_file_size o;
     explain_level := explain_level o; sync_ddl := sync_ddl o;
     request_pool := request_pool o; v_cpu_cores := v_cpu_cores o;
     reservation_request_timeout := reservation_request_timeout o;
     disable_cached_reads := disable_cached_reads o;
     disable_outermost_topn := disable_outermost_topn o;
     rm_initial_mem := rm_initial_mem o;
     query_timeout_s := query_timeout_s o;
     max_block_mgr_memory := max_block_mgr_memory o |}.

Definition set_max_errors (v : Z) (o : TQueryOptions) : TQueryOptions :=
  {| abort_on_error := abort_on_error o; max_errors := v;
     disable_codegen := disable_codegen o; batch_size := batch_size o;
     mem_limit := mem_limit o; num_nodes := num_nodes o;
     max_scan_range_length := max_scan_range_length o;
     max_io_buffers := max_io_buffers o;
     num_scanner_threads := num_scanner_threads o;
     allow_unsupported_formats := allow_unsupported_formats o;
     default_order_by_limit := default_order_by_limit o;
     debug_action := debug_action o;
     abort_on_default_limit_exceeded := abort_on_default_limit_exceeded o;
     compression_codec := compression_codec o;
     hbase_caching := hbase_caching o;
     hbase_cache_blocks := hbase_cache_blocks o;
     parquet_file_size := parquet_file_size o;
     explain_level := explain_level o; sync_ddl := sync_ddl o;
     request_pool := request_pool o; v_cpu_cores := v_cpu_cores o;
     reservation_request_timeout := reservation_request_timeout o;
     disable_cached_reads := disable_cached_reads o;
     disable_outermost_topn := disable_outermost_topn o;
     rm_initial_mem := rm_initial_mem o;
     query_timeout_s := query_timeout_s o;
     max_block_mgr_memory := max_block_mgr_memory o |}.

Definition set_disable_codegen (v : bool) (o : TQueryOptions) : TQueryOptions :=
  {| abort_on_error := abort_on_error o; max_errors := max_errors o;
     disable_codegen := v; batch_size := batch_size o;
     mem_limit := mem_limit o; num_nodes := num_nodes o;
     max_scan_range_length := max_scan_range_length o;
     max_io_buffers := max_io_buffers o;
     num_scanner_threads := num_scanner_threads o;
     allow_unsupported_formats := allow_unsupported_formats o;
     default_order_by_limit := default_order_by_limit o;
     debug_action := debug_action o;
     abort_on_default_limit_exceeded := abort_on_default_limit_exceeded o;
     compression_codec := compression_codec o;
     hbase_caching := hbase_caching o;
     hbase_cache_blocks := hbase_cache_blocks o;
     parquet_file_size := parquet_file_size o;
     explain_level := explain_level o; sync_ddl := sync_ddl o;
     request_pool := request_pool o; v_cpu_cores := v_cpu_cores o;
     reservation_request_timeout := reservation_request_timeout o;
     disable_cached_reads := disable_cached_reads o;
     disable_outermost_topn := disable_outermost_topn o;
     rm_initial_mem := rm_initial_mem o;
     query_timeout_s := query_timeout_s o;
     max_block_mgr_memory := max_block_mgr_memory o |}.

Definition set_batch_size (v : Z) (o : TQueryOptions) : TQueryOptions :=
  {| abort_on_error := abort_on_error o; max_errors := max_errors o;
     disable_codegen := disable_codegen o; batch_size := v;
     mem_limit := mem_limit o; num_nodes := num_nodes o;
     max_scan_range_length := max_scan_range_length o;
     max_io_buffers := max_io_buffers o;
     num_scanner_threads := num_scanner_threads o;
     allow_unsupported_formats := allow_unsupported_formats o;
     default_order_by_limit := default_order_by_limit o;
     debug_action := debug_action o;
     abort_on_default_limit_exceeded := abort_on_default_limit_exceeded o;
     compression_codec := compression_codec o;
     hbase_caching := hbase_caching o;
     hbase_cache_blocks := hbase_cache_blocks o;
     parquet_file_size := parquet_file_size o;
     explain_level := explain_level o; sync_ddl := sync_ddl o;
     request_pool := request_pool o; v_cpu_cores := v_cpu_cores o;
     reservation_request_timeout := reservation_request_timeout o;
     disable_cached_reads := disable_cached_reads o;
     disable_outermost_topn := disable_outermost_topn o;
     rm_initial_mem := rm_initial_mem o;
     query_timeout_s := query_timeout_s o;
     max_block_mgr_memory := max_block_mgr_memory o |}.

Definition set_mem_limit (v : Z) (o : TQueryOptions) : TQueryOptions :=
  {| abort_on_error := abort_on_error o; max_errors := max_errors o;
     disable_codegen := disable_codegen o; batch_size := batch_size o;
     mem_limit := v; num_nodes := num_nodes o;
     max_scan_range_length := max_scan_range_length o;
     max_io_buffers := max_io_buffers o;
     num_scanner_threads := num_scanner_threads o;
     allow_unsupported_formats := allow_unsupported_formats o;
     default_order_by_limit := default_order_by_limit o;
     debug_action := debug_action o;
     abort_on_default_limit_exceeded := abort_on_default_limit_exceeded o;
     compression_codec := compression_codec o;
     hbase_caching := hbase_caching o;
     hbase_cache_blocks := hbase_cache_blocks o;
     parquet_file_size := parquet_file_size o;
     explain_level := explain_level o; sync_ddl := sync_ddl o;
     request_pool := request_pool o; v_cpu_cores := v_cpu_cores o;
     reservation_request_timeout := reservation_request_timeout o;
     disable_cached_reads := disable_cached_reads o;
     disable_outermost_topn := disable_outermost_topn o;
     rm_initial_mem := rm_initial_mem o;
     query_timeout_s := query_timeout_s o;
     max_block_mgr_memory := max_block_mgr_memory o |}.

Definition set_num_nodes (v : Z) (o : TQueryOptions) : TQueryOptions :=
  {| abort_on_error := abort_on_error o; max_errors := max_errors o;
     disable_codegen := disable_codegen o; batch_size := batch_size o;
     mem_limit := mem_limit o; num_nodes := v;
     max_scan_range_length := max_scan_range_length o;
     max_io_buffers := max_io_buffers o;
     num_scanner_threads := num_scanner_threads o;
     allow_unsupported_formats := allow_unsupported_formats o;
     default_order_by_limit := default_order_by_limit o;
     debug_action := debug_action o;
     abort_on_default_limit_exceeded := abort_on_default_limit_exceeded o;
     compression_codec := compression_codec o;
     hbase_caching := hbase_caching o;
     hbase_cache_blocks := hbase_cache_blocks o;
     parquet_file_size := parquet_file_size o;
     explain_level := explain_level o; sync_ddl := sync_ddl o;
     request_pool := request_pool o; v_cpu_cores := v_cpu_cores o;
     reservation_request_timeout := reservation_request_timeout o;
     disable_cached_reads := disable_cached_reads o;
     disable_outermost_topn := disable_outermost_topn o;
     rm_initial_mem := rm_initial_mem o;
     query_timeout_s := query_timeout_s o;
     max_block_mgr_memory := max_block_mgr_memory o |}.

Definition set_max_scan_range_length (v : Z) (o : TQueryOptions) : TQueryOptions :=
  {| abort_on_error := abort_on_error o; max_errors := max_errors o;
     disable_codegen := disable_codegen o; batch_size := batch_size o;
     mem_limit := mem_limit o; num_nodes := num_nodes o;
     max_scan_range_length := v; max_io_buffers := max_io_buffers o;
     num_scanner_threads := num_scanner_threads o;
     allow_unsupported_formats := allow_unsupported_formats o;
     default_order_by_limit := default_order_by_limit o;
     debug_action := debug_action o;
     abort_on_default_limit_exceeded := abort_on_default_limit_exceeded o;
     compression_codec := compression_codec o;
     hbase_caching := hbase_caching o;
     hbase_cache_blocks := hbase_cache_blocks o;
     parquet_file_size := parquet_file_size o;
     explain_level := explain_level o; sync_ddl := sync_ddl o;
     request_pool := request_pool o; v_cpu_cores := v_cpu_cores o;
     reservation_request_timeout := reservation_request_timeout o;
     disable_cached_reads := disable_cached_reads o;
     disable_outermost_topn := disable_outermost_topn o;
     rm_initial_mem := rm_initial_mem o;
     query_timeout_s := query_timeout_s o;
     max_block_mgr_memory := max_block_mgr_memory o |}.

Definition set_max_io_buffers (v : Z) (o : TQueryOptions) : TQueryOptions :=
  {| abort_on_error := abort_on_error o; max_errors := max_errors o;
     disable_codegen := disable_codegen o; batch_size := batch_size o;
     mem_limit := mem_limit o; num_nodes := num_nodes o;
     max_scan_range_length := max_scan_range_length o; max_io_buffers := v;
     num_scanner_threads := num_scanner_threads o;
     allow_unsupported_formats := allow_unsupported_formats o;
     default_order_by_limit := default_order_by_limit o;
     debug_action := debug_action o;
     abort_on_default_limit_exceeded := abort_on_default_limit_exceeded o;
     compression_codec := compression_codec o;
     hbase_caching := hbase_caching o;
     hbase_cache_blocks := hbase_cache_blocks o;
     parquet_file_size := parquet_file_size o;
     explain_level := explain_level o; sync_ddl := sync_ddl o;
     request_pool := request_pool o; v_cpu_cores := v_cpu_cores o;
     reservation_request_timeout := reservation_request_timeout o;
     disable_cached_reads := disable_cached_reads o;
     disable_outermost_topn := disable_outermost_topn o;
     rm_initial_mem := rm_initial_mem o;
     query_timeout_s := query_timeout_s o;
     max_block_mgr_memory := max_block_mgr_memory o |}.

Definition set_num_scanner_threads (v : Z) (o : TQueryOptions) : TQueryOptions :=
  {| abort_on_error := abort_on_error o; max_errors := max_errors o;
     disable_codegen := disable_codegen o; batch_size := batch_size o;
     mem_limit := mem_limit o; num_nodes := num_nodes o;
     max_scan_range_length := max_scan_range_length o;
     max_io_buffers := max_io_buffers o; num_scanner_threads := v;
     allow_unsupported_formats := allow_unsupported_formats o;
     default_order_by_limit := default_order_by_limit o;
     debug_action := debug_action o;
     abort_on_default_limit_exceeded := abort_on_default_limit_exceeded o;
     compression_codec := compression_codec o;
     hbase_caching := hbase_caching o;
     hbase_cache_blocks := hbase_cache_blocks o;
     parquet_file_size := parquet_file_size o;
     explain_level := explain_level o; sync_ddl := sync_ddl o;
     request_pool := request_pool o; v_cpu_cores := v_cpu_cores o;
     reservation_request_timeout := reservation_request_timeout o;
     disable_cached_reads := disable_cached_reads o;
     disable_outermost_topn := disable_outermost_topn o;
     rm_initial_mem := rm_initial_mem o;
     query_timeout_s := query_timeout_s o;
     max_block_mgr_memory := max_block_mgr_memory o |}.

Definition set_allow_unsupported_formats (v : bool) (o : TQueryOptions) : TQueryOptions :=
  {| abort_on_error := abort_on_error o; max_errors := max_errors o;
     disable_codegen := disable_codegen o; batch_size := batch_size o;
     mem_limit := mem_limit o; num_nodes := num_nodes o;
     max_scan_range_length := max_scan_range_length o;
     max_io_buffers := max_io_buffers o;
     num_scanner_threads := num_scanner_threads o;
     allow_unsupported_formats := v;
     default_order_by_limit := default_order_by_limit o;
     debug_action := debug_action o;
     abort_on_default_limit_exceeded := abort_on_default_limit_exceeded o;
     compression_codec := compression_codec o;
     hbase_caching := hbase_caching o;
     hbase_cache_blocks := hbase_cache_blocks o;
     parquet_file_size := parquet_file_size o;
     explain_level := explain_level o; sync_ddl := sync_ddl o;
     request_pool := request_pool o; v_cpu_cores := v_cpu_cores o;
     reservation_request_timeout := reservation_request_timeout o;
     disable_cached_reads := disable_cached_reads o;
     disable_outermost_topn := disable_outermost_topn o;
     rm_initial_mem := rm_initial_mem o;
     query_timeout_s := query_timeout_s o;
     max_block_mgr_memory := max_block_mgr_memory o |}.

Definition set_default_order_by_limit (v : Z) (o : TQueryOptions) : TQueryOptions :=
  {| abort_on_error := abort_on_error o; max_errors := max_errors o;
     disable_codegen := disable_codegen o; batch_size := batch_size o;
     mem_limit := mem_limit o; num_nodes := num_nodes o;
     max_scan_range_length := max_scan_range_length o;
     max_io_buffers := max_io_buffers o;
     num_scanner_threads := num_scanner_threads o;
     allow_unsupported_formats := allow_unsupported_formats o;
     default_order_by_limit := v; debug_action := debug_action o;
     abort_on_default_limit_exceeded := abort_on_default_limit_exceeded o;
     compression_codec := compression_codec o;
     hbase_caching := hbase_caching o;
     hbase_cache_blocks := hbase_cache_blocks o;
     parquet_file_size := parquet_file_size o;
     explain_level := explain_level o; sync_ddl := sync_ddl o;
     request_pool := request_pool o; v_cpu_cores := v_cpu_cores o;
     reservation_request_timeout := reservation_request_timeout o;
     disable_cached_reads := disable_cached_reads o;
     disable_outermost_topn := disable_outermost_topn o;
     rm_initial_mem := rm_initial_mem o;
     query_timeout_s := query_timeout_s o;
     max_block_mgr_memory := max_block_mgr_memory o |}.

Definition set_debug_action (v : string) (o : TQueryOptions) : TQueryOptions :=
  {| abort_on_error := abort_on_error o; max_errors := max_errors o;
     disable_codegen := disable_codegen o; batch_size := batch_size o;
     mem_limit := mem_limit o; num_nodes := num_nodes o;
     max_scan_range_length := max_scan_range_length o;
     max_io_buffers := max_io_buffers o;
     num_scanner_threads := num_scanner_threads o;
     allow_unsupported_formats := allow_unsupported_formats o;
     default_order_by_limit := default_order_by_limit o; debug_action := v;
     abort_on_default_limit_exceeded := abort_on_default_limit_exceeded o;
     compression_codec := compression_codec o;
     hbase_caching := hbase_caching o;
     hbase_cache_blocks := hbase_cache_blocks o;
     parquet_file_size := parquet_file_size o;
     explain_level := explain_level o; sync_ddl := sync_ddl o;
     request_pool := request_pool o; v_cpu_cores := v_cpu_cores o;
     reservation_request_timeout := reservation_request_timeout o;
     disable_cached_reads := disable_cached_reads o;
     disable_outermost_topn := disable_outermost_topn o;
     rm_initial_mem := rm_initial_mem o;
     query_timeout_s := query_timeout_s o;
     max_block_mgr_memory := max_block_mgr_memory o |}.

Definition set_abort_on_default_limit_exceeded (v : bool) (o : TQueryOptions) : TQueryOptions :=
  {| abort_on_error := abort_on_error o; max_errors := max_errors o;
     disable_codegen := disable_codegen o; batch_size := batch_size o;
     mem_limit := mem_limit o; num_nodes := num_nodes o;
     max_scan_range_length := max_scan_range_length o;
     max_io_buffers := max_io_buffers o;
     num_scanner_threads := num_scanner_threads o;
     allow_unsupported_formats := allow_unsupported_formats o;
     default_order_by_limit := default_order_by_limit o;
     debug_action := debug_action o; abort_on_default_limit_exceeded := v;
     compression_codec := compression_codec o;
     hbase_caching := hbase_caching o;
     hbase_cache_blocks := hbase_cache_blocks o;
     parquet_file_size := parquet_file_size o;
     explain_level := explain_level o; sync_ddl := sync_ddl o;
     request_pool := request_pool o; v_cpu_cores := v_cpu_cores o;
     reservation_request_timeout := reservation_request_timeout o;
     disable_cached_reads := disable_cached_reads o;
     disable_outermost_topn := disable_outermost_topn o;
     rm_initial_mem := rm_initial_mem o;
     query_timeout_s := query_timeout_s o;
     max_block_mgr_memory := max_block_mgr_memory o |}.

Definition set_compression_codec (v : THdfsCompression) (o : TQueryOptions) : TQueryOptions :=
  {| abort_on_error := abort_on_error o; max_errors := max_errors o;
     disable_codegen := disable_codegen o; batch_size := batch_size o;
     mem_limit := mem_limit o; num_nodes := num_nodes o;
     max_scan_range_length := max_scan_range_length o;
     max_io_buffers := max_io_buffers o;
     num_scanner_threads := num_scanner_threads o;
     allow_unsupported_formats := allow_unsupported_formats o;
     default_order_by_limit := default_order_by_limit o;
     debug_action := debug_action o;
     abort_on_default_limit_exceeded := abort_on_default_limit_exceeded o;
     compression_codec := v; hbase_caching := hbase_caching o;
     hbase_cache_blocks := hbase_cache_blocks o;
     parquet_file_size := parquet_file_size o;
     explain_level := explain_level o; sync_ddl := sync_ddl o;
     request_pool := request_pool o; v_cpu_cores := v_cpu_cores o;
     reservation_request_timeout := reservation_request_timeout o;
     disable_cached_reads := disable_cached_reads o;
     disable_outermost_topn := disable_outermost_topn o;
     rm_initial_mem := rm_initial_mem o;
     query_timeout_s := query_timeout_s o;
     max_block_mgr_memory := max_block_mgr_memory o |}.

Definition set_hbase_caching (v : Z) (o : TQueryOptions) : TQueryOptions :=
  {| abort_on_error := abort_on_error o; max_errors := max_errors o;
     disable_codegen := disable_codegen o; batch_size := batch_size o;
     mem_limit := mem_limit o; num_nodes := num_nodes o;
     max_scan_range_length := max_scan_range_length o;
     max_io_buffers := max_io_buffers o;
     num_scanner_threads := num_scanner_threads o;
     allow_unsupported_formats := allow_unsupported_formats o;
     default_order_by_limit := default_order_by_limit o;
     debug_action := debug_action o;
     abort_on_default_limit_exceeded := abort_on_default_limit_exceeded o;
     compression_codec := compression_codec o; hbase_caching := v;
     hbase_cache_blocks := hbase_cache_blocks o;
     parquet_file_size := parquet_file_size o;
     explain_level := explain_level o; sync_ddl := sync_ddl o;
     request_pool := request_pool o; v_cpu_cores := v_cpu_cores o;
     reservation_request_timeout := reservation_request_timeout o;
     disable_cached_reads := disable_cached_reads o;
     disable_outermost_topn := disable_outermost_topn o;
     rm_initial_mem := rm_initial_mem o;
     query_timeout_s := query_timeout_s o;
     max_block_mgr_memory := max_block_mgr_memory o |}.

Definition set_hbase_cache_blocks (v : bool) (o : TQueryOptions) : TQueryOptions :=
  {| abort_on_error := abort_on_error o; max_errors := max_errors o;
     disable_codegen := disable_codegen o; batch_size := batch_size o;
     mem_limit := mem_limit o; num_nodes := num_nodes o;
     max_scan_range_length := max_scan_range_length o;
     max_io_buffers := max_io_buffers o;
     num_scanner_threads := num_scanner_threads o;
     allow_unsupported_formats := allow_unsupported_formats o;
     default_order_by_limit := default_order_by_limit o;
     debug_action := debug_action o;
     abort_on_default_limit_exceeded := abort_on_default_limit_exceeded o;
     compression_codec := compression_codec o;
     hbase_caching := hbase_caching o; hbase_cache_blocks := v;
     parquet_file_size := parquet_file_size o;
     explain_level := explain_level o; sync_ddl := sync_ddl o;
     request_pool := request_pool o; v_cpu_cores := v_cpu_cores o;
     reservation_request_timeout := reservation_request_timeout o;
     disable_cached_reads := disable_cached_reads o;
     disable_outermost_topn := disable_outermost_topn o;
     rm_initial_mem := rm_initial_mem o;
     query_timeout_s := query_timeout_s o;
     max_block_mgr_memory := max_block_mgr_memory o |}.

Definition set_parquet_file_size (v : Z) (o : TQueryOptions) : TQueryOptions :=
  {| abort_on_error := abort_on_error o; max_errors := max_errors o;
     disable_codegen := disable_codegen o; batch_size := batch_size o;
     mem_limit := mem_limit o; num_nodes := num_nodes o;
     max_scan_range_length := max_scan_range_length o;
     max_io_buffers := max_io_buffers o;
     num_scanner_threads := num_scanner_threads o;
     allow_unsupported_formats := allow_unsupported_formats o;
     default_order_by_limit := default_order_by_limit o;
     debug_action := debug_action o;
     abort_on_default_limit_exceeded := abort_on_default_limit_exceeded o;
     compression_codec := compression_codec o;
     hbase_caching := hbase_caching o;
     hbase_cache_blocks := hbase_cache_blocks o; parquet_file_size := v;
     explain_level := explain_level o; sync_ddl := sync_ddl o;
     request_pool := request_pool o; v_cpu_cores := v_cpu_cores o;
     reservation_request_timeout := reservation_request_timeout o;
     disable_cached_reads := disable_cached_reads o;
     disable_outermost_topn := disable_outermost_topn o;
     rm_initial_mem := rm_initial_mem o;
     query_timeout_s := query_timeout_s o;
     max_block_mgr_memory := max_block_mgr_memory o |}.

Definition set_explain_level (v : TExplainLevel) (o : TQueryOptions) : TQueryOptions :=
  {| abort_on_error := abort_on_error o; max_errors := max_errors o;
     disable_codegen := disable_codegen o; batch_size := batch_size o;
     mem_limit := mem_limit o; num_nodes := num_nodes o;
     max_scan_range_length := max_scan_range_length o;
     max_io_buffers := max_io_buffers o;
     num_scanner_threads := num_scanner_threads o;
     allow_unsupported_formats := allow_unsupported_formats o;
     default_order_by_limit := default_order_by_limit o;
     debug_action := debug_action o;
     abort_on_default_limit_exceeded := abort_on_default_limit_exceeded o;
     compression_codec := compression_codec o;
     hbase_caching := hbase_caching o;
     hbase_cache_blocks := hbase_cache_blocks o;
     parquet_file_size := parquet_file_size o; explain_level := v;
     sync_ddl := sync_ddl o; request_pool := request_pool o;
     v_cpu_cores := v_cpu_cores o;
     reservation_request_timeout := reservation_request_timeout o;
     disable_cached_reads := disable_cached_reads o;
     disable_outermost_topn := disable_outermost_topn o;
     rm_initial_mem := rm_initial_mem o;
     query_timeout_s := query_timeout_s o;
     max_block_mgr_memory := max_block_mgr_memory o |}.

Definition set_sync_ddl (v : bool) (o : TQueryOptions) : TQueryOptions :=
  {| abort_on_error := abort_on_error o; max_errors := max_errors o;
     disable_codegen := disable_codegen o; batch_size := batch_size o;
     mem_limit := mem_limit o; num_nodes := num_nodes o;
     max_scan_range_length := max_scan_range_length o;
     max_io_buffers := max_io_buffers o;
     num_scanner_threads := num_scanner_threads o;
     allow_unsupported_formats := allow_unsupported_formats o;
     default_order_by_limit := default_order_by_limit o;
     debug_action := debug_action o;
     abort_on_default_limit_exceeded := abort_on_default_limit_exceeded o;
     compression_codec := compression_codec o;
     hbase_caching := hbase_caching o;
     hbase_cache_blocks := hbase_cache_blocks o;
     parquet_file_size := parquet_file_size o;
     explain_level := explain_level o; sync_ddl := v;
     request_pool := request_pool o; v_cpu_cores := v_cpu_cores o;
     reservation_request_timeout := reservation_request_timeout o;
     disable_cached_reads := disable_cached_reads o;
     disable_outermost_topn := disable_outermost_topn o;
     rm_initial_mem := rm_initial_mem o;
     query_timeout_s := query_timeout_s o;
     max_block_mgr_memory := max_block_mgr_memory o |}.

Definition set_request_pool (v : string) (o : TQueryOptions) : TQueryOptions :=
  {| abort_on_error := abort_on_error o; max_errors := max_errors o;
     disable_codegen := disable_codegen o; batch_size := batch_size o;
     mem_limit := mem_limit o; num_nodes := num_nodes o;
     max_scan_range_length := max_scan_range_length o;
     max_io_buffers := max_io_buffers o;
     num_scanner_threads := num_scanner_threads o;
     allow_unsupported_formats := allow_unsupported_formats o;
     default_order_by_limit := default_order_by_limit o;
     debug_action := debug_action o;
     abort_on_default_limit_exceeded := abort_on_default_limit_exceeded o;
     compression_codec := compression_codec o;
     hbase_caching := hbase_caching o;
     hbase_cache_blocks := hbase_cache_blocks o;
     parquet_file_size := parquet_file_size o;
     explain_level := explain_level o; sync_ddl := sync_ddl o;
     request_pool := v; v_cpu_cores := v_cpu_cores o;
     reservation_request_timeout := reservation_request_timeout o;
     disable_cached_reads := disable_cached_reads o;
     disable_outermost_topn := disable_outermost_topn o;
     rm_initial_mem := rm_initial_mem o;
     query_timeout_s := query_timeout_s o;
     max_block_mgr_memory := max_block_mgr_memory o |}.

Definition set_v_cpu_cores (v : Z) (o : TQueryOptions) : TQueryOptions :=
  {| abort_on_error := abort_on_error o; max_errors := max_errors o;
     disable_codegen := disable_codegen o; batch_size := batch_size o;
     mem_limit := mem_limit o; num_nodes := num_nodes o;
     max_scan_range_length := max_scan_range_length o;
     max_io_buffers := max_io_buffers o;
     num_scanner_threads := num_scanner_threads o;
     allow_unsupported_formats := allow_unsupported_formats o;
     default_order_by_limit := default_order_by_limit o;
     debug_action := debug_action o;
     abort_on_default_limit_exceeded := abort_on_default_limit_exceeded o;
     compression_codec := compression_codec o;
     hbase_caching := hbase_caching o;
     hbase_cache_blocks := hbase_cache_blocks o;
     parquet_file_size := parquet_file_size o;
     explain_level := explain_level o; sync_ddl := sync_ddl o;
     request_pool := request_pool o; v_cpu_cores := v;
     reservation_request_timeout := reservation_request_timeout o;
     disable_cached_reads := disable_cached_reads o;
     disable_outermost_topn := disable_outermost_topn o;
     rm_initial_mem := rm_initial_mem o;
     query_timeout_s := query_timeout_s o;
     max_block_mgr_memory := max_block_mgr_memory o |}.

Definition set_reservation_request_timeout (v : Z) (o : TQueryOptions) : TQueryOptions :=
  {| abort_on_error := abort_on_error o; max_errors := max_errors o;
     disable_codegen := disable_codegen o; batch_size := batch_size o;
     mem_limit := mem_limit o; num_nodes := num_nodes o;
     max_scan_range_length := max_scan_range_length o;
     max_io_buffers := max_io_buffers o;
     num_scanner_threads := num_scanner_threads o;
     allow_unsupported_formats := allow_unsupported_formats o;
     default_order_by_limit := default_order_by_limit o;
     debug_action := debug_action o;
     abort_on_default_limit_exceeded := abort_on_default_limit_exceeded o;
     compression_codec := compression_codec o;
     hbase_caching := hbase_caching o;
     hbase_cache_blocks := hbase_cache_blocks o;
     parquet_file_size := parquet_file_size o;
     explain_level := explain_level o; sync_ddl := sync_ddl o;
     request_pool := request_pool o; v_cpu_cores := v_cpu_cores o;
     reservation_request_timeout := v;
     disable_cached_reads := disable_cached_reads o;
     disable_outermost_topn := disable_outermost_topn o;
     rm_initial_mem := rm_initial_mem o;
     query_timeout_s := query_timeout_s o;
     max_block_mgr_memory := max_block_mgr_memory o |}.

Definition set_disable_cached_reads (v : bool) (o : TQueryOptions) : TQueryOptions :=
  {| abort_on_error := abort_on_error o; max_errors := max_errors o;
     disable_codegen := disable_codegen o; batch_size := batch_size o;
     mem_limit := mem_limit o; num_nodes := num_nodes o;
     max_scan_range_length := max_scan_range_length o;
     max_io_buffers := max_io_buffers o;
     num_scanner_threads := num_scanner_threads o;
     allow_unsupported_formats := allow_unsupported_formats o;
     default_order_by_limit := default_order_by_limit o;
     debug_action := debug_action o;
     abort_on_default_limit_exceeded := abort_on_default_limit_exceeded o;
     compression_codec := compression_codec o;
     hbase_caching := hbase_caching o;
     hbase_cache_blocks := hbase_cache_blocks o;
     parquet_file_size := parquet_file_size o;
     explain_level := explain_level o; sync_ddl := sync_ddl o;
     request_pool := request_pool o; v_cpu_cores := v_cpu_cores o;
     reservation_request_timeout := reservation_request_timeout o;
     disable_cached_reads := v;
     disable_outermost_topn := disable_outermost_topn o;
     rm_initial_mem := rm_initial_mem o;
     query_timeout_s := query_timeout_s o;
     max_block_mgr_memory := max_block_mgr_memory o |}.

Definition set_disable_outermost_topn (v : bool) (o : TQueryOptions) : TQueryOptions :=
  {| abort_on_error := abort_on_error o; max_errors := max_errors o;
     disable_codegen := disable_codegen o; batch_size := batch_size o;
     mem_limit := mem_limit o; num_nodes := num_nodes o;
     max_scan_range_length := max_scan_range_length o;
     max_io_buffers := max_io_buffers o;
     num_scanner_threads := num_scanner_threads o;
     allow_unsupported_formats := allow_unsupported_formats o;
     default_order_by_limit := default_order_by_limit o;
     debug_action := debug_action o;
     abort_on_default_limit_exceeded := abort_on_default_limit_exceeded o;
     compression_codec := compression_codec o;
     hbase_caching := hbase_caching o;
     hbase_cache_blocks := hbase_cache_blocks o;
     parquet_file_size := parquet_file_size o;
     explain_level := explain_level o; sync_ddl := sync_ddl o;
     request_pool := request_pool o; v_cpu_cores := v_cpu_cores o;
     reservation_request_timeout := reservation_request_timeout o;
     disable_cached_reads := disable_cached_reads o;
     disable_outermost_topn := v; rm_initial_mem := rm_initial_mem o;
     query_timeout_s := query_timeout_s o;
     max_block_mgr_memory := max_block_mgr_memory o |}.

Definition set_rm_initial_mem (v : Z) (o : TQueryOptions) : TQueryOptions :=
  {| abort_on_error := abort_on_error o; max_errors := max_errors o;
     disable_codegen := disable_codegen o; batch_size := batch_size o;
     mem_limit := mem_limit o; num_nodes := num_nodes o;
     max_scan_range_length := max_scan_range_length o;
     max_io_buffers := max_io_buffers o;
     num_scanner_threads := num_scanner_threads o;
     allow_unsupported_formats := allow_unsupported_formats o;
     default_order_by_limit := default_order_by_limit o;
     debug_action := debug_action o;
     abort_on_default_limit_exceeded := abort_on_default_limit_exceeded o;
     compression_codec := compression_codec o;
     hbase_caching := hbase_caching o;
     hbase_cache_blocks := hbase_cache_blocks o;
     parquet_file_size := parquet_file_size o;
     explain_level := explain_level o; sync_ddl := sync_ddl o;
     request_pool := request_pool o; v_cpu_cores := v_cpu_cores o;
     reservation_request_timeout := reservation_request_timeout o;
     disable_cached_reads := disable_cached_reads o;
     disable_outermost_topn := disable_outermost_topn o;
     rm_initial_mem := v; query_timeout_s := query_timeout_s o;
     max_block_mgr_memory := max_block_mgr_memory o |}.

Definition set_query_timeout_s (v : Z) (o : TQueryOptions) : TQueryOptions :=
  {| abort_on_error := abort_on_error o; max_errors := max_errors o;
     disable_codegen := disable_codegen o; batch_size := batch_size o;
     mem_limit := mem_limit o; num_nodes := num_nodes o;
     max_scan_range_length := max_scan_range_length o;
     max_io_buffers := max_io_buffers o;
     num_scanner_threads := num_scanner_threads o;
     allow_unsupported_formats := allow_unsupported_formats o;
     default_order_by_limit := default_order_by_limit o;
     debug_action := debug_action o;
     abort_on_default_limit_exceeded := abort_on_default_limit_exceeded o;
     compression_codec := compression_codec o;
     hbase_caching := hbase_caching o;
     hbase_cache_blocks := hbase_cache_blocks o;
     parquet_file_size := parquet_file_size o;
     explain_level := explain_level o; sync_ddl := sync_ddl o;
     request_pool := request_pool o; v_cpu_cores := v_cpu_cores o;
     reservation_request_timeout := reservation_request_timeout o;
     disable_cached_reads := disable_cached_reads o;
     disable_outermost_topn := disable_outermost_topn o;
     rm_initial_mem := rm_initial_mem o; query_timeout_s := v;
     max_block_mgr_memory := max_block_mgr_memory o |}.

Definition set_max_block_mgr_memory (v : Z) (o : TQueryOptions) : TQueryOptions :=
  {| abort_on_error := abort_on_error o; max_errors := max_errors o;
     disable_codegen := disable_codegen o; batch_size := batch_size o;
     mem_limit := mem_limit o; num_nodes := num_nodes o;
     max_scan_range_length := max_scan_range_length o;
     max_io_buffers := max_io_buffers o;
     num_scanner_threads := num_scanner_threads o;
     allow_unsupported_formats := allow_unsupported_formats o;
     default_order_by_limit := default_order_by_limit o;
     debug_action := debug_action o;
     abort_on_default_limit_exceeded := abort_on_default_limit_exceeded o;
     compression_codec := compression_codec o;
     hbase_caching := hbase_caching o;
     hbase_cache_blocks := hbase_cache_blocks o;
     parquet_file_size := parquet_file_size o;
     explain_level := explain_level o; sync_ddl := sync_ddl o;
     request_pool := request_pool o; v_cpu_cores := v_cpu_cores o;
     reservation_request_timeout := reservation_request_timeout o;
     disable_cached_reads := disable_cached_reads o;
     disable_outermost_topn := disable_outermost_topn o;
     rm_initial_mem := rm_initial_mem o;
     query_timeout_s := query_timeout_s o; max_block_mgr_memory := v |}.

(** *** Reading and printing numbers *)

(** The decimal digits a string starts with. *)
Fixpoint read_uint (s : string) : Decimal.uint :=
  match s with
  | String "0" r => Decimal.D0 (read_uint r)
  | String "1" r => Decimal.D1 (read_uint r)
  | String "2" r => Decimal.D2 (read_uint r)
  | String "3" r => Decimal.D3 (read_uint r)
  | String "4" r => Decimal.D4 (read_uint r)
  | String "5" r => Decimal.D5 (read_uint r)
  | String "6" r => Decimal.D6 (read_uint r)
  | String "7" r => Decimal.D7 (read_uint r)
  | String "8" r => Decimal.D8 (read_uint r)
  | String "9" r => Decimal.D9 (read_uint r)
  | _ => Decimal.Nil
  end.

(** Saturation of [strtol] at the ends of [long]. *)
Definition clamp_int64 (z : Z) : Z :=
  Z.max (- 2 ^ 63) (Z.min (2 ^ 63 - 1) z).

(** Conversion of a [long] to [int]: the low 32 bits, two's complement. *)
Definition to_int32 (z : Z) : Z := (z + 2 ^ 31) mod 2 ^ 32 - 2 ^ 31.

(** [strtol(s, NULL, 10)]: white space, an optional sign, digits. *)
Definition strtol (s : string) : Z :=
  clamp_int64
    match trim_left s with
    | String "-" r => - Z.of_uint (read_uint r)
    | String "+" r => Z.of_uint (read_uint r)
    | t => Z.of_uint (read_uint t)
    end.

(** [atoi] and [atol] *)
Definition atoi (s : string) : Z := to_int32 (strtol s).
Definition atol (s : string) : Z := strtol s.

Fixpoint string_of_uint (d : Decimal.uint) : string :=
  match d with
  | Decimal.Nil => EmptyString
  | Decimal.D0 d => String "0" (string_of_uint d)
  | Decimal.D1 d => String "1" (string_of_uint d)
  | Decimal.D2 d => String "2" (string_of_uint d)
  | Decimal.D3 d => String "3" (string_of_uint d)
  | Decimal.D4 d => String "4" (string_of_uint d)
  | Decimal.D5 d => String "5" (string_of_uint d)
  | Decimal.D6 d => String "6" (string_of_uint d)
  | Decimal.D7 d => String "7" (string_of_uint d)
  | Decimal.D8 d => String "8" (string_of_uint d)
  | Decimal.D9 d => String "9" (string_of_uint d)
  end.

(** [os << n] for an integer: decimal, with '-' for a negative one. *)
Definition print_int (z : Z) : string :=
  match Z.to_int z with
  | Decimal.Pos d => string_of_uint d
  | Decimal.Neg d => String "-" (string_of_uint d)
  end.

(** [os << b] for a [bool], without [boolalpha]. *)
Definition print_bool (b : bool) : string := if b then "1" else "0".

(** Modelled from the spec: [operator<<] of [THdfsCompression::type]
    (util/debug-util.cc) is not among the sources; the codec is written by
    its name, one of none, gzip, bzip2, default, snappy, snappy_blocked,
    here in the upper case of the enumerators. *)
Definition print_compression (c : THdfsCompression) : string :=
  match c with
  | THdfsCompression_NONE => "NONE"
  | THdfsCompression_DEFAULT => "DEFAULT"
  | THdfsCompression_GZIP => "GZIP"
  | THdfsCompression_BZIP2 => "BZIP2"
  | THdfsCompression_SNAPPY => "SNAPPY"
  | THdfsCompression_SNAPPY_BLOCKED => "SNAPPY_BLOCKED"
  end.

(** [value.c_str()] handed to a [std::string]: the bytes before the first
    NUL. *)
Fixpoint c_str (s : string) : string :=
  match s with
  | EmptyString => EmptyString
  | String c r =>
      if Ascii.eqb c "000"%char then EmptyString else String c (c_str r)
  end.

(** [ImpalaServer::GetQueryOption]: the first option whose name equals the
    key up to case; [None] is the -1 of the source. *)
Fixpoint GetQueryOption_from (key : string)
    (names : list (TImpalaQueryOptions * string))
    : option TImpalaQueryOptions :=
  match names with
  | [] => None
  | itr :: rest =>
      if iequals key itr.2 then Some itr.1 else GetQueryOption_from key rest
  end.

Definition GetQueryOption (key : string) : option TImpalaQueryOptions :=
  GetQueryOption_from key _TImpalaQueryOptions_VALUES_TO_NAMES.

(** The value [TQueryOptionsToMap] streams into [val] for an option. *)
Definition option_value (option : TImpalaQueryOptions)
    (query_option : TQueryOptions) : string :=
  match option with
  | ABORT_ON_ERROR => print_bool (abort_on_error query_option)
  | MAX_ERRORS => print_int (max_errors query_option)
  | DISABLE_CODEGEN => print_bool (disable_codegen query_option)
  | BATCH_SIZE => print_int (batch_size query_option)
  | MEM_LIMIT => print_int (mem_limit query_option)
  | NUM_NODES => print_int (num_nodes query_option)
  | MAX_SCAN_RANGE_LENGTH => print_int (max_scan_range_length query_option)
  | MAX_IO_BUFFERS => print_int (max_io_buffers query_option)
  | NUM_SCANNER_THREADS => print_int (num_scanner_threads query_option)
  | ALLOW_UNSUPPORTED_FORMATS => print_bool (allow_unsupported_formats query_option)
  | DEFAULT_ORDER_BY_LIMIT => print_int (default_order_by_limit query_option)
  | DEBUG_ACTION => debug_action query_option
  | ABORT_ON_DEFAULT_LIMIT_EXCEEDED => print_bool (abort_on_default_limit_exceeded query_option)
  | COMPRESSION_CODEC => print_compression (compression_codec query_option)
  | HBASE_CACHING => print_int (hbase_caching query_option)
  | HBASE_CACHE_BLOCKS => print_bool (hbase_cache_blocks query_option)
  | PARQUET_FILE_SIZE => print_int (parquet_file_size query_option)
  | EXPLAIN_LEVEL => print_int (TExplainLevel_value (explain_level query_option))
  | SYNC_DDL => print_bool (sync_ddl query_option)
  | REQUEST_POOL => request_pool query_option
  | V_CPU_CORES => print_int (v_cpu_cores query_option)
  | RESERVATION_REQUEST_TIMEOUT => print_int (reservation_request_timeout query_option)
  | DISABLE_CACHED_READS => print_bool (disable_cached_reads query_option)
  | DISABLE_OUTERMOST_TOPN => print_bool (disable_outermost_topn query_option)
  | RM_INITIAL_MEM => print_int (rm_initial_mem query_option)
  | QUERY_TIMEOUT_S => print_int (query_timeout_s query_option)
  | MAX_BLOCK_MGR_MEMORY => print_int (max_block_mgr_memory query_option)
  end.

Section Parser.

(** [ParseUtil::ParseMemSpec] (util/parse-util.cc): the bytes and whether
    the value was a percentage. *)
Variable ParseMemSpec : string → Z * bool.

(** [ParseMemValue] *)
Definition ParseMemValue (value key : string) : Status * Z :=
  let '(result, is_percent) := ParseMemSpec value in
  if result <? 0 then
    (Status_of_msg ("Failed to parse " +:+ key +:+ " from '" +:+ value +:+ "'."),
     result)
  else if is_percent then
    (Status_of_msg ("Invalid " +:+ key +:+ " with percent '" +:+ value +:+ "'."),
     result)
  else (Status_OK, result).

(** [ImpalaServer::SetQueryOptions] *)
Definition SetQueryOptions (key value : string) (query_options : TQueryOptions)
    : Status * TQueryOptions :=
  match GetQueryOption key with
  | None =>
      (Status_of_msg ("Ignoring invalid configuration option: " +:+ key),
       query_options)
  | Some option =>
      match option with
      | ABORT_ON_ERROR =>
          (Status_OK,
           set_abort_on_error
             (iequals value "true" || iequals value "1") query_options)
      | MAX_ERRORS =>
          (Status_OK, set_max_errors (atoi value) query_options)
      | DISABLE_CODEGEN =>
          (Status_OK,
           set_disable_codegen
             (iequals value "true" || iequals value "1") query_options)
      | BATCH_SIZE =>
          (Status_OK, set_batch_size (atoi value) query_options)
      | MEM_LIMIT =>
          match ParseMemValue value "query memory limit" with
          | (Some err, _) => (Some err, query_options)
          | (None, bytes) => (Status_OK, set_mem_limit bytes query_options)
          end
      | NUM_NODES =>
          (Status_OK, set_num_nodes (atoi value) query_options)
      | MAX_SCAN_RANGE_LENGTH =>
          (Status_OK, set_max_scan_range_length (atol value) query_options)
      | MAX_IO_BUFFERS =>
          (Status_OK, set_max_io_buffers (atoi value) query_options)
      | NUM_SCANNER_THREADS =>
          (Status_OK, set_num_scanner_threads (atoi value) query_options)
      | ALLOW_UNSUPPORTED_FORMATS =>
          (Status_OK,
           set_allow_unsupported_formats
             (iequals value "true" || iequals value "1") query_options)
      | DEFAULT_ORDER_BY_LIMIT =>
          (Status_OK, set_default_order_by_limit (atoi value) query_options)
      | DEBUG_ACTION =>
          (Status_OK, set_debug_action (c_str value) query_options)
      | ABORT_ON_DEFAULT_LIMIT_EXCEEDED =>
          (Status_OK,
           set_abort_on_default_limit_exceeded
             (iequals value "true" || iequals value "1") query_options)
      | COMPRESSION_CODEC =>
          if bool_decide (value = "") then (Status_OK, query_options)
          else if iequals value "none" then
            (Status_OK, set_compression_codec THdfsCompression_NONE query_options)
          else if iequals value "gzip" then
            (Status_OK, set_compression_codec THdfsCompression_GZIP query_options)
          else if iequals value "bzip2" then
            (Status_OK, set_compression_codec THdfsCompression_BZIP2 query_options)
          else if iequals value "default" then
            (Status_OK, set_compression_codec THdfsCompression_DEFAULT query_options)
          else if iequals value "snappy" then
            (Status_OK, set_compression_codec THdfsCompression_SNAPPY query_options)
          else if iequals value "snappy_blocked" then
            (Status_OK, set_compression_codec THdfsCompression_SNAPPY_BLOCKED query_options)
          else
            (Status_of_msg ("Invalid compression codec: " +:+ value),
             query_options)
      | HBASE_CACHING =>
          (Status_OK, set_hbase_caching (atoi value) query_options)
      | HBASE_CACHE_BLOCKS =>
          (Status_OK,
           set_hbase_cache_blocks
             (iequals value "true" || iequals value "1") query_options)
      | PARQUET_FILE_SIZE =>
          match ParseMemValue value "parquet file size" with
          | (Some err, _) => (Some err, query_options)
          | (None, bytes) => (Status_OK, set_parquet_file_size bytes query_options)
          end
      | EXPLAIN_LEVEL =>
          if iequals value "minimal" || iequals value "0" then
            (Status_OK, set_explain_level TExplainLevel_MINIMAL query_options)
          else if iequals value "standard" || iequals value "1" then
            (Status_OK, set_explain_level TExplainLevel_STANDARD query_options)
          else if iequals value "extended" || iequals value "2" then
            (Status_OK, set_explain_level TExplainLevel_EXTENDED query_options)
          else if iequals value "verbose" || iequals value "3" then
            (Status_OK, set_explain_level TExplainLevel_VERBOSE query_options)
          else
            (Status_of_msg ("Invalid explain level: " +:+ value),
             query_options)
      | SYNC_DDL =>
          (Status_OK,
           set_sync_ddl
             (iequals value "true" || iequals value "1") query_options)
      | REQUEST_POOL =>
          (Status_OK, set_request_pool value query_options)
      | V_CPU_CORES =>
          (Status_OK, set_v_cpu_cores (atoi value) query_options)
      | RESERVATION_REQUEST_TIMEOUT =>
          (Status_OK, set_reservation_request_timeout (atoi value) query_options)
      | DISABLE_CACHED_READS =>
          (Status_OK,
           set_disable_cached_reads
             (iequals value "true" || iequals value "1") query_options)
      | DISABLE_OUTERMOST_TOPN =>
          (Status_OK,
           set_disable_outermost_topn
             (iequals value "true" || iequals value "1") query_options)
      | RM_INITIAL_MEM =>
          match ParseMemValue value "RM memory limit" with
          | (Some err, _) => (Some err, query_options)
          | (None, bytes) => (Status_OK, set_rm_initial_mem bytes query_options)
          end
      | QUERY_TIMEOUT_S =>
          (Status_OK, set_query_timeout_s (atoi value) query_options)
      | MAX_BLOCK_MGR_MEMORY =>
          match ParseMemValue value "block mgr memory limit" with
          | (Some err, _) => (Some err, query_options)
          | (None, bytes) => (Status_OK, set_max_block_mgr_memory bytes query_options)
          end
      end
  end.


(** The loop of [ParseQueryOptions] over the pieces of the option string. *)
Fixpoint parse_kv_pairs (kv_pairs : list string) (query_options : TQueryOptions)
    : Status * TQueryOptions :=
  match kv_pairs with
  | [] => (Status_OK, query_options)
  | kv_string :: rest =>
      let kv_string := trim kv_string in
      if bool_decide (kv_string = "") then parse_kv_pairs rest query_options
      else
        match split (is_any_of "=") kv_string with
        | [key; value] =>
            let '(status, query_options) :=
              SetQueryOptions key value query_options in
            if ok status then parse_kv_pairs rest query_options
            else (status, query_options)
        | _ =>
            (Status_of_msg ("Ignoring invalid configuration option "
                            +:+ kv_string
                            +:+ ": bad format (expected key=value)"),
             query_options)
        end
  end.

(** [ImpalaServer::ParseQueryOptions] *)
Definition ParseQueryOptions (options : string) (query_options : TQueryOptions)
    : Status * TQueryOptions :=
  if bool_decide (options = "") then (Status_OK, query_options)
  else parse_kv_pairs (split (is_any_of ",") options) query_options.

End Parser.

(** [ImpalaServer::TQueryOptionsToMap] *)
Definition TQueryOptionsToMap (query_option : TQueryOptions)
    (configuration : gmap string string) : gmap string string :=
  foldl (λ configuration itr,
           <[itr.2 := option_value itr.1 query_option]> configuration)
        configuration _TImpalaQueryOptions_VALUES_TO_NAMES.

(** Key order of [std::map<string, string>]. *)
Definition config_entry_le (a b : string * string) : Prop :=
  String.leb a.1 b.1 = true.

#[global] Instance config_entry_le_dec : RelDecision config_entry_le.
Proof. intros a b. unfold config_entry_le. apply _. Defined.

(** The entries of a configuration map in the order of iteration. *)
Definition config_entries (configuration : gmap string string)
    : list (string * string) :=
  merge_sort config_entry_le (map_to_list configuration).

(** Modelled from the spec: [ToString(opts)], the key=value pairs of
    [TQueryOptionsToMap] in the key order of the map, separated by ','. *)
Definition QueryOptionsToString (opts : TQueryOptions) : string :=
  join "," ((λ kv, kv.1 +:+ "=" +:+ kv.2)
              <$> config_entries (TQueryOptionsToMap opts ∅)).

(** *** The option values that survive a round trip *)

(** The characters of a printed number. *)
Definition is_number_char (c : ascii) : bool :=
  is_any_of "-0123456789" c.

Definition in_int32 (z : Z) : Prop := - 2 ^ 31 ≤ z < 2 ^ 31.
Definition in_int64 (z : Z) : Prop := - 2 ^ 63 ≤ z < 2 ^ 63.
Definition in_mem_range (z : Z) : Prop := 0 ≤ z < 2 ^ 63.

(** A key that can stand in a key=value list: not empty, free of ',' and
    '=', not starting with white space. *)
Definition key_ok (k : string) : bool :=
  negb (bool_decide (k = ""))
  && str_forallb (λ c, negb (is_any_of ",=" c)) k
  && bool_decide (trim_left k = k).

(** A string value that [ParseQueryOptions] reads back as it is: no ','
    and no '=' in it, no white space at its end. *)
Definition value_ok (v : string) : Prop :=
  str_forallb (λ c, negb (is_any_of ",=" c)) v = true ∧ trim_right v = v.

(** The query options whose integers fit the C type they are parsed into
    ([atoi] gives an [int], [atol] a [long]), whose memory sizes are
    non-negative and whose strings can stand in a key=value list. *)
Definition roundtrippable (o : TQueryOptions) : Prop :=
  in_int32 (max_errors o) ∧ in_int32 (batch_size o)
  ∧ in_mem_range (mem_limit o) ∧ in_int32 (num_nodes o)
  ∧ in_int64 (max_scan_range_length o) ∧ in_int32 (max_io_buffers o)
  ∧ in_int32 (num_scanner_threads o) ∧ in_int32 (default_order_by_limit o)
  ∧ value_ok (debug_action o) ∧ c_str (debug_action o) = debug_action o
  ∧ in_int32 (hbase_caching o) ∧ in_mem_range (parquet_file_size o)
  ∧ value_ok (request_pool o) ∧ in_int32 (v_cpu_cores o)
  ∧ in_int32 (reservation_request_timeout o)
  ∧ in_mem_range (rm_initial_mem o) ∧ in_int32 (query_timeout_s o)
  ∧ in_mem_range (max_block_mgr_memory o).

(** A [ParseMemSpec] that reads a plain byte count as itself. *)
Definition reads_byte_counts (ParseMemSpec : string → Z * bool) : Prop :=
  ∀ n, in_mem_range n → ParseMemSpec (print_int n) = (n, false).

(** A stand-in for [ParseUtil::ParseMemSpec] in the closed examples: a byte
    count without unit, never a percentage. *)
Definition ParseMemSpec_bytes (s : string) : Z * bool := (atol s, false).

(** Options for the closed examples. *)
Definition example_options : TQueryOptions :=
  {| abort_on_error := true; max_errors := -5; disable_codegen := false;
     batch_size := 1024; mem_limit := 1000; num_nodes := 0;
     max_scan_range_length := 12345678901; max_io_buffers := 0;
     num_scanner_threads := 3; allow_unsupported_formats := false;
     default_order_by_limit := -1; debug_action := "1:OPEN:WAIT";
     abort_on_default_limit_exceeded := false;
     compression_codec := THdfsCompression_SNAPPY; hbase_caching := 0;
     hbase_cache_blocks := true; parquet_file_size := 0;
     explain_level := TExplainLevel_EXTENDED; sync_ddl := false;
     request_pool := "pool a"; v_cpu_cores := 2;
     reservation_request_timeout := 300000; disable_cached_reads := false;
     disable_outermost_topn := false; rm_initial_mem := 0;
     query_timeout_s := 7; max_block_mgr_memory := 0 |}.

End Options.

(* ===================================================================== *)
(** ** A model of the query execution state                               *)
(* ===================================================================== *)

(** Modelled from the spec: the member functions of [QueryExecState]
    (service/query-exec-state.cc is not among the sources). The query status
    is "OK or first error"; [Cancel] "sets the query's status to the cause
    (first writer wins)"; "a query's first non-OK status is latched";
    [Done] is the terminal transition. [Exec] here always succeeds and
    starts no coordinator. The instance serves the closed examples; the
    theorems of the registry hold for every instance. *)
Record ModelBody := {
  mb_query_status : Status;
  mb_exec_request : TExecRequest;
  mb_events : list string;
  mb_info_strings : list (string * string);
  mb_done : bool;
  mb_last_active : Z
}.

Definition ModelBody_new (query_ctx : TQueryCtx) : ModelBody :=
  {| mb_query_status := Status_OK;
     mb_exec_request := {| stmt_type := TStmtType_QUERY;
                           result_set_metadata := None |};
     mb_events := []; mb_info_strings := []; mb_done := false;
     mb_last_active := 0 |}.

Definition ModelBody_set_status (st : Status) (b : ModelBody) : ModelBody :=
  {| mb_query_status := st; mb_exec_request := mb_exec_request b;
     mb_events := mb_events b; mb_info_strings := mb_info_strings b;
     mb_done := mb_done b; mb_last_active := mb_last_active b |}.

Definition ModelBody_latch (st : Status) (b : ModelBody) : ModelBody :=
  if ok (mb_query_status b) && negb (ok st) then ModelBody_set_status st b
  else b.

#[global] Instance ModelBody_ops : QueryExecStateOps ModelBody := {|
  qes_new := ModelBody_new;
  qes_MarkEvent := λ e b,
    {| mb_query_status := mb_query_status b;
       mb_exec_request := mb_exec_request b;
       mb_events := mb_events b ++ [e];
       mb_info_strings := mb_info_strings b;
       mb_done := mb_done b; mb_last_active := mb_last_active b |};
  qes_UpdateQueryStatus := λ st b, (st, ModelBody_latch st b);
  qes_set_result_metadata := λ _ b, b;
  qes_Exec := λ req b,
    (Status_OK,
     {| mb_query_status := mb_query_status b; mb_exec_request := req;
        mb_events := mb_events b; mb_info_strings := mb_info_strings b;
        mb_done := mb_done b; mb_last_active := mb_last_active b |});
  qes_Cancel := λ cause b,
    ModelBody_latch (default (Status_of_msg "Cancelled") cause) b;
  qes_Done := λ b,
    {| mb_query_status := mb_query_status b;
       mb_exec_request := mb_exec_request b;
       mb_events := mb_events b; mb_info_strings := mb_info_strings b;
       mb_done := true; mb_last_active := mb_last_active b |};
  qes_query_status := mb_query_status;
  qes_exec_request := mb_exec_request;
  qes_coord := λ _, None;
  qes_AddInfoString := λ k v b,
    {| mb_query_status := mb_query_status b;
       mb_exec_request := mb_exec_request b;
       mb_events := mb_events b;
       mb_info_strings := mb_info_strings b ++ [(k, v)];
       mb_done := mb_done b; mb_last_active := mb_last_active b |};
  qes_SerializeToArchiveString := λ _, "profile";
  qes_PrettyPrint := λ _, "profile";
  qes_last_active := mb_last_active;
  qes_is_active := λ _, false
|}.

(** Concrete values for the closed examples. *)
Definition example_flags (query_log_size idle_query_timeout : Z) : Flags :=
  {| FLAGS_query_log_size := query_log_size;
     FLAGS_log_query_to_file := false;
     FLAGS_idle_query_timeout := idle_query_timeout;
     FLAGS_idle_session_timeout := 0;
     FLAGS_audit_event_log_dir := "";
     FLAGS_abort_on_failed_audit_event := false |}.

Definition example_env (plan_status audit_status : Status) : ExecEnv :=
  {| frontend_GetExecRequest := λ _,
       (plan_status, {| stmt_type := TStmtType_QUERY;
                        result_set_metadata := None |});
     frontend_IsAuthorizationError := λ _, false;
     audit_AppendEntry := λ _, audit_status;
     PrintId := λ _, "id";
     PrintInt := λ _, "n";
     PrintTime := λ _, "t";
     TimestampDebugString := λ _, "ts";
     PrintAddr := hostname;
     DeserializeBackendDescriptor := λ v, Some {| hostname := v; port := 22000 |}
  |}.

(** Audit logging switched on, a failed write tolerated. *)
Definition example_flags_audit : Flags :=
  {| FLAGS_query_log_size := 25;
     FLAGS_log_query_to_file := false;
     FLAGS_idle_query_timeout := 0;
     FLAGS_idle_session_timeout := 0;
     FLAGS_audit_event_log_dir := "/var/log/impala/audit";
     FLAGS_abort_on_failed_audit_event := false |}.

Definition example_id (n : Z) : TUniqueId := {| hi := 0; lo := n |}.

Definition example_ctx : TQueryCtx :=
  {| ctx_query_id := example_id 0; ctx_sql_stmt := "select 1";
     ctx_query_timeout_s := 0 |}.

Definition example_query (n timeout_s : Z) : QueryExecState ModelBody :=
  {| query_id_of := example_id n; session := 1%positive;
     query_timeout_s := timeout_s;
     body := ModelBody_new {| ctx_query_id := example_id n;
                              ctx_sql_stmt := "select 1";
                              ctx_query_timeout_s := timeout_s |} |}.

Definition example_session (last_accessed : Z) : SessionState :=
  {| closed := false; expired := false; ref_count := 0;
     last_accessed_ms := last_accessed; inflight_queries := ∅;
     connected_user := "alice"; do_as_user := ""; database := "default" |}.

(** A server with one open session, registered under [example_id 100]. *)
Definition example_server (last_accessed : Z) : ImpalaServer (QBody := ModelBody) :=
  {| session_state_map_ := {[ example_id 100 := 1%positive ]};
     session_heap := {[ 1%positive := example_session last_accessed ]};
     query_exec_state_map_ := ∅; queries_by_timestamp_ := [];
     query_locations_ := ∅; query_log_ := []; query_log_index_ := ∅;
     profile_logger_ := []; audit_event_logger_ := [];
     cancellation_thread_pool_ := []; known_backends_ := ∅;
     closed_connections := []; is_offline_ := false |}.

(** The claim that a lookup at clock time [now] has refreshed
    [last_accessed_ms] of the session at [i]. *)
Definition refreshes_last_accessed {QBody} (now : Z)
    (s' : ImpalaServer (QBody := QBody)) (i : SessionPtr) : Prop :=
  ∃ ss, session_heap s' !! i = Some ss ∧ last_accessed_ms ss = now.

(** A cluster of three backends; query 1 runs on the first two, query 2 on
    the last two. *)
Definition example_backend (n : Z) : TNetworkAddress :=
  {| hostname := "b" +:+ Options.print_int n; port := 22000 |}.

Definition example_cluster : ImpalaServer (QBody := ModelBody) :=
  {| session_state_map_ := ∅; session_heap := ∅;
     query_exec_state_map_ := ∅; queries_by_timestamp_ := [];
     query_locations_ :=
       {[ example_backend 1 := {[ example_id 1 ]};
          example_backend 2 := {[ example_id 1; example_id 2 ]};
          example_backend 3 := {[ example_id 2 ]} ]};
     query_log_ := []; query_log_index_ := ∅;
     profile_logger_ := []; audit_event_logger_ := [];
     cancellation_thread_pool_ := [];
     known_backends_ :=
       {[ "b1" := example_backend 1; "b2" := example_backend 2;
          "b3" := example_backend 3 ]};
     closed_connections := []; is_offline_ := false |}.

(** The membership delta that drops the last two backends. *)
Definition example_deltas : gmap string TTopicDelta :=
  {[ IMPALA_MEMBERSHIP_TOPIC :=
       {| is_delta := true; topic_entries := [];
          topic_deletions := ["b2"; "b3"] |} ]}.

(** Guarded catalog states, for the barrier. *)
Definition example_catalog_state (v topic min_sub : Z) (sid : TUniqueId)
    : Catalog.CatalogState :=
  {| Catalog.catalog_update_info_ :=
       {| Catalog.catalog_version := v;
          Catalog.catalog_topic_version := topic;
          Catalog.catalog_service_id := sid |};
     Catalog.min_subscriber_catalog_topic_version_ := min_sub |}.

Definition example_update_result : Catalog.TCatalogUpdateResult :=
  {| Catalog.version := 5;
     Catalog.result_catalog_service_id := example_id 1;
     Catalog.updated_catalog_object := None;
     Catalog.removed_catalog_object := None |}.

(** A plan fragment with a sink. *)
Definition example_fragment (n : Z) : Fragments.TExecPlanFragmentParams :=
  {| Fragments.has_output_sink := true;
     Fragments.fragment_instance_id := example_id n;
     Fragments.plan_fragment := "scan" |}.

(** The entries of the expiration queue due at [now]. *)
Definition due (now : Z) (l : list (Z * TUniqueId)) : nat :=
  length (filter (λ e, e.1 ≤ now) l).

(** The failed hosts recorded for query [q] by a scan of the entries [l]
    of [query_locations_]. *)
Definition failed_hosts (cm : gset TNetworkAddress)
    (l : list (TNetworkAddress * gset TUniqueId)) (q : TUniqueId)
    : list TNetworkAddress :=
  (filter (λ e, (e.1 ∉ cm) ∧ (q ∈ e.2)) l).*1.

(** The capacity of the query log for a flag value [n] after [k]
    archivals: a negative flag never evicts. *)
Definition log_capacity (n : Z) (k : nat) : nat :=
  if n <? 0 then k else Z.to_nat n.


(* ===================================================================== *)
(** ** Further member functions of the server                             *)
(* ===================================================================== *)

(** [Status::Status(const TStatus&)]: the status code is not looked at, a
    [TStatus] without messages gives OK. *)
Definition Status_of_TStatus (status : TStatus) : Status :=
  if bool_decide (t_error_msgs status = []) then None
  else Some {| error_msgs := t_error_msgs status |}.

(** [Status::operator=(const TStatus&)]: the former detail is deleted, the
    new one depends on the status code alone. *)
Definition Status_assign_TStatus (status : TStatus) : Status :=
  if bool_decide (status_code status = TStatusCode_OK) then None
  else Some {| error_msgs := t_error_msgs status |}.

Section ServerCalls.

Context {QBody : Type} `{QueryExecStateOps QBody}.
Variable flags : Flags.
Variable env : ExecEnv.

#[local] Notation "'call' x , st ← o ; k" := (bindO o (fun x st => k))
  (at level 10, x name, st name, o at level 100, k at level 200,
   only parsing).

Definition set_session_state_map_
    (f : gmap TUniqueId SessionPtr → gmap TUniqueId SessionPtr)
    (s : ImpalaServer (QBody := QBody)) : ImpalaServer :=
  {| session_state_map_ := f (session_state_map_ s);
     session_heap := session_heap s;
     query_exec_state_map_ := query_exec_state_map_ s;
     queries_by_timestamp_ := queries_by_timestamp_ s;
     query_locations_ := query_locations_ s;
     query_log_ := query_log_ s;
     query_log_index_ := query_log_index_ s;
     profile_logger_ := profile_logger_ s;
     audit_event_logger_ := audit_event_logger_ s;
     cancellation_thread_pool_ := cancellation_thread_pool_ s;
     known_backends_ := known_backends_ s;
     closed_connections := closed_connections s;
     is_offline_ := is_offline_ s |}.

(** [ImpalaServer::SetOffline] *)
Definition SetOffline (is_offline : bool) (s : ImpalaServer (QBody := QBody))
    : ImpalaServer :=
  {| session_state_map_ := session_state_map_ s;
     session_heap := session_heap s;
     query_exec_state_map_ := query_exec_state_map_ s;
     queries_by_timestamp_ := queries_by_timestamp_ s;
     query_locations_ := query_locations_ s;
     query_log_ := query_log_ s;
     query_log_index_ := query_log_index_ s;
     profile_logger_ := profile_logger_ s;
     audit_event_logger_ := audit_event_logger_ s;
     cancellation_thread_pool_ := cancellation_thread_pool_ s;
     known_backends_ := known_backends_ s;
     closed_connections := closed_connections s;
     is_offline_ := is_offline |}.

(** [ImpalaServer::GetRuntimeProfileStr]. [output] is what the caller's
    stream holds before the call; the result carries what it holds
    afterwards. *)
Definition GetRuntimeProfileStr (query_id : TUniqueId) (base64_encoded : bool)
    (output : string) (s : ImpalaServer (QBody := QBody)) : Status * string :=
  (* Search for the query id in the active query map *)
  match query_exec_state_map_ s !! query_id with
  | Some exec_state =>
      (Status_OK,
       output +:+ (if base64_encoded
                   then qes_SerializeToArchiveString (body exec_state)
                   else qes_PrettyPrint (body exec_state)))
  | None =>
      (* The query was not found the active query map, search the query
         log. *)
      match query_log_index_ s !! query_id with
      | None =>
          (Status_of_msg ("Query id " +:+ PrintId env query_id
                          +:+ " not found."),
           output)
      | Some query_record =>
          (Status_OK,
           output +:+ (if base64_encoded
                       then encoded_profile_str query_record
                       else profile_str query_record))
      end
  end.

(** [ImpalaServer::GetExecSummary]: only the query log is searched.
    [result] is what [*result] held before the call. *)
Definition GetExecSummary (query_id : TUniqueId) (result : string)
    (s : ImpalaServer (QBody := QBody)) : Status * string :=
  match query_log_index_ s !! query_id with
  | None =>
      (Status_of_msg ("Query id " +:+ PrintId env query_id +:+ " not found."),
       result)
  | Some query_record => (Status_OK, rec_exec_summary query_record)
  end.

(** [ImpalaServer::GetSessionIdForQuery]: the session handle of the query
    stands for its [session_id()]. *)
Definition GetSessionIdForQuery (query_id : TUniqueId)
    (s : ImpalaServer (QBody := QBody)) : option SessionPtr :=
  match query_exec_state_map_ s !! query_id with
  | None => None
  | Some exec_state => Some (session exec_state)
  end.

(** [UnregisterQuery(query_id, &status)] for each id of a copied in-flight
    set; what the calls return is not looked at. *)
Fixpoint unregister_each (now : Z) (query_ids : list TUniqueId)
    (status : Status) (s : ImpalaServer (QBody := QBody)) : Outcome unit :=
  match query_ids with
  | [] => Returns () s
  | query_id :: rest =>
      call _, s ← UnregisterQuery flags env now query_id (Some status) s;
      unregister_each now rest status s
  end.

(** [ImpalaServer::CloseSessionInternal]. The session object is reached
    through the pointer found in the map; a [shared_ptr] always points at
    a live session, so the branch for a dangling pointer has no
    counterpart in the source. [DCHECK(!session_state->closed)] does
    nothing in a release build. The in-flight set is copied under the
    session lock and walked in the order of the copy. *)
Definition CloseSessionInternal (now : Z) (session_id : TUniqueId)
    (ignore_if_absent : bool) (s : ImpalaServer (QBody := QBody))
    : Outcome Status :=
  (* Find the session_state and remove it from the map. *)
  match session_state_map_ s !! session_id with
  | None =>
      if ignore_if_absent then Returns Status_OK s
      else Returns (Status_of_msg "Invalid session ID") s
  | Some session_state =>
      let s := set_session_state_map_ (delete session_id) s in
      match session_heap s !! session_state with
      | None => Returns (Status_of_msg "dangling session handle") s
      | Some ss =>
          let s := set_session_heap
                     (<[session_state := set_closed true ss]>) s in
          (* Since closed is true, no more queries will be added to the
             inflight list. *)
          let inflight_queries := elements (inflight_queries ss) in
          (* Unregister all open queries from this session. *)
          let status := Status_of_msg "Session closed" in
          call _, s ← unregister_each now inflight_queries status s;
          Returns Status_OK s
      end
  end.



(** [ImpalaServer::CancelFromThreadPool]: what a worker of the
    cancellation pool does with a work item. *)
Definition CancelFromThreadPool (now : Z)
    (cancellation_work : CancellationWork)
    (s : ImpalaServer (QBody := QBody)) : Outcome unit :=
  if cw_unregister cancellation_work then
    call _, s ← UnregisterQuery flags env now (cw_query_id cancellation_work)
                  (Some (cw_cause cancellation_work)) s;
    Returns () s
  else
    Returns () (CancelInternal (cw_query_id cancellation_work)
                               (Some (cw_cause cancellation_work)) s).2.

End ServerCalls.

(* ===================================================================== *)
(** ** Client connections                                                 *)
(* ===================================================================== *)

(** [ThriftServer::ConnectionContext] *)
Record ConnectionContext := {
  connection_id : TUniqueId;
  server_name : string;
  username : string;
  network_address : TNetworkAddress
}.

Definition BEESWAX_SERVER_NAME : string := "beeswax-frontend".
Definition HS2_SERVER_NAME : string := "hiveserver2-frontend".

(** [ConnectionToSessionMap] *)
Abbreviation ConnectionToSessionMap := (gmap TUniqueId (list TUniqueId)).

Section Connections.

Context {QBody : Type} `{QueryExecStateOps QBody}.
Variable flags : Flags.
Variable env : ExecEnv.

(** The fields a [SessionState] has when its constructor returns
    (impala-server.h); [ConnectionStart] assigns [closed],
    [last_accessed_ms], [database] and, for a named user,
    [connected_user]. *)
Variable new_SessionState : SessionState.

#[local] Notation "'call' x , st ← o ; k" := (bindO o (fun x st => k))
  (at level 10, x name, st name, o at level 100, k at level 200,
   only parsing).

(** [ImpalaServer::ConnectionStart]. [now] is [ms_since_epoch()]. The new
    session object takes an address of the heap not in use. A session id
    already in the registry keeps the session it has
    ([std::map::insert]); the id is listed for the connection either
    way. *)
Definition ConnectionStart (now : Z) (connection_context : ConnectionContext)
    (connection_to_sessions_map_ : ConnectionToSessionMap)
    (s : ImpalaServer (QBody := QBody))
    : ConnectionToSessionMap * ImpalaServer :=
  if bool_decide (server_name connection_context = BEESWAX_SERVER_NAME) then
    (* Beeswax only allows for one session per connection, so we can share
       the session ID with the connection ID *)
    let session_id := connection_id connection_context in
    let session_state : SessionPtr := fresh (dom (session_heap s)) in
    let ss :=
      {| closed := false;
         expired := expired new_SessionState;
         ref_count := ref_count new_SessionState;
         last_accessed_ms := now;
         inflight_queries := inflight_queries new_SessionState;
         (* If the username was set by a lower-level transport, use it. *)
         connected_user :=
           if negb (bool_decide (username connection_context = ""))
           then username connection_context
           else connected_user new_SessionState;
         do_as_user := do_as_user new_SessionState;
         database := "default" |} in
    let s := set_session_heap (<[session_state := ss]>) s in
    let s := set_session_state_map_
               (map_insert_new session_id session_state) s in
    (<[connection_id connection_context :=
         default [] (connection_to_sessions_map_
                       !! connection_id connection_context)
         ++ [session_id]]> connection_to_sessions_map_,
     s)
  else (connection_to_sessions_map_, s).

(** [CloseSessionInternal(session_id, true)] for each session of a
    connection; a status that is not OK is only logged. *)
Fixpoint close_each (now : Z) (session_ids : list TUniqueId)
    (s : ImpalaServer (QBody := QBody)) : Outcome unit :=
  match session_ids with
  | [] => Returns () s
  | session_id :: rest =>
      call _, s ← CloseSessionInternal flags env now session_id true s;
      close_each now rest s
  end.

(** [ImpalaServer::ConnectionEnd] *)
Definition ConnectionEnd (now : Z) (connection_context : ConnectionContext)
    (connection_to_sessions_map_ : ConnectionToSessionMap)
    (s : ImpalaServer (QBody := QBody)) : Outcome ConnectionToSessionMap :=
  match connection_to_sessions_map_ !! connection_id connection_context with
  | None =>
      (* Not every connection must have an associated session *)
      Returns connection_to_sessions_map_ s
  | Some sessions =>
      call _, s ← close_each now sessions s;
      Returns (delete (connection_id connection_context)
                      connection_to_sessions_map_) s
  end.

End Connections.

(* ===================================================================== *)
(** ** Catalog topic updates                                              *)
(* ===================================================================== *)

Module CatalogCallback.

(** [CatalogServer::IMPALA_CATALOG_TOPIC] (catalog/catalog-server.cc) *)
Definition IMPALA_CATALOG_TOPIC : string := "catalog-update".

(** [TCatalogObjectType] (gen-cpp/CatalogObjects_types.h) *)
Inductive TCatalogObjectType :=
  | UNKNOWN | CATALOG | DATABASE | TABLE | VIEW | FUNCTION | DATA_SOURCE.

#[global] Instance TCatalogObjectType_eq_dec : EqDecision TCatalogObjectType.
Proof. solve_decision. Defined.

(** What the callback reads of a [TCatalogObject]. *)
Record TCatalogObject := {
  co_type : TCatalogObjectType;
  co_catalog_version : Z;
  co_catalog_service_id : TUniqueId;       (* catalog.catalog_service_id *)
  co_fn_hdfs_location : string;            (* fn.hdfs_location *)
  co_data_source_hdfs_location : string    (* data_source.hdfs_location *)
}.

(** A [TTopicDelta] with the version fields the catalog callback reads. *)
Record TCatalogTopicDelta := {
  cd_is_delta : bool;
  cd_topic_entries : list TTopicItem;
  cd_topic_deletions : list string;
  cd_to_version : Z;
  cd_min_subscriber_topic_version : Z
}.

(** [TUpdateCatalogCacheRequest] as the callback fills it;
    [cr_catalog_service_id] is [None] while the field is not set. *)
Record TCatalogCacheRequest := {
  cr_is_delta : bool;
  cr_catalog_service_id : option TUniqueId;
  cr_updated_objects : list TCatalogObject;
  cr_removed_objects : list TCatalogObject
}.

(** The calls made on [LibCache::instance()]. *)
Inductive LibCacheCall :=
  | SetNeedsRefresh (hdfs_location : string)
  | RemoveEntry (hdfs_location : string)
  | DropCache.

(** What a call of [CatalogUpdateCallback] leaves behind: the state that
    [catalog_version_lock_] guards, the calls made on the library cache,
    the topic updates pushed to [subscriber_topic_updates] (topic name and
    [from_version]), the value given to the metric [CATALOG_READY] if any,
    and whether the waiters were notified. *)
Record CallbackResult := {
  guarded : Catalog.CatalogState;
  lib_cache : list LibCacheCall;
  subscriber_topic_updates : list (string * Z);
  catalog_ready : option bool;
  notified : bool
}.

Section Callback.

(** [DeserializeThriftMsg] of a topic item, [TCatalogObjectFromEntryKey]
    (catalog/catalog-util.cc), [Frontend::GetCatalogObject] and
    [Frontend::UpdateCatalogCache], which gives the status and
    [resp.catalog_service_id]. [None] is a status that is not OK. *)
Variable DeserializeCatalogObject : string → option TCatalogObject.
Variable TCatalogObjectFromEntryKey : string → option TCatalogObject.
Variable GetCatalogObject : TCatalogObject → option TCatalogObject.
Variable UpdateCatalogCache : TCatalogCacheRequest → Status * TUniqueId.

(** The loop over the entries of the delta: the service id and the
    version of the last CATALOG object, the library cache calls, the
    objects of the request. *)
Fixpoint process_updates (entries : list TTopicItem)
    (service_id : option TUniqueId) (new_catalog_version : Z)
    (calls : list LibCacheCall) (updated : list TCatalogObject)
    : option TUniqueId * Z * list LibCacheCall * list TCatalogObject :=
  match entries with
  | [] => (service_id, new_catalog_version, calls, updated)
  | item :: rest =>
      match DeserializeCatalogObject (ti_value item) with
      | None => process_updates rest service_id new_catalog_version
                                calls updated
      | Some catalog_object =>
          let '(service_id, new_catalog_version) :=
            if bool_decide (co_type catalog_object = CATALOG)
            then (Some (co_catalog_service_id catalog_object),
                  co_catalog_version catalog_object)
            else (service_id, new_catalog_version) in
          (* Refresh the lib cache entries of any added functions and data
             sources *)
          let calls :=
            if bool_decide (co_type catalog_object = FUNCTION)
            then calls ++ [SetNeedsRefresh (co_fn_hdfs_location catalog_object)]
            else calls in
          let calls :=
            if bool_decide (co_type catalog_object = DATA_SOURCE)
            then calls ++ [SetNeedsRefresh
                             (co_data_source_hdfs_location catalog_object)]
            else calls in
          process_updates rest service_id new_catalog_version calls
                          (updated ++ [catalog_object])
      end
  end.

(** The loop over the deletions: the objects to remove, and the dropped
    functions and data sources the front end still knows at a version not
    above the new one. *)
Fixpoint process_deletions (deletions : list string) (new_catalog_version : Z)
    (removed dropped_objects : list TCatalogObject)
    : list TCatalogObject * list TCatalogObject :=
  match deletions with
  | [] => (removed, dropped_objects)
  | key :: rest =>
      match TCatalogObjectFromEntryKey key with
      | None => process_deletions rest new_catalog_version removed
                                  dropped_objects
      | Some catalog_object =>
          let removed := removed ++ [catalog_object] in
          let dropped_objects :=
            if bool_decide (co_type catalog_object = FUNCTION)
               || bool_decide (co_type catalog_object = DATA_SOURCE)
            then
              match GetCatalogObject catalog_object with
              | Some dropped_object =>
                  if co_catalog_version dropped_object
                     <=? new_catalog_version
                  then dropped_objects ++ [dropped_object]
                  else dropped_objects
              | None => dropped_objects      (* Nothing to do in error case. *)
              end
            else dropped_objects in
          process_deletions rest new_catalog_version removed dropped_objects
      end
  end.

(** Remove all dropped objects from the library cache. *)
Definition remove_dropped (dropped_objects : list TCatalogObject)
    : list LibCacheCall :=
  omap (λ object,
          if bool_decide (co_type object = FUNCTION)
          then Some (RemoveEntry (co_fn_hdfs_location object))
          else if bool_decide (co_type object = DATA_SOURCE)
          then Some (RemoveEntry (co_data_source_hdfs_location object))
          else None)
       dropped_objects.

(** [ImpalaServer::CatalogUpdateCallback]. [cur] is the guarded state when
    the callback starts. *)
Definition CatalogUpdateCallback
    (incoming_topic_deltas : gmap string TCatalogTopicDelta)
    (cur : Catalog.CatalogState) : CallbackResult :=
  match incoming_topic_deltas !! IMPALA_CATALOG_TOPIC with
  | None =>
      {| guarded := cur; lib_cache := []; subscriber_topic_updates := [];
         catalog_ready := None; notified := false |}
  | Some delta =>
      let after_update :=
        (* Process any updates *)
        if negb (bool_decide (cd_topic_entries delta = []))
           || negb (bool_decide (cd_topic_deletions delta = []))
        then
          let '(service_id, new_catalog_version, calls, updated) :=
            process_updates (cd_topic_entries delta) None
              (Catalog.catalog_version (Catalog.catalog_update_info_ cur))
              [] [] in
          let '(removed, dropped_objects) :=
            process_deletions (cd_topic_deletions delta) new_catalog_version
                              [] [] in
          let update_req :=
            {| cr_is_delta := cd_is_delta delta;
               cr_catalog_service_id := service_id;
               cr_updated_objects := updated;
               cr_removed_objects := removed |} in
          (* Call the FE to apply the changes to the Impalad Catalog. *)
          let '(s, resp_catalog_service_id) :=
            UpdateCatalogCache update_req in
          if negb (ok s) then
            {| guarded := cur;
               lib_cache := calls ++ [DropCache];
               subscriber_topic_updates := [(IMPALA_CATALOG_TOPIC, 0)];
               catalog_ready := Some false;
               notified := false |}
          else
            {| guarded :=
                 {| Catalog.catalog_update_info_ :=
                      {| Catalog.catalog_version := new_catalog_version;
                         Catalog.catalog_topic_version := cd_to_version delta;
                         Catalog.catalog_service_id :=
                           resp_catalog_service_id |};
                    Catalog.min_subscriber_catalog_topic_version_ :=
                      Catalog.min_subscriber_catalog_topic_version_ cur |};
               lib_cache := calls ++ remove_dropped dropped_objects;
               subscriber_topic_updates := [];
               catalog_ready := Some (0 <? new_catalog_version);
               notified := false |}
        else
          {| guarded := cur; lib_cache := []; subscriber_topic_updates := [];
             catalog_ready := None; notified := false |} in
      (* Always update the minimum subscriber version for the catalog
         topic. *)
      {| guarded :=
           {| Catalog.catalog_update_info_ :=
                Catalog.catalog_update_info_ (guarded after_update);
              Catalog.min_subscriber_catalog_topic_version_ :=
                cd_min_subscriber_topic_version delta |};
         lib_cache := lib_cache after_update;
         subscriber_topic_updates := subscriber_topic_updates after_update;
         catalog_ready := catalog_ready after_update;
         notified := true |}
  end.

End Callback.

End CatalogCallback.

(* ===================================================================== *)
(** ** The default configuration of the server                            *)
(* ===================================================================== *)

Module DefaultOptions.
Import Options.

Section Init.

Variable ParseMemSpec : string → Z * bool.

(** [ImpalaServer::InitializeConfigVariables]. [default_query_options_]
    and [default_configs_] are the members as they stand before the call;
    [None] is the [exit(1)] taken when the flag does not parse. *)
Definition InitializeConfigVariables (FLAGS_default_query_options : string)
    (default_query_options_ : TQueryOptions)
    (default_configs_ : list (string * string))
    : option (TQueryOptions * list (string * string)) :=
  let '(status, default_query_options_) :=
    ParseQueryOptions ParseMemSpec FLAGS_default_query_options
                      default_query_options_ in
  if negb (ok status) then None
  else
    let string_map := TQueryOptionsToMap default_query_options_ ∅ in
    let default_configs_ :=
      foldl (λ configs itr, configs ++ [(itr.1, itr.2)])
            default_configs_ (config_entries string_map) in
    Some (default_query_options_,
          default_configs_ ++ [("support_start_over", "false")]).

End Init.

End DefaultOptions.

(* ===================================================================== *)
(** ** Detection of node-manager failures                                 *)
(* ===================================================================== *)

(** [boost::split(result, input, pred)] with [token_compress_off], the
    default: every separator ends a piece. *)
Fixpoint split_all_go (pred : ascii → bool) (tok : string) (input : string)
    : list string :=
  match input with
  | EmptyString => [tok]
  | String c r =>
      if pred c then tok :: split_all_go pred EmptyString r
      else split_all_go pred (tok +:+ String c EmptyString) r
  end.

Definition split_all (pred : ascii → bool) (input : string) : list string :=
  split_all_go pred EmptyString input.

(** [boost::istarts_with] *)
Fixpoint istarts_with (input test : string) {struct test} : bool :=
  match test with
  | EmptyString => true
  | String t test' =>
      match input with
      | EmptyString => false
      | String c input' =>
          Ascii.eqb (to_lower c) (to_lower t) && istarts_with input' test'
      end
  end.

Definition MAX_NM_MISSED_HEARTBEATS : Z := 5.

(** [MakeNetworkAddress(hostname, port)] (util/network-util.cc) *)
Definition MakeNetworkAddress (hostname' : string) (port' : Z)
    : TNetworkAddress :=
  {| hostname := hostname'; port := port' |}.

(** What one round of the detection loop finds when it opens a socket to
    the node manager. *)
Inductive Probe :=
  | SocketFailed      (* socket() < 0 *)
  | ConnectFailed     (* connect() < 0 *)
  | Connected.

(** The first part of [ImpalaServer::DetectNmFailures]: the flag without
    its http(s):// prefix, as it is written back to
    [FLAGS_local_nodemanager_url], the address made of its first two
    pieces, and the second piece. [None] stands for the two returns taken
    before an address is made. *)
Definition nm_addr_of (FLAGS_local_nodemanager_url : string)
    : option (string * TNetworkAddress * string) :=
  if bool_decide (FLAGS_local_nodemanager_url = "") then None
  else
    let FLAGS_local_nodemanager_url :=
      if istarts_with FLAGS_local_nodemanager_url "http://" then
        substr_from FLAGS_local_nodemanager_url
                    (Z.of_nat (String.length "http://"))
      else if istarts_with FLAGS_local_nodemanager_url "https://" then
        substr_from FLAGS_local_nodemanager_url
                    (Z.of_nat (String.length "https://"))
      else FLAGS_local_nodemanager_url in
    match split_all (is_any_of ":") FLAGS_local_nodemanager_url with
    | c0 :: c1 :: _ =>
        Some (FLAGS_local_nodemanager_url,
              MakeNetworkAddress c0 (Options.atoi c1), c1)
    | _ => None
    end.

Section NmFailures.

Context {QBody : Type} `{QueryExecStateOps QBody}.

(** [MissedHeartbeatFailureDetector] (statestore/failure-detector.cc):
    the detector as it is constructed from the two thresholds, the effect
    of [UpdateHeartbeat(peer, seen)], and whether [GetPeerState(peer)] is
    [FAILED]. [getaddrinfo] tells whether the call returns an error. *)
Context {FailureDetector : Type}.
Variable new_MissedHeartbeatFailureDetector : Z → Z → FailureDetector.
Variable UpdateHeartbeat : string → bool → FailureDetector → FailureDetector.
Variable GetPeerState_is_FAILED : string → FailureDetector → bool.
Variable getaddrinfo : string → string → bool.

(** The heartbeat a round of the loop reports. *)
Definition report_probe (peer : string) (probe : Probe)
    (failure_detector : FailureDetector) : FailureDetector :=
  match probe with
  | SocketFailed => failure_detector
  | ConnectFailed => UpdateHeartbeat peer false failure_detector
  | Connected => UpdateHeartbeat peer true failure_detector
  end.

(** One round of the loop of [DetectNmFailures]; the state of the loop is
    the detector, [last_failure_state] and the server. *)
Definition DetectNmFailures_round (peer : string)
    (st : FailureDetector * bool * ImpalaServer (QBody := QBody))
    (probe : Probe) : FailureDetector * bool * ImpalaServer :=
  let '(failure_detector, last_failure_state, s) := st in
  let failure_detector := report_probe peer probe failure_detector in
  let is_failed := GetPeerState_is_FAILED peer failure_detector in
  let s :=
    if negb (Bool.eqb is_failed last_failure_state) then SetOffline is_failed s
    else s in
  (failure_detector, is_failed, s).

(** [ImpalaServer::DetectNmFailures], run for the rounds of [probes]. *)
Definition DetectNmFailures (FLAGS_local_nodemanager_url : string)
    (probes : list Probe) (s : ImpalaServer (QBody := QBody))
    : ImpalaServer :=
  match nm_addr_of FLAGS_local_nodemanager_url with
  | None => s
  | Some (FLAGS_local_nodemanager_url, nm_addr, service) =>
      let failure_detector :=
        new_MissedHeartbeatFailureDetector
          MAX_NM_MISSED_HEARTBEATS (MAX_NM_MISSED_HEARTBEATS / 2) in
      if getaddrinfo (Options.c_str (hostname nm_addr)) (Options.c_str service)
      then s
      else
        (* last_failure_state = false *)
        (foldl (DetectNmFailures_round FLAGS_local_nodemanager_url)
               (failure_detector, false, s) probes).2
  end.

End NmFailures.

(* ===================================================================== *)
(** ** Concrete values for the closed examples of the further properties   *)
(* ===================================================================== *)

(** A catalog topic delta with one entry, the CATALOG object of version 7,
    and a front end that reads it and accepts every request. *)
Definition example_catalog_object : CatalogCallback.TCatalogObject :=
  {| CatalogCallback.co_type := CatalogCallback.CATALOG;
     CatalogCallback.co_catalog_version := 7;
     CatalogCallback.co_catalog_service_id := example_id 1;
     CatalogCallback.co_fn_hdfs_location := "";
     CatalogCallback.co_data_source_hdfs_location := "" |}.

Definition example_catalog_delta : CatalogCallback.TCatalogTopicDelta :=
  {| CatalogCallback.cd_is_delta := true;
     CatalogCallback.cd_topic_entries :=
       [{| ti_key := "CATALOG:1"; ti_value := "catalog" |}];
     CatalogCallback.cd_topic_deletions := [];
     CatalogCallback.cd_to_version := 12;
     CatalogCallback.cd_min_subscriber_topic_version := 9 |}.

Definition example_catalog_deltas
    : gmap string CatalogCallback.TCatalogTopicDelta :=
  {[ CatalogCallback.IMPALA_CATALOG_TOPIC := example_catalog_delta ]}.

Definition example_deserialize (value : string)
    : option CatalogCallback.TCatalogObject :=
  if bool_decide (value = "catalog") then Some example_catalog_object
  else None.

Definition example_frontend_update (req : CatalogCallback.TCatalogCacheRequest)
    : Status * TUniqueId :=
  (Status_OK, example_id 1).

(** The entries of the flag root=alice,bob;svc=*;root=carol. *)
Definition example_proxy_entries : list (string * list string) :=
  [("root", ["alice"; "bob"]); ("svc", ["*"]); ("root", ["carol"])].

(** A failure detector that counts the heartbeats missed in a row and
    reports a failure from the fifth on. *)
Definition example_UpdateHeartbeat (peer : string) (seen : bool) (missed : nat)
    : nat :=
  if seen then 0%nat else S missed.

Definition example_is_FAILED (peer : string) (missed : nat) : bool :=
  Nat.leb 5 missed.

(* ===================================================================== *)
(** ** Predicates of the further properties                               *)
(* ===================================================================== *)

(** The index of the query log holds exactly the records of the log, each
    under its id. *)
Definition log_index_agree {QBody} (s : ImpalaServer (QBody := QBody)) : Prop :=
  ∀ i r, query_log_index_ s !! i = Some r ↔ r ∈ query_log_ s ∧ id r = i.

(** Two states of a session that differ at most in the in-flight set. *)
Definition same_flags (a b : SessionState) : Prop :=
  closed a = closed b ∧ expired a = expired b ∧ ref_count a = ref_count b
  ∧ last_accessed_ms a = last_accessed_ms b.



(** How closing sessions and unregistering queries move the server: ids
    leave the two registries and none enters; a session object keeps its
    place, an expired one stays expired and a closed one closed; an id
    leaves the in-flight set of a session only when its query has left the
    registry. *)
Definition winds_down {QBody} (s s' : ImpalaServer (QBody := QBody)) : Prop :=
  (∀ sid, session_state_map_ s' !! sid = None
          ∨ session_state_map_ s' !! sid = session_state_map_ s !! sid)
  ∧ (∀ q, query_exec_state_map_ s' !! q = None
          ∨ query_exec_state_map_ s' !! q = query_exec_state_map_ s !! q)
  ∧ ∀ i, option_Forall2
           (λ a b, expired b = expired a
                   ∧ (closed a = true → closed b = true)
                   ∧ ∀ q, q ∈ inflight_queries a →
                          q ∈ inflight_queries b
                          ∨ query_exec_state_map_ s' !! q = None)
           (session_heap s !! i) (session_heap s' !! i).

(** The expiration queue in the order [std::set] keeps it in. *)
Definition queue_sorted (l : list (Z * TUniqueId)) : Prop :=
  StronglySorted (λ a b, expiration_ltb a b = true) l.

(** What [ExpireQueries] offers for a query: a cancel-kind item for a
    registered query that is not active, whose queue entry is due and
    whose own deadline has passed, with the cause the source prints. *)
Definition expiry_item {QBody} `{QueryExecStateOps QBody} (flags : Flags)
    (env : ExecEnv) (m : gmap TUniqueId (QueryExecState QBody))
    (orig : list (Z * TUniqueId)) (now : Z) (w : CancellationWork) : Prop :=
  cw_unregister w = false
  ∧ ∃ t q,
      (t, cw_query_id w) ∈ orig ∧ t ≤ now
      ∧ m !! cw_query_id w = Some q
      ∧ qes_is_active (body q) = false
      ∧ let timeout_s := idle_timeout_s (FLAGS_idle_query_timeout flags)
                                        (query_timeout_s q) in
        qes_last_active (body q) + timeout_s * 1000 ≤ now
        ∧ cw_cause w
          = Status_of_msg
              ("Query " +:+ PrintId env (cw_query_id w)
               +:+ " expired due to client inactivity (timeout is "
               +:+ PrintTime env (timeout_s * 1000000000) +:+ ")").

(** The address a list of topic entries announces for a backend id: that
    of the first entry with this key that deserialises. *)
Fixpoint announced (env : ExecEnv) (entries : list TTopicItem) (k : string)
    : option TNetworkAddress :=
  match entries with
  | [] => None
  | item :: rest =>
      if bool_decide (ti_key item = k) then
        match DeserializeBackendDescriptor env (ti_value item) with
        | Some address => Some address
        | None => announced env rest k
        end
      else announced env rest k
  end.

(** The condition under which the second wait of
    [ProcessCatalogUpdateResult] ends at a guarded state: the subscribers
    have reached the topic version [v], or the catalog service changed. *)
Definition subscribers_caught_up (r : Catalog.TCatalogUpdateResult) (v : Z)
    (c : Catalog.CatalogState) : Prop :=
  v ≤ Catalog.min_subscriber_catalog_topic_version_ c
  ∨ Catalog.catalog_service_id (Catalog.catalog_update_info_ c)
    ≠ Catalog.result_catalog_service_id r.

(** The catalog objects a list of topic entries carries: those that
    deserialise, in order. *)
Definition carried_objects
    (DeserializeCatalogObject : string → option CatalogCallback.TCatalogObject)
    (entries : list TTopicItem) : list CatalogCallback.TCatalogObject :=
  omap (λ item, DeserializeCatalogObject (ti_value item)) entries.

(** The last object of type CATALOG in a list of catalog objects. *)
Definition last_catalog (objects : list CatalogCallback.TCatalogObject)
    : option CatalogCallback.TCatalogObject :=
  last (filter (λ o, CatalogCallback.co_type o = CatalogCallback.CATALOG)
               objects).


(** The text of [--authorized_proxy_user_config] for a list of entries:
    user=name,name;user=name. *)
Definition proxy_config_text (entries : list (string * list string))
    : string :=
  join ";" ((λ e, e.1 +:+ "=" +:+ join "," e.2) <$> entries).

(** An entry whose text is read back as it was written: no ';' and no '='
    in the user, at least one allowed name, and the allowed names
    non-empty and free of ',' and ';'. *)
Definition proxy_entry_wf (e : string * list string) : Prop :=
  Z.of_nat (String.length e.1) < npos
  ∧ str_forallb (λ c, negb (Ascii.eqb c ";")) e.1 = true
  ∧ str_forallb (λ c, negb (Ascii.eqb c "=")) e.1 = true
  ∧ e.2 ≠ []
  ∧ Forall (λ a, a ≠ ""
                 ∧ str_forallb (λ c, negb (Ascii.eqb c ",")) a = true
                 ∧ str_forallb (λ c, negb (Ascii.eqb c ";")) a = true) e.2.

(** Running one parse after another: the second starts from the options
    the first has left, unless the first has failed. *)
Definition parse_then (first second : Options.TQueryOptions
                                      → Status * Options.TQueryOptions)
    (query_options : Options.TQueryOptions)
    : Status * Options.TQueryOptions :=
  let r := first query_options in
  if ok r.1 then second r.2 else r.

(** The query options in the order of their names. *)
Definition option_name_le (a b : Options.TImpalaQueryOptions * string)
    : Prop :=
  String.leb a.2 b.2 = true.

#[global] Instance option_name_le_dec : RelDecision option_name_le.
Proof. intros a b. unfold option_name_le. apply _. Defined.

Definition options_by_name : list (Options.TImpalaQueryOptions * string) :=
  merge_sort option_name_le Options._TImpalaQueryOptions_VALUES_TO_NAMES.

(* ===================================================================== *)
(** * Theorems                                                            *)
(* ===================================================================== *)

(** ** Status *)

Lemma ok_true_iff (s : Status) : ok s = true ↔ s = Status_OK.
Proof. destruct s; simpl; split; intros; done. Qed.

Lemma ok_false_iff (s : Status) : ok s = false ↔ s ≠ Status_OK.
Proof. destruct s; simpl; split; intros; done. Qed.

(** ** Lists *)

Lemma removelast_take {A} (l : list A) :
  removelast l = take (length l - 1)%nat l.
Proof.
  induction l as [|x [|y l] IH]; [done..|].
  change (removelast (x :: y :: l)) with (x :: removelast (y :: l)).
  rewrite IH. simpl. by rewrite Nat.sub_0_r.
Qed.

Lemma fmap_removelast {A B} (f : A → B) (l : list A) :
  f <$> removelast l = removelast (f <$> l).
Proof.
  induction l as [|x [|y l] IH]; [done..|].
  change (removelast (x :: y :: l)) with (x :: removelast (y :: l)).
  rewrite fmap_cons, IH. done.
Qed.

Lemma last_cons_Some {A} (x : A) (l : list A) : is_Some (last (x :: l)).
Proof.
  revert x. induction l as [|y l IH]; intros x; [by eexists|].
  change (last (x :: y :: l)) with (last (y :: l)). apply IH.
Qed.

Section ServerProofs.

Context {QBody : Type} `{QueryExecStateOps QBody}.
Variable flags : Flags.
Variable env : ExecEnv.

#[local] Abbreviation Srv := (ImpalaServer (QBody:=QBody)).

(** ** The query archive *)

(** What one [ArchiveQuery] does to the log and its index. *)
Lemma ArchiveQuery_cases (now : Z) (q : QueryExecState QBody)
    (s : ImpalaServer) :
  let n := FLAGS_query_log_size flags in
  let s' := ArchiveQuery flags now q s in
  (n = 0 ∧ query_log_ s' = query_log_ s
         ∧ query_log_index_ s' = query_log_index_ s)
  ∨ (n ≠ 0 ∧ ∃ r : QueryStateRecord QBody, id r = query_id_of q ∧
       ((¬ (0 < n ∧ n ≤ Z.of_nat (length (query_log_ s)))
         ∧ query_log_ s' = r :: query_log_ s
         ∧ query_log_index_ s' = <[query_id_of q := r]> (query_log_index_ s))
        ∨ (0 < n ∧ n ≤ Z.of_nat (length (query_log_ s))
           ∧ query_log_ s' = removelast (r :: query_log_ s)
           ∧ ∃ back, last (r :: query_log_ s) = Some back
               ∧ query_log_index_ s'
                 = delete (id back)
                     (<[query_id_of q := r]> (query_log_index_ s))))).
Proof.
  intros n s'. subst s'. unfold ArchiveQuery. fold n.
  destruct (n =? 0) eqn:Hn0.
  { left. apply Z.eqb_eq in Hn0.
    destruct (FLAGS_log_query_to_file flags); done. }
  right. apply Z.eqb_neq in Hn0. split; [done|].
  set (s1 := if FLAGS_log_query_to_file flags then _ else s).
  assert (Hlog : query_log_ s1 = query_log_ s)
    by (subst s1; by destruct (FLAGS_log_query_to_file flags)).
  assert (Hix : query_log_index_ s1 = query_log_index_ s)
    by (subst s1; by destruct (FLAGS_log_query_to_file flags)).
  rewrite Hlog, Hix.
  set (r := match qes_coord (body q) with Some _ => _ | None => _ end).
  assert (Hid : id r = query_id_of q)
    by (subst r; by destruct (qes_coord (body q))).
  exists r. split; [done|].
  destruct ((-1 <? n) && (n <? Z.of_nat (length (r :: query_log_ s))))
    eqn:Hev.
  - right. apply andb_true_iff in Hev as [H1 H2].
    apply Z.ltb_lt in H1, H2. simpl length in H2.
    split; [lia|]. split; [lia|]. split; [done|].
    destruct (last_cons_Some r (query_log_ s)) as [back Hback].
    exists back. split; [done|]. simpl in *. by rewrite Hback.
  - left. apply andb_false_iff in Hev.
    split; [|done]. simpl length in Hev.
    intros [? ?]. destruct Hev as [Hev|Hev];
      [apply Z.ltb_ge in Hev | apply Z.ltb_ge in Hev]; lia.
Qed.

Lemma archive_all_snoc (now : Z) (qs : list (QueryExecState QBody))
    (q : QueryExecState QBody) (s : ImpalaServer) :
  archive_all flags now (qs ++ [q]) s
  = ArchiveQuery flags now q (archive_all flags now qs s).
Proof. unfold archive_all. by rewrite foldl_app. Qed.

(** The ids in the log after archiving [qs] from an empty log: the most
    recent ones, most recent first. *)
Lemma archive_all_ids (now : Z) (qs : list (QueryExecState QBody)) :
  id <$> query_log_ (archive_all flags now qs initial_server)
  = take (log_capacity (FLAGS_query_log_size flags) (length qs))
         (reverse (query_id_of <$> qs)).
Proof.
  set (n := FLAGS_query_log_size flags).
  induction qs as [|q qs IH] using rev_ind.
  { simpl. by destruct (log_capacity _ _). }
  rewrite archive_all_snoc, fmap_app, reverse_app. simpl.
  rewrite length_app. simpl length.
  assert (Hlen : length (query_log_ (archive_all flags now qs initial_server))
                 = Nat.min (log_capacity n (length qs)) (length qs)).
  { rewrite <- (length_fmap id), IH, length_take, length_reverse, length_fmap.
    done. }
  destruct (ArchiveQuery_cases now q (archive_all flags now qs initial_server))
    as [(Hn & Hlog & _) | (Hn & r & Hid & [(Hno & Hlog & _) | (H1 & H2 & Hlog & _)])];
    fold n in Hn; rewrite Hlog.
  - rewrite IH. unfold log_capacity. fold n. rewrite Hn. simpl. done.
  - rewrite fmap_cons, Hid, IH. fold n.
    unfold log_capacity in *. destruct (n <? 0) eqn:Hneg.
    + replace (length qs + 1)%nat with (S (length qs)) by lia. done.
    + apply Z.ltb_ge in Hneg.
      rewrite Hlen in Hno.
      destruct (Z.to_nat n) as [|m] eqn:Hm; [lia|]. simpl.
      f_equal.
      rewrite !take_ge; [done| |]; rewrite length_reverse, length_fmap; lia.
  - fold n in H1, H2.
    rewrite fmap_removelast, fmap_cons, Hid, IH. fold n.
    rewrite removelast_take. simpl length.
    rewrite Hlen in H2.
    unfold log_capacity in *. destruct (n <? 0) eqn:Hneg;
      [apply Z.ltb_lt in Hneg; lia|].
    rewrite length_take, length_reverse, length_fmap.
    replace (S (Z.to_nat n `min` length qs) - 1)%nat with (Z.to_nat n) by lia.
    destruct (Z.to_nat n) as [|m] eqn:Hm; [lia|]. simpl.
    f_equal. rewrite take_take. f_equal. lia.
Qed.

(** C6 (amended). After any sequence of [ArchiveQuery] calls on the empty
    log, the log holds the most recent records, most recent first; for a
    flag [query_log_size >= 0] its size never exceeds the flag, for every
    negative flag (not only -1) it keeps all records; with flag 0 a call
    inserts nothing, otherwise it prepends the new record and keeps the
    order of the older ones; and the id of an evicted record is erased from
    the index. *)
Theorem query_log_most_recent_first_bounded (now : Z)
    (qs : list (QueryExecState QBody)) :
  let n := FLAGS_query_log_size flags in
  let s := archive_all flags now qs initial_server in
  id <$> query_log_ s
    = take (length (query_log_ s)) (reverse (query_id_of <$> qs))
  ∧ (0 ≤ n → Z.of_nat (length (query_log_ s)) ≤ Z.max n 0)
  ∧ (n < 0 → length (query_log_ s) = length qs)
  ∧ (∀ q, let s' := ArchiveQuery flags now q s in
       n = 0 →
       query_log_ s' = query_log_ s
       ∧ query_log_index_ s' = query_log_index_ s)
  ∧ (∀ q, let s' := ArchiveQuery flags now q s in
       n ≠ 0 →
       id <$> query_log_ s'
       = query_id_of q
           :: take (length (query_log_ s') - 1) (id <$> query_log_ s))
  ∧ (∀ q back, let s' := ArchiveQuery flags now q s in
       n ≠ 0 →
       (length (query_log_ s') ≤ length (query_log_ s))%nat →
       last (query_log_ s) = Some back →
       query_log_index_ s' !! id back = None).
Proof.
  intros n s.
  pose proof (archive_all_ids now qs) as Hids. fold n s in Hids.
  assert (Hlen : length (query_log_ s)
                 = Nat.min (log_capacity n (length qs)) (length qs)).
  { rewrite <- (length_fmap id), Hids, length_take, length_reverse,
      length_fmap. done. }
  split; [|split; [|split; [|split; [|split]]]].
  - rewrite Hids, Hlen. unfold log_capacity.
    destruct (n <? 0); [by rewrite Nat.min_id|].
    destruct (decide (Z.to_nat n ≤ length qs)%nat).
    + by rewrite Nat.min_l.
    + rewrite Nat.min_r by lia.
      rewrite !take_ge; [done| |]; rewrite length_reverse, length_fmap; lia.
  - intros Hn. rewrite Hlen. unfold log_capacity.
    destruct (n <? 0) eqn:Hneg; [apply Z.ltb_lt in Hneg; lia|]. lia.
  - intros Hn. rewrite Hlen. unfold log_capacity.
    apply Z.ltb_lt in Hn. rewrite Hn. lia.
  - intros q s' Hn.
    destruct (ArchiveQuery_cases now q s)
      as [(_ & Hlog & Hix) | (Hn' & _)]; [done|]. by fold n in Hn'.
  - intros q s' Hn.
    destruct (ArchiveQuery_cases now q s)
      as [(Hn' & _) | (_ & r & Hid & [(_ & Hlog & _) | (H1 & H2 & Hlog & _)])];
      [by fold n in Hn'| |]; fold s' in Hlog; rewrite Hlog.
    + rewrite fmap_cons, Hid. simpl length. rewrite Nat.sub_succ, Nat.sub_0_r.
      by rewrite take_ge by (by rewrite length_fmap).
    + rewrite removelast_take, fmap_take, fmap_cons, Hid, length_take.
      simpl length. rewrite Nat.sub_succ, Nat.sub_0_r.
      rewrite Nat.min_l by lia.
      destruct (length (query_log_ s)) as [|m] eqn:Hm.
      * fold n in H1, H2. lia.
      * simpl. rewrite Nat.sub_0_r. done.
  - intros q back s' Hn Hle Hback.
    destruct (ArchiveQuery_cases now q s)
      as [(Hn' & _) | (_ & r & Hid & [(_ & Hlog & _) | (_ & _ & _ & Hev)])];
      [by fold n in Hn'| |].
    + fold s' in Hlog. rewrite Hlog in Hle. simpl in Hle. lia.
    + destruct Hev as (back' & Hback' & Hix). fold s' in Hix.
      destruct (query_log_ s) as [|x l] eqn:Hl; [done|].
      change (last (r :: x :: l)) with (last (x :: l)) in Hback'.
      rewrite Hback in Hback'. injection Hback' as <-.
      rewrite Hix. apply lookup_delete_eq.
Qed.

(** ** The query registry *)

(** [ArchiveQuery] touches the log, its index and the profile log only. *)
Lemma ArchiveQuery_frame (now : Z) (q : QueryExecState QBody)
    (s : ImpalaServer) :
  let s' := ArchiveQuery flags now q s in
  query_exec_state_map_ s' = query_exec_state_map_ s
  ∧ session_heap s' = session_heap s
  ∧ query_locations_ s' = query_locations_ s
  ∧ queries_by_timestamp_ s' = queries_by_timestamp_ s
  ∧ cancellation_thread_pool_ s' = cancellation_thread_pool_ s.
Proof.
  unfold ArchiveQuery.
  destruct (FLAGS_log_query_to_file flags), (FLAGS_query_log_size flags =? 0);
    simpl; try done;
    match goal with |- context [if ?c then _ else _] => destruct c end;
    done.
Qed.

(** [LogAuditRecord] appends to the audit log and changes nothing else. *)
Lemma LogAuditRecord_frame (now : Z) (e : QueryExecState QBody)
    (request : TExecRequest) (s s' : ImpalaServer) (st : Status) :
  LogAuditRecord flags env now e request s = Returns st s' →
  query_exec_state_map_ s' = query_exec_state_map_ s
  ∧ session_heap s' = session_heap s
  ∧ query_locations_ s' = query_locations_ s
  ∧ queries_by_timestamp_ s' = queries_by_timestamp_ s.
Proof.
  unfold LogAuditRecord.
  destruct (negb _ && _); [done|]. intros [= _ <-]. done.
Qed.

Lemma LogAuditRecord_Exits (now : Z) (e : QueryExecState QBody)
    (request : TExecRequest) (s : ImpalaServer) :
  LogAuditRecord flags env now e request s = Exits →
  FLAGS_abort_on_failed_audit_event flags = true.
Proof.
  unfold LogAuditRecord.
  destruct (negb _) ; simpl; [|done].
  by destruct (FLAGS_abort_on_failed_audit_event flags).
Qed.

(** An unknown id: nothing is cancelled, nothing changes. *)
Lemma UnregisterQuery_unknown (now : Z) (query_id : TUniqueId)
    (cause : option Status) (s : ImpalaServer) :
  query_exec_state_map_ s !! query_id = None →
  UnregisterQuery flags env now query_id cause s = Returns false s.
Proof.
  intros Hnone. unfold UnregisterQuery, CancelInternal, GetQueryExecState.
  rewrite Hnone. simpl. by rewrite Hnone.
Qed.

(** A registered id: when the call returns, it returns [true], the id has
    left the registry and the in-flight set of the owning session. *)
Lemma UnregisterQuery_registered (now : Z) (query_id : TUniqueId)
    (cause : option Status) (s s' : ImpalaServer)
    (e : QueryExecState QBody) (b : bool) :
  query_exec_state_map_ s !! query_id = Some e →
  UnregisterQuery flags env now query_id cause s = Returns b s' →
  b = true
  ∧ query_exec_state_map_ s' = delete query_id (query_exec_state_map_ s)
  ∧ session_heap s'
    = alter (set_inflight_queries (λ X, X ∖ {[query_id]})) (session e)
            (session_heap s).
Proof.
  intros He. unfold UnregisterQuery, CancelInternal, GetQueryExecState.
  rewrite He. simpl. rewrite lookup_insert_eq.
  set (e' := set_body (qes_Cancel cause) e).
  set (s0 := set_query_exec_state_map_ (delete query_id) _).
  assert (Hmap0 : query_exec_state_map_ s0
                  = delete query_id (query_exec_state_map_ s)).
  { subst s0. simpl. by rewrite delete_insert_eq. }
  assert (Hheap0 : session_heap s0 = session_heap s) by done.
  clearbody s0.
  destruct (IsAuditEventLoggingEnabled flags
            && frontend_IsAuthorizationError env (qes_query_status (body e')))
    eqn:Haudit.
  - destruct (LogAuditRecord flags env now e' (qes_exec_request (body e')) s0)
      as [st s1|] eqn:Hlog; simpl; [|done].
    apply LogAuditRecord_frame in Hlog as (Hm & Hh & _).
    cbn [body set_body].
    destruct (qes_coord _) eqn:Hc;
      intros [= <- <-];
      (split; [done|]);
      match goal with |- context [ArchiveQuery flags now ?q ?t] =>
        destruct (ArchiveQuery_frame now q t) as (-> & -> & _) end;
      simpl; rewrite Hm, Hh, Hmap0, Hheap0; done.
  - cbn [bindO].
    cbn [body set_body].
    destruct (qes_coord _) eqn:Hc;
      intros [= <- <-];
      (split; [done|]);
      match goal with |- context [ArchiveQuery flags now ?q ?t] =>
        destruct (ArchiveQuery_frame now q t) as (-> & -> & _) end;
      simpl; rewrite Hmap0, Hheap0; done.
Qed.

(** The only way [UnregisterQuery] ends the process is a failed audit
    write under [--abort_on_failed_audit_event]. *)
Lemma UnregisterQuery_Exits (now : Z) (query_id : TUniqueId)
    (cause : option Status) (s : ImpalaServer) :
  UnregisterQuery flags env now query_id cause s = Exits →
  FLAGS_abort_on_failed_audit_event flags = true
  ∧ IsAuditEventLoggingEnabled flags = true.
Proof.
  unfold UnregisterQuery.
  destruct (query_exec_state_map_ _ !! query_id) as [e|]; [|done].
  destruct (IsAuditEventLoggingEnabled flags) eqn:Hen; simpl.
  - destruct (frontend_IsAuthorizationError env _); simpl.
    + destruct (LogAuditRecord _ _ _ _ _ _) eqn:Hlog; simpl.
      * destruct (qes_coord _); done.
      * intros _. split; [|done]. by eapply LogAuditRecord_Exits.
    + destruct (qes_coord _); done.
  - destruct (qes_coord _); done.
Qed.

(** C3. For a registered id the first [UnregisterQuery] returns true (unless
    a failed audit write ends the process), a second call returns false and
    leaves the whole server state, hence the registry, the in-flight set of
    the owning session and the archive, unchanged; an id that is not
    registered yields false and no change. *)
Theorem UnregisterQuery_twice (now1 now2 : Z) (query_id : TUniqueId)
    (cause1 cause2 : option Status) (s : ImpalaServer) :
  (is_Some (query_exec_state_map_ s !! query_id) →
     (∃ s1, UnregisterQuery flags env now1 query_id cause1 s = Returns true s1
            ∧ UnregisterQuery flags env now2 query_id cause2 s1
              = Returns false s1)
     ∨ (UnregisterQuery flags env now1 query_id cause1 s = Exits
        ∧ FLAGS_abort_on_failed_audit_event flags = true
        ∧ IsAuditEventLoggingEnabled flags = true))
  ∧ (query_exec_state_map_ s !! query_id = None →
     UnregisterQuery flags env now1 query_id cause1 s = Returns false s).
Proof.
  split; [|apply UnregisterQuery_unknown].
  intros [e He].
  destruct (UnregisterQuery flags env now1 query_id cause1 s)
    as [b s1|] eqn:Hu.
  - left. destruct (UnregisterQuery_registered _ _ _ _ _ _ _ He Hu)
      as (-> & Hmap & _).
    exists s1. split; [done|].
    apply UnregisterQuery_unknown. rewrite Hmap. apply lookup_delete_eq.
  - right. split; [done|]. by eapply UnregisterQuery_Exits.
Qed.

(** ** Execute *)

(** When [ExecuteInternal] reports the query as registered, the registry
    holds it under the id of the query context, owned by the session it
    was given. *)
Lemma ExecuteInternal_registered (now : Z) (query_ctx : TQueryCtx)
    (session_state : SessionPtr) (s s1 : ImpalaServer) (st : Status)
    (oe : option (QueryExecState QBody)) :
  ExecuteInternal flags env now query_ctx session_state s
    = Returns (st, true, oe) s1 →
  ∃ e, query_exec_state_map_ s1 !! ctx_query_id query_ctx = Some e
       ∧ session e = session_state.
Proof.
  unfold ExecuteInternal.
  destruct (is_offline_ s); [done|].
  destruct (RegisterQuery _ _ _ _ _ _) as [st0 s0].
  destruct (ok st0); simpl; [|done].
  destruct (frontend_GetExecRequest env query_ctx) as [plan_status result].
  cbn [body set_body].
  destruct (qes_UpdateQueryStatus _ _) as [st1 b1].
  destruct (ok st1); simpl.
  2:{ intros Heq. simplify_eq. eexists. split; [apply lookup_insert_eq|done]. }
  set (e2 := match result_set_metadata result with
             | Some md => _ | None => _ end).
  assert (He2 : session e2 = session_state
                ∧ query_id_of e2 = ctx_query_id query_ctx).
  { subst e2. by destruct (result_set_metadata result). }
  destruct He2 as [Hses Hqid]. clearbody e2.
  set (o := if IsAuditEventLoggingEnabled flags then _ else _).
  destruct o as [st3 s3|]; simpl; [|done].
  destruct (qes_Exec result (body e2)) as [st4 b4].
  destruct (ok st4); simpl.
  - destruct (qes_coord b4); intros Heq; simplify_eq; simpl;
      rewrite Hqid, lookup_insert_eq; eexists; (split; [done|]); done.
  - intros Heq; simplify_eq. simpl. rewrite Hqid, lookup_insert_eq.
    eexists; (split; [done|]); done.
Qed.

(** C10 (amended). When [ExecuteInternal] has registered the query and
    returns a non-OK status (planning or [Exec] failed), a returning
    [Execute] hands that status back after [UnregisterQuery] has removed
    the new id from the registry and from the in-flight set of the owning
    session. *)
Theorem Execute_failure_unregisters (now : Z) (query_uuid : TUniqueId)
    (query_ctx : TQueryCtx) (session_state : SessionPtr)
    (s s1 s' : ImpalaServer) (st : Status)
    (oe : option (QueryExecState QBody))
    (r : Status * option (QueryExecState QBody)) :
  ExecuteInternal flags env now (PrepareQueryContext query_uuid query_ctx)
                  session_state s = Returns (st, true, oe) s1 →
  ok st = false →
  Execute flags env now query_uuid query_ctx session_state s = Returns r s' →
  r = (st, oe)
  ∧ UnregisterQuery flags env now query_uuid (Some st) s1 = Returns true s'
  ∧ query_exec_state_map_ s' !! query_uuid = None
  ∧ (∀ ss, session_heap s' !! session_state = Some ss →
           query_uuid ∉ inflight_queries ss).
Proof.
  intros Hint Hst. unfold Execute. rewrite Hint. simpl. rewrite Hst. simpl.
  destruct (ExecuteInternal_registered _ _ _ _ _ _ _ Hint) as (e & He & Hses).
  simpl in He.
  destruct (UnregisterQuery flags env now query_uuid (Some st) s1)
    as [b s2|] eqn:Hu; simpl; [|done].
  intros [= <- <-].
  destruct (UnregisterQuery_registered _ _ _ _ _ _ _ He Hu) as (-> & Hmap & Hheap).
  split; [done|]. split; [done|]. split.
  - rewrite Hmap. apply lookup_delete_eq.
  - intros ss. rewrite Hheap, Hses, lookup_alter.
    rewrite decide_True by done.
    destruct (session_heap s1 !! session_state) as [ss0|]; simpl; [|done].
    intros [= Heq]. subst ss. simpl.
    intros [_ Hn]%elem_of_difference. apply Hn. by apply elem_of_singleton.
Qed.

(** ** Idle timeout of a query *)

Lemma elem_of_queue_insert (x e : Z * TUniqueId) (l : list (Z * TUniqueId)) :
  x ∈ queue_insert e l → x = e ∨ x ∈ l.
Proof.
  induction l as [|y l IH]; simpl.
  - intros Hx. apply list_elem_of_singleton in Hx. by left.
  - destruct (expiration_ltb e y).
    + intros Hx. apply elem_of_cons in Hx as [->|Hx]; [by left|by right].
    + destruct (expiration_ltb y e); [|by right].
      intros Hx. apply elem_of_cons in Hx as [->|Hx].
      * right. apply elem_of_cons. by left.
      * destruct (IH Hx) as [->|Hin]; [by left|].
        right. apply elem_of_cons. by right.
Qed.

Lemma due_queue_insert (now : Z) (e : Z * TUniqueId)
    (l : list (Z * TUniqueId)) :
  now < e.1 → due now (queue_insert e l) = due now l.
Proof.
  intros He. unfold due. induction l as [|y l IH]; simpl.
  - rewrite filter_cons_False by lia. done.
  - destruct (expiration_ltb e y).
    + rewrite (filter_cons_False _ e) by lia. done.
    + destruct (expiration_ltb y e); [|done].
      destruct (decide (y.1 ≤ now)).
      * rewrite !filter_cons_True by done. simpl. by rewrite IH.
      * rewrite !filter_cons_False by done. done.
Qed.

(** The sweep ends once it has fuel for every entry that is due. *)
Lemma ExpireQueries_loop_total (fuel : nat) (now : Z)
    (passed rest : list (Z * TUniqueId)) (s : ImpalaServer) :
  (due now rest ≤ fuel)%nat →
  is_Some (ExpireQueries_loop flags env fuel now passed rest s).
Proof.
  revert passed rest s.
  induction fuel as [|fuel IH]; intros passed rest s Hdue.
  - destruct rest as [|e rest]; simpl; [by eexists|].
    destruct (now <? e.1) eqn:Hlt; [by eexists|].
    apply Z.ltb_ge in Hlt. unfold due in Hdue.
    rewrite filter_cons_True in Hdue by done. simpl in Hdue. lia.
  - destruct rest as [|e rest]; simpl; [by eexists|].
    destruct (now <? e.1) eqn:Hlt; [by eexists|].
    apply Z.ltb_ge in Hlt. unfold due in Hdue.
    rewrite filter_cons_True in Hdue by done. simpl in Hdue.
    fold (due now rest) in Hdue.
    destruct (GetQueryExecState e.2 s) as [q|]; [|apply IH; lia].
    set (expiration := qes_last_active (body q) + _).
    destruct (now <? expiration) eqn:Hexp.
    + apply Z.ltb_lt in Hexp.
      destruct (expiration =? e.1); [by eexists|].
      destruct rest as [|next rest']; [apply IH; unfold due; simpl; lia|].
      destruct (expiration_ltb _ next); apply IH; [lia|].
      rewrite due_queue_insert by done. lia.
    + destruct (negb _); apply IH; lia.
Qed.

(** What a sweep can do: every id left in the queue was in it, and every
    work item it offers is a cancel-kind item for an id taken from the
    queue. *)
Lemma ExpireQueries_loop_sound (fuel : nat) (now : Z)
    (passed rest : list (Z * TUniqueId)) (s s' : ImpalaServer) :
  ExpireQueries_loop flags env fuel now passed rest s = Some s' →
  (∀ e, e ∈ queries_by_timestamp_ s' → e.2 ∈ (passed ++ rest).*2)
  ∧ ∃ items, cancellation_thread_pool_ s'
             = cancellation_thread_pool_ s ++ items
      ∧ ∀ w, w ∈ items → cw_query_id w ∈ rest.*2 ∧ cw_unregister w = false.
Proof.
  revert passed rest s.
  induction fuel as [|fuel IH]; intros passed rest s.
  - destruct rest as [|e rest]; simpl.
    + intros [= <-]. simpl. split.
      * intros x Hx. rewrite app_nil_r. by apply list_elem_of_fmap_2.
      * exists []. rewrite app_nil_r. split; [done|]. by intros w Hw%elem_of_nil.
    + destruct (now <? e.1); [|done]. intros [= <-]. simpl. split.
      * intros x Hx. by apply list_elem_of_fmap_2.
      * exists []. rewrite app_nil_r. split; [done|]. by intros w Hw%elem_of_nil.
  - destruct rest as [|e rest]; simpl.
    + intros [= <-]. simpl. split.
      * intros x Hx. rewrite app_nil_r. by apply list_elem_of_fmap_2.
      * exists []. rewrite app_nil_r. split; [done|]. by intros w Hw%elem_of_nil.
    + destruct (now <? e.1).
      { intros [= <-]. simpl. split.
        * intros x Hx. by apply list_elem_of_fmap_2.
        * exists []. rewrite app_nil_r. split; [done|].
          by intros w Hw%elem_of_nil. }
      assert (Hstep : ∀ passed' rest' s0 items0,
        (∀ x, x ∈ passed' ++ rest' → x.2 ∈ (passed ++ e :: rest).*2) →
        (∀ x, x ∈ rest' → x.2 ∈ (e :: rest).*2) →
        cancellation_thread_pool_ s0 = cancellation_thread_pool_ s ++ items0 →
        (∀ w, w ∈ items0 →
              cw_query_id w ∈ (e :: rest).*2 ∧ cw_unregister w = false) →
        ExpireQueries_loop flags env fuel now passed' rest' s0 = Some s' →
        (∀ x, x ∈ queries_by_timestamp_ s' → x.2 ∈ (passed ++ e :: rest).*2)
        ∧ ∃ items, cancellation_thread_pool_ s'
                   = cancellation_thread_pool_ s ++ items
            ∧ ∀ w, w ∈ items →
                   cw_query_id w ∈ (e :: rest).*2 ∧ cw_unregister w = false).
      { intros passed' rest' s0 items0 Hq Hr Hpool Hitems Hloop.
        destruct (IH _ _ _ Hloop) as (Hq' & items & Hpool' & Hitems').
        split.
        - intros x Hx. specialize (Hq' x Hx).
          apply list_elem_of_fmap in Hq' as (y & -> & Hy). by apply Hq.
        - exists (items0 ++ items). rewrite Hpool', Hpool, app_assoc.
          split; [done|]. intros w Hw. apply elem_of_app in Hw as [Hw|Hw].
          + by apply Hitems.
          + destruct (Hitems' w Hw) as [Hin ?]. split; [|done].
            apply list_elem_of_fmap in Hin as (y & -> & Hy). by apply Hr. }
      assert (Hrest : ∀ x, x ∈ rest → x.2 ∈ (e :: rest).*2).
      { intros x Hx. apply list_elem_of_fmap_2. apply elem_of_cons. by right. }
      assert (Hall : ∀ x, x ∈ passed ++ rest → x.2 ∈ (passed ++ e :: rest).*2).
      { intros x Hx. apply list_elem_of_fmap_2.
        apply elem_of_app in Hx as [Hx|Hx]; apply elem_of_app;
          [by left|right; apply elem_of_cons; by right]. }
      assert (He : e.2 ∈ (e :: rest).*2).
      { apply list_elem_of_fmap_2. apply elem_of_cons. by left. }
      assert (He' : e.2 ∈ (passed ++ e :: rest).*2).
      { apply list_elem_of_fmap_2, elem_of_app. right.
        apply elem_of_cons. by left. }
      assert (Hnil : ∀ w : CancellationWork, w ∈ [] →
                cw_query_id w ∈ (e :: rest).*2 ∧ cw_unregister w = false)
        by (by intros w Hw%elem_of_nil).
      assert (Hpool0 : cancellation_thread_pool_ s
                       = cancellation_thread_pool_ s ++ [])
        by (by rewrite app_nil_r).
      destruct (GetQueryExecState e.2 s) as [q|].
      2:{ by apply (Hstep passed rest s []). }
      set (expiration := qes_last_active (body q) + _).
      destruct (now <? expiration).
      * destruct (expiration =? e.1).
        { intros [= <-]. simpl. split.
          - intros x Hx. by apply list_elem_of_fmap_2.
          - by exists []. }
        assert (Hins : ∀ l x, (∀ y, y ∈ l → y.2 ∈ (passed ++ e :: rest).*2) →
                  x ∈ queue_insert (expiration, e.2) l →
                  x.2 ∈ (passed ++ e :: rest).*2).
        { intros l x Hl Hx. apply elem_of_queue_insert in Hx as [->|Hx];
            [done|by apply Hl]. }
        assert (Hpassed : ∀ y, y ∈ passed → y.2 ∈ (passed ++ e :: rest).*2).
        { intros y Hy. apply Hall, elem_of_app. by left. }
        assert (Hrest' : ∀ y, y ∈ rest → y.2 ∈ (passed ++ e :: rest).*2).
        { intros y Hy. apply Hall, elem_of_app. by right. }
        assert (Hone : ∀ x, x ∈ queue_insert (expiration, e.2) passed ++ rest →
                  x.2 ∈ (passed ++ e :: rest).*2).
        { intros x Hx. apply elem_of_app in Hx as [Hx|Hx];
            [by apply (Hins passed)|by apply Hrest']. }
        assert (Htwo : ∀ x, x ∈ passed ++ queue_insert (expiration, e.2) rest →
                  x.2 ∈ (passed ++ e :: rest).*2).
        { intros x Hx. apply elem_of_app in Hx as [Hx|Hx];
            [by apply Hpassed|by apply (Hins rest)]. }
        assert (Hthree : ∀ x, x ∈ queue_insert (expiration, e.2) rest →
                  x.2 ∈ (e :: rest).*2).
        { intros x Hx. apply elem_of_queue_insert in Hx as [->|Hx];
            [done|by apply Hrest]. }
        destruct rest as [|next rest'].
        { by apply (Hstep _ _ s []). }
        destruct (expiration_ltb _ next).
        { by apply (Hstep _ _ s []). }
        by apply (Hstep _ _ s []).
      * destruct (negb _).
        -- match goal with |- context [Offer ?w s] =>
             apply (Hstep passed rest (Offer w s) [w]) end; try done.
           intros w Hw. apply list_elem_of_singleton in Hw as ->. done.
        -- apply (Hstep _ _ s []); try done.
           intros x Hx. rewrite <- app_assoc in Hx. simpl in Hx.
           by apply list_elem_of_fmap_2.
Qed.

(** A query whose id is not in the expiration queue is left alone by a
    pass of the sweep: the pass ends, offers no work item for it and does
    not put it into the queue. *)
Lemma ExpireQueries_pass_skips (now : Z) (query_id : TUniqueId)
    (s : ImpalaServer) :
  query_id ∉ (queries_by_timestamp_ s).*2 →
  ∃ s', (ExpireQueries_pass flags env now s = Some s')
        ∧ (query_id ∉ (queries_by_timestamp_ s').*2)
        ∧ ∃ items, cancellation_thread_pool_ s'
                   = cancellation_thread_pool_ s ++ items
            ∧ ∀ w, w ∈ items → cw_query_id w ≠ query_id.
Proof.
  intros Hnot. unfold ExpireQueries_pass.
  destruct (ExpireQueries_loop_total (length (queries_by_timestamp_ s)) now []
              (queries_by_timestamp_ s) s) as [s' Hs'].
  { unfold due. apply length_filter. }
  exists s'. split; [done|].
  destruct (ExpireQueries_loop_sound _ _ _ _ _ _ Hs') as (Hq & items & Hpool & Hit).
  split.
  - intros Hin. apply list_elem_of_fmap in Hin as (e & -> & He).
    apply Hnot. by apply (Hq e).
  - exists items. split; [done|]. intros w Hw Heq.
    destruct (Hit _ Hw) as [Hin _]. by rewrite Heq in Hin.
Qed.

(** C2. A query that [RegisterQuery] accepts gets the idle timeout
    min(g, p) when the flag g and the query option p are both positive and
    max(g, p) otherwise; a positive timeout puts one entry for the query
    into the expiration queue, a timeout of 0 puts none, and a query without
    an entry is never offered for cancellation by the sweep. *)
Theorem RegisterQuery_idle_timeout (now : Z) (session_state : SessionPtr)
    (exec_state : QueryExecState QBody) (s s' : ImpalaServer) :
  RegisterQuery flags env now session_state exec_state s = (Status_OK, s') →
  let g := FLAGS_idle_query_timeout flags in
  let p := query_timeout_s exec_state in
  ∃ timeout_s : Z,
    (0 < g ∧ 0 < p → timeout_s = Z.min g p)
    ∧ (¬ (0 < g ∧ 0 < p) → timeout_s = Z.max g p)
    ∧ (0 < timeout_s →
       queries_by_timestamp_ s'
       = queue_insert (now + 1000 * timeout_s, query_id_of exec_state)
                      (queries_by_timestamp_ s))
    ∧ (timeout_s ≤ 0 → queries_by_timestamp_ s' = queries_by_timestamp_ s)
    ∧ (timeout_s = 0 →
       query_id_of exec_state ∉ (queries_by_timestamp_ s).*2 →
       ∀ now', ∃ s'', (ExpireQueries_pass flags env now' s' = Some s'')
         ∧ (query_id_of exec_state ∉ (queries_by_timestamp_ s'').*2)
         ∧ ∃ items, cancellation_thread_pool_ s''
                    = cancellation_thread_pool_ s' ++ items
             ∧ ∀ w, w ∈ items → cw_query_id w ≠ query_id_of exec_state).
Proof.
  intros Hreg g p.
  exists (idle_timeout_s g p).
  assert (Hqueue :
    queries_by_timestamp_ s'
    = if 0 <? idle_timeout_s g p
      then queue_insert (now + 1000 * idle_timeout_s g p, query_id_of exec_state)
                        (queries_by_timestamp_ s)
      else queries_by_timestamp_ s).
  { unfold RegisterQuery in Hreg.
    destruct (session_heap s !! session_state) as [ss|]; [|done].
    destruct (closed ss); [done|].
    destruct (query_exec_state_map_ s !! query_id_of exec_state); [done|].
    fold g p in Hreg. injection Hreg as <-.
    by destruct (0 <? idle_timeout_s g p). }
  split; [|split; [|split; [|split]]].
  - intros [Hg Hp]. unfold idle_timeout_s.
    apply Z.ltb_lt in Hg, Hp. by rewrite Hg, Hp.
  - intros Hnot. unfold idle_timeout_s.
    destruct (0 <? g) eqn:Hg; [|done].
    destruct (0 <? p) eqn:Hp; [|done].
    apply Z.ltb_lt in Hg, Hp. by destruct Hnot.
  - intros Hpos. apply Z.ltb_lt in Hpos. by rewrite Hqueue, Hpos.
  - intros Hle. apply Z.ltb_ge in Hle. by rewrite Hqueue, Hle.
  - intros Hzero Hfresh now'.
    apply ExpireQueries_pass_skips.
    rewrite Hqueue, Hzero. done.
Qed.

(** ** Session lookup *)

(** C7 (amended). [GetSessionState] fails on an unknown session id in both
    modes; without [mark_active] it returns the handle and changes nothing;
    with [mark_active] it refuses an expired and a closed session with the
    matching error and otherwise returns the handle after incrementing
    [ref_count], leaving [last_accessed_ms] and every other member as they
    were. *)
Theorem GetSessionState_modes (session_id : TUniqueId)
    (out : option SessionPtr) (s : ImpalaServer) :
  (session_state_map_ s !! session_id = None →
   ∀ mark_active,
     GetSessionState flags env session_id out mark_active s
     = (Status_of_msg "Invalid session id", None, s))
  ∧ (∀ i, session_state_map_ s !! session_id = Some i →
       GetSessionState flags env session_id out false s
       = (Status_OK, Some i, s))
  ∧ (∀ i ss, session_state_map_ s !! session_id = Some i →
       session_heap s !! i = Some ss →
       ∃ status handle (s' : ImpalaServer (QBody:=QBody)),
         GetSessionState flags env session_id out true s
         = (status, handle, s')
         ∧ (expired ss = true →
            ok status = false ∧ handle = out ∧ s' = s)
         ∧ (expired ss = false → closed ss = true →
            status = Status_of_msg "Session is closed"
            ∧ handle = out ∧ s' = s)
         ∧ (expired ss = false → closed ss = false →
            status = Status_OK ∧ handle = Some i
            ∧ s' = set_session_heap
                     (<[i := set_ref_count (ref_count ss + 1) ss]>) s
            ∧ ∃ ss', session_heap s' !! i = Some ss'
                ∧ ref_count ss' = ref_count ss + 1
                ∧ last_accessed_ms ss' = last_accessed_ms ss
                ∧ closed ss' = false ∧ expired ss' = false
                ∧ inflight_queries ss' = inflight_queries ss)).
Proof.
  split; [|split].
  - intros Hnone mark_active. unfold GetSessionState. by rewrite Hnone.
  - intros i Hi. unfold GetSessionState. by rewrite Hi.
  - intros i ss Hi Hss. unfold GetSessionState. rewrite Hi, Hss.
    destruct (expired ss) eqn:Hexp.
    { eexists _, _, _. split; [done|]. split; [done|]. split; done. }
    destruct (closed ss) eqn:Hcl.
    { eexists _, _, _. split; [done|]. split; [done|]. split; done. }
    eexists _, _, _. split; [done|]. split; [done|]. split; [done|].
    intros _ _. split; [done|]. split; [done|]. split; [done|].
    exists (set_ref_count (ref_count ss + 1) ss).
    simpl. rewrite lookup_insert_eq. done.
Qed.

(** ** The membership reconciler *)

Lemma foldl_preserves {A B} (P : B → Prop) (f : B → A → B) (l : list A) (b : B) :
  P b → (∀ b a, P b → P (f b a)) → P (foldl f b l).
Proof.
  intros Hb Hf. revert b Hb.
  induction l as [|a l IH]; intros b Hb; simpl; [done|]. apply IH. by apply Hf.
Qed.

(** Updating [known_backends_] touches nothing else. *)
Lemma update_known_backends_frame (delta : TTopicDelta) (s : Srv) :
  query_locations_ (update_known_backends env delta s) = query_locations_ s
  ∧ cancellation_thread_pool_ (update_known_backends env delta s)
    = cancellation_thread_pool_ s.
Proof.
  unfold update_known_backends.
  apply (foldl_preserves
           (λ t, query_locations_ t = query_locations_ s
                 ∧ cancellation_thread_pool_ t = cancellation_thread_pool_ s)).
  - apply (foldl_preserves
           (λ t, query_locations_ t = query_locations_ s
                 ∧ cancellation_thread_pool_ t = cancellation_thread_pool_ s)).
    + by destruct (is_delta delta).
    + intros t item Ht.
      by destruct (DeserializeBackendDescriptor env (ti_value item)).
  - intros t backend_id Ht. done.
Qed.

Lemma add_failed_host_lookup (loc : TNetworkAddress) (qids : gset TUniqueId)
    (m : gmap TUniqueId (list TNetworkAddress)) (q : TUniqueId) :
  add_failed_host loc qids m !! q
  = if decide (q ∈ qids) then Some (default [] (m !! q) ++ [loc])
    else m !! q.
Proof.
  unfold add_failed_host, set_fold. simpl.
  assert (Hin : ∀ x, x ∈ elements qids ↔ x ∈ qids) by (intros; apply elem_of_elements).
  assert (Hnd : NoDup (elements qids)) by apply NoDup_elements.
  revert Hin Hnd. generalize (elements qids). intros ids Hin Hnd.
  assert (Hgen : foldr (λ query_id m0, <[query_id := default [] (m0 !! query_id) ++ [loc]]> m0) m ids !! q
    = if decide (q ∈ ids) then Some (default [] (m !! q) ++ [loc]) else m !! q).
  { clear Hin. induction ids as [|x ids IH]; cbn [foldr].
    - rewrite decide_False by apply not_elem_of_nil. done.
    - apply NoDup_cons in Hnd as [Hx Hnd]. specialize (IH Hnd).
      destruct (decide (x = q)) as [->|Hne].
      + rewrite lookup_insert_eq, IH.
        rewrite (decide_False (P := q ∈ ids)) by done.
        rewrite decide_True by (apply elem_of_cons; by left). done.
      + rewrite lookup_insert_ne by done. rewrite IH.
        destruct (decide (q ∈ ids)) as [Hq|Hq].
        * rewrite decide_True by (apply elem_of_cons; by right). done.
        * rewrite decide_False; [done|].
          intros [->|?]%elem_of_cons; done. }
  rewrite Hgen.
  destruct (decide (q ∈ ids)) as [Hq|Hq].
  - rewrite decide_True by (by apply Hin). done.
  - rewrite decide_False; [done|]. intros ?. by apply Hq, Hin.
Qed.

Lemma failed_hosts_cons_failed (cm : gset TNetworkAddress)
    (e : TNetworkAddress * gset TUniqueId)
    (l : list (TNetworkAddress * gset TUniqueId)) (q : TUniqueId) :
  e.1 ∉ cm →
  failed_hosts cm (e :: l) q
  = if decide (q ∈ e.2) then e.1 :: failed_hosts cm l q
    else failed_hosts cm l q.
Proof.
  intros He. unfold failed_hosts. destruct (decide (q ∈ e.2)) as [Hq|Hq].
  - by rewrite filter_cons_True by done.
  - rewrite filter_cons_False; [done|]. by intros [_ ?].
Qed.

(** The scan over any list of entries. *)
Lemma scan_fold (cm : gset TNetworkAddress)
    (l : list (TNetworkAddress * gset TUniqueId))
    (m0 : gmap TUniqueId (list TNetworkAddress)) (s0 : Srv) :
  let r :=
    foldl (λ (acc : gmap TUniqueId (list TNetworkAddress) * Srv)
             (loc_entry : TNetworkAddress * gset TUniqueId),
             if bool_decide (loc_entry.1 ∈ cm) then acc
             else
               (add_failed_host loc_entry.1 loc_entry.2 acc.1,
                set_query_locations_ (delete loc_entry.1)
                  (set_closed_connections (λ l, l ++ [loc_entry.1]) acc.2)))
          (m0, s0) l in
  (∀ q, r.1 !! q
        = if decide (failed_hosts cm l q = []) then m0 !! q
          else Some (default [] (m0 !! q) ++ failed_hosts cm l q))
  ∧ (∀ a, query_locations_ r.2 !! a
          = if decide ((a ∉ cm) ∧ a ∈ l.*1) then None
            else query_locations_ s0 !! a)
  ∧ cancellation_thread_pool_ r.2 = cancellation_thread_pool_ s0.
Proof.
  revert m0 s0. induction l as [|e l IH]; intros m0 s0; simpl.
  - split; [done|]. split; [|done]. intros a.
    rewrite decide_False; [done|]. intros [_ Hin]. by apply elem_of_nil in Hin.
  - destruct (bool_decide (e.1 ∈ cm)) eqn:He.
    + apply bool_decide_eq_true in He.
      destruct (IH m0 s0) as (Hm & Hl & Hp).
      split; [|split; [|done]].
      * intros q. rewrite Hm. unfold failed_hosts.
        rewrite filter_cons_False; [done|]. intros [Hn _]. done.
      * intros a. rewrite Hl.
        destruct (decide ((a ∉ cm) ∧ a ∈ l.*1)) as [[Ha Hin]|Hn].
        -- rewrite decide_True; [done|]. split; [done|].
           apply elem_of_cons. by right.
        -- rewrite decide_False; [done|]. intros [Ha Hin].
           apply elem_of_cons in Hin as [->|Hin]; [done|]. by apply Hn.
    + apply bool_decide_eq_false in He.
      match goal with |- context [foldl _ (?m1, ?s1) l] =>
        destruct (IH m1 s1) as (Hm & Hl & Hp) end.
      split; [|split; [|done]].
      * intros q. rewrite Hm. cbn [fst].
        rewrite add_failed_host_lookup, (failed_hosts_cons_failed _ _ _ _ He).
        destruct (decide (q ∈ e.2)) as [Hq|Hq]; [|done].
        rewrite (decide_False (P := e.1 :: _ = [])) by done.
        destruct (decide (_ = [])) as [->|Hne].
        -- done.
        -- destruct (m0 !! q); simpl; rewrite <- ?app_assoc; done.
      * intros a. rewrite Hl. simpl.
        destruct (decide ((a ∉ cm) ∧ a ∈ l.*1)) as [[Ha Hin]|Hn].
        -- rewrite decide_True; [done|]. split; [done|].
           apply elem_of_cons. by right.
        -- destruct (decide (a = e.1)) as [->|Hne].
           ++ rewrite lookup_delete_eq.
              rewrite decide_True; [done|]. split; [done|].
              apply elem_of_cons. by left.
           ++ rewrite lookup_delete_ne by done.
              rewrite decide_False; [done|]. intros [Ha Hin].
              apply elem_of_cons in Hin as [->|Hin]; [done|]. by apply Hn.
Qed.

Lemma foldl_Offer {A} (mk : A → CancellationWork) (l : list A)
    (s : Srv) :
  let s' := foldl (λ s e, Offer (mk e) s) s l in
  cancellation_thread_pool_ s' = cancellation_thread_pool_ s ++ (mk <$> l)
  ∧ query_locations_ s' = query_locations_ s.
Proof.
  revert s. induction l as [|e l IH]; intros s; simpl.
  - by rewrite app_nil_r.
  - destruct (IH (Offer (mk e) s)) as [Hp Hl]. rewrite Hp, Hl. simpl.
    by rewrite <- app_assoc.
Qed.

Lemma elem_of_failed_hosts (cm : gset TNetworkAddress)
    (m : gmap TNetworkAddress (gset TUniqueId)) (q : TUniqueId)
    (a : TNetworkAddress) :
  a ∈ failed_hosts cm (map_to_list m) q
  ↔ (a ∉ cm) ∧ ∃ qids, m !! a = Some qids ∧ q ∈ qids.
Proof.
  unfold failed_hosts. rewrite list_elem_of_fmap. split.
  - intros ([a' qids] & -> & Hin). apply list_elem_of_filter in Hin as [[Ha Hq] Hin].
    apply elem_of_map_to_list in Hin. simpl in *. eauto.
  - intros (Ha & qids & Hm & Hq). exists (a, qids). split; [done|].
    apply list_elem_of_filter. split; [done|]. by apply elem_of_map_to_list.
Qed.

Lemma NoDup_failed_hosts (cm : gset TNetworkAddress)
    (m : gmap TNetworkAddress (gset TUniqueId)) (q : TUniqueId) :
  NoDup (failed_hosts cm (map_to_list m) q).
Proof.
  unfold failed_hosts.
  eapply sublist_NoDup; [apply (NoDup_fst_map_to_list m)|].
  apply fmap_sublist, sublist_filter; apply _.
Qed.

(** C8. On a membership update, every backend of [query_locations_] that is
    absent from the new membership loses its entry. With room in the queue,
    exactly one work item is enqueued per query that had a fragment on such
    a backend: a cancel-kind item whose cause is
    "Cancelled due to unreachable impalad(s): " followed by the failed
    backends of that query, separated by ", ". Without room nothing is
    enqueued. *)
Theorem MembershipCallback_cancels
    (incoming_topic_deltas : gmap string TTopicDelta) (delta : TTopicDelta)
    (s : Srv) :
  incoming_topic_deltas !! IMPALA_MEMBERSHIP_TOPIC = Some delta →
  let s' := MembershipCallback env incoming_topic_deltas s in
  let membership := current_membership_of (update_known_backends env delta s) in
  let on_failed_backend (q : TUniqueId) (a : TNetworkAddress) : Prop :=
    (a ∉ membership)
    ∧ ∃ qids, query_locations_ s !! a = Some qids ∧ q ∈ qids in
  ∃ affected : gset TUniqueId,
    (∀ q, q ∈ affected ↔ ∃ a, on_failed_backend q a)
    ∧ (∀ a, query_locations_ s' !! a
            = if decide (a ∈ membership) then query_locations_ s !! a
              else None)
    ∧ (Z.of_nat (length (cancellation_thread_pool_ s))
         + Z.of_nat (size affected) ≤ MAX_CANCELLATION_QUEUE_SIZE →
       ∃ items,
         cancellation_thread_pool_ s' = cancellation_thread_pool_ s ++ items
         ∧ NoDup (cw_query_id <$> items)
         ∧ (∀ q, q ∈ cw_query_id <$> items ↔ q ∈ affected)
         ∧ ∀ w, w ∈ items →
             cw_unregister w = false
             ∧ ∃ hosts,
                 cw_cause w
                 = Status_of_msg ("Cancelled due to unreachable impalad(s): "
                                  +:+ join ", " (PrintAddr env <$> hosts))
                 ∧ NoDup hosts
                 ∧ ∀ a, a ∈ hosts ↔ on_failed_backend (cw_query_id w) a)
    ∧ (MAX_CANCELLATION_QUEUE_SIZE
         < Z.of_nat (length (cancellation_thread_pool_ s))
           + Z.of_nat (size affected) →
       cancellation_thread_pool_ s' = cancellation_thread_pool_ s).
Proof.
  intros Hd s' membership on_failed_backend.
  subst s'. unfold MembershipCallback. rewrite Hd.
  fold membership.
  destruct (update_known_backends_frame delta s) as [Hql0 Hpool0].
  set (s0 := update_known_backends env delta s) in *.
  unfold scan_query_locations.
  destruct (scan_fold membership (map_to_list (query_locations_ s0)) ∅ s0)
    as (Hm & Hl & Hp).
  match type of Hp with cancellation_thread_pool_ (snd ?r) = _ =>
    set (res := r) in * end.
  destruct res as [queries_to_cancel s1] eqn:Hres. simpl in Hm, Hl, Hp.
  clear Hres.
  rewrite Hql0 in Hm, Hl. rewrite Hpool0 in Hp.
  assert (Hq2c : ∀ q, queries_to_cancel !! q
      = if decide (failed_hosts membership (map_to_list (query_locations_ s)) q = [])
        then None
        else Some (failed_hosts membership (map_to_list (query_locations_ s)) q)).
  { intros q. rewrite Hm, lookup_empty. done. }
  clear Hm.
  assert (Hdom : ∀ q, is_Some (queries_to_cancel !! q)
                      ↔ ∃ a, on_failed_backend q a).
  { intros q. rewrite Hq2c. split.
    - destruct (decide (_ = [])) as [|Hne]; [by intros [? ?]|]. intros _.
      destruct (failed_hosts _ _ q) as [|a fh] eqn:Hfh; [done|].
      exists a. apply elem_of_failed_hosts. rewrite Hfh.
      apply elem_of_cons. by left.
    - intros [a Ha]. apply elem_of_failed_hosts in Ha.
      rewrite decide_False; [by eexists|].
      intros Hnil. rewrite Hnil in Ha. by apply elem_of_nil in Ha. }
  assert (Hloc : ∀ a, query_locations_ s1 !! a
      = if decide (a ∈ membership) then query_locations_ s !! a else None).
  { intros a. rewrite Hl. destruct (decide (a ∈ membership)) as [Ha|Ha].
    - rewrite decide_False; [done|]. by intros [? _].
    - destruct (decide _) as [|Hn]; [done|].
      destruct (query_locations_ s !! a) as [qids|] eqn:Hqa; [|done].
      exfalso. apply Hn. split; [done|].
      apply list_elem_of_fmap. exists (a, qids). split; [done|].
      by apply elem_of_map_to_list. }
  exists (dom queries_to_cancel).
  split; [intros q; rewrite elem_of_dom; apply Hdom|].
  rewrite size_dom, Hp.
  destruct (MAX_CANCELLATION_QUEUE_SIZE
              <? Z.of_nat (length (cancellation_thread_pool_ s))
                 + Z.of_nat (size queries_to_cancel)) eqn:Hfull.
  { apply Z.ltb_lt in Hfull. split; [done|]. split; [lia|done]. }
  apply Z.ltb_ge in Hfull.
  destruct (foldl_Offer
              (λ e : TUniqueId * list TNetworkAddress,
                 {| cw_query_id := e.1;
                    cw_cause := cancellation_cause env e.2;
                    cw_unregister := false |})
              (cancellation_entries queries_to_cancel) s1) as [Hpool' Hql'].
  cbv zeta in Hpool', Hql'. rewrite Hql'.
  split; [done|]. split; [|lia]. intros _.
  eexists. split; [rewrite Hpool', Hp; reflexivity|].
  assert (Hperm : cancellation_entries queries_to_cancel
                  ≡ₚ map_to_list queries_to_cancel)
    by apply merge_sort_Permutation.
  rewrite <- list_fmap_compose.
  change (cw_query_id ∘ _) with (fst : TUniqueId * list TNetworkAddress → _).
  split; [|split].
  - rewrite Hperm. apply NoDup_fst_map_to_list.
  - intros q. rewrite Hperm, elem_of_dom. split.
    + intros ([q' hosts] & -> & Hin)%list_elem_of_fmap.
      apply elem_of_map_to_list in Hin. by eexists.
    + intros [hosts Hq]. apply list_elem_of_fmap. exists (q, hosts).
      split; [done|]. by apply elem_of_map_to_list.
  - intros w ([q hosts] & -> & Hin)%list_elem_of_fmap.
    rewrite Hperm in Hin. apply elem_of_map_to_list in Hin.
    rewrite Hq2c in Hin. destruct (decide (_ = [])); [done|].
    injection Hin as <-. simpl. split; [done|].
    eexists. split; [reflexivity|]. split; [apply NoDup_failed_hosts|].
    intros a. apply elem_of_failed_hosts.
Qed.

End ServerProofs.

(** ** Closed examples of the server *)

(** Witness of C6: three queries archived with [--query_log_size=2]. *)
Lemma query_log_most_recent_first_bounded_witness :
  let flags := example_flags 2 0 in
  let qs := [example_query 1 0; example_query 2 0; example_query 3 0] in
  let s := archive_all flags 0 qs initial_server in
  id <$> query_log_ s = [example_id 3; example_id 2]
  ∧ Z.of_nat (length (query_log_ s)) ≤ Z.max 2 0
  ∧ query_log_index_ (ArchiveQuery flags 0 (example_query 4 0) s)
      !! example_id 2 = None.
Proof.
  intros flags qs s.
  destruct (query_log_most_recent_first_bounded flags 0 qs)
    as (H1 & H2 & _ & _ & _ & H6).
  split; [exact H1|]. split; [apply H2; vm_compute; discriminate|].
  apply (H6 (example_query 4 0)
            (QueryStateRecord_of (example_query 2 0) "profile")).
  - vm_compute. discriminate.
  - vm_compute. lia.
  - reflexivity.
Defined.

(** C6, counterexample: with [--query_log_size=-2] the log is not bounded
    by max(query_log_size, 0) = 0 although the flag is not -1. *)
Lemma query_log_size_negative_unbounded :
  let flags := example_flags (-2) 0 in
  let s := ArchiveQuery flags 0 (example_query 1 0) initial_server in
  FLAGS_query_log_size flags ≠ -1
  ∧ ¬ (Z.of_nat (length (query_log_ s))
       ≤ Z.max (FLAGS_query_log_size flags) 0).
Proof. vm_compute. split; [discriminate|]. intros Hle. by apply Hle. Qed.

(** Witness of C3: a query registered on the example server, unregistered
    twice. *)
Lemma UnregisterQuery_twice_witness :
  let flags := example_flags 25 0 in
  let env := example_env Status_OK Status_OK in
  let s := (RegisterQuery flags env 0 1%positive (example_query 7 0)
                          (example_server 0)).2 in
  ∃ s1, UnregisterQuery flags env 1 (example_id 7) None s = Returns true s1
        ∧ UnregisterQuery flags env 2 (example_id 7) None s1
          = Returns false s1.
Proof.
  intros flags env s.
  destruct (UnregisterQuery_twice flags env 1 2 (example_id 7) None None s)
    as [Hreg _].
  destruct Hreg as [Hex | (Hexit & _)].
  - vm_compute. by eexists.
  - exact Hex.
  - vm_compute in Hexit. discriminate.
Defined.

(** Witness of C10: planning fails after registration. *)
Lemma Execute_failure_unregisters_witness :
  let flags := example_flags 25 0 in
  let env := example_env (Status_of_msg "AnalysisException") Status_OK in
  ∃ st oe s',
    Execute flags env 0 (example_id 7) example_ctx 1%positive
            (example_server 0) = Returns (st, oe) s'
    ∧ ok st = false
    ∧ query_exec_state_map_ s' !! example_id 7 = None
    ∧ ∀ ss, session_heap s' !! 1%positive = Some ss →
            example_id 7 ∉ inflight_queries ss.
Proof.
  intros flags env.
  destruct (ExecuteInternal flags env 0
              (PrepareQueryContext (example_id 7) example_ctx) 1%positive
              (example_server 0)) as [[[st reg] oe] s1|] eqn:Hint;
    [|vm_compute in Hint; discriminate].
  assert (Hreg : reg = true) by (vm_compute in Hint; congruence).
  assert (Hst : ok st = false) by (vm_compute in Hint; by simplify_eq).
  subst reg.
  destruct (Execute flags env 0 (example_id 7) example_ctx 1%positive
              (example_server 0)) as [r s'|] eqn:Hex.
  - destruct (Execute_failure_unregisters flags env 0 (example_id 7)
                example_ctx 1%positive (example_server 0) s1 s' st oe r
                Hint Hst Hex) as (-> & _ & Hmap & Hin).
    by exists st, oe, s'.
  - vm_compute in Hex. discriminate.
Defined.

(** C10, counterexample: audit logging is on, the audit write fails and
    [--abort_on_failed_audit_event] is off.  [Execute] returns OK and the
    query stays registered and in flight. *)
Lemma Execute_failed_audit_keeps_query :
  let flags := example_flags_audit in
  let env := example_env Status_OK (Status_of_msg "disk full") in
  IsAuditEventLoggingEnabled flags = true
  ∧ (∀ e, ok (audit_AppendEntry env e) = false)
  ∧ ∃ oe s',
      Execute flags env 0 (example_id 7) example_ctx 1%positive
              (example_server 0) = Returns (Status_OK, oe) s'
      ∧ is_Some (query_exec_state_map_ s' !! example_id 7)
      ∧ ∃ ss, session_heap s' !! 1%positive = Some ss
              ∧ example_id 7 ∈ inflight_queries ss.
Proof.
  split; [reflexivity|]. split; [reflexivity|].
  eexists _, _. split; [vm_compute; reflexivity|].
  split; [vm_compute; by eexists|].
  eexists. split; [vm_compute; reflexivity|].
  vm_compute. reflexivity.
Qed.

(** Witness of C2: global timeout 10 s, per-query timeout 5 s, registered
    at clock 0. *)
Lemma RegisterQuery_idle_timeout_witness :
  let flags := example_flags 25 10 in
  let env := example_env Status_OK Status_OK in
  let s' := (RegisterQuery flags env 0 1%positive (example_query 7 5)
                           (example_server 0)).2 in
  queries_by_timestamp_ s' = [(5000, example_id 7)].
Proof.
  intros flags env s'.
  destruct (RegisterQuery_idle_timeout flags env 0 1%positive
              (example_query 7 5) (example_server 0) s' eq_refl)
    as (timeout_s & Hmin & _ & Hpos & _).
  assert (Ht : timeout_s = 5) by (apply Hmin; vm_compute; done).
  subst timeout_s. rewrite Hpos by lia. reflexivity.
Defined.

(** Witness of C7: an active lookup of the open example session. *)
Lemma GetSessionState_modes_witness :
  let flags := example_flags 25 0 in
  let env := example_env Status_OK Status_OK in
  ∃ s', GetSessionState flags env (example_id 100) None true
                        (example_server 0)
        = (Status_OK, Some 1%positive, s')
        ∧ ∃ ss', session_heap s' !! 1%positive = Some ss'
                 ∧ ref_count ss' = 1 ∧ last_accessed_ms ss' = 0.
Proof.
  intros flags env.
  destruct (GetSessionState_modes flags env (example_id 100) None
              (example_server 0)) as (_ & _ & Hactive).
  destruct (Hactive 1%positive (example_session 0) eq_refl eq_refl)
    as (status & handle & s' & Hget & _ & _ & Hopen).
  destruct (Hopen eq_refl eq_refl)
    as (-> & -> & _ & ss' & Hss & Href & Hlast & _).
  exists s'. split; [exact Hget|]. by exists ss'.
Defined.

(** C7, counterexample: an active lookup at clock 5000 of a session last
    accessed at 0 succeeds and leaves [last_accessed_ms] at 0. *)
Lemma GetSessionState_no_refresh :
  let flags := example_flags 25 0 in
  let env := example_env Status_OK Status_OK in
  let r := GetSessionState flags env (example_id 100) None true
                           (example_server 0) in
  r.1.1 = Status_OK ∧ r.1.2 = Some 1%positive
  ∧ ¬ refreshes_last_accessed 5000 r.2 1%positive.
Proof.
  split; [reflexivity|]. split; [reflexivity|].
  intros (ss & Hss & Hnow). vm_compute in Hss.
  injection Hss as <-. vm_compute in Hnow. discriminate.
Qed.

(** Witness of C8: the last two of three backends leave the cluster. *)
Lemma MembershipCallback_cancels_witness :
  let env := example_env Status_OK Status_OK in
  let s' := MembershipCallback env example_deltas example_cluster in
  query_locations_ s' !! example_backend 2 = None
  ∧ query_locations_ s' !! example_backend 1 = Some {[ example_id 1 ]}.
Proof.
  intros env s'.
  destruct (MembershipCallback_cancels env example_deltas
              {| is_delta := true; topic_entries := [];
                 topic_deletions := ["b2"; "b3"] |}
              example_cluster eq_refl) as (affected & _ & Hloc & _).
  split.
  - etrans; [apply (Hloc (example_backend 2))|]. vm_compute. reflexivity.
  - etrans; [apply (Hloc (example_backend 1))|]. vm_compute. reflexivity.
Defined.

(** ** The catalog update barrier *)

Module CatalogProofs.
Import Catalog.

Section Barrier.

Variable UpdateCatalogCache : TUpdateCatalogCacheRequest → Status.

(** The first wait ends at the first guarded state at which the barrier
    has passed; the thread was blocked at every state before it. *)
Lemma wait_processed_locally_ends (r : TCatalogUpdateResult)
    (cur : CatalogState) (wakeups : list CatalogState)
    (observed : CatalogState) (later : list CatalogState) :
  wait_processed_locally (version r) (result_catalog_service_id r) cur wakeups
    = Some (observed, later) →
  ∃ blocked, cur :: wakeups = blocked ++ observed :: later
    ∧ barrier_passed r observed
    ∧ Forall (λ c, ¬ barrier_passed r c) blocked.
Proof.
  revert cur. induction wakeups as [|next wakeups IH]; intros cur; simpl.
  - destruct (_ <? _) eqn:Hv; simpl.
    + case_bool_decide as Hs; [done|]. intros [= <- <-].
      exists []. split; [done|]. split; [|by constructor]. by right.
    + intros [= <- <-]. apply Z.ltb_ge in Hv.
      exists []. split; [done|]. split; [|by constructor].
      unfold barrier_passed.
      destruct (decide (catalog_service_id (catalog_update_info_ cur)
                        = result_catalog_service_id r)); [left|right]; done.
  - destruct (_ <? _) eqn:Hv; simpl.
    + case_bool_decide as Hs.
      * intros Hw. destruct (IH _ Hw) as (blocked & Heq & Hobs & Hbl).
        exists (cur :: blocked). split; [by rewrite Heq|]. split; [done|].
        constructor; [|done]. apply Z.ltb_lt in Hv.
        intros [[Hle _]|Hne]; [lia|done].
      * intros [= <- <-]. exists []. split; [done|].
        split; [|by constructor]. by right.
    + intros [= <- <-]. apply Z.ltb_ge in Hv.
      exists []. split; [done|]. split; [|by constructor].
      unfold barrier_passed.
      destruct (decide (catalog_service_id (catalog_update_info_ cur)
                        = result_catalog_service_id r)); [left|right]; done.
Qed.

(** The first wait does end when some guarded state lets the barrier
    pass. *)
Lemma wait_processed_locally_returns (r : TCatalogUpdateResult)
    (cur : CatalogState) (wakeups : list CatalogState) :
  Exists (barrier_passed r) (cur :: wakeups) →
  is_Some (wait_processed_locally (version r) (result_catalog_service_id r)
                                  cur wakeups).
Proof.
  revert cur. induction wakeups as [|next wakeups IH]; intros cur Hex; simpl.
  - destruct (_ <? _) eqn:Hv; simpl; [|by eexists].
    case_bool_decide as Hs; [|by eexists].
    apply Z.ltb_lt in Hv. exfalso.
    apply Exists_cons in Hex as [[[Hle _]|Hne]|Hex]; [lia|done|].
    by apply Exists_nil in Hex.
  - destruct (_ <? _) eqn:Hv; simpl; [|by eexists].
    case_bool_decide as Hs; [|by eexists].
    apply Z.ltb_lt in Hv. apply IH.
    apply Exists_cons in Hex as [[[Hle _]|Hne]|Hex]; [lia|done|done].
Qed.

(** C1. A call [ProcessCatalogUpdateResult(result, true)] that returns has
    seen, under the lock, a state of [catalog_update_info_] with
    [catalog_version >= result.version] under the service id of the result,
    or one whose service id differs from it; it was blocked at every state
    it saw before that one, and it returns OK. *)
Theorem ProcessCatalogUpdateResult_barrier (r : TCatalogUpdateResult)
    (cur : CatalogState) (wakeups : list CatalogState) (status : Status) :
  ProcessCatalogUpdateResult UpdateCatalogCache r true cur wakeups
    = Some status →
  status = Status_OK
  ∧ ∃ blocked observed later,
      cur :: wakeups = blocked ++ observed :: later
      ∧ barrier_passed r observed
      ∧ Forall (λ c, ¬ barrier_passed r c) blocked.
Proof.
  unfold ProcessCatalogUpdateResult.
  rewrite andb_false_r. simpl.
  destruct (wait_processed_locally _ _ cur wakeups) as [[observed later]|]
    eqn:Hw; [|done].
  destruct (wait_all_subscribers _ _ observed later); [|done].
  intros [= <-]. split; [done|].
  apply wait_processed_locally_ends in Hw as (blocked & ? & ? & ?).
  by exists blocked, observed, later.
Qed.

End Barrier.

(** Witness of C1: the result carries version 5; the thread is blocked at
    versions 3 and 4 and passes at version 6. *)
Lemma ProcessCatalogUpdateResult_barrier_witness :
  let r := example_update_result in
  let cur := example_catalog_state 3 0 0 (example_id 1) in
  let wakeups := [example_catalog_state 4 0 0 (example_id 1);
                  example_catalog_state 6 7 0 (example_id 1);
                  example_catalog_state 6 7 7 (example_id 1)] in
  ProcessCatalogUpdateResult (λ _, Status_OK) r true cur wakeups
    = Some Status_OK
  ∧ ∃ blocked observed later,
      cur :: wakeups = blocked ++ observed :: later
      ∧ barrier_passed r observed
      ∧ Forall (λ c, ¬ barrier_passed r c) blocked.
Proof.
  intros r cur wakeups. split; [reflexivity|].
  apply (ProcessCatalogUpdateResult_barrier (λ _, Status_OK) r cur wakeups
           Status_OK eq_refl).
Defined.

End CatalogProofs.

(** ** The fragment executor service *)

Module FragmentsProofs.
Import Fragments.

Section Service.

Variable Prepare : TExecPlanFragmentParams → Status.
Variable Cancel : FragPtr → Status.
Variable print_id : TUniqueId → string.

Lemma cancel_after_prepare_snoc (tr : list Event) (e : Event) :
  cancel_after_prepare tr →
  (∀ o, e = CancelCalled o → PrepareReturned o Status_OK ∈ tr) →
  cancel_after_prepare (tr ++ [e]).
Proof.
  intros Htr He i o Hi.
  destruct (decide (i < length tr)%nat) as [Hlt|Hge].
  - rewrite lookup_app_l in Hi by done.
    destruct (Htr i o Hi) as (j & Hj & Hlook).
    exists j. split; [done|]. rewrite lookup_app_l by lia. done.
  - rewrite lookup_app_r in Hi by lia.
    destruct (i - length tr)%nat as [|k] eqn:Hk; [|done].
    injection Hi as ->.
    specialize (He o eq_refl).
    apply list_elem_of_lookup in He as [j Hj].
    exists j. pose proof (lookup_lt_Some _ _ _ Hj).
    split; [lia|]. by rewrite lookup_app_l by done.
Qed.

Lemma service_invariant_initial : service_invariant initial_backend.
Proof.
  split; [|split]; simpl.
  - intros i o Hi. done.
  - intros fid o Hf. done.
  - intros o Ho. by apply not_elem_of_empty in Ho.
Qed.

Lemma service_invariant_step (b b' : Backend) :
  step Prepare Cancel print_id b b' →
  service_invariant b → service_invariant b'.
Proof.
  intros Hstep (Htr & Hmap & Hprep).
  destruct Hstep as [b p Hsink | b o p Hin Hobj | b o p Hin Hobj | b fid | b o p Hobj];
    simpl.
  - split; [|split]; simpl.
    + apply cancel_after_prepare_snoc; [done|]. by intros o [=].
    + intros fid o Hf. apply elem_of_app. left. by eapply Hmap.
    + intros o Ho. apply elem_of_app. left. by apply Hprep.
  - split; [|split]; simpl.
    + apply cancel_after_prepare_snoc; [done|]. by intros o' [=].
    + intros fid o' Hf. apply elem_of_app. left. by eapply Hmap.
    + intros o' Ho'. apply elem_of_app.
      destruct (ok (Prepare p)) eqn:Hok.
      * apply elem_of_union in Ho' as [->%elem_of_singleton|Ho'].
        -- right. apply ok_true_iff in Hok. rewrite Hok.
           by apply list_elem_of_singleton.
        -- left. by apply Hprep.
      * left. by apply Hprep.
  - split; [|split]; simpl.
    + apply cancel_after_prepare_snoc; [done|]. by intros o' [=].
    + intros fid o' Hf. apply elem_of_app. left.
      unfold map_insert_new in Hf. revert Hf.
      destruct (fragment_exec_state_map_ b !! _) eqn:Hold; intros Hf.
      * by eapply Hmap.
      * destruct (decide (fragment_instance_id p = fid)) as [<-|Hne].
        -- rewrite lookup_insert_eq in Hf. injection Hf as <-. by apply Hprep.
        -- rewrite lookup_insert_ne in Hf by done. by eapply Hmap.
    + intros o' [Ho' _]%elem_of_difference. apply elem_of_app. left.
      by apply Hprep.
  - unfold CancelPlanFragment, GetFragmentExecState.
    destruct (fragment_exec_state_map_ b !! fid) as [o|] eqn:Hf; simpl.
    + split; [|split]; simpl.
      * apply cancel_after_prepare_snoc; [done|].
        intros o' [= <-]. by eapply Hmap.
      * intros fid' o' Hf'. apply elem_of_app. left. by eapply Hmap.
      * intros o' Ho'. apply elem_of_app. left. by apply Hprep.
    + done.
  - split; [|split]; simpl; [done| |done].
    intros fid o' Hf. apply lookup_delete_Some in Hf as [_ Hf].
    by eapply Hmap.
Qed.

Lemma reachable_invariant (b : Backend) :
  reachable Prepare Cancel print_id b → service_invariant b.
Proof.
  unfold reachable. intros Hr.
  eapply (rtc_ind_r (λ b, service_invariant b)); [| |exact Hr].
  - apply service_invariant_initial.
  - intros b1 b2 _ Hstep IH. by eapply service_invariant_step.
Qed.

(** [StartPlanFragmentExecution] in terms of its three parts. *)
Lemma StartPlanFragmentExecution_parts (exec_params : TExecPlanFragmentParams)
    (b : Backend) :
  StartPlanFragmentExecution Prepare exec_params b
  = if negb (has_output_sink exec_params) then
      (Status_of_msg "missing sink in plan fragment", b)
    else if negb (ok (Prepare exec_params)) then
      (Prepare exec_params,
       (return_Prepare Prepare (length (objects b)) exec_params
                       (call_Prepare exec_params b).2).2)
    else
      (Status_OK,
       register_exec_state (length (objects b)) exec_params
         (return_Prepare Prepare (length (objects b)) exec_params
                         (call_Prepare exec_params b).2).2).
Proof. done. Qed.

(** [StartPlanFragmentExecution] is a run of the steps. *)
Lemma StartPlanFragmentExecution_steps (exec_params : TExecPlanFragmentParams)
    (b : Backend) :
  rtc (step Prepare Cancel print_id) b
      (StartPlanFragmentExecution Prepare exec_params b).2.
Proof.
  rewrite StartPlanFragmentExecution_parts.
  destruct (has_output_sink exec_params) eqn:Hsink; cbn [negb snd]; [|done].
  assert (H1 : step Prepare Cancel print_id b (call_Prepare exec_params b).2)
    by (by constructor).
  assert (H2 : step Prepare Cancel print_id (call_Prepare exec_params b).2
                 (return_Prepare Prepare (length (objects b)) exec_params
                                 (call_Prepare exec_params b).2).2).
  { apply step_return_Prepare.
    - simpl. apply elem_of_union. left. by apply elem_of_singleton.
    - simpl. rewrite lookup_app_r by done. by rewrite Nat.sub_diag. }
  destruct (ok (Prepare exec_params)) eqn:Hok; cbn [negb snd].
  - eapply rtc_l; [exact H1|]. eapply rtc_l; [exact H2|].
    apply rtc_once. apply step_register.
    + simpl. rewrite Hok. apply elem_of_union. left.
      by apply elem_of_singleton.
    + simpl. rewrite lookup_app_r by done. by rewrite Nat.sub_diag.
  - eapply rtc_l; [exact H1|]. by apply rtc_once.
Qed.

(** C4. In every state the service can reach, with the RPCs of all threads
    interleaved, each [Cancel()] on a [FragmentExecState] comes after the OK
    return of its [Prepare()]. [StartPlanFragmentExecution] calls
    [Prepare()] and waits for its return before it touches the fragment
    map, returns a [Prepare()] error at once without touching the map, and
    [CancelPlanFragment] cancels only the object it finds in the map and
    answers INTERNAL_ERROR for an unknown fragment id. *)
Theorem Cancel_never_before_Prepare :
  (∀ b, reachable Prepare Cancel print_id b → cancel_after_prepare (trace b))
  ∧ (∀ exec_params b,
       reachable Prepare Cancel print_id b →
       reachable Prepare Cancel print_id
                 (StartPlanFragmentExecution Prepare exec_params b).2)
  ∧ (∀ exec_params b,
       has_output_sink exec_params = true →
       let r := StartPlanFragmentExecution Prepare exec_params b in
       let o := length (objects b) in
       r.1 = (if ok (Prepare exec_params) then Status_OK
              else Prepare exec_params)
       ∧ trace r.2
         = trace b
           ++ [PrepareCalled o; PrepareReturned o (Prepare exec_params)]
           ++ (if ok (Prepare exec_params) then [ExecThreadStarted o] else [])
       ∧ fragment_exec_state_map_ r.2
         = if ok (Prepare exec_params)
           then map_insert_new (fragment_instance_id exec_params) o
                               (fragment_exec_state_map_ b)
           else fragment_exec_state_map_ b)
  ∧ (∀ fid b,
       fragment_exec_state_map_ b !! fid = None →
       ∃ msgs, CancelPlanFragment Cancel print_id fid b
               = ({| status_code := TStatusCode_INTERNAL_ERROR;
                     t_error_msgs := msgs |}, b))
  ∧ (∀ fid o b,
       fragment_exec_state_map_ b !! fid = Some o →
       trace (CancelPlanFragment Cancel print_id fid b).2
       = trace b ++ [CancelCalled o]).
Proof.
  split; [|split; [|split; [|split]]].
  - intros b Hb. by destruct (reachable_invariant b Hb) as [? _].
  - intros exec_params b Hb. unfold reachable in *.
    etrans; [exact Hb|]. apply StartPlanFragmentExecution_steps.
  - intros exec_params b Hsink r o. subst r.
    unfold StartPlanFragmentExecution. rewrite Hsink. simpl.
    destruct (ok (Prepare exec_params)); simpl;
      rewrite <- ?app_assoc; done.
  - intros fid b Hnone. unfold CancelPlanFragment, GetFragmentExecState.
    rewrite Hnone. simpl. by eexists.
  - intros fid o b Hsome. unfold CancelPlanFragment, GetFragmentExecState.
    by rewrite Hsome.
Qed.

End Service.

(** Witness of C4: one fragment is started, then cancelled by its id. *)
Lemma Cancel_never_before_Prepare_witness :
  let Prepare := (λ _, Status_OK) : TExecPlanFragmentParams → Status in
  let Cancel := (λ _, Status_OK) : FragPtr → Status in
  let print_id := (λ _, "id") : TUniqueId → string in
  let b1 := (StartPlanFragmentExecution Prepare (example_fragment 1)
                                        initial_backend).2 in
  let b2 := (CancelPlanFragment Cancel print_id (example_id 1) b1).2 in
  trace b2 = [PrepareCalled 0%nat; PrepareReturned 0%nat Status_OK;
              ExecThreadStarted 0%nat; CancelCalled 0%nat]
  ∧ cancel_after_prepare (trace b2).
Proof.
  intros Prepare Cancel print_id b1 b2. split; [reflexivity|].
  destruct (Cancel_never_before_Prepare Prepare Cancel print_id)
    as (Htrace & Hstart & _).
  apply Htrace. unfold reachable.
  eapply rtc_r; [apply Hstart, rtc_refl|apply step_cancel].
Defined.

End FragmentsProofs.

(** ** Proxy-user authorization *)

Module ProxyProofs.
Import Proxy.

Lemma find_from_ge (c : ascii) (s : string) (i : Z) :
  i + Z.of_nat (String.length s) < npos → i ≤ find_from c s i.
Proof.
  revert i. induction s as [|d r IH]; intros i Hlen; simpl in *.
  - lia.
  - destruct (Ascii.eqb d c); [lia|].
    specialize (IH (i + 1)). lia.
Qed.

(** Where the code cuts the principal, against the prefix before the first
    separator. *)
Lemma end_idx_spec (s : string) (i : Z) :
  i + Z.of_nat (String.length s) < npos →
  let end_idx := Z.min (find_from "/" s i) (find_from "@" s i) in
  (end_idx = npos ∧ spec_short_form s = s)
  ∨ (i ≤ end_idx < i + Z.of_nat (String.length s)
     ∧ spec_short_form s = str_take (Z.to_nat (end_idx - i)) s).
Proof.
  revert i. induction s as [|c r IH]; intros i Hlen; simpl in *.
  - left. split; [lia|done].
  - destruct (Ascii.eqb c "/") eqn:Hs; simpl.
    { right. pose proof (find_from_ge "@" (String c r) i) as Hge.
      simpl in Hge. specialize (Hge ltac:(lia)).
      rewrite Z.min_l by lia. split; [lia|]. by rewrite Z.sub_diag. }
    destruct (Ascii.eqb c "@") eqn:Ha; simpl.
    { right. pose proof (find_from_ge "/" r (i + 1)) as Hge.
      specialize (Hge ltac:(lia)).
      rewrite Z.min_r by lia. split; [lia|]. by rewrite Z.sub_diag. }
    destruct (IH (i + 1) ltac:(lia)) as [[He Hsf]|[He Hsf]].
    + left. split; [done|]. by rewrite Hsf.
    + right. split; [lia|]. rewrite Hsf.
      replace (Z.to_nat (Z.min (find_from "/" r (i + 1))
                               (find_from "@" r (i + 1)) - i))
        with (S (Z.to_nat (Z.min (find_from "/" r (i + 1))
                                 (find_from "@" r (i + 1)) - (i + 1))))
        by lia.
      done.
Qed.

(** The short user name the code computes is [short_form]. *)
Lemma short_user_correct (user : string) :
  Z.of_nat (String.length user) < npos →
  (if (Z.min (find user "/") (find user "@") =? npos)
      || (Z.min (find user "/") (find user "@") =? 0)
   then user
   else substr user 0 (Z.min (find user "/") (find user "@")))
  = short_form user.
Proof.
  intros Hlen. unfold find, short_form.
  destruct (end_idx_spec user 0 ltac:(lia)) as [[He Hsf]|[He Hsf]]; simpl in *.
  - rewrite He, Z.eqb_refl. simpl. rewrite Hsf. by destruct user.
  - rewrite Z.sub_0_r in Hsf.
    destruct (_ =? npos) eqn:Hn; [apply Z.eqb_eq in Hn; lia|]. simpl.
    destruct (_ =? 0) eqn:Hz.
    + apply Z.eqb_eq in Hz. rewrite Hz in Hsf. simpl in Hsf.
      by rewrite Hsf.
    + apply Z.eqb_neq in Hz. unfold substr. simpl. rewrite Hsf.
      destruct (Z.to_nat _) as [|n] eqn:Hk; [lia|].
      destruct user as [|c r]; [simpl in He; lia|]. done.
Qed.

(** C5 (amended). [AuthorizeProxyUser] returns OK exactly when the user is
    not empty and its short form, the part before the first '/' or '@', or
    the whole principal when there is none or when it stands first, is a key
    of the configuration whose value set holds the requested user or "*";
    it refuses an empty user and an empty configuration. With the flag
    "root=alice,bob;svc=*", free of blanks, the three delegations of the
    specification come out as it says. *)
Theorem AuthorizeProxyUser_spec (cfg : ProxyUserMap) (user do_as_user : string) :
  Z.of_nat (String.length user) < npos →
  (AuthorizeProxyUser cfg user do_as_user = Status_OK
   ↔ user ≠ "" ∧ permitted cfg (short_form user) do_as_user)
  ∧ (user = "" → AuthorizeProxyUser cfg user do_as_user ≠ Status_OK)
  ∧ (cfg = ∅ → AuthorizeProxyUser cfg user do_as_user ≠ Status_OK)
  ∧ ∃ example,
      parse_authorized_proxy_user_config "root=alice,bob;svc=*" = Some example
      ∧ AuthorizeProxyUser example "root@EXAMPLE" "alice" = Status_OK
      ∧ AuthorizeProxyUser example "root/host@EXAMPLE" "carol" ≠ Status_OK
      ∧ AuthorizeProxyUser example "svc" "anyone" = Status_OK.
Proof.
  intros Hlen.
  assert (Hiff : AuthorizeProxyUser cfg user do_as_user = Status_OK
                 ↔ user ≠ "" ∧ permitted cfg (short_form user) do_as_user).
  { unfold AuthorizeProxyUser, permitted.
    case_bool_decide as Hu.
    { split; [intros Hok; discriminate Hok|]. intros [Hne _]. by destruct Hne. }
    case_bool_decide as Hsz.
    { apply map_size_empty_iff in Hsz. subst cfg. split; [done|].
      intros (_ & allowed & Hl & _). by rewrite lookup_empty in Hl. }
    cbv zeta. rewrite (short_user_correct user Hlen).
    destruct (cfg !! short_form user) as [allowed|] eqn:Hl.
    - case_bool_decide as Hex.
      + split; [|done]. intros _. split; [done|]. exists allowed.
        split; [done|]. apply Exists_exists in Hex as (u & Hin & Hor).
        apply elem_of_elements in Hin. destruct Hor as [->| ->]; auto.
      + split; [done|]. intros (_ & allowed' & [= <-] & Hor).
        exfalso. apply Hex, Exists_exists.
        destruct Hor as [Hin|Hin]; eexists; (split; [by apply elem_of_elements|]);
          auto.
    - split; [done|]. by intros (_ & allowed & ? & _). }
  split; [done|]. split; [|split].
  - intros Hu Hok. apply Hiff in Hok as [? _]. done.
  - intros -> Hok. apply Hiff in Hok as (_ & allowed & Hl & _).
    by rewrite lookup_empty in Hl.
  - eexists. split; [vm_compute; reflexivity|].
    split; [vm_compute; reflexivity|]. split; [|vm_compute; reflexivity].
    vm_compute. discriminate.
Qed.

(** Witness of C5. *)
Lemma AuthorizeProxyUser_spec_witness :
  AuthorizeProxyUser {[ "root" := {[ "alice" ]} ]} "root@EXAMPLE" "alice"
    = Status_OK
  ↔ "root@EXAMPLE" ≠ ""
    ∧ permitted {[ "root" := {[ "alice" ]} ]} (short_form "root@EXAMPLE") "alice".
Proof.
  apply (AuthorizeProxyUser_spec {[ "root" := {[ "alice" ]} ]}
           "root@EXAMPLE" "alice").
  vm_compute. reflexivity.
Defined.

(** C5, counterexample. With the flag of the specification,
    "root=alice,bob; svc=*", the entry after the blank is keyed " svc" and
    [AuthorizeProxyUser("svc", "anyone")] is refused; and a principal that
    starts with '@' is looked up whole, so a delegation is permitted
    although the part before the first '@', the empty string, is no key. *)
Lemma AuthorizeProxyUser_counterexample :
  (∃ cfg, parse_authorized_proxy_user_config "root=alice,bob; svc=*" = Some cfg
          ∧ AuthorizeProxyUser cfg "svc" "anyone" ≠ Status_OK)
  ∧ (∃ cfg, parse_authorized_proxy_user_config "@foo=*" = Some cfg
            ∧ AuthorizeProxyUser cfg "@foo" "alice" = Status_OK
            ∧ ¬ permitted cfg (spec_short_form "@foo") "alice").
Proof.
  split.
  - eexists. split; [vm_compute; reflexivity|]. vm_compute. discriminate.
  - eexists. split; [vm_compute; reflexivity|].
    split; [vm_compute; reflexivity|].
    intros (allowed & Hl & _). vm_compute in Hl. discriminate.
Qed.

End ProxyProofs.

(** ** Strings *)

Lemma str_app_cons (c : ascii) (r s : string) :
  String c r +:+ s = String c (r +:+ s).
Proof. reflexivity. Qed.

Lemma str_app_nil_l (s : string) : "" +:+ s = s.
Proof. reflexivity. Qed.

Lemma str_app_nil_r (s : string) : s +:+ "" = s.
Proof.
  induction s as [|c r IH]; [done|]. by rewrite str_app_cons, IH.
Qed.

Lemma str_app_assoc (a b c : string) : (a +:+ b) +:+ c = a +:+ (b +:+ c).
Proof.
  induction a as [|x a IH]; [done|]. by rewrite !str_app_cons, IH.
Qed.

Lemma str_forallb_app (p : ascii → bool) (a b : string) :
  str_forallb p (a +:+ b) = str_forallb p a && str_forallb p b.
Proof.
  induction a as [|x a IH]; [done|].
  rewrite str_app_cons. simpl. by rewrite IH, andb_assoc.
Qed.

Lemma str_forallb_impl (p q : ascii → bool) (s : string) :
  (∀ c, p c = true → q c = true) →
  str_forallb p s = true → str_forallb q s = true.
Proof.
  intros Hpq. induction s as [|c r IH]; simpl; [done|].
  intros [Hc Hr]%andb_true_iff. rewrite (Hpq _ Hc). by apply IH.
Qed.

(** A piece without separators is read as one piece. *)
Lemma split_go_nosep (pred : ascii → bool) (tok : string) (b : bool)
    (v : string) :
  str_forallb (λ c, negb (pred c)) v = true →
  split_go pred tok b v = [tok +:+ v].
Proof.
  revert tok b. induction v as [|c r IH]; intros tok b; simpl.
  - intros _. by rewrite str_app_nil_r.
  - intros [Hc Hr]%andb_true_iff. apply negb_true_iff in Hc. rewrite Hc.
    rewrite IH by done. by rewrite str_app_assoc, str_app_cons, str_app_nil_l.
Qed.

(** A non-empty piece without separators, followed by a separator. *)
Lemma split_go_token (pred : ascii → bool) (b : bool) (t : string)
    (c : ascii) (rest : string) :
  t ≠ "" →
  str_forallb (λ c, negb (pred c)) t = true →
  pred c = true →
  split_go pred "" b (t +:+ String c rest) = t :: split_go pred "" true rest.
Proof.
  intros Hne Ht Hc.
  assert (Hgen : ∀ tok b', split_go pred tok b' (t +:+ String c rest)
                 = (if b' then
                      match t with "" => [] | _ => [tok +:+ t] end
                    else [tok +:+ t])
                   ++ split_go pred "" true rest).
  { clear Hne. induction t as [|x t IH]; intros tok b'.
    - rewrite str_app_nil_l. simpl. rewrite Hc.
      destruct b'; [done|]. by rewrite str_app_nil_r.
    - simpl in Ht. apply andb_true_iff in Ht as [Hx Ht].
      apply negb_true_iff in Hx. rewrite str_app_cons. simpl.
      rewrite Hx, (IH Ht). simpl.
      rewrite str_app_assoc, str_app_cons, str_app_nil_l.
      by destruct b', t. }
  rewrite Hgen, str_app_nil_l. destruct t; [done|]. by destruct b.
Qed.

(** Splitting a joined list of non-empty pieces without separators gives
    the pieces back. *)
Lemma split_join (sep : ascii) (toks : list string) :
  toks ≠ [] →
  Forall (λ t, t ≠ "" ∧ str_forallb (λ c, negb (Ascii.eqb c sep)) t = true)
         toks →
  split (is_any_of (String sep "")) (join (String sep "") toks) = toks.
Proof.
  intros Hne Hall. unfold split.
  assert (Hpred : ∀ t, str_forallb (λ c, negb (Ascii.eqb c sep)) t = true →
            str_forallb (λ c, negb (is_any_of (String sep "") c)) t = true).
  { intros t. apply str_forallb_impl. intros c. simpl.
    by rewrite orb_false_r. }
  assert (Hgen : ∀ b, split_go (is_any_of (String sep "")) "" b
                        (join (String sep "") toks) = toks).
  { induction Hall as [|t toks [Ht1 Ht2] Hall IH]; [done|]. intros b.
    destruct toks as [|t' toks'].
    - simpl. rewrite split_go_nosep by auto. by rewrite str_app_nil_l.
    - change (join (String sep "") (t :: t' :: toks'))
        with (t +:+ String sep (join (String sep "") (t' :: toks'))).
      rewrite split_go_token; [|done|auto|].
      + by rewrite IH.
      + simpl. by rewrite Ascii.eqb_refl. }
  apply Hgen.
Qed.

Lemma trim_right_app (a b : string) :
  b ≠ "" → trim_right b = b → trim_right (a +:+ b) = a +:+ b.
Proof.
  intros Hne Hb. induction a as [|c a IH]; [done|].
  rewrite str_app_cons. simpl. rewrite IH.
  destruct (a +:+ b) eqn:Hab; [|done].
  destruct a; [by rewrite str_app_nil_l in Hab|by rewrite str_app_cons in Hab].
Qed.

Lemma trim_right_cons (c : ascii) (v : string) :
  is_space c = false → trim_right v = v → trim_right (String c v) = String c v.
Proof. intros Hc Hv. simpl. rewrite Hv, Hc. by destruct v. Qed.

Lemma trim_right_nospace (v : string) :
  str_forallb (λ c, negb (is_space c)) v = true → trim_right v = v.
Proof.
  induction v as [|c r IH]; simpl; [done|].
  intros [Hc Hr]%andb_true_iff. apply negb_true_iff in Hc.
  rewrite (IH Hr), Hc. by destruct r.
Qed.

(** ** Query options *)

Module OptionsProofs.
Import Options.

(** *** Numbers *)

Lemma read_uint_string_of_uint (d : Decimal.uint) :
  read_uint (string_of_uint d) = d.
Proof. induction d; simpl; by f_equal. Qed.

Lemma strtol_print_int (z : Z) : in_int64 z → strtol (print_int z) = z.
Proof.
  intros Hz. unfold strtol, print_int.
  assert (Hclamp : clamp_int64 z = z) by (unfold clamp_int64, in_int64 in *; lia).
  pose proof (DecimalZ.of_to z) as Hof.
  destruct (Z.to_int z) as [d|d]; cbn [Z.of_int] in Hof.
  - transitivity (clamp_int64 z); [f_equal|exact Hclamp]. rewrite <- Hof.
    destruct d; cbn [string_of_uint];
      cbv -[Z.of_uint read_uint string_of_uint]; cbn [read_uint];
      rewrite ?read_uint_string_of_uint; done.
  - transitivity (clamp_int64 z); [f_equal|exact Hclamp]. rewrite <- Hof.
    cbv -[Z.of_uint read_uint string_of_uint Z.opp].
    by rewrite read_uint_string_of_uint.
Qed.

Lemma atol_print_int (z : Z) : in_int64 z → atol (print_int z) = z.
Proof. apply strtol_print_int. Qed.

Lemma atoi_print_int (z : Z) : in_int32 z → atoi (print_int z) = z.
Proof.
  intros Hz. unfold atoi. rewrite strtol_print_int.
  - unfold to_int32, in_int32 in *. rewrite Z.mod_small by lia. lia.
  - unfold in_int32, in_int64 in *. lia.
Qed.

Lemma parse_bool_print (b : bool) :
  iequals (print_bool b) "true" || iequals (print_bool b) "1" = b.
Proof. by destruct b. Qed.

(** *** The printed values can stand in a key=value list *)

Lemma number_char_plain (c : ascii) :
  is_number_char c = true →
  negb (is_any_of ",=" c) = true ∧ negb (is_space c) = true.
Proof.
  destruct c as [[] [] [] [] [] [] [] []]; vm_compute; intros; try done.
Qed.

Lemma string_of_uint_number (d : Decimal.uint) :
  str_forallb is_number_char (string_of_uint d) = true.
Proof. induction d; simpl; done. Qed.

Lemma print_int_number (z : Z) : str_forallb is_number_char (print_int z) = true.
Proof.
  unfold print_int. destruct (Z.to_int z); simpl;
    by rewrite string_of_uint_number.
Qed.

Lemma value_ok_print_int (z : Z) : value_ok (print_int z).
Proof.
  split.
  - eapply str_forallb_impl; [|apply print_int_number].
    intros c Hc. by apply number_char_plain.
  - apply trim_right_nospace.
    eapply str_forallb_impl; [|apply print_int_number].
    intros c Hc. by apply number_char_plain.
Qed.

Lemma value_ok_print_bool (b : bool) : value_ok (print_bool b).
Proof. by destruct b. Qed.

Lemma value_ok_print_compression (c : THdfsCompression) :
  value_ok (print_compression c).
Proof. by destruct c. Qed.

(** *** The entries of the serialised map *)

(** The options in the order of their names, the order in which a
    [std::map<string, string>] is walked. *)
Lemma config_entries_by_name (f : TImpalaQueryOptions → string) :
  config_entries
    (foldl (λ configuration itr, <[itr.2 := f itr.1]> configuration)
           ∅ _TImpalaQueryOptions_VALUES_TO_NAMES)
  = [("ABORT_ON_DEFAULT_LIMIT_EXCEEDED", f ABORT_ON_DEFAULT_LIMIT_EXCEEDED);
     ("ABORT_ON_ERROR", f ABORT_ON_ERROR);
     ("ALLOW_UNSUPPORTED_FORMATS", f ALLOW_UNSUPPORTED_FORMATS);
     ("BATCH_SIZE", f BATCH_SIZE);
     ("COMPRESSION_CODEC", f COMPRESSION_CODEC);
     ("DEBUG_ACTION", f DEBUG_ACTION);
     ("DEFAULT_ORDER_BY_LIMIT", f DEFAULT_ORDER_BY_LIMIT);
     ("DISABLE_CACHED_READS", f DISABLE_CACHED_READS);
     ("DISABLE_CODEGEN", f DISABLE_CODEGEN);
     ("DISABLE_OUTERMOST_TOPN", f DISABLE_OUTERMOST_TOPN);
     ("EXPLAIN_LEVEL", f EXPLAIN_LEVEL);
     ("HBASE_CACHE_BLOCKS", f HBASE_CACHE_BLOCKS);
     ("HBASE_CACHING", f HBASE_CACHING);
     ("MAX_BLOCK_MGR_MEMORY", f MAX_BLOCK_MGR_MEMORY);
     ("MAX_ERRORS", f MAX_ERRORS);
     ("MAX_IO_BUFFERS", f MAX_IO_BUFFERS);
     ("MAX_SCAN_RANGE_LENGTH", f MAX_SCAN_RANGE_LENGTH);
     ("MEM_LIMIT", f MEM_LIMIT);
     ("NUM_NODES", f NUM_NODES);
     ("NUM_SCANNER_THREADS", f NUM_SCANNER_THREADS);
     ("PARQUET_FILE_SIZE", f PARQUET_FILE_SIZE);
     ("QUERY_TIMEOUT_S", f QUERY_TIMEOUT_S);
     ("REQUEST_POOL", f REQUEST_POOL);
     ("RESERVATION_REQUEST_TIMEOUT", f RESERVATION_REQUEST_TIMEOUT);
     ("RM_INITIAL_MEM", f RM_INITIAL_MEM);
     ("SYNC_DDL", f SYNC_DDL);
     ("V_CPU_CORES", f V_CPU_CORES)].
Proof. vm_compute. reflexivity. Qed.

(** *** One key=value piece *)

Lemma sepfree_comma (v : string) :
  str_forallb (λ c, negb (is_any_of ",=" c)) v = true →
  str_forallb (λ c, negb (Ascii.eqb c ",")) v = true.
Proof.
  apply str_forallb_impl. intros c. simpl.
  destruct (Ascii.eqb c ","); simpl; done.
Qed.

Lemma sepfree_eq (v : string) :
  str_forallb (λ c, negb (is_any_of ",=" c)) v = true →
  str_forallb (λ c, negb (is_any_of "=" c)) v = true.
Proof.
  apply str_forallb_impl. intros c. simpl.
  destruct (Ascii.eqb c ","), (Ascii.eqb c "="); simpl; done.
Qed.

(** The piece [k=v] is not empty and holds no ','. *)
Lemma token_ok (k v : string) :
  key_ok k = true → value_ok v →
  k +:+ "=" +:+ v ≠ ""
  ∧ str_forallb (λ c, negb (Ascii.eqb c ",")) (k +:+ "=" +:+ v) = true.
Proof.
  unfold key_ok. intros [[Hk1 Hk2]%andb_true_iff Hk3]%andb_true_iff [Hv1 Hv2].
  split.
  - destruct k; [done|]. by rewrite str_app_cons.
  - rewrite !str_forallb_app, (sepfree_comma k Hk2), (sepfree_comma v Hv1).
    done.
Qed.

Section Parser.

Variable ParseMemSpec : string → Z * bool.
Hypothesis ParseMemSpec_bytes_ok : reads_byte_counts ParseMemSpec.

Lemma ParseMemValue_print_int (n : Z) (key : string) :
  in_mem_range n → ParseMemValue ParseMemSpec (print_int n) key = (Status_OK, n).
Proof.
  intros Hn. unfold ParseMemValue. rewrite (ParseMemSpec_bytes_ok n Hn).
  destruct (n <? 0) eqn:Hneg; [|done].
  apply Z.ltb_lt in Hneg. unfold in_mem_range in Hn. lia.
Qed.

(** The loop of [ParseQueryOptions] on a piece [k=v]. *)
Lemma parse_kv_step (k v : string) (rest : list string)
    (qo qo' : TQueryOptions) :
  key_ok k = true → value_ok v →
  SetQueryOptions ParseMemSpec k v qo = (Status_OK, qo') →
  parse_kv_pairs ParseMemSpec ((k +:+ "=" +:+ v) :: rest) qo
  = parse_kv_pairs ParseMemSpec rest qo'.
Proof.
  unfold key_ok.
  intros [[Hk1 Hk2]%andb_true_iff Hk3]%andb_true_iff [Hv1 Hv2] Hset.
  apply negb_true_iff, bool_decide_eq_false in Hk1.
  apply bool_decide_eq_true in Hk3.
  assert (Htrim : trim (k +:+ "=" +:+ v) = k +:+ "=" +:+ v).
  { unfold trim.
    assert (Hl : trim_left (k +:+ "=" +:+ v) = k +:+ "=" +:+ v).
    { destruct k as [|c k]; [done|]. rewrite str_app_cons.
      simpl in Hk3 |- *. destruct (is_space c); [|done].
      exfalso. clear -Hk3.
      assert (Hlen : ∀ s, (String.length (trim_left s) ≤ String.length s)%nat).
      { induction s as [|x s IH]; simpl; [done|].
        destruct (is_space x); simpl; lia. }
      specialize (Hlen k). rewrite Hk3 in Hlen. simpl in Hlen. lia. }
    rewrite Hl. apply trim_right_app.
    - by rewrite str_app_cons.
    - rewrite str_app_cons, str_app_nil_l. by apply trim_right_cons. }
  assert (Hsplit : split (is_any_of "=") (k +:+ "=" +:+ v) = [k; v]).
  { unfold split. rewrite str_app_cons, str_app_nil_l.
    rewrite split_go_token; [|done|by apply sepfree_eq|done].
    rewrite split_go_nosep by (by apply sepfree_eq).
    by rewrite str_app_nil_l. }
  cbn [parse_kv_pairs]. rewrite Htrim.
  rewrite bool_decide_eq_false_2.
  2:{ destruct k; [done|]. by rewrite str_app_cons. }
  rewrite Hsplit, Hset. done.
Qed.

Lemma SetQueryOptions_compression (c : THdfsCompression) (qo : TQueryOptions) :
  SetQueryOptions ParseMemSpec "COMPRESSION_CODEC" (print_compression c) qo
  = (Status_OK, set_compression_codec c qo).
Proof. by destruct c. Qed.

Lemma SetQueryOptions_explain_level (l : TExplainLevel) (qo : TQueryOptions) :
  SetQueryOptions ParseMemSpec "EXPLAIN_LEVEL"
                  (print_int (TExplainLevel_value l)) qo
  = (Status_OK, set_explain_level l qo).
Proof. by destruct l. Qed.

(** Solves [SetQueryOptions k v qo = (Status_OK, ?qo')] for a printed
    value [v]. *)
Ltac set_option :=
  first
    [ apply SetQueryOptions_compression
    | apply SetQueryOptions_explain_level
    | unfold SetQueryOptions;
      match goal with
      | |- context [GetQueryOption ?k] =>
          let r := eval vm_compute in (GetQueryOption k) in
          change (GetQueryOption k) with r
      end;
      lazy beta iota;
      rewrite ?parse_bool_print, ?atoi_print_int, ?atol_print_int,
        ?ParseMemValue_print_int by assumption;
      lazy beta iota;
      reflexivity ].

Create HintDb options_db.
#[local] Hint Resolve value_ok_print_int value_ok_print_bool
  value_ok_print_compression : options_db.

(** C9 (amended). For query options whose integers fit their C type, whose
    memory sizes are non-negative and whose strings hold no ',' and no '='
    and do not end in white space, parsing the key=value pairs of
    [TQueryOptionsToMap], joined by ',', with [ParseQueryOptions] returns OK
    and yields the same options, whatever options the parse starts from;
    [ParseMemSpec] is assumed to read a plain byte count as itself. *)
Theorem ParseQueryOptions_roundtrip (opts base : TQueryOptions) :
  roundtrippable opts →
  ParseQueryOptions ParseMemSpec (QueryOptionsToString opts) base
  = (Status_OK, opts).
Proof.
  intros (H1 & H2 & H3 & H4 & H5 & H6 & H7 & H8 & H9 & H10 & H11 & H12
          & H13 & H14 & H15 & H16 & H17 & H18).
  unfold QueryOptionsToString, TQueryOptionsToMap.
  rewrite (config_entries_by_name (λ o, option_value o opts)).
  cbn [fmap list_fmap fst snd option_value].
  unfold ParseQueryOptions.
  rewrite bool_decide_eq_false_2.
  2:{ cbn [join]. by rewrite str_app_cons. }
  rewrite split_join.
  2: done.
  2:{ repeat (apply Forall_cons; split;
                [apply token_ok; [reflexivity|auto with options_db]|]).
      by constructor. }
  repeat (erewrite parse_kv_step;
            [|reflexivity|by auto with options_db|set_option]).
  cbn [parse_kv_pairs]. f_equal.
  rewrite H10. by destruct opts.
Qed.

End Parser.

Lemma ParseMemSpec_bytes_reads_byte_counts :
  reads_byte_counts ParseMemSpec_bytes.
Proof.
  intros n Hn. unfold ParseMemSpec_bytes. rewrite atol_print_int; [done|].
  unfold in_mem_range, in_int64 in *. lia.
Qed.

Lemma roundtrippable_example_options : roundtrippable example_options.
Proof.
  unfold roundtrippable, in_int32, in_int64, in_mem_range, value_ok.
  repeat split; try reflexivity; simpl; lia.
Qed.

(** Witness of C9: the example options, parsed on top of options that
    differ from them. *)
Lemma ParseQueryOptions_roundtrip_witness :
  ParseQueryOptions ParseMemSpec_bytes (QueryOptionsToString example_options)
                    (set_batch_size 0 example_options)
  = (Status_OK, example_options).
Proof.
  apply (ParseQueryOptions_roundtrip ParseMemSpec_bytes
           ParseMemSpec_bytes_reads_byte_counts example_options
           (set_batch_size 0 example_options)
           roundtrippable_example_options).
Defined.

(** Whatever [ParseMemSpec] does, options whose debug action holds a ','
    are not read back: the text after the ',' is taken for a key=value
    pair of its own. *)
Lemma ParseQueryOptions_comma_fails (ParseMemSpec : string → Z * bool) :
  (ParseQueryOptions ParseMemSpec
     (QueryOptionsToString (set_debug_action "a,b" example_options))
     example_options).1
  = Status_of_msg ("Ignoring invalid configuration option b"
                   +:+ ": bad format (expected key=value)").
Proof. vm_compute. reflexivity. Qed.

(** C9, counterexample: the example options with the debug action "a,b".
    Parsing their serialised form does not return OK. *)
Lemma ParseQueryOptions_roundtrip_counterexample :
  let opts := set_debug_action "a,b" example_options in
  let r := ParseQueryOptions ParseMemSpec_bytes (QueryOptionsToString opts)
                             example_options in
  ok r.1 = false ∧ r ≠ (Status_OK, opts).
Proof. vm_compute. split; [reflexivity|discriminate]. Qed.

End OptionsProofs.

(* ===================================================================== *)
(** * Further properties                                                  *)
(* ===================================================================== *)

(** ** Status and its thrift form *)

(** X1. A status and its thrift form. Assigning the thrift form of a
    status to a status gives the status back: [operator=(const TStatus&)]
    undoes [ToThrift], for OK, for an error with messages and for an error
    without any. The constructor [Status(const TStatus&)] does so too,
    except that an error without messages comes back as OK: it looks at
    the messages only, so that the status it builds is OK exactly when the
    thrift form carries no message, whatever the status code says, while
    the assignment gives OK exactly when the status code is OK. *)
Theorem Status_thrift_roundtrip :
  (∀ s : Status, Status_assign_TStatus (ToThrift s) = s)
  ∧ (∀ s : Status,
       Status_of_TStatus (ToThrift s)
       = if bool_decide (GetErrorMsgs s = []) then Status_OK else s)
  ∧ (∀ t : TStatus, ok (Status_of_TStatus t) = true ↔ t_error_msgs t = [])
  ∧ (∀ t : TStatus,
       ok (Status_assign_TStatus t) = true ↔ status_code t = TStatusCode_OK).
Proof.
  split; [|split; [|split]].
  - by intros [[msgs]|].
  - intros [[msgs]|]; unfold Status_of_TStatus, ToThrift, GetErrorMsgs; simpl.
    + by destruct (bool_decide (msgs = [])).
    + done.
  - intros t. unfold Status_of_TStatus.
    case_bool_decide; simpl; split; intros; done.
  - intros t. unfold Status_assign_TStatus.
    case_bool_decide; simpl; split; intros; done.
Qed.

(** ** The query log and its index *)

Section ArchiveProofs.

Context {QBody : Type} `{QueryExecStateOps QBody}.
Variable flags : Flags.
Variable env : ExecEnv.

#[local] Abbreviation Srv' := (ImpalaServer (QBody:=QBody)).

(** Archiving a query whose id is not in the log keeps the ids of the log
    distinct and the index in step with the log. *)
Lemma ArchiveQuery_agree (now : Z) (q : QueryExecState QBody) (s : Srv') :
  NoDup (id <$> query_log_ s) →
  log_index_agree s →
  query_id_of q ∉ id <$> query_log_ s →
  NoDup (id <$> query_log_ (ArchiveQuery flags now q s))
  ∧ log_index_agree (ArchiveQuery flags now q s).
Proof.
  intros Hnd Hag Hfresh. unfold log_index_agree in *.
  assert (Hins : ∀ (r : QueryStateRecord QBody) i r',
    id r = query_id_of q →
    (<[query_id_of q := r]> (query_log_index_ s) !! i = Some r'
     ↔ r' ∈ r :: query_log_ s ∧ id r' = i)).
  { intros r i r' Hid. destruct (decide (i = query_id_of q)) as [->|Hne].
    - rewrite lookup_insert_eq. split.
      + intros [= <-]. split; [left|done].
      + intros [[->|Hin]%elem_of_cons Hi]; [done|].
        exfalso. apply Hfresh. apply list_elem_of_fmap. by exists r'.
    - rewrite lookup_insert_ne by done. rewrite Hag. split.
      + intros [Hin Hi]. split; [by right|done].
      + intros [[->|Hin]%elem_of_cons Hi]; [congruence|done]. }
  destruct (ArchiveQuery_cases flags now q s)
    as [(_ & -> & Hix) | (_ & r & Hid & [(_ & -> & Hix) | (Hn & Hle & -> & back & Hback & Hix)])].
  - split; [done|]. intros i r. rewrite Hix. apply Hag.
  - split.
    + rewrite fmap_cons, Hid. by apply NoDup_cons.
    + intros i r'. rewrite Hix. by apply Hins.
  - destruct (query_log_ s) as [|x l] eqn:Hlog using rev_ind;
      [simpl in Hle; lia|]. clear IHl.
    change (r :: l ++ [x]) with ((r :: l) ++ [x]) in *.
    rewrite last_snoc in Hback. injection Hback as <-.
    rewrite removelast_last.
    rewrite fmap_app in Hnd, Hfresh. simpl in Hnd, Hfresh.
    apply NoDup_app in Hnd as (Hndl & Hdisj & _).
    assert (Hxl : id x ∉ id <$> l).
    { intros Hin. apply (Hdisj _ Hin). by left. }
    assert (Hxq : id x ≠ query_id_of q).
    { intros Heq. apply Hfresh. apply elem_of_app. right. rewrite Heq. by left. }
    split.
    + rewrite fmap_cons, Hid. apply NoDup_cons. split; [|done].
      intros Hin. apply Hfresh. apply elem_of_app. by left.
    + intros i r'. rewrite Hix, lookup_delete_Some, (Hins r i r' Hid).
      change (r :: l ++ [x]) with ((r :: l) ++ [x]).
      rewrite elem_of_app, list_elem_of_singleton. split.
      * intros (Hne & [Hin | ->] & Hi); [done|congruence].
      * intros (Hin & Hi). split; [|split; [by left|done]].
        subst i. apply elem_of_cons in Hin as [-> | Hin]; [congruence|].
        intros Heq. apply Hxl. rewrite Heq. apply list_elem_of_fmap.
        by exists r'.
Qed.

(** X2. When the archived queries have distinct ids, the index of the
    query log and the log agree after every [ArchiveQuery], evictions
    included: an id is in the index exactly when a record of the log
    carries it, and the index gives that record; no two records of the log
    share an id. *)
Theorem query_log_index_agrees (now : Z) (qs : list (QueryExecState QBody)) :
  NoDup (query_id_of <$> qs) →
  let s := archive_all flags now qs initial_server in
  NoDup (id <$> query_log_ s) ∧ log_index_agree s.
Proof.
  induction qs as [|q qs IH] using rev_ind; intros Hnd s.
  - split; [constructor|]. intros i r. subst s. simpl.
    rewrite lookup_empty. split; [done|]. by intros [?%elem_of_nil _].
  - subst s. rewrite archive_all_snoc.
    rewrite fmap_app in Hnd. apply NoDup_app in Hnd as (Hndqs & Hdisj & _).
    destruct (IH Hndqs) as [Hn Hag].
    apply ArchiveQuery_agree; [done..|].
    rewrite (archive_all_ids flags now qs).
    intros Hin%subseteq_take. rewrite elem_of_reverse in Hin.
    apply (Hdisj _ Hin). by left.
Qed.

(** Archiving touches neither the session registry nor the offline flag. *)
Lemma ArchiveQuery_session_map (now : Z) (q : QueryExecState QBody)
    (s : Srv') :
  session_state_map_ (ArchiveQuery flags now q s) = session_state_map_ s
  ∧ is_offline_ (ArchiveQuery flags now q s) = is_offline_ s.
Proof.
  unfold ArchiveQuery.
  destruct (FLAGS_log_query_to_file flags);
    destruct (_ =? 0); [done| |done|];
    destruct (_ && _); done.
Qed.

(** The audit record leaves the query log alone. *)
Lemma LogAuditRecord_log (now : Z) (e : QueryExecState QBody)
    (request : TExecRequest) (s s' : Srv') (st : Status) :
  LogAuditRecord flags env now e request s = Returns st s' →
  query_log_ s' = query_log_ s ∧ query_log_index_ s' = query_log_index_ s
  ∧ session_state_map_ s' = session_state_map_ s.
Proof.
  unfold LogAuditRecord.
  destruct (negb _ && _); [done|]. by intros [= <- <-].
Qed.

(** [UnregisterQuery] of a registered query ends in the [ArchiveQuery] of
    its exec state, on a state whose log is the one before the call and
    whose registry has lost the query. *)
Lemma UnregisterQuery_archives (now : Z) (query_id : TUniqueId)
    (cause : option Status) (s s' : Srv') (e : QueryExecState QBody)
    (b : bool) :
  query_exec_state_map_ s !! query_id = Some e →
  UnregisterQuery flags env now query_id cause s = Returns b s' →
  ∃ (e' : QueryExecState QBody) (s0 : Srv'),
    s' = ArchiveQuery flags now e' s0
    ∧ query_id_of e' = query_id_of e
    ∧ query_log_ s0 = query_log_ s
    ∧ query_log_index_ s0 = query_log_index_ s
    ∧ query_exec_state_map_ s0 = delete query_id (query_exec_state_map_ s)
    ∧ session_state_map_ s0 = session_state_map_ s.
Proof.
  intros He. unfold UnregisterQuery, CancelInternal, GetQueryExecState.
  rewrite He. simpl. rewrite lookup_insert_eq.
  set (e' := set_body (qes_Cancel cause) e).
  set (s0 := set_query_exec_state_map_ (delete query_id) _).
  assert (Hmap0 : query_exec_state_map_ s0
                  = delete query_id (query_exec_state_map_ s)).
  { subst s0. simpl. by rewrite delete_insert_eq. }
  assert (Hlog0 : query_log_ s0 = query_log_ s) by done.
  assert (Hix0 : query_log_index_ s0 = query_log_index_ s) by done.
  assert (Hsm0 : session_state_map_ s0 = session_state_map_ s) by done.
  clearbody s0.
  set (o := if IsAuditEventLoggingEnabled flags && _ then _ else _).
  assert (Ho : ∀ st s1, o = Returns st s1 →
            query_log_ s1 = query_log_ s0
            ∧ query_log_index_ s1 = query_log_index_ s0
            ∧ query_exec_state_map_ s1 = query_exec_state_map_ s0
            ∧ session_state_map_ s1 = session_state_map_ s0).
  { intros st s1. subst o. destruct (_ && _).
    - intros Hl. destruct (LogAuditRecord_log _ _ _ _ _ _ Hl) as (-> & -> & ->).
      by destruct (LogAuditRecord_frame flags env _ _ _ _ _ _ Hl) as (-> & _).
    - by intros [= <- <-]. }
  destruct o as [st s1|]; simpl; [|done].
  destruct (Ho st s1 eq_refl) as (Hl1 & Hi1 & Hm1 & Hs1).
  cbn [body set_body].
  destruct (qes_coord _) eqn:Hc; intros [= <- <-];
    (eexists _, _; split; [reflexivity|]); simpl;
    rewrite Hl1, Hi1, Hm1, Hs1, Hlog0, Hix0, Hmap0, Hsm0; done.
Qed.

(** X3. A query's profile stays retrievable across [UnregisterQuery].
    While the query is registered, [GetRuntimeProfileStr] answers from the
    live exec state and [GetExecSummary], which reads the log only, does
    not find it. Once it is unregistered, with [--query_log_size] not 0
    both answer from the record now at the head of the log; with
    [--query_log_size=0] nothing was archived and both report the id as
    not found. The id is taken not to be in the log already. *)
Theorem profile_across_UnregisterQuery (now : Z) (query_id : TUniqueId)
    (cause : option Status) (s s' : Srv') (e : QueryExecState QBody)
    (b : bool) :
  query_exec_state_map_ s !! query_id = Some e →
  query_id_of e = query_id →
  query_id ∉ id <$> query_log_ s →
  query_log_index_ s !! query_id = None →
  UnregisterQuery flags env now query_id cause s = Returns b s' →
  let not_found :=
    Status_of_msg ("Query id " +:+ PrintId env query_id +:+ " not found.") in
  (∀ out, GetRuntimeProfileStr env query_id false out s
          = (Status_OK, out +:+ qes_PrettyPrint (body e)))
  ∧ (∀ res, GetExecSummary env query_id res s = (not_found, res))
  ∧ (FLAGS_query_log_size flags = 0 →
     query_log_ s' = query_log_ s
     ∧ (∀ b64 out, GetRuntimeProfileStr env query_id b64 out s'
                   = (not_found, out))
     ∧ ∀ res, GetExecSummary env query_id res s' = (not_found, res))
  ∧ (FLAGS_query_log_size flags ≠ 0 →
     ∃ r : QueryStateRecord QBody,
       id r = query_id
       ∧ head (query_log_ s') = Some r
       ∧ (∀ out, GetRuntimeProfileStr env query_id false out s'
                 = (Status_OK, out +:+ profile_str r))
       ∧ (∀ out, GetRuntimeProfileStr env query_id true out s'
                 = (Status_OK, out +:+ encoded_profile_str r))
       ∧ ∀ res, GetExecSummary env query_id res s'
                = (Status_OK, rec_exec_summary r)).
Proof.
  intros He Hqid Hfresh Hix Hu not_found.
  destruct (UnregisterQuery_archives _ _ _ _ _ _ _ He Hu)
    as (e' & s0 & -> & Hid' & Hlog0 & Hix0 & Hmap0 & _).
  assert (Hgone : query_exec_state_map_ (ArchiveQuery flags now e' s0)
                    !! query_id = None).
  { destruct (ArchiveQuery_frame flags now e' s0) as (-> & _).
    rewrite Hmap0. apply lookup_delete_eq. }
  split; [|split; [|split]].
  - intros out. unfold GetRuntimeProfileStr. by rewrite He.
  - intros res. unfold GetExecSummary. by rewrite Hix.
  - intros Hn.
    destruct (ArchiveQuery_cases flags now e' s0)
      as [(_ & Hl & Hi) | (Hn' & _)]; [|done].
    split; [by rewrite Hl|].
    split.
    + intros b64 out. unfold GetRuntimeProfileStr.
      by rewrite Hgone, Hi, Hix0, Hix.
    + intros res. unfold GetExecSummary. by rewrite Hi, Hix0, Hix.
  - intros Hn.
    destruct (ArchiveQuery_cases flags now e' s0)
      as [(Hn' & _) | (_ & r & Hid & Hcases)]; [done|].
    rewrite Hid', Hqid in Hid.
    assert (Hlook : query_log_index_ (ArchiveQuery flags now e' s0)
                      !! query_id = Some r
                    ∧ head (query_log_ (ArchiveQuery flags now e' s0))
                      = Some r).
    { destruct Hcases as [(_ & -> & ->) | (Hpos & Hle & -> & back & Hback & ->)].
      - rewrite Hid', Hqid, lookup_insert_eq. done.
      - rewrite Hlog0 in Hle, Hback |- *.
        destruct (query_log_ s) as [|x l] eqn:Hlog; [simpl in Hle; lia|].
        split.
        + rewrite Hid', Hqid, lookup_delete_ne, lookup_insert_eq; [done|].
          intros Heq. apply Hfresh. rewrite <- Heq.
          apply list_elem_of_fmap. exists back. split; [done|].
          change (last (r :: x :: l)) with (last (x :: l)) in Hback.
          by apply last_Some_elem_of.
        + done. }
    destruct Hlook as [Hlook Hhead].
    exists r. split; [done|]. split; [done|].
    unfold GetRuntimeProfileStr, GetExecSummary. rewrite Hgone, Hlook.
    done.
Qed.

End ArchiveProofs.

(** ** Execute *)

Section ExecuteProofs.

Context {QBody : Type} `{QueryExecStateOps QBody}.
Variable flags : Flags.
Variable env : ExecEnv.

#[local] Abbreviation Srv' := (ImpalaServer (QBody:=QBody)).

(** What a successful [RegisterQuery] found and did. *)
Lemma RegisterQuery_OK (now : Z) (session_state : SessionPtr)
    (exec_state : QueryExecState QBody) (s s' : Srv') :
  RegisterQuery flags env now session_state exec_state s = (Status_OK, s') →
  ∃ ss, session_heap s !! session_state = Some ss
    ∧ closed ss = false
    ∧ query_exec_state_map_ s !! query_id_of exec_state = None
    ∧ session_heap s'
      = <[session_state :=
            set_inflight_queries (λ X, {[query_id_of exec_state]} ∪ X) ss]>
          (session_heap s)
    ∧ query_exec_state_map_ s'
      = <[query_id_of exec_state := exec_state]> (query_exec_state_map_ s)
    ∧ query_locations_ s' = query_locations_ s
    ∧ is_offline_ s' = is_offline_ s.
Proof.
  unfold RegisterQuery.
  destruct (session_heap s !! session_state) as [ss|] eqn:Hss; [|done].
  destruct (closed ss) eqn:Hcl; [done|].
  destruct (query_exec_state_map_ s !! query_id_of exec_state) eqn:Hq; [done|].
  intros [= <-]. exists ss. split; [done|]. split; [done|]. split; [done|].
  destruct (0 <? _); simpl;
    (split; [|done]); apply map_eq; intros i; rewrite lookup_alter;
    (destruct (decide (session_state = i)) as [<-|Hne];
       [by rewrite lookup_insert_eq, Hss
       |by rewrite lookup_insert_ne]).
Qed.

(** A refused [RegisterQuery] changes nothing. *)
Lemma RegisterQuery_refused (now : Z) (session_state : SessionPtr)
    (exec_state : QueryExecState QBody) (s s' : Srv') (st : Status) :
  RegisterQuery flags env now session_state exec_state s = (st, s') →
  ok st = false → s' = s.
Proof.
  unfold RegisterQuery.
  destruct (session_heap s !! session_state) as [ss|]; [|by intros [= <- <-]].
  destruct (closed ss); [by intros [= <- <-]|].
  destruct (query_exec_state_map_ s !! _); [by intros [= <- <-]|].
  by intros [= <- <-].
Qed.

(** The hosts of a schedule, once entered, all list the query. *)
Lemma locations_insert_all (query_id : TUniqueId) (hosts : gset TNetworkAddress)
    (m : gmap TNetworkAddress (gset TUniqueId)) :
  ∀ a, a ∈ hosts →
    ∃ qids,
      set_fold (λ port m, <[port := default ∅ (m !! port) ∪ {[query_id]}]> m)
               m hosts !! a = Some qids
      ∧ query_id ∈ qids.
Proof.
  apply (set_fold_ind_L
           (λ r X, ∀ a, a ∈ X → ∃ qids, r !! a = Some qids ∧ query_id ∈ qids)).
  - intros a Ha. by apply elem_of_empty in Ha.
  - intros x X r Hx IH a Ha.
    destruct (decide (a = x)) as [->|Hne].
    + rewrite lookup_insert_eq. eexists. split; [done|].
      apply elem_of_union. right. by apply elem_of_singleton.
    + rewrite lookup_insert_ne by done. apply IH.
      apply elem_of_union in Ha as [Ha%elem_of_singleton|Ha]; done.
Qed.

(** X4. An [Execute] that returns OK has registered the query: the handle
    it gives back is the object in the registry under the new id, owned by
    the session; the session is open and lists the id as in flight; every
    host of the query's schedule lists it in [query_locations_]. The
    server was online and the id was not registered before. *)
Theorem Execute_OK_registered (now : Z) (query_uuid : TUniqueId)
    (query_ctx : TQueryCtx) (session_state : SessionPtr) (s s' : Srv')
    (oe : option (QueryExecState QBody)) :
  Execute flags env now query_uuid query_ctx session_state s
    = Returns (Status_OK, oe) s' →
  is_offline_ s = false
  ∧ query_exec_state_map_ s !! query_uuid = None
  ∧ ∃ e ss,
      oe = Some e
      ∧ query_exec_state_map_ s' !! query_uuid = Some e
      ∧ query_id_of e = query_uuid
      ∧ session e = session_state
      ∧ session_heap s' !! session_state = Some ss
      ∧ closed ss = false
      ∧ query_uuid ∈ inflight_queries ss
      ∧ ∀ c, qes_coord (body e) = Some c →
          ∀ a, a ∈ unique_hosts c →
            ∃ qids, query_locations_ s' !! a = Some qids ∧ query_uuid ∈ qids.
Proof.
  unfold Execute.
  set (ctx := PrepareQueryContext query_uuid query_ctx).
  destruct (ExecuteInternal flags env now ctx session_state s)
    as [[[st reg] oe'] s1|] eqn:Hint; simpl; [|done].
  destruct (negb (ok st) && reg) eqn:Hbr.
  { destruct (UnregisterQuery _ _ _ _ _ _); simpl; [|done].
    intros Heq. by simplify_eq. }
  intros Heq. simplify_eq. clear Hbr.
  revert Hint. unfold ExecuteInternal.
  destruct (is_offline_ s) eqn:Hoff; [done|].
  destruct (RegisterQuery _ _ _ _ _ _) as [st0 s0] eqn:Hreg.
  destruct (ok st0) eqn:Hok0; simpl.
  2:{ intros Heq. by simplify_eq. }
  apply ok_true_iff in Hok0 as ->.
  apply RegisterQuery_OK in Hreg
    as (ss & Hss & Hcl & Hfresh & Hheap0 & Hmap0 & Hloc0 & _).
  simpl in Hfresh, Hheap0, Hmap0.
  destruct (frontend_GetExecRequest env ctx) as [plan_status result].
  cbn [body set_body].
  destruct (qes_UpdateQueryStatus _ _) as [st1 b1].
  destruct (ok st1) eqn:Hok1; simpl.
  2:{ intros Heq. by simplify_eq. }
  set (e2 := match result_set_metadata result with
             | Some md => _ | None => _ end).
  assert (He2 : session e2 = session_state ∧ query_id_of e2 = query_uuid).
  { subst e2. by destruct (result_set_metadata result). }
  destruct He2 as [Hses Hqid]. clearbody e2.
  set (s2 := write_exec_state e2 _).
  assert (Hheap2 : session_heap s2 = session_heap s0) by done.
  assert (Hloc2 : query_locations_ s2 = query_locations_ s) by done.
  clearbody s2.
  set (o := if IsAuditEventLoggingEnabled flags then _ else _).
  assert (Ho : ∀ st3 s3, o = Returns st3 s3 →
            session_heap s3 = session_heap s2
            ∧ query_locations_ s3 = query_locations_ s2).
  { intros st3 s3. subst o. destruct (IsAuditEventLoggingEnabled flags).
    - intros Hl.
      by destruct (LogAuditRecord_frame flags env _ _ _ _ _ _ Hl)
        as (_ & -> & -> & _).
    - by intros [= <- <-]. }
  destruct o as [st3 s3|]; simpl; [|done].
  destruct (Ho st3 s3 eq_refl) as [Hheap3 Hloc3].
  destruct (qes_Exec result (body e2)) as [st4 b4].
  destruct (ok st4) eqn:Hok4; simpl.
  2:{ intros Heq. by simplify_eq. }
  intros Heq.
  assert (Hss' : (<[session_state :=
                     set_inflight_queries (λ X, {[query_uuid]} ∪ X) ss]>
                    (session_heap s)) !! session_state
                 = Some (set_inflight_queries (λ X, {[query_uuid]} ∪ X) ss))
    by apply lookup_insert_eq.
  split; [done|]. split; [done|].
  destruct (qes_coord b4) as [c|] eqn:Hc; injection Heq as <- <- <-; simpl;
    eexists _, _; (split; [done|]);
    rewrite Hqid, lookup_insert_eq, Hheap3, Hheap2, Hheap0, Hss';
    (split; [done|]); (split; [done|]); (split; [done|]);
    (split; [done|]); (split; [done|]);
    (split; [simpl; apply elem_of_union; left; by apply elem_of_singleton|]);
    intros c' Hc'; simpl in Hc'.
  - rewrite Hc in Hc'. injection Hc' as <-. apply locations_insert_all.
  - by rewrite Hc in Hc'.
Qed.

(** X5. An [Execute] whose registration is refused disturbs nothing. When
    the id drawn for the query is already registered, or the session has
    been closed, [Execute] on an online server returns the error of
    [RegisterQuery] and the server state it started from: the query that
    holds the id stays registered as it was and is not unregistered. *)
Theorem Execute_registration_refused (now : Z) (query_uuid : TUniqueId)
    (query_ctx : TQueryCtx) (session_state : SessionPtr) (s : Srv')
    (ss : SessionState) :
  is_offline_ s = false →
  session_heap s !! session_state = Some ss →
  closed ss = true ∨ is_Some (query_exec_state_map_ s !! query_uuid) →
  ∃ oe,
    Execute flags env now query_uuid query_ctx session_state s
    = Returns
        (if closed ss
         then Status_of_msg "Session has been closed, ignoring query."
         else Status_of_code TStatusCode_INTERNAL_ERROR
                ("query id " +:+ PrintId env query_uuid +:+ " already exists"),
         oe) s.
Proof.
  intros Hoff Hss Hcase. unfold Execute, ExecuteInternal.
  rewrite Hoff. unfold RegisterQuery. rewrite Hss. simpl.
  destruct (closed ss) eqn:Hcl; simpl; [by eexists|].
  destruct Hcase as [?|[e0 He0]]; [done|].
  rewrite He0. simpl. by eexists.
Qed.

End ExecuteProofs.

(** ** Closing a session *)

Section SessionProofs.

Context {QBody : Type} `{QueryExecStateOps QBody}.
Variable flags : Flags.
Variable env : ExecEnv.

#[local] Abbreviation Srv' := (ImpalaServer (QBody:=QBody)).

(** What one [UnregisterQuery] that returns leaves behind: the session
    registry as it was, the registry without the id, every session with
    the flags it had. *)
Lemma UnregisterQuery_effect (now : Z) (query_id : TUniqueId)
    (cause : option Status) (s s' : Srv') (b : bool) :
  UnregisterQuery flags env now query_id cause s = Returns b s' →
  session_state_map_ s' = session_state_map_ s
  ∧ query_exec_state_map_ s' = delete query_id (query_exec_state_map_ s)
  ∧ ∀ i, option_Forall2 same_flags (session_heap s !! i) (session_heap s' !! i).
Proof.
  intros Hu.
  destruct (query_exec_state_map_ s !! query_id) as [e|] eqn:He.
  - destruct (UnregisterQuery_registered _ _ _ _ _ _ _ _ _ He Hu)
      as (_ & Hmap & Hheap).
    destruct (UnregisterQuery_archives _ _ _ _ _ _ _ _ _ He Hu)
      as (e' & s0 & -> & _ & _ & _ & _ & Hsm).
    destruct (ArchiveQuery_session_map flags now e' s0) as [Hsm' _].
    split; [by rewrite Hsm'|]. split; [done|].
    intros i. rewrite Hheap, lookup_alter.
    destruct (decide (session e = i)) as [<-|Hne];
      destruct (session_heap s !! _); simpl; by constructor.
  - rewrite (UnregisterQuery_unknown _ _ _ _ _ _ He) in Hu.
    injection Hu as _ <-. split; [done|].
    split; [by rewrite delete_id|].
    intros i. destruct (session_heap s !! i); by constructor.
Qed.

Lemma same_flags_trans (a b c : SessionState) :
  same_flags a b → same_flags b c → same_flags a c.
Proof. unfold same_flags. intros (?&?&?&?) (?&?&?&?). repeat split; congruence. Qed.

(** Unregistering the queries of a list, when it returns. *)
Lemma unregister_each_effect (now : Z) (query_ids : list TUniqueId)
    (status : Status) (s s' : Srv') :
  unregister_each flags env now query_ids status s = Returns () s' →
  session_state_map_ s' = session_state_map_ s
  ∧ (∀ q, query_exec_state_map_ s' !! q
          = if decide (q ∈ query_ids) then None
            else query_exec_state_map_ s !! q)
  ∧ ∀ i, option_Forall2 same_flags (session_heap s !! i) (session_heap s' !! i).
Proof.
  revert s. induction query_ids as [|q0 l IH]; intros s; simpl.
  - intros [= <-]. split; [done|]. split.
    + intros q. destruct (decide (q ∈ [])) as [Hin|]; [|done].
      by apply elem_of_nil in Hin.
    + intros i. destruct (session_heap s !! i); by constructor.
  - destruct (UnregisterQuery flags env now q0 (Some status) s)
      as [b s1|] eqn:Hu; simpl; [|done].
    intros Hrest. apply UnregisterQuery_effect in Hu as (Hsm1 & Hmap1 & Hheap1).
    destruct (IH _ Hrest) as (Hsm & Hmap & Hheap).
    split; [by rewrite Hsm|]. split.
    + intros q. rewrite Hmap, Hmap1.
      destruct (decide (q ∈ l)) as [Hin|Hnin].
      * rewrite decide_True; [done|]. by right.
      * destruct (decide (q = q0)) as [->|Hne].
        -- rewrite decide_True; [|by left]. apply lookup_delete_eq.
        -- rewrite decide_False, lookup_delete_ne; [done..|].
           by intros [?|?]%elem_of_cons.
    + intros i. specialize (Hheap1 i). specialize (Hheap i).
      destruct Hheap1; inversion Hheap; subst; constructor.
      by eapply same_flags_trans.
Qed.

(** Unregistering a list of queries ends the process only through a
    failed audit write. *)
Lemma unregister_each_Exits (now : Z) (query_ids : list TUniqueId)
    (status : Status) (s : Srv') :
  unregister_each flags env now query_ids status s = Exits →
  FLAGS_abort_on_failed_audit_event flags = true
  ∧ IsAuditEventLoggingEnabled flags = true.
Proof.
  revert s. induction query_ids as [|q0 l IH]; intros s; simpl; [done|].
  destruct (UnregisterQuery flags env now q0 (Some status) s)
    as [b s1|] eqn:Hu; simpl.
  - apply IH.
  - intros _. by eapply UnregisterQuery_Exits.
Qed.

(** X6. [CloseSessionInternal] either returns or, with
    [--abort_on_failed_audit_event] and audit logging on, ends the
    process on a failed audit write. When it returns: for an unknown
    session id nothing has changed, and the status is OK with
    [ignore_if_absent] and "Invalid session ID" without; for a known one
    the status is OK, the id has left the session registry, the session
    object is marked closed, no query of its in-flight set is registered
    any more, and every other query is registered as before. *)
Theorem CloseSessionInternal_closes (now : Z) (session_id : TUniqueId)
    (ignore_if_absent : bool) (s : Srv') :
  (CloseSessionInternal flags env now session_id ignore_if_absent s = Exits →
   FLAGS_abort_on_failed_audit_event flags = true
   ∧ IsAuditEventLoggingEnabled flags = true)
  ∧ ∀ st s',
      CloseSessionInternal flags env now session_id ignore_if_absent s
        = Returns st s' →
      (session_state_map_ s !! session_id = None →
       s' = s
       ∧ st = if ignore_if_absent then Status_OK
              else Status_of_msg "Invalid session ID")
      ∧ ∀ i ss,
          session_state_map_ s !! session_id = Some i →
          session_heap s !! i = Some ss →
          st = Status_OK
          ∧ session_state_map_ s' = delete session_id (session_state_map_ s)
          ∧ (∃ ss', session_heap s' !! i = Some ss' ∧ closed ss' = true)
          ∧ (∀ q, q ∈ inflight_queries ss →
                  query_exec_state_map_ s' !! q = None)
          ∧ ∀ q, q ∉ inflight_queries ss →
                 query_exec_state_map_ s' !! q
                 = query_exec_state_map_ s !! q.
Proof.
  unfold CloseSessionInternal.
  destruct (session_state_map_ s !! session_id) as [i|] eqn:Hsid.
  2:{ split; [by destruct ignore_if_absent|].
      intros st s' Hr. split; [|done]. intros _.
      destruct ignore_if_absent; by injection Hr as <- <-. }
  simpl.
  destruct (session_heap s !! i) as [ss|] eqn:Hss.
  2:{ split; [done|]. intros st s' _. split; [done|].
      intros ? ? [= <-] ?. congruence. }
  set (s1 := set_session_heap _ _).
  split.
  - destruct (unregister_each _ _ _ _ _ s1) as [[] s2|] eqn:Hun; simpl; [done|].
    intros _. by eapply unregister_each_Exits.
  - intros st s'.
    destruct (unregister_each _ _ _ _ _ s1) as [[] s2|] eqn:Hun; simpl; [|done].
    intros [= <- <-]. split; [done|].
    intros i' ss' [= <-] Hss2. rewrite Hss in Hss2. injection Hss2 as <-.
    apply unregister_each_effect in Hun as (Hsm & Hmap & Hheap).
    split; [done|]. split; [by rewrite Hsm|]. split.
    + specialize (Hheap i). subst s1. simpl in Hheap.
      rewrite lookup_insert_eq in Hheap. inversion Hheap as [a b' Hfl Ha Hb|].
      exists b'. split; [done|]. destruct Hfl as (Hcl & _). by rewrite <- Hcl.
    + split.
      * intros q Hq. rewrite Hmap, decide_True; [done|].
        by apply elem_of_elements.
      * intros q Hq. rewrite Hmap, decide_False; [done|].
        by rewrite elem_of_elements.
Qed.

(** X7. A closed session takes no part any more. After a
    [CloseSessionInternal] of a known session has returned, a lookup of
    its id fails with "Invalid session id" in both modes, a
    [RegisterQuery] through a handle still held is refused with "Session
    has been closed, ignoring query." and changes nothing, and closing the
    id again without [ignore_if_absent] reports "Invalid session ID". *)
Theorem closed_session_refuses (now : Z) (session_id : TUniqueId)
    (ignore_if_absent : bool) (s s' : Srv') (st : Status) (i : SessionPtr)
    (ss : SessionState) :
  session_state_map_ s !! session_id = Some i →
  session_heap s !! i = Some ss →
  CloseSessionInternal flags env now session_id ignore_if_absent s
    = Returns st s' →
  (∀ out mark_active,
     GetSessionState flags env session_id out mark_active s'
     = (Status_of_msg "Invalid session id", None, s'))
  ∧ (∀ now' exec_state,
       RegisterQuery flags env now' i exec_state s'
       = (Status_of_msg "Session has been closed, ignoring query.", s'))
  ∧ (∀ now',
       CloseSessionInternal flags env now' session_id false s'
       = Returns (Status_of_msg "Invalid session ID") s').
Proof.
  intros Hsid Hss Hclose.
  unfold CloseSessionInternal in Hclose. rewrite Hsid in Hclose.
  simpl in Hclose. rewrite Hss in Hclose.
  destruct (unregister_each _ _ _ _ _ _) as [[] s2|] eqn:Hun;
    simpl in Hclose; [|done].
  injection Hclose as <- <-.
  apply unregister_each_effect in Hun as (Hsm & _ & Hheap).
  simpl in Hsm.
  assert (Hgone : session_state_map_ s2 !! session_id = None)
    by (rewrite Hsm; apply lookup_delete_eq).
  specialize (Hheap i). simpl in Hheap. rewrite lookup_insert_eq in Hheap.
  inversion Hheap as [a ss' Hfl Ha Hss'|]. destruct Hfl as (Hcl & _).
  simpl in Hcl. symmetry in Hss'.
  split; [|split].
  - intros out mark. unfold GetSessionState. by rewrite Hgone.
  - intros now' e. unfold RegisterQuery. by rewrite Hss', <- Hcl.
  - intros now'. unfold CloseSessionInternal. by rewrite Hgone.
Qed.

End SessionProofs.

(** ** Expiring idle sessions *)

Section ExpireSessionsProofs.

Context {QBody : Type} `{QueryExecStateOps QBody}.
Variable flags : Flags.
Variable env : ExecEnv.

#[local] Abbreviation Srv' := (ImpalaServer (QBody:=QBody)).

(** Offering a list of work items changes the queue and nothing else. *)
Lemma foldl_Offer_state {A} (mk : A → CancellationWork) (l : list A) (s : Srv') :
  foldl (λ s e, Offer (mk e) s) s l
  = set_cancellation_thread_pool_
      (λ _, cancellation_thread_pool_ s ++ (mk <$> l)) s.
Proof.
  revert s. induction l as [|a l IH]; intros s; simpl.
  - destruct s; simpl. by rewrite app_nil_r.
  - rewrite IH. unfold Offer, set_cancellation_thread_pool_. simpl.
    by rewrite <- app_assoc.
Qed.






End ExpireSessionsProofs.

(** ** Connections *)

Section ConnectionProofs.

Context {QBody : Type} `{QueryExecStateOps QBody}.
Variable flags : Flags.
Variable env : ExecEnv.
Variable new_SessionState : SessionState.

#[local] Abbreviation Srv' := (ImpalaServer (QBody:=QBody)).

Lemma winds_down_refl (s : Srv') : winds_down s s.
Proof.
  split; [by right|]. split; [by right|].
  intros i. destruct (session_heap s !! i); constructor.
  split; [done|]. split; [done|]. by left.
Qed.

Lemma winds_down_trans (s1 s2 s3 : Srv') :
  winds_down s1 s2 → winds_down s2 s3 → winds_down s1 s3.
Proof.
  intros (Hsm1 & Hq1 & Hh1) (Hsm2 & Hq2 & Hh2).
  assert (Hq : ∀ q, query_exec_state_map_ s2 !! q = None →
                    query_exec_state_map_ s3 !! q = None).
  { intros q Hn. destruct (Hq2 q) as [?|Heq]; [done|]. by rewrite Heq. }
  split; [|split].
  - intros sid. destruct (Hsm2 sid) as [?|Heq]; [by left|].
    rewrite Heq. apply Hsm1.
  - intros q. destruct (Hq2 q) as [?|Heq]; [by left|].
    rewrite Heq. apply Hq1.
  - intros i. specialize (Hh1 i). specialize (Hh2 i).
    destruct Hh1 as [a b (He1 & Hc1 & Hi1)|]; inversion Hh2 as [b' c (He2 & Hc2 & Hi2)|];
      subst; constructor.
    split; [congruence|]. split; [tauto|].
    intros q Hqa. destruct (Hi1 q Hqa) as [Hqb|Hn]; [|right; by apply Hq].
    apply Hi2, Hqb.
Qed.

Lemma UnregisterQuery_winds_down (now : Z) (query_id : TUniqueId)
    (cause : option Status) (s s' : Srv') (b : bool) :
  UnregisterQuery flags env now query_id cause s = Returns b s' →
  winds_down s s'.
Proof.
  intros Hu.
  destruct (query_exec_state_map_ s !! query_id) as [e|] eqn:He.
  2:{ rewrite (UnregisterQuery_unknown flags env _ _ _ _ He) in Hu.
      injection Hu as _ <-. apply winds_down_refl. }
  destruct (UnregisterQuery_effect _ _ _ _ _ _ _ _ Hu) as (Hsm & Hmap & _).
  destruct (UnregisterQuery_registered _ _ _ _ _ _ _ _ _ He Hu)
    as (_ & _ & Hheap).
  split; [right; by rewrite Hsm|]. split.
  - intros q. rewrite Hmap. destruct (decide (q = query_id)) as [->|Hne].
    + left. apply lookup_delete_eq.
    + right. by apply lookup_delete_ne.
  - intros i. rewrite Hheap, lookup_alter.
    destruct (decide (session e = i)) as [<-|Hne].
    + destruct (session_heap s !! session e) as [ss|]; constructor.
      simpl. split; [done|]. split; [done|].
      intros q Hq. destruct (decide (q = query_id)) as [->|Hne].
      * right. rewrite Hmap. apply lookup_delete_eq.
      * left. apply elem_of_difference. split; [done|].
        by rewrite elem_of_singleton.
    + destruct (session_heap s !! i); constructor.
      split; [done|]. split; [done|]. by left.
Qed.

Lemma unregister_each_winds_down (now : Z) (query_ids : list TUniqueId)
    (status : Status) (s s' : Srv') :
  unregister_each flags env now query_ids status s = Returns () s' →
  winds_down s s'.
Proof.
  revert s. induction query_ids as [|q0 l IH]; intros s; simpl.
  - intros [= <-]. apply winds_down_refl.
  - destruct (UnregisterQuery flags env now q0 (Some status) s)
      as [b s1|] eqn:Hu; simpl; [|done].
    intros Hrest. eapply winds_down_trans; [|by apply IH].
    by eapply UnregisterQuery_winds_down.
Qed.

(** What a [CloseSessionInternal] that returns has done. *)
Lemma CloseSessionInternal_effect (now : Z) (session_id : TUniqueId)
    (ignore_if_absent : bool) (s s' : Srv') (st : Status) :
  CloseSessionInternal flags env now session_id ignore_if_absent s
    = Returns st s' →
  winds_down s s'
  ∧ session_state_map_ s' = delete session_id (session_state_map_ s)
  ∧ ∀ i ss,
      session_state_map_ s !! session_id = Some i →
      session_heap s !! i = Some ss →
      (∃ ss', session_heap s' !! i = Some ss' ∧ closed ss' = true)
      ∧ ∀ q, q ∈ inflight_queries ss → query_exec_state_map_ s' !! q = None.
Proof.
  unfold CloseSessionInternal.
  destruct (session_state_map_ s !! session_id) as [i|] eqn:Hsid.
  2:{ intros Hr.
      assert (s' = s) as -> by (destruct ignore_if_absent; by injection Hr).
      split; [apply winds_down_refl|]. split; [by rewrite delete_id|done]. }
  simpl. destruct (session_heap s !! i) as [ss|] eqn:Hss.
  2:{ intros [= <- <-]. split; [|split; [done|]].
      - split; [|split].
        + intros sid. simpl. destruct (decide (sid = session_id)) as [->|Hne].
          * left. apply lookup_delete_eq.
          * right. by apply lookup_delete_ne.
        + by right.
        + intros j. simpl. destruct (session_heap s !! j); constructor.
          split; [done|]. split; [done|]. by left.
      - intros ? ? [= <-] ?. congruence. }
  set (s1 := set_session_heap _ _).
  destruct (unregister_each _ _ _ _ _ s1) as [[] s2|] eqn:Hun; simpl; [|done].
  intros [= <- <-].
  pose proof (unregister_each_winds_down _ _ _ _ _ Hun) as Hwd.
  apply unregister_each_effect in Hun as (Hsm & Hmap & _).
  assert (Hwd1 : winds_down s s1).
  { split; [|split].
    - intros sid. simpl. destruct (decide (sid = session_id)) as [->|Hne].
      + left. apply lookup_delete_eq.
      + right. by apply lookup_delete_ne.
    - by right.
    - intros j. simpl. destruct (decide (j = i)) as [->|Hne].
      + rewrite lookup_insert_eq, Hss. constructor.
        split; [done|]. split; [done|]. by left.
      + rewrite lookup_insert_ne by done.
        destruct (session_heap s !! j); constructor.
        split; [done|]. split; [done|]. by left. }
  split; [by eapply winds_down_trans|]. split; [by rewrite Hsm|].
  intros i' ss' [= <-] Hss2. rewrite Hss in Hss2. injection Hss2 as <-.
  split.
  - destruct Hwd as (_ & _ & Hh). specialize (Hh i). subst s1. simpl in Hh.
    rewrite lookup_insert_eq in Hh. inversion Hh as [a b' (_ & Hcl & _) Ha Hb|].
    exists b'. split; [done|]. by apply Hcl.
  - intros q Hq. rewrite Hmap, decide_True; [done|]. by apply elem_of_elements.
Qed.

(** Closing the sessions of a list, when it returns. *)
Lemma close_each_effect (now : Z) (session_ids : list TUniqueId)
    (s s' : Srv') :
  close_each flags env now session_ids s = Returns () s' →
  winds_down s s'
  ∧ (∀ sid, session_state_map_ s' !! sid
            = if decide (sid ∈ session_ids) then None
              else session_state_map_ s !! sid)
  ∧ ∀ sid i ss,
      sid ∈ session_ids →
      session_state_map_ s !! sid = Some i →
      session_heap s !! i = Some ss →
      (∃ ss', session_heap s' !! i = Some ss' ∧ closed ss' = true)
      ∧ ∀ q, q ∈ inflight_queries ss → query_exec_state_map_ s' !! q = None.
Proof.
  revert s. induction session_ids as [|sid0 l IH]; intros s; simpl.
  - intros [= <-]. split; [apply winds_down_refl|]. split.
    + intros sid. destruct (decide (sid ∈ [])) as [Hin|]; [|done].
      by apply elem_of_nil in Hin.
    + by intros ? ? ? ?%elem_of_nil.
  - destruct (CloseSessionInternal flags env now sid0 true s)
      as [st s1|] eqn:Hc; simpl; [|done].
    intros Hrest.
    apply CloseSessionInternal_effect in Hc as (Hwd1 & Hsm1 & Hfirst).
    destruct (IH _ Hrest) as (Hwd2 & Hsm2 & Hrest').
    pose proof (winds_down_trans _ _ _ Hwd1 Hwd2) as Hwd.
    split; [done|]. split.
    + intros sid. rewrite Hsm2, Hsm1.
      destruct (decide (sid ∈ l)) as [Hin|Hnin].
      * rewrite decide_True; [done|]. by right.
      * destruct (decide (sid = sid0)) as [->|Hne].
        -- rewrite decide_True; [|by left]. apply lookup_delete_eq.
        -- rewrite decide_False, lookup_delete_ne; [done..|].
           by intros [?|?]%elem_of_cons.
    + intros sid i ss Hin Hsid Hss.
      destruct Hwd2 as (_ & Hq2 & Hh2).
      destruct (decide (sid = sid0)) as [->|Hne].
      * destruct (Hfirst i ss Hsid Hss) as ((ss1 & Hss1 & Hcl1) & Hqs).
        split.
        -- specialize (Hh2 i). rewrite Hss1 in Hh2.
           inversion Hh2 as [a b (_ & Hcl & _) Ha Hb|].
           exists b. split; [done|]. by apply Hcl.
        -- intros q Hq. destruct (Hq2 q) as [?|Heq]; [done|].
           rewrite Heq. by apply Hqs.
      * apply elem_of_cons in Hin as [?|Hin]; [done|].
        assert (Hsid1 : session_state_map_ s1 !! sid = Some i)
          by (rewrite Hsm1, lookup_delete_ne; done).
        destruct Hwd1 as (_ & _ & Hh1). specialize (Hh1 i).
        rewrite Hss in Hh1. inversion Hh1 as [a ss1 (_ & _ & Hinf) Ha Hss1|].
        symmetry in Hss1.
        destruct (Hrest' sid i ss1 Hin Hsid1 Hss1) as (Hclosed & Hqs).
        split; [done|].
        intros q Hq. destruct (Hinf q Hq) as [Hq1|Hn]; [by apply Hqs|].
        destruct (Hq2 q) as [?|Heq]; [done|]. by rewrite Heq.
Qed.

Lemma close_each_Exits (now : Z) (session_ids : list TUniqueId) (s : Srv') :
  close_each flags env now session_ids s = Exits →
  FLAGS_abort_on_failed_audit_event flags = true
  ∧ IsAuditEventLoggingEnabled flags = true.
Proof.
  revert s. induction session_ids as [|sid0 l IH]; intros s; simpl; [done|].
  destruct (CloseSessionInternal flags env now sid0 true s)
    as [st s1|] eqn:Hc; simpl; [apply IH|].
  intros _. revert Hc. unfold CloseSessionInternal.
  destruct (session_state_map_ s !! sid0); [|done]. simpl.
  destruct (session_heap s !! _); [|done].
  destruct (unregister_each _ _ _ _ _ _) as [[] ?|] eqn:Hun; simpl; [done|].
  intros _. by eapply unregister_each_Exits.
Qed.

(** X10. The end of a connection closes its sessions. [ConnectionEnd]
    for a connection without sessions changes nothing. For one with
    sessions it either ends the process on a failed audit write under
    [--abort_on_failed_audit_event], or returns with the connection
    forgotten, every session id of the connection gone from the session
    registry and no other id touched, every such session object marked
    closed, and none of the queries in flight in these sessions
    registered any more. *)
Theorem ConnectionEnd_closes_sessions (now : Z)
    (connection_context : ConnectionContext)
    (connection_to_sessions_map_ : ConnectionToSessionMap) (s : Srv') :
  let cid := connection_id connection_context in
  (connection_to_sessions_map_ !! cid = None →
   ConnectionEnd flags env now connection_context connection_to_sessions_map_ s
   = Returns connection_to_sessions_map_ s)
  ∧ (ConnectionEnd flags env now connection_context
                   connection_to_sessions_map_ s = Exits →
     FLAGS_abort_on_failed_audit_event flags = true
     ∧ IsAuditEventLoggingEnabled flags = true)
  ∧ ∀ sessions m' s',
      connection_to_sessions_map_ !! cid = Some sessions →
      ConnectionEnd flags env now connection_context
                    connection_to_sessions_map_ s = Returns m' s' →
      m' = delete cid connection_to_sessions_map_
      ∧ (∀ sid, session_state_map_ s' !! sid
                = if decide (sid ∈ sessions) then None
                  else session_state_map_ s !! sid)
      ∧ ∀ sid i ss,
          sid ∈ sessions →
          session_state_map_ s !! sid = Some i →
          session_heap s !! i = Some ss →
          (∃ ss', session_heap s' !! i = Some ss' ∧ closed ss' = true)
          ∧ ∀ q, q ∈ inflight_queries ss →
                 query_exec_state_map_ s' !! q = None.
Proof.
  intros cid. unfold ConnectionEnd. fold cid.
  split; [by intros ->|]. split.
  - destruct (connection_to_sessions_map_ !! cid) as [sessions|]; [|done].
    destruct (close_each _ _ _ _ _) as [[] s1|] eqn:Hc; simpl; [done|].
    intros _. by eapply close_each_Exits.
  - intros sessions m' s' ->.
    destruct (close_each _ _ _ _ _) as [[] s1|] eqn:Hc; simpl; [|done].
    intros [= <- <-]. split; [done|].
    by destruct (close_each_effect _ _ _ _ Hc) as (_ & ? & ?).
Qed.

(** X11. A Beeswax connection gets one session, named after the
    connection. After [ConnectionStart] for the Beeswax server with a
    connection id that names no session yet, a lookup of that id finds a
    session object that is open, was last accessed at the time of the
    call, uses the database "default" and carries the user name of the
    connection when there is one; the id is listed for the connection;
    every session there was is still found, unchanged. For another server
    name [ConnectionStart] changes nothing. *)
Theorem ConnectionStart_opens_session (now : Z)
    (connection_context : ConnectionContext)
    (connection_to_sessions_map_ : ConnectionToSessionMap) (s : Srv') :
  let cid := connection_id connection_context in
  let r := ConnectionStart new_SessionState now connection_context
                           connection_to_sessions_map_ s in
  (server_name connection_context ≠ BEESWAX_SERVER_NAME →
   r = (connection_to_sessions_map_, s))
  ∧ (server_name connection_context = BEESWAX_SERVER_NAME →
     session_state_map_ s !! cid = None →
     (∃ i ss,
        (∀ out, GetSessionState flags env cid out false r.2
                = (Status_OK, Some i, r.2))
        ∧ session_heap s !! i = None
        ∧ session_heap r.2 !! i = Some ss
        ∧ closed ss = false
        ∧ last_accessed_ms ss = now
        ∧ database ss = "default"
        ∧ (username connection_context ≠ "" →
           connected_user ss = username connection_context))
     ∧ (∃ before, r.1 !! cid = Some (before ++ [cid])
                  ∧ before = default [] (connection_to_sessions_map_ !! cid))
     ∧ (∀ sid, sid ≠ cid →
               session_state_map_ r.2 !! sid = session_state_map_ s !! sid)
     ∧ ∀ j ss, session_heap s !! j = Some ss →
               session_heap r.2 !! j = Some ss).
Proof.
  intros cid r. subst r. unfold ConnectionStart. fold cid. split.
  - intros Hne. by rewrite bool_decide_eq_false_2.
  - intros Hb Hfresh. rewrite bool_decide_eq_true_2 by done. simpl.
    set (i := fresh (dom (session_heap s))).
    assert (Hi : session_heap s !! i = None).
    { apply not_elem_of_dom. apply is_fresh. }
    unfold map_insert_new. simpl. rewrite Hfresh.
    split; [|split; [|split]].
    + eexists i, _. split; [|split; [done|split; [apply lookup_insert_eq|]]].
      * intros out. unfold GetSessionState. simpl.
        by rewrite Hfresh, lookup_insert_eq.
      * simpl. split; [done|]. split; [done|]. split; [done|].
        intros Hu. by rewrite bool_decide_eq_false_2.
    + eexists. split; [apply lookup_insert_eq|done].
    + intros sid Hne. by rewrite lookup_insert_ne.
    + intros j ss Hj. rewrite lookup_insert_ne; [done|]. congruence.
Qed.

End ConnectionProofs.

(** ** The sweep of idle queries *)

Section ExpireQueriesProofs.

Context {QBody : Type} `{QueryExecStateOps QBody}.
Variable flags : Flags.
Variable env : ExecEnv.

#[local] Abbreviation Srv' := (ImpalaServer (QBody:=QBody)).

(** The sweep writes the queue and the cancellation pool only; what it
    offers are expiry items. *)
Lemma ExpireQueries_loop_items (orig : list (Z * TUniqueId)) (fuel : nat)
    (now : Z) (passed rest : list (Z * TUniqueId)) (s s' : Srv') :
  ExpireQueries_loop flags env fuel now passed rest s = Some s' →
  (∀ x, x ∈ rest → x ∈ orig ∨ now < x.1) →
  (session_state_map_ s' = session_state_map_ s
   ∧ session_heap s' = session_heap s
   ∧ query_exec_state_map_ s' = query_exec_state_map_ s
   ∧ query_log_ s' = query_log_ s
   ∧ query_log_index_ s' = query_log_index_ s
   ∧ query_locations_ s' = query_locations_ s)
  ∧ ∃ items,
      cancellation_thread_pool_ s' = cancellation_thread_pool_ s ++ items
      ∧ ∀ w, w ∈ items → expiry_item flags env (query_exec_state_map_ s) orig now w.
Proof.
  revert passed rest s.
  induction fuel as [|fuel IH]; intros passed rest s.
  - destruct rest as [|e rest]; simpl.
    + intros [= <-] _. split; [done|]. exists [].
      rewrite app_nil_r. split; [done|]. by intros w Hw%elem_of_nil.
    + destruct (now <? e.1); [|done]. intros [= <-] _. split; [done|].
      exists []. rewrite app_nil_r. split; [done|]. by intros w Hw%elem_of_nil.
  - destruct rest as [|e rest]; simpl.
    + intros [= <-] _. split; [done|]. exists [].
      rewrite app_nil_r. split; [done|]. by intros w Hw%elem_of_nil.
    + destruct (now <? e.1) eqn:Hdue.
      { intros [= <-] _. split; [done|]. exists [].
        rewrite app_nil_r. split; [done|]. by intros w Hw%elem_of_nil. }
      apply Z.ltb_ge in Hdue.
      intros Hloop Horig.
      assert (He : e ∈ orig).
      { destruct (Horig e) as [?|?]; [by left|done|lia]. }
      assert (Hrest : ∀ x, x ∈ rest → x ∈ orig ∨ now < x.1).
      { intros x Hx. apply Horig. by right. }
      assert (Hsame : ∀ passed' rest' ,
        (∀ x, x ∈ rest' → x ∈ orig ∨ now < x.1) →
        ExpireQueries_loop flags env fuel now passed' rest' s = Some s' →
        (session_state_map_ s' = session_state_map_ s
         ∧ session_heap s' = session_heap s
         ∧ query_exec_state_map_ s' = query_exec_state_map_ s
         ∧ query_log_ s' = query_log_ s
         ∧ query_log_index_ s' = query_log_index_ s
         ∧ query_locations_ s' = query_locations_ s)
        ∧ ∃ items,
            cancellation_thread_pool_ s' = cancellation_thread_pool_ s ++ items
            ∧ ∀ w, w ∈ items →
                   expiry_item flags env (query_exec_state_map_ s) orig now w).
      { intros passed' rest' Hr Hl. by apply (IH _ _ _ Hl). }
      revert Hloop. unfold GetQueryExecState.
      destruct (query_exec_state_map_ s !! e.2) as [q|] eqn:Hq.
      2:{ by apply Hsame. }
      set (timeout_s := idle_timeout_s _ _).
      set (expiration := qes_last_active (body q) + _).
      destruct (now <? expiration) eqn:Hexp.
      * apply Z.ltb_lt in Hexp.
        destruct (expiration =? e.1).
        { intros [= <-]. split; [done|]. exists [].
          rewrite app_nil_r. split; [done|]. by intros w Hw%elem_of_nil. }
        assert (Hins : ∀ x, x ∈ queue_insert (expiration, e.2) rest →
                            x ∈ orig ∨ now < x.1).
        { intros x [->|Hx]%elem_of_queue_insert; [by right|by apply Hrest]. }
        destruct rest as [|next rest'].
        { by apply Hsame. }
        destruct (expiration_ltb _ next); by apply Hsame.
      * apply Z.ltb_ge in Hexp.
        destruct (qes_is_active (body q)) eqn:Hact; simpl.
        { by apply Hsame. }
        intros Hloop.
        destruct (IH _ _ _ Hloop Hrest)
          as ((Hsm & Hh & Hm & Hl & Hi & Hloc) & items & Hpool & Hitems).
        split; [done|].
        eexists (_ :: items). split.
        { rewrite Hpool. simpl. rewrite <- app_assoc. done. }
        intros w [->|Hw]%elem_of_cons; [|by apply Hitems].
        split; [done|]. simpl. exists e.1, q.
        split; [by destruct e|]. done.
Qed.

(** X12. What a pass of [ExpireQueries] does and does not do. The pass
    ends. It writes the expiration queue and the cancellation pool and
    nothing else: sessions, the query registry, the query log and the
    query locations are as before. Every work item it offers is a
    cancel-kind item (the query stays registered) for a query that is
    registered, not active, had a queue entry that was due, and whose
    deadline, its last activity plus its idle timeout, has passed; the
    cause names the query and the timeout. *)
Theorem ExpireQueries_pass_cancels_idle (now : Z) (s : Srv') :
  ∃ s',
    ExpireQueries_pass flags env now s = Some s'
    ∧ session_state_map_ s' = session_state_map_ s
    ∧ session_heap s' = session_heap s
    ∧ query_exec_state_map_ s' = query_exec_state_map_ s
    ∧ query_log_ s' = query_log_ s
    ∧ query_log_index_ s' = query_log_index_ s
    ∧ query_locations_ s' = query_locations_ s
    ∧ ∃ items,
        cancellation_thread_pool_ s' = cancellation_thread_pool_ s ++ items
        ∧ ∀ w, w ∈ items →
            expiry_item flags env (query_exec_state_map_ s) (queries_by_timestamp_ s)
                        now w.
Proof.
  unfold ExpireQueries_pass.
  destruct (ExpireQueries_loop_total flags env
              (length (queries_by_timestamp_ s)) now []
              (queries_by_timestamp_ s) s) as [s' Hs'].
  { unfold due. apply length_filter. }
  exists s'. split; [done|].
  destruct (ExpireQueries_loop_items (queries_by_timestamp_ s) _ _ _ _ _ _ Hs')
    as ((?&?&?&?&?&?) & items & ? & ?).
  { intros x Hx. by left. }
  repeat (split; [done|]). by exists items.
Qed.

(** *** The order of the queue *)

Lemma expiration_ltb_trans (a b c : Z * TUniqueId) :
  expiration_ltb a b = true → expiration_ltb b c = true →
  expiration_ltb a c = true.
Proof.
  unfold expiration_ltb, TUniqueId_ltb.
  rewrite !orb_true_iff, !andb_true_iff, !orb_true_iff, !andb_true_iff.
  rewrite !Z.ltb_lt, !Z.eqb_eq. lia.
Qed.

Lemma expiration_ltb_fst (a b : Z * TUniqueId) :
  expiration_ltb a b = true → a.1 ≤ b.1.
Proof.
  unfold expiration_ltb.
  rewrite orb_true_iff, andb_true_iff, Z.ltb_lt, Z.eqb_eq. lia.
Qed.

Lemma expiration_ltb_of_fst (a b : Z * TUniqueId) :
  a.1 < b.1 → expiration_ltb a b = true.
Proof.
  intros Hlt. unfold expiration_ltb. apply orb_true_iff. left.
  by apply Z.ltb_lt.
Qed.

(** [std::set::insert] keeps the queue in order. *)
Lemma queue_insert_sorted (e : Z * TUniqueId) (l : list (Z * TUniqueId)) :
  queue_sorted l → queue_sorted (queue_insert e l).
Proof.
  unfold queue_sorted. induction 1 as [|y r Hr IH Hy]; simpl.
  - repeat constructor.
  - destruct (expiration_ltb e y) eqn:Hey.
    + constructor; [by constructor|]. constructor; [done|].
      eapply Forall_impl; [exact Hy|]. intros z Hz. simpl in Hz.
      by eapply expiration_ltb_trans.
    + destruct (expiration_ltb y e) eqn:Hye; [|by constructor].
      constructor; [done|]. apply Forall_forall.
      intros z [->|Hz]%elem_of_queue_insert; [done|].
      by eapply Forall_forall in Hy.
Qed.

(** A sorted queue stays sorted through the sweep, and what the sweep
    leaves in it is in the future or belongs to a registered, active
    query whose deadline has passed. *)
Lemma ExpireQueries_loop_queue (fuel : nat) (now : Z)
    (passed rest : list (Z * TUniqueId)) (s s' : Srv') :
  let kept (x : Z * TUniqueId) : Prop :=
    now < x.1
    ∨ ∃ q, query_exec_state_map_ s !! x.2 = Some q
           ∧ qes_is_active (body q) = true
           ∧ qes_last_active (body q)
             + idle_timeout_s (FLAGS_idle_query_timeout flags)
                              (query_timeout_s q) * 1000 ≤ now in
  ExpireQueries_loop flags env fuel now passed rest s = Some s' →
  queue_sorted (passed ++ rest) →
  (∀ x, x ∈ passed → kept x) →
  queue_sorted (queries_by_timestamp_ s')
  ∧ ∀ x, x ∈ queries_by_timestamp_ s' → kept x.
Proof.
  intros kept. revert passed rest s kept.
  assert (Hfuture : ∀ (e : Z * TUniqueId) rest x,
    now < e.1 → queue_sorted (e :: rest) → x ∈ e :: rest → now < x.1).
  { intros e rest x He Hs [->|Hx]%elem_of_cons; [done|].
    apply StronglySorted_inv in Hs as [_ Hall].
    eapply Forall_forall in Hall; [|done].
    apply expiration_ltb_fst in Hall. lia. }
  induction fuel as [|fuel IH]; intros passed rest s kept.
  - destruct rest as [|e rest]; simpl.
    + intros [= <-] Hs Hp. simpl. rewrite app_nil_r in Hs. done.
    + destruct (now <? e.1) eqn:Hdue; [|done].
      apply Z.ltb_lt in Hdue. intros [= <-] Hs Hp. simpl. split; [done|].
      intros x [Hx|Hx]%elem_of_app; [by apply Hp|]. left.
      apply (Hfuture e rest x); [done| |done].
      by apply StronglySorted_app_1_r in Hs.
  - destruct rest as [|e rest]; simpl.
    + intros [= <-] Hs Hp. simpl. rewrite app_nil_r in Hs. done.
    + destruct (now <? e.1) eqn:Hdue.
      { apply Z.ltb_lt in Hdue. intros [= <-] Hs Hp. simpl. split; [done|].
        intros x [Hx|Hx]%elem_of_app; [by apply Hp|]. left.
        apply (Hfuture e rest x); [done| |done].
        by apply StronglySorted_app_1_r in Hs. }
      apply Z.ltb_ge in Hdue.
      intros Hloop Hs Hp.
      apply StronglySorted_app in Hs as (Hcross & Hsp & Hsr).
      apply StronglySorted_inv in Hsr as [Hsr He].
      assert (Hdrop : queue_sorted (passed ++ rest)).
      { apply StronglySorted_app_2; [|done..].
        intros x y Hx Hy. apply Hcross; [done|by right]. }
      assert (Hnext : ∀ passed' rest' s0,
        query_exec_state_map_ s0 = query_exec_state_map_ s →
        ExpireQueries_loop flags env fuel now passed' rest' s0 = Some s' →
        queue_sorted (passed' ++ rest') →
        (∀ x, x ∈ passed' → kept x) →
        queue_sorted (queries_by_timestamp_ s')
        ∧ ∀ x, x ∈ queries_by_timestamp_ s' → kept x).
      { intros passed' rest' s0 Hm Hl Hs' Hp'.
        destruct (IH _ _ _ Hl Hs') as [? Hk].
        - intros x Hx. rewrite Hm. by apply Hp'.
        - split; [done|]. intros x Hx. specialize (Hk x Hx).
          by rewrite Hm in Hk. }
      revert Hloop. unfold GetQueryExecState.
      destruct (query_exec_state_map_ s !! e.2) as [q|] eqn:Hq.
      2:{ intros Hl. by apply (Hnext _ _ _ eq_refl Hl). }
      set (timeout_s := idle_timeout_s _ _).
      set (expiration := qes_last_active (body q) + _).
      destruct (now <? expiration) eqn:Hexp.
      * apply Z.ltb_lt in Hexp.
        destruct (expiration =? e.1) eqn:Heq.
        { apply Z.eqb_eq in Heq. lia. }
        set (e' := (expiration, e.2)).
        assert (Hee' : expiration_ltb e e' = true).
        { apply expiration_ltb_of_fst. simpl. lia. }
        assert (Hpe' : ∀ x, x ∈ passed → expiration_ltb x e' = true).
        { intros x Hx. eapply expiration_ltb_trans; [|exact Hee'].
          apply Hcross; [done|by left]. }
        assert (Hke' : kept e') by (left; simpl; lia).
        assert (Hinto_passed :
          (∀ y, y ∈ rest → expiration_ltb e' y = true) →
          queue_sorted (queue_insert e' passed ++ rest)
          ∧ ∀ x, x ∈ queue_insert e' passed → kept x).
        { intros Hlt. split.
          - apply StronglySorted_app_2; [|by apply queue_insert_sorted|done].
            intros x y [->|Hx]%elem_of_queue_insert Hy; [by apply Hlt|].
            apply Hcross; [done|by right].
          - intros x [->|Hx]%elem_of_queue_insert; [done|by apply Hp]. }
        destruct rest as [|next rest'].
        { intros Hl. destruct Hinto_passed as [? ?];
            [by intros y ?%elem_of_nil|].
          by apply (Hnext _ _ _ eq_refl Hl). }
        destruct (expiration_ltb e' next) eqn:Hnx.
        { intros Hl. destruct Hinto_passed as [? ?].
          - intros y [->|Hy]%elem_of_cons; [done|].
            eapply expiration_ltb_trans; [exact Hnx|].
            apply StronglySorted_inv in Hsr as [_ Hall].
            by eapply Forall_forall in Hall.
          - by apply (Hnext _ _ _ eq_refl Hl). }
        intros Hl. apply (Hnext _ _ _ eq_refl Hl); [|done].
        apply StronglySorted_app_2; [|done|by apply queue_insert_sorted].
        intros x y Hx [->|Hy]%elem_of_queue_insert; [by apply Hpe'|].
        apply Hcross; [done|by right].
      * apply Z.ltb_ge in Hexp.
        destruct (qes_is_active (body q)) eqn:Hact; simpl.
        -- intros Hl. apply (Hnext _ _ _ eq_refl Hl).
           ++ rewrite <- app_assoc. simpl.
              apply StronglySorted_app_2; [done..|by constructor].
           ++ intros x [Hx|Hx]%elem_of_app; [by apply Hp|].
              apply list_elem_of_singleton in Hx as ->.
              right. by exists q.
        -- intros Hl. by apply (Hnext passed rest (Offer _ s) eq_refl Hl).
Qed.

(** X13. A pass of [ExpireQueries] over a queue in order leaves the
    queue in order, and leaves in it only entries whose time lies in the
    future and entries of registered, active queries whose deadline has
    passed: the entry of a query that was unregistered in the meantime is
    dropped once it is due, without a cancellation, and so is the due entry
    of a query that is cancelled for inactivity. *)
Theorem ExpireQueries_pass_queue (now : Z) (s : Srv') :
  queue_sorted (queries_by_timestamp_ s) →
  ∃ s',
    ExpireQueries_pass flags env now s = Some s'
    ∧ queue_sorted (queries_by_timestamp_ s')
    ∧ ∀ x, x ∈ queries_by_timestamp_ s' →
        now < x.1
        ∨ ∃ q, query_exec_state_map_ s !! x.2 = Some q
               ∧ qes_is_active (body q) = true
               ∧ qes_last_active (body q)
                 + idle_timeout_s (FLAGS_idle_query_timeout flags)
                                  (query_timeout_s q) * 1000 ≤ now.
Proof.
  intros Hs. unfold ExpireQueries_pass.
  destruct (ExpireQueries_loop_total flags env
              (length (queries_by_timestamp_ s)) now []
              (queries_by_timestamp_ s) s) as [s' Hs'].
  { unfold due. apply length_filter. }
  exists s'. split; [done|].
  apply (ExpireQueries_loop_queue _ _ _ _ _ _ Hs'); [done|].
  by intros x Hx%elem_of_nil.
Qed.

End ExpireQueriesProofs.

(** ** The workers of the cancellation pool *)

Section CancelProofs.

Context {QBody : Type} `{QueryExecStateOps QBody}.
Variable flags : Flags.
Variable env : ExecEnv.

#[local] Abbreviation Srv' := (ImpalaServer (QBody:=QBody)).

(** X14. The two kinds of work item. A cancel-kind item, as offered on
    the loss of a backend or for an idle query, never ends the process
    and never unregisters: if its query is registered, the query stays
    registered with [Cancel(cause)] applied to it, and nothing else
    changes; if it is not, nothing changes at all. An unregister-kind
    item, as offered for an expired session, takes its query out of the
    registry when the worker returns, and leaves the session registry
    alone. *)
Theorem CancelFromThreadPool_kinds (now : Z) (w : CancellationWork)
    (s : Srv') :
  (cw_unregister w = false →
   CancelFromThreadPool flags env now w s
   = Returns ()
       match query_exec_state_map_ s !! cw_query_id w with
       | Some exec_state =>
           set_query_exec_state_map_
             (<[cw_query_id w :=
                  set_body (qes_Cancel (Some (cw_cause w))) exec_state]>) s
       | None => s
       end)
  ∧ (cw_unregister w = true →
     ∀ s', CancelFromThreadPool flags env now w s = Returns () s' →
       query_exec_state_map_ s'
       = delete (cw_query_id w) (query_exec_state_map_ s)
       ∧ session_state_map_ s' = session_state_map_ s
       ∧ (query_exec_state_map_ s !! cw_query_id w = None → s' = s)).
Proof.
  unfold CancelFromThreadPool. split; intros ->.
  - unfold CancelInternal, GetQueryExecState.
    by destruct (query_exec_state_map_ s !! cw_query_id w).
  - intros s'.
    destruct (UnregisterQuery _ _ _ _ _ _) as [b s1|] eqn:Hu; simpl; [|done].
    intros [= <-].
    destruct (UnregisterQuery_effect _ _ _ _ _ _ _ _ Hu) as (Hsm & Hmap & _).
    split; [done|]. split; [done|].
    intros Hnone.
    rewrite (UnregisterQuery_unknown flags env _ _ _ _ Hnone) in Hu.
    by injection Hu as _ <-.
Qed.

End CancelProofs.

(** ** Membership updates *)

Section MembershipProofs.

Context {QBody : Type} `{QueryExecStateOps QBody}.
Variable env : ExecEnv.

#[local] Abbreviation Srv' := (ImpalaServer (QBody:=QBody)).

(** Updating [known_backends_] writes [known_backends_] only. *)
Lemma update_known_backends_state (delta : TTopicDelta) (s : Srv') :
  update_known_backends env delta s
  = set_known_backends_
      (λ _, known_backends_ (update_known_backends env delta s)) s.
Proof.
  unfold update_known_backends.
  apply (foldl_preserves
           (λ t : Srv', t = set_known_backends_ (λ _, known_backends_ t) s)).
  - apply (foldl_preserves
           (λ t : Srv', t = set_known_backends_ (λ _, known_backends_ t) s)).
    + destruct (is_delta delta); by destruct s.
    + intros t item Ht.
      destruct (DeserializeBackendDescriptor env (ti_value item)); [|done].
      rewrite Ht at 1. done.
  - intros t backend_id Ht. rewrite Ht at 1. done.
Qed.

Lemma known_backends_additions (entries : list TTopicItem) (s : Srv')
    (k : string) :
  known_backends_
    (foldl (λ s item,
              match DeserializeBackendDescriptor env (ti_value item) with
              | None => s
              | Some address =>
                  set_known_backends_ (map_insert_new (ti_key item) address) s
              end) s entries) !! k
  = match known_backends_ s !! k with
    | Some a => Some a
    | None => announced env entries k
    end.
Proof.
  revert s. induction entries as [|item rest IH]; intros s; simpl.
  - by destruct (known_backends_ s !! k).
  - rewrite IH.
    destruct (DeserializeBackendDescriptor env (ti_value item)) as [a|] eqn:Hd.
    + simpl. unfold map_insert_new.
      destruct (known_backends_ s !! ti_key item) as [a0|] eqn:Hk0.
      * case_bool_decide as Hk; [|done]. subst k. by rewrite Hk0.
      * case_bool_decide as Hk.
        -- subst k. by rewrite lookup_insert_eq, Hk0.
        -- by rewrite lookup_insert_ne.
    + by case_bool_decide.
Qed.

Lemma known_backends_deletions (deletions : list string) (s : Srv')
    (k : string) :
  known_backends_
    (foldl (λ s backend_id, set_known_backends_ (delete backend_id) s)
           s deletions) !! k
  = if bool_decide (k ∈ deletions) then None else known_backends_ s !! k.
Proof.
  revert s. induction deletions as [|d rest IH]; intros s; simpl.
  - done.
  - rewrite IH. simpl. destruct (decide (k = d)) as [->|Hne].
    + rewrite lookup_delete_eq. rewrite (bool_decide_eq_true_2 (d ∈ d :: rest)).
      * by case_bool_decide.
      * by left.
    + rewrite lookup_delete_ne by done.
      apply (f_equal (λ b : bool, if b then None else known_backends_ s !! k)).
      apply bool_decide_ext. rewrite elem_of_cons. split; [by right|].
      by intros [?|?].
Qed.

(** The entry of [known_backends_] under [k] after an update. *)
Lemma known_backends_update (delta : TTopicDelta) (s : Srv') (k : string) :
  known_backends_ (update_known_backends env delta s) !! k
  = (if bool_decide (k ∈ topic_deletions delta) then None
     else match (if is_delta delta then known_backends_ s !! k else None) with
          | Some a => Some a
          | None => announced env (topic_entries delta) k
          end).
Proof.
  unfold update_known_backends.
  rewrite known_backends_deletions, known_backends_additions.
  destruct (is_delta delta); simpl; [done|]. by rewrite lookup_empty.
Qed.

(** X15. The backends known after a membership update. A backend id the
    update deletes is not known afterwards, even if the same update
    announces it. Any other id that was known before a delta update keeps
    the address it had, whatever the update announces for it; an id that
    was not known gets the address of the first entry with this key that
    deserialises. An update that is not a delta forgets everything that
    was known. Nothing but [known_backends_] is written. *)
Theorem update_known_backends_lookup (delta : TTopicDelta) (s : Srv')
    (k : string) :
  let s' := update_known_backends env delta s in
  known_backends_ s' !! k
  = (if bool_decide (k ∈ topic_deletions delta) then None
     else match (if is_delta delta then known_backends_ s !! k else None) with
          | Some a => Some a
          | None => announced env (topic_entries delta) k
          end)
  ∧ s' = set_known_backends_ (λ _, known_backends_ s') s.
Proof.
  intros s'. split; [apply known_backends_update|].
  apply update_known_backends_state.
Qed.

(** The update of [known_backends_] settles after one application. *)
Lemma update_known_backends_twice (delta : TTopicDelta) (s : Srv') :
  known_backends_ (update_known_backends env delta
                     (update_known_backends env delta s))
  = known_backends_ (update_known_backends env delta s).
Proof.
  apply map_eq. intros k.
  rewrite (known_backends_update delta (update_known_backends env delta s) k).
  rewrite (known_backends_update delta s k).
  case_bool_decide; [done|].
  destruct (is_delta delta); [|done].
  by destruct (known_backends_ s !! k), (announced env (topic_entries delta) k).
Qed.

(** A scan in which every backend is a member does nothing. *)
Lemma scan_all_members (cm : gset TNetworkAddress)
    (l : list (TNetworkAddress * gset TUniqueId))
    (acc : gmap TUniqueId (list TNetworkAddress) * Srv') :
  Forall (λ e, e.1 ∈ cm) l →
  foldl (λ (acc : gmap TUniqueId (list TNetworkAddress) * Srv')
           (loc_entry : TNetworkAddress * gset TUniqueId),
           if bool_decide (loc_entry.1 ∈ cm) then acc
           else
             (add_failed_host loc_entry.1 loc_entry.2 acc.1,
              set_query_locations_ (delete loc_entry.1)
                (set_closed_connections (λ l, l ++ [loc_entry.1]) acc.2)))
        acc l = acc.
Proof.
  induction 1 as [|e l He Hl IH]; simpl; [done|].
  by rewrite bool_decide_eq_true_2.
Qed.

(** X16. A membership update processed twice does nothing the second
    time: [MembershipCallback] applied to its own result gives that
    result. No query is cancelled twice for the same lost backend. It also
    follows that cancellations skipped because the queue was full are not
    made up by a repetition of the update, since the entries of the lost
    backends have left [query_locations_] the first time. *)
Theorem MembershipCallback_idempotent
    (incoming_topic_deltas : gmap string TTopicDelta) (s : Srv') :
  MembershipCallback env incoming_topic_deltas
    (MembershipCallback env incoming_topic_deltas s)
  = MembershipCallback env incoming_topic_deltas s.
Proof.
  unfold MembershipCallback.
  destruct (incoming_topic_deltas !! IMPALA_MEMBERSHIP_TOPIC) as [delta|];
    [|done].
  set (s0 := update_known_backends env delta s).
  set (cm := current_membership_of s0).
  unfold scan_query_locations.
  pose proof (scan_fold cm (map_to_list (query_locations_ s0)) ∅ s0)
    as (_ & Hloc & _).
  destruct (foldl _ (∅, s0) (map_to_list (query_locations_ s0)))
    as [queries_to_cancel s1] eqn:Hscan.
  simpl in Hloc.
  set (s2 := if MAX_CANCELLATION_QUEUE_SIZE <? _ then s1 else _).
  assert (Hs1 : known_backends_ s1 = known_backends_ s0).
  { assert (Hgen : ∀ l acc,
      known_backends_
        (foldl (λ (acc : gmap TUniqueId (list TNetworkAddress) * Srv')
                  (loc_entry : TNetworkAddress * gset TUniqueId),
                  if bool_decide (loc_entry.1 ∈ cm) then acc
                  else
                    (add_failed_host loc_entry.1 loc_entry.2 acc.1,
                     set_query_locations_ (delete loc_entry.1)
                       (set_closed_connections (λ l, l ++ [loc_entry.1])
                                               acc.2)))
               acc l).2
      = known_backends_ acc.2).
    { induction l as [|e l IH]; intros acc; simpl; [done|].
      rewrite IH. by destruct (bool_decide _). }
    specialize (Hgen (map_to_list (query_locations_ s0)) (∅, s0)).
    by rewrite Hscan in Hgen. }
  assert (Hs2 : known_backends_ s2 = known_backends_ s0
                ∧ query_locations_ s2 = query_locations_ s1).
  { subst s2. destruct (_ <? _); [done|].
    match goal with |- context [foldl ?f s1 ?l] =>
      pose proof (foldl_Offer_state
                    (λ e : TUniqueId * list TNetworkAddress,
                       {| cw_query_id := e.1;
                          cw_cause := cancellation_cause env e.2;
                          cw_unregister := false |}) l s1) as Hoff
    end.
    rewrite Hoff. done. }
  destruct Hs2 as [Hkb2 Hloc2]. clearbody s2.
  assert (Hkb : known_backends_ (update_known_backends env delta s2)
                = known_backends_ s2).
  { rewrite Hkb2. subst s0. rewrite <- (update_known_backends_twice delta s).
    apply map_eq. intros k.
    rewrite (known_backends_update delta s2 k).
    rewrite (known_backends_update delta (update_known_backends env delta s) k).
    by rewrite Hkb2. }
  assert (Hupd : update_known_backends env delta s2 = s2).
  { rewrite update_known_backends_state, Hkb. by destruct s2. }
  rewrite Hupd.
  assert (Hcm : current_membership_of s2 = cm).
  { unfold current_membership_of, cm, current_membership_of.
    by rewrite Hkb2. }
  rewrite Hcm.
  rewrite scan_all_members.
  2:{ apply Forall_forall. intros [a qids] Hin%elem_of_map_to_list. simpl.
      rewrite Hloc2, Hloc in Hin.
      destruct (decide (a ∈ cm)) as [?|Hn]; [done|].
      rewrite decide_True in Hin; [done|]. split; [done|].
      destruct (decide ((a ∉ cm) ∧ a ∈ (map_to_list (query_locations_ s0)).*1))
        as [[_ ?]|Hno]; [done|].
      apply list_elem_of_fmap. exists (a, qids). split; [done|].
      by apply elem_of_map_to_list. }
  simpl. rewrite map_size_empty.
  destruct (_ <? _); [done|]. done.
Qed.

End MembershipProofs.

(** ** The catalog barrier and the catalog topic *)

Module CatalogMoreProofs.
Import Catalog.

Section Barrier.

Variable UpdateCatalogCache : TUpdateCatalogCacheRequest → Status.

(** The first wait, as a function of the states seen. *)
Lemma wait_processed_locally_None (r : TCatalogUpdateResult)
    (cur : CatalogState) (wakeups : list CatalogState) :
  wait_processed_locally (version r) (result_catalog_service_id r) cur wakeups
    = None →
  Forall (λ c, ¬ barrier_passed r c) (cur :: wakeups).
Proof.
  revert cur. induction wakeups as [|next l IH]; intros cur; simpl.
  - destruct (_ && _) eqn:Hb; [|done]. intros _.
    apply andb_true_iff in Hb as [Hv%Z.ltb_lt Hs%bool_decide_eq_true].
    constructor; [|constructor].
    unfold barrier_passed. intros [[? ?]|?]; [lia|done].
  - destruct (_ && _) eqn:Hb; [|done]. intros Hn.
    apply andb_true_iff in Hb as [Hv%Z.ltb_lt Hs%bool_decide_eq_true].
    constructor; [|by apply IH].
    unfold barrier_passed. intros [[? ?]|?]; [lia|done].
Qed.

(** The second wait ends at the first state at which the subscribers have
    caught up, and only there. *)
Lemma wait_all_subscribers_spec (r : TCatalogUpdateResult) (v : Z)
    (cur : CatalogState) (wakeups : list CatalogState) :
  is_Some (wait_all_subscribers v (result_catalog_service_id r) cur wakeups)
  ↔ Exists (subscribers_caught_up r v) (cur :: wakeups).
Proof.
  revert cur. induction wakeups as [|next l IH]; intros cur; simpl.
  - destruct (_ && _) eqn:Hb.
    + apply andb_true_iff in Hb as [Hv%Z.ltb_lt Hs%bool_decide_eq_true].
      split; [by intros [? ?]|].
      intros [[?|?]|Hn%Exists_nil]%Exists_cons; [lia|done|done].
    + split; [|by eexists]. intros _. left.
      apply andb_false_iff in Hb as [Hv%Z.ltb_ge|Hs%bool_decide_eq_false];
        [by left|by right].
  - destruct (_ && _) eqn:Hb.
    + apply andb_true_iff in Hb as [Hv%Z.ltb_lt Hs%bool_decide_eq_true].
      rewrite IH. split; [by right|].
      intros [[?|?]|?]%Exists_cons; [lia|done|done].
    + split; [|by eexists]. intros _. left.
      apply andb_false_iff in Hb as [Hv%Z.ltb_ge|Hs%bool_decide_eq_false];
        [by left|by right].
Qed.

(** X17. When [ProcessCatalogUpdateResult] returns. With an object in the
    result and [wait_for_all_subscribers] off it does not wait: it returns
    what the front end answers to a delta request for the catalog service
    of the result. Otherwise it never returns an error. Without
    [wait_for_all_subscribers] it returns OK exactly when one of the
    states it sees has the catalog version of the result under its
    service id, or another service id. With [wait_for_all_subscribers] it
    returns OK exactly when, from the first such state on, it sees a state
    in which the subscribers have reached the topic version that state
    had, or the service id differs. *)
Theorem ProcessCatalogUpdateResult_returns (r : TCatalogUpdateResult)
    (cur : CatalogState) (wakeups : list CatalogState) :
  (is_Some (updated_catalog_object r) ∨ is_Some (removed_catalog_object r) →
   ∃ req,
     ProcessCatalogUpdateResult UpdateCatalogCache r false cur wakeups
     = Some (UpdateCatalogCache req)
     ∧ req_is_delta req = true
     ∧ req_catalog_service_id req = result_catalog_service_id r
     ∧ updated_objects req = option_list (updated_catalog_object r)
     ∧ removed_objects req = option_list (removed_catalog_object r))
  ∧ (updated_catalog_object r = None → removed_catalog_object r = None →
     (ProcessCatalogUpdateResult UpdateCatalogCache r false cur wakeups
      = Some Status_OK
      ↔ Exists (barrier_passed r) (cur :: wakeups))
     ∧ (ProcessCatalogUpdateResult UpdateCatalogCache r false cur wakeups
        = None
        ↔ Forall (λ c, ¬ barrier_passed r c) (cur :: wakeups)))
  ∧ (∀ status,
       ProcessCatalogUpdateResult UpdateCatalogCache r true cur wakeups
       = Some status → status = Status_OK)
  ∧ (ProcessCatalogUpdateResult UpdateCatalogCache r true cur wakeups
     = Some Status_OK
     ↔ ∃ blocked observed later,
         cur :: wakeups = blocked ++ observed :: later
         ∧ Forall (λ c, ¬ barrier_passed r c) blocked
         ∧ barrier_passed r observed
         ∧ Exists (subscribers_caught_up r
                     (catalog_topic_version (catalog_update_info_ observed)))
                  (observed :: later)).
Proof.
  unfold ProcessCatalogUpdateResult.
  split; [|split; [|split]].
  - intros Hobj. rewrite andb_true_r.
    rewrite (orb_true_intro _ _) by
      (destruct Hobj; [left|right]; by apply bool_decide_eq_true).
    by eexists.
  - intros -> ->. simpl.
    destruct (wait_processed_locally _ _ cur wakeups) as [[observed later]|]
      eqn:Hw.
    + apply CatalogProofs.wait_processed_locally_ends in Hw
        as (blocked & Heq & Hp & Hb).
      split.
      * split; [|done]. intros _. rewrite Heq. apply Exists_app. right.
        by left.
      * split; [done|]. intros Hall. exfalso. rewrite Heq in Hall.
        apply Forall_app in Hall as [_ Hall].
        by apply Forall_cons in Hall as [? _].
    + apply wait_processed_locally_None in Hw. split.
      * split; [done|]. intros Hex. exfalso.
        apply Exists_exists in Hex as (c & Hc & Hpc).
        by eapply Forall_forall in Hw.
      * done.
  - intros status. rewrite andb_false_r. simpl.
    destruct (wait_processed_locally _ _ cur wakeups) as [[observed later]|];
      [|done].
    destruct (wait_all_subscribers _ _ observed later); [|done].
    by intros [= <-].
  - rewrite andb_false_r. simpl.
    destruct (wait_processed_locally _ _ cur wakeups) as [[observed later]|]
      eqn:Hw.
    + pose proof Hw as Hw'.
      apply CatalogProofs.wait_processed_locally_ends in Hw
        as (blocked & Heq & Hp & Hb).
      pose proof (wait_all_subscribers_spec r
                    (catalog_topic_version (catalog_update_info_ observed))
                    observed later) as Hsub.
      split.
      * destruct (wait_all_subscribers _ _ observed later) eqn:Hs; [|done].
        intros _. exists blocked, observed, later.
        split; [done|]. split; [done|]. split; [done|].
        apply Hsub. by eexists.
      * intros (blocked' & observed' & later' & Heq' & Hb' & Hp' & Hex).
        assert (blocked' = blocked ∧ observed' = observed ∧ later' = later)
          as (-> & -> & ->).
        { rewrite Heq in Heq'. clear -Heq' Hb Hb' Hp Hp'.
          revert blocked' Heq' Hb'.
          induction blocked as [|b bl IH]; intros [|b' bl'] Heq' Hb'.
          - by injection Heq' as -> ->.
          - injection Heq' as -> _. by apply Forall_cons in Hb' as [? _].
          - injection Heq' as -> _. by apply Forall_cons in Hb as [? _].
          - injection Heq' as -> Heq'.
            apply Forall_cons in Hb as [_ Hb].
            apply Forall_cons in Hb' as [_ Hb'].
            destruct (IH Hb _ Heq' Hb') as (-> & -> & ->). done. }
        apply Hsub in Hex as [x Hx]. by rewrite Hx.
    + split; [done|].
      intros (blocked' & observed' & later' & Heq' & Hb' & Hp' & Hex).
      apply wait_processed_locally_None in Hw. rewrite Heq' in Hw.
      apply Forall_app in Hw as [_ Hw].
      by apply Forall_cons in Hw as [? _].
Qed.

End Barrier.

End CatalogMoreProofs.

Module CatalogCallbackProofs.
Import Catalog CatalogCallback.

Section Callback.

Variable DeserializeCatalogObject : string → option TCatalogObject.
Variable TCatalogObjectFromEntryKey : string → option TCatalogObject.
Variable GetCatalogObject : TCatalogObject → option TCatalogObject.
Variable UpdateCatalogCache : TCatalogCacheRequest → Status * TUniqueId.

Lemma last_catalog_cons (o : TCatalogObject) (objs : list TCatalogObject) :
  last_catalog (o :: objs)
  = match last_catalog objs with
    | Some c => Some c
    | None => if bool_decide (co_type o = CATALOG) then Some o else None
    end.
Proof.
  unfold last_catalog. case_bool_decide as Ho.
  - rewrite filter_cons_True by done. rewrite last_cons.
    by destruct (last _).
  - rewrite filter_cons_False by done. by destruct (last _).
Qed.

(** The loop over the entries, in terms of the objects they carry. *)
Lemma process_updates_spec (entries : list TTopicItem)
    (service_id : option TUniqueId) (v : Z) (calls : list LibCacheCall)
    (updated : list TCatalogObject) :
  let objs := carried_objects DeserializeCatalogObject entries in
  ∃ calls',
    process_updates DeserializeCatalogObject entries service_id v calls updated
    = (match last_catalog objs with
       | Some c => Some (co_catalog_service_id c)
       | None => service_id
       end,
       match last_catalog objs with
       | Some c => co_catalog_version c
       | None => v
       end,
       calls ++ calls', updated ++ objs)
    ∧ ∀ call, call ∈ calls' → ∃ loc, call = SetNeedsRefresh loc.
Proof.
  revert service_id v calls updated.
  induction entries as [|item rest IH]; intros service_id v calls updated;
    simpl.
  - exists []. rewrite !app_nil_r. split; [done|]. by intros ? ?%elem_of_nil.
  - unfold carried_objects. simpl.
    destruct (DeserializeCatalogObject (ti_value item)) as [o|] eqn:Hd; simpl.
    2:{ apply IH. }
    fold (carried_objects DeserializeCatalogObject rest).
    rewrite last_catalog_cons.
    set (calls1 := if bool_decide (co_type o = FUNCTION) then _ else _).
    set (calls2 := if bool_decide (co_type o = DATA_SOURCE) then _ else _).
    assert (Hc : ∃ c0, calls2 = calls ++ c0
                       ∧ ∀ call, call ∈ c0 → ∃ loc, call = SetNeedsRefresh loc).
    { subst calls2 calls1.
      destruct (bool_decide (co_type o = FUNCTION)),
               (bool_decide (co_type o = DATA_SOURCE)).
      - exists [SetNeedsRefresh (co_fn_hdfs_location o);
                SetNeedsRefresh (co_data_source_hdfs_location o)].
        rewrite <- app_assoc. split; [done|].
        intros call [->|[->|Hn]%elem_of_cons]%elem_of_cons;
          [by eexists..|by apply elem_of_nil in Hn].
      - exists [SetNeedsRefresh (co_fn_hdfs_location o)]. split; [done|].
        intros call [->|Hn]%elem_of_cons;
          [by eexists|by apply elem_of_nil in Hn].
      - exists [SetNeedsRefresh (co_data_source_hdfs_location o)].
        split; [done|].
        intros call [->|Hn]%elem_of_cons;
          [by eexists|by apply elem_of_nil in Hn].
      - exists []. rewrite app_nil_r. split; [done|].
        by intros ? ?%elem_of_nil. }
    destruct Hc as (c0 & Hc0eq & Hc0). rewrite Hc0eq. clear Hc0eq.
    clearbody calls1 calls2.
    destruct (bool_decide (co_type o = CATALOG)) eqn:Hcat.
    + destruct (IH (Some (co_catalog_service_id o)) (co_catalog_version o)
                   (calls ++ c0) (updated ++ [o]))
        as (calls' & Heq & Hcalls').
      exists (c0 ++ calls'). rewrite Heq, <- !app_assoc. simpl. split.
      * by destruct
          (last_catalog (carried_objects DeserializeCatalogObject rest)).
      * intros call [?|?]%elem_of_app; [by apply Hc0|by apply Hcalls'].
    + destruct (IH service_id v (calls ++ c0) (updated ++ [o]))
        as (calls' & Heq & Hcalls').
      exists (c0 ++ calls'). rewrite Heq, <- !app_assoc. simpl. split.
      * by destruct
          (last_catalog (carried_objects DeserializeCatalogObject rest)).
      * intros call [?|?]%elem_of_app; [by apply Hc0|by apply Hcalls'].
Qed.

(** The objects the loop over the deletions puts into the request. *)
Lemma process_deletions_removed (deletions : list string) (v : Z)
    (removed dropped : list TCatalogObject) :
  (process_deletions TCatalogObjectFromEntryKey GetCatalogObject
                     deletions v removed dropped).1
  = removed ++ omap TCatalogObjectFromEntryKey deletions.
Proof.
  revert removed dropped.
  induction deletions as [|key rest IH]; intros removed dropped; simpl.
  - by rewrite app_nil_r.
  - destruct (TCatalogObjectFromEntryKey key) as [o|]; [|apply IH].
    rewrite IH, <- app_assoc. done.
Qed.

(** The callback on a delta with entries or deletions, in terms of the
    request it sends and the answer it gets. *)
Lemma CatalogUpdateCallback_cases
    (incoming_topic_deltas : gmap string TCatalogTopicDelta)
    (delta : TCatalogTopicDelta) (cur : CatalogState) :
  incoming_topic_deltas !! IMPALA_CATALOG_TOPIC = Some delta →
  cd_topic_entries delta ≠ [] ∨ cd_topic_deletions delta ≠ [] →
  let objs := carried_objects DeserializeCatalogObject
                              (cd_topic_entries delta) in
  let req :=
    {| cr_is_delta := cd_is_delta delta;
       cr_catalog_service_id := co_catalog_service_id <$> last_catalog objs;
       cr_updated_objects := objs;
       cr_removed_objects :=
         omap TCatalogObjectFromEntryKey (cd_topic_deletions delta) |} in
  let new_catalog_version :=
    match last_catalog objs with
    | Some c => co_catalog_version c
    | None => catalog_version (catalog_update_info_ cur)
    end in
  let res := CatalogUpdateCallback DeserializeCatalogObject
               TCatalogObjectFromEntryKey GetCatalogObject UpdateCatalogCache
               incoming_topic_deltas cur in
  notified res = true
  ∧ min_subscriber_catalog_topic_version_ (guarded res)
    = cd_min_subscriber_topic_version delta
  ∧ (ok (UpdateCatalogCache req).1 = true →
     catalog_update_info_ (guarded res)
     = {| catalog_version := new_catalog_version;
          catalog_topic_version := cd_to_version delta;
          catalog_service_id := (UpdateCatalogCache req).2 |}
     ∧ subscriber_topic_updates res = []
     ∧ catalog_ready res = Some (0 <? new_catalog_version)
     ∧ DropCache ∉ lib_cache res)
  ∧ (ok (UpdateCatalogCache req).1 = false →
     catalog_update_info_ (guarded res) = catalog_update_info_ cur
     ∧ subscriber_topic_updates res = [(IMPALA_CATALOG_TOPIC, 0)]
     ∧ catalog_ready res = Some false
     ∧ last (lib_cache res) = Some DropCache).
Proof.
  intros Htopic Hne objs req v' res. subst res.
  unfold CatalogUpdateCallback. rewrite Htopic.
  assert (Hb : negb (bool_decide (cd_topic_entries delta = []))
               || negb (bool_decide (cd_topic_deletions delta = [])) = true).
  { apply orb_true_iff.
    destruct Hne as [?|?]; [left|right]; by rewrite bool_decide_eq_false_2. }
  rewrite Hb.
  destruct (process_updates_spec (cd_topic_entries delta) None
              (catalog_version (catalog_update_info_ cur)) [] [])
    as (calls' & Hupd & Hcalls).
  rewrite Hupd. simpl.
  fold objs. fold v'.
  destruct (process_deletions _ _ _ _ _ _) as [removed dropped] eqn:Hdel.
  assert (Hrem : removed
                 = omap TCatalogObjectFromEntryKey (cd_topic_deletions delta)).
  { pose proof (process_deletions_removed (cd_topic_deletions delta) v' [] [])
      as Hr. by rewrite Hdel in Hr. }
  subst removed.
  assert (Hreq : {| cr_is_delta := cd_is_delta delta;
                    cr_catalog_service_id :=
                      match last_catalog objs with
                      | Some c => Some (co_catalog_service_id c)
                      | None => None
                      end;
                    cr_updated_objects := objs;
                    cr_removed_objects :=
                      omap TCatalogObjectFromEntryKey
                           (cd_topic_deletions delta) |} = req).
  { subst req. by destruct (last_catalog objs). }
  rewrite Hreq.
  destruct (UpdateCatalogCache req) as [st sid]. simpl.
  destruct (ok st) eqn:Hok; simpl.
  - split; [done|]. split; [done|]. split; [|done]. intros _.
    split; [done|]. split; [done|]. split; [done|].
    intros [Hin|Hin]%elem_of_app.
    + by destruct (Hcalls _ Hin).
    + unfold remove_dropped in Hin. apply list_elem_of_omap in Hin
        as (o & _ & Ho).
      repeat case_bool_decide; done.
  - split; [done|]. split; [done|]. split; [done|]. intros _.
    split; [done|]. split; [done|]. split; [done|].
    by rewrite last_snoc.
Qed.

(** X18. What [CatalogUpdateCallback] does with a catalog topic delta
    that carries entries or deletions. The request given to the front end
    holds, in order, the objects of the entries that deserialise and the
    objects of the deletion keys that parse, and the service id of the
    last object of type CATALOG. If the front end accepts it, the catalog
    version becomes the version of that last CATALOG object, or stays
    what it was when there is none; the topic version becomes
    [to_version] and the service id what the front end answered. If the
    front end refuses, version, topic version and service id stay as they
    were, a full topic update is requested ([from_version] 0) and the
    library cache is dropped. Either way the minimum subscriber version is
    taken from the delta and the waiters are notified. *)
Theorem CatalogUpdateCallback_applies
    (incoming_topic_deltas : gmap string TCatalogTopicDelta)
    (delta : TCatalogTopicDelta) (cur : CatalogState) :
  incoming_topic_deltas !! IMPALA_CATALOG_TOPIC = Some delta →
  cd_topic_entries delta ≠ [] ∨ cd_topic_deletions delta ≠ [] →
  let objs := carried_objects DeserializeCatalogObject
                              (cd_topic_entries delta) in
  let req :=
    {| cr_is_delta := cd_is_delta delta;
       cr_catalog_service_id := co_catalog_service_id <$> last_catalog objs;
       cr_updated_objects := objs;
       cr_removed_objects :=
         omap TCatalogObjectFromEntryKey (cd_topic_deletions delta) |} in
  let new_catalog_version :=
    match last_catalog objs with
    | Some c => co_catalog_version c
    | None => catalog_version (catalog_update_info_ cur)
    end in
  let res := CatalogUpdateCallback DeserializeCatalogObject
               TCatalogObjectFromEntryKey GetCatalogObject UpdateCatalogCache
               incoming_topic_deltas cur in
  notified res = true
  ∧ min_subscriber_catalog_topic_version_ (guarded res)
    = cd_min_subscriber_topic_version delta
  ∧ (ok (UpdateCatalogCache req).1 = true →
     catalog_update_info_ (guarded res)
     = {| catalog_version := new_catalog_version;
          catalog_topic_version := cd_to_version delta;
          catalog_service_id := (UpdateCatalogCache req).2 |}
     ∧ subscriber_topic_updates res = []
     ∧ catalog_ready res = Some (0 <? new_catalog_version)
     ∧ DropCache ∉ lib_cache res)
  ∧ (ok (UpdateCatalogCache req).1 = false →
     catalog_update_info_ (guarded res) = catalog_update_info_ cur
     ∧ subscriber_topic_updates res = [(IMPALA_CATALOG_TOPIC, 0)]
     ∧ catalog_ready res = Some false
     ∧ last (lib_cache res) = Some DropCache).
Proof.
  intros Htopic Hne.
  exact (CatalogUpdateCallback_cases incoming_topic_deltas delta cur Htopic Hne).
Qed.

(** X19. The heartbeat that carries a catalog version releases the
    thread that waits for it. Let the callback get a delta with entries or
    deletions that the front end accepts. If the new catalog version has
    reached the version of a catalog update result under the service id
    the front end answered, or that service id is not the one of the
    result, then a [ProcessCatalogUpdateResult] for this result that sees
    the state the callback leaves returns OK when it does not wait for
    all subscribers, however long it was blocked before. *)
Theorem CatalogUpdateCallback_releases
    (incoming_topic_deltas : gmap string TCatalogTopicDelta)
    (delta : TCatalogTopicDelta) (cur : CatalogState)
    (r : TCatalogUpdateResult)
    (FrontendUpdate : TUpdateCatalogCacheRequest → Status)
    (waiter_cur : CatalogState) (seen_before : list CatalogState) :
  incoming_topic_deltas !! IMPALA_CATALOG_TOPIC = Some delta →
  cd_topic_entries delta ≠ [] ∨ cd_topic_deletions delta ≠ [] →
  let objs := carried_objects DeserializeCatalogObject
                              (cd_topic_entries delta) in
  let req :=
    {| cr_is_delta := cd_is_delta delta;
       cr_catalog_service_id := co_catalog_service_id <$> last_catalog objs;
       cr_updated_objects := objs;
       cr_removed_objects :=
         omap TCatalogObjectFromEntryKey (cd_topic_deletions delta) |} in
  let new_catalog_version :=
    match last_catalog objs with
    | Some c => co_catalog_version c
    | None => catalog_version (catalog_update_info_ cur)
    end in
  let res := CatalogUpdateCallback DeserializeCatalogObject
               TCatalogObjectFromEntryKey GetCatalogObject UpdateCatalogCache
               incoming_topic_deltas cur in
  ok (UpdateCatalogCache req).1 = true →
  version r ≤ new_catalog_version
  ∨ (UpdateCatalogCache req).2 ≠ result_catalog_service_id r →
  updated_catalog_object r = None →
  removed_catalog_object r = None →
  barrier_passed r (guarded res)
  ∧ ProcessCatalogUpdateResult FrontendUpdate r false waiter_cur
      (seen_before ++ [guarded res])
    = Some Status_OK.
Proof.
  intros Htopic Hne objs req v' res Hok Hver Hu Hr.
  destruct (CatalogUpdateCallback_cases incoming_topic_deltas delta cur
              Htopic Hne) as (_ & _ & Hinfo & _).
  destruct (Hinfo Hok) as (Hinfo' & _). clear Hinfo.
  fold objs req v' res in Hinfo'. rename Hinfo' into Hinfo.
  assert (Hp : barrier_passed r (guarded res)).
  { unfold barrier_passed. rewrite Hinfo. simpl.
    destruct (decide ((UpdateCatalogCache req).2
                      = result_catalog_service_id r)) as [Heq|Hneq].
    - left. destruct Hver as [?|?]; done.
    - by right. }
  split; [done|].
  unfold ProcessCatalogUpdateResult. rewrite Hu, Hr. simpl.
  destruct (CatalogProofs.wait_processed_locally_returns r waiter_cur
              (seen_before ++ [guarded res])) as [[o l] ->]; [|done].
  apply Exists_cons. right. apply Exists_app. right. by left.
Qed.

End Callback.

End CatalogCallbackProofs.

(** ** Plan fragments: registration, end and cancellation *)

Module FragmentsMoreProofs.
Import Fragments.

Section Service.

Variable Prepare : TExecPlanFragmentParams → Status.
Variable Cancel : FragPtr → Status.
Variable print_id : TUniqueId → string.




(** X21. The life of one plan fragment whose instance id is not yet
    registered. Without an output sink, or when [Prepare()] fails,
    [ExecPlanFragment] answers with the error, registers nothing and
    starts no thread. Otherwise it answers OK, the id leads to the new
    object and a cancellation under the id reaches that object; when the
    exec thread ends, the map is what it was before the fragment came, and
    a cancellation under the id is answered with an internal error that
    names the id and calls [Cancel()] on nothing. *)
Theorem fragment_lifecycle (b : Backend)
    (exec_params : TExecPlanFragmentParams) :
  fragment_exec_state_map_ b !! fragment_instance_id exec_params = None →
  let fid := fragment_instance_id exec_params in
  let exec_state := length (objects b) in
  let r := ExecPlanFragment Prepare exec_params b in
  if has_output_sink exec_params && ok (Prepare exec_params) then
    r.1 = ToThrift Status_OK
    ∧ fragment_exec_state_map_ r.2
      = <[fid := exec_state]> (fragment_exec_state_map_ b)
    ∧ trace (CancelPlanFragment Cancel print_id fid r.2).2
      = trace r.2 ++ [CancelCalled exec_state]
    ∧ fragment_exec_state_map_ (RunExecPlanFragment_done exec_params r.2)
      = fragment_exec_state_map_ b
    ∧ CancelPlanFragment Cancel print_id fid
        (RunExecPlanFragment_done exec_params r.2)
      = (ToThrift (Status_of_code TStatusCode_INTERNAL_ERROR
                     ("unknown fragment id: " +:+ print_id fid)),
         RunExecPlanFragment_done exec_params r.2)
  else
    r.1 = ToThrift (if has_output_sink exec_params then Prepare exec_params
                    else Status_of_msg "missing sink in plan fragment")
    ∧ status_code r.1 = TStatusCode_INTERNAL_ERROR
    ∧ fragment_exec_state_map_ r.2 = fragment_exec_state_map_ b
    ∧ (∀ o, ExecThreadStarted o ∈ trace r.2 → ExecThreadStarted o ∈ trace b).
Proof.
  intros Hnew fid exec_state r. subst r fid exec_state.
  unfold ExecPlanFragment.
  rewrite FragmentsProofs.StartPlanFragmentExecution_parts.
  destruct (has_output_sink exec_params) eqn:Hsink; simpl.
  - destruct (ok (Prepare exec_params)) eqn:Hok; simpl.
    + unfold FragPtr in *.
      assert (Hins : ∀ v : nat,
                map_insert_new (fragment_instance_id exec_params) v
                               (fragment_exec_state_map_ b)
                = <[fragment_instance_id exec_params := v]>
                    (fragment_exec_state_map_ b)).
      { intros v. unfold map_insert_new. by rewrite Hnew. }
      unfold CancelPlanFragment, GetFragmentExecState. simpl. rewrite !Hins.
      split; [done|]. split; [done|]. split; [|split].
      * by rewrite lookup_insert_eq.
      * rewrite delete_insert_eq. by apply delete_id.
      * by rewrite lookup_delete_eq.
    + split; [done|]. split.
      * destruct (Prepare exec_params) as [[msgs]|]; done.
      * split; [done|]. intros o Ho.
        apply elem_of_app in Ho as [Ho|Ho%list_elem_of_singleton]; [|done].
        apply elem_of_app in Ho as [Ho|Ho%list_elem_of_singleton]; done.
  - done.
Qed.

End Service.

End FragmentsMoreProofs.

(** ** The proxy-user configuration flag *)

Module ProxyConfigProofs.
Import Proxy.

Lemma find_from_sep (sep : ascii) (u v : string) (i : Z) :
  str_forallb (λ c, negb (Ascii.eqb c sep)) u = true →
  find_from sep (u +:+ String sep v) i = i + Z.of_nat (String.length u).
Proof.
  revert i. induction u as [|c r IH]; intros i; simpl.
  - intros _. rewrite Ascii.eqb_refl. lia.
  - intros [Hc Hr]%andb_true_iff. apply negb_true_iff in Hc. rewrite Hc.
    rewrite IH by done. lia.
Qed.

Lemma find_from_none (sep : ascii) (u : string) (i : Z) :
  str_forallb (λ c, negb (Ascii.eqb c sep)) u = true →
  find_from sep u i = npos.
Proof.
  revert i. induction u as [|c r IH]; intros i; simpl; [done|].
  intros [Hc Hr]%andb_true_iff. apply negb_true_iff in Hc. rewrite Hc.
  by apply IH.
Qed.

Lemma str_take_app (u v : string) : str_take (String.length u) (u +:+ v) = u.
Proof.
  induction u as [|c r IH]; simpl; [by destruct v|]. by rewrite IH.
Qed.

Lemma str_drop_app (u v : string) (c : ascii) :
  str_drop (S (String.length u)) (u +:+ String c v) = v.
Proof. induction u as [|d r IH]; simpl; [done|]. exact IH. Qed.

Lemma str_forallb_join (p : ascii → bool) (sep : string) (l : list string) :
  str_forallb p sep = true →
  Forall (λ a, str_forallb p a = true) l →
  str_forallb p (join sep l) = true.
Proof.
  intros Hsep. induction 1 as [|a l Ha Hl IH]; [done|].
  destruct l as [|a' l']; [done|].
  change (join sep (a :: a' :: l')) with (a +:+ sep +:+ join sep (a' :: l')).
  rewrite !str_forallb_app, Ha, Hsep, IH. done.
Qed.

(** The piece after the last separator of a text that ends in one is
    empty. *)
Lemma split_go_trailing (pred : ascii → bool) (tok : string) (b : bool)
    (s : string) (c : ascii) :
  pred c = true → "" ∈ split_go pred tok b (s +:+ String c "").
Proof.
  intros Hc. revert tok b. induction s as [|d r IH]; intros tok b; simpl.
  - rewrite Hc. destruct b; [by left|]. right. by left.
  - destruct (pred d).
    + destruct b; [apply IH|]. right. apply IH.
    + apply IH.
Qed.

(** One well-formed entry is read as it was written. *)
Lemma parse_proxy_entry_text (e : string * list string) (m : ProxyUserMap) :
  proxy_entry_wf e →
  parse_proxy_entry (e.1 +:+ "=" +:+ join "," e.2) m
  = Some (map_insert_new e.1 (list_to_set e.2) m).
Proof.
  destruct e as [u allowed]. intros (Hlen & _ & Heq & Hne & Hall). simpl in *.
  unfold parse_proxy_entry, find.
  change (u +:+ "=" +:+ join "," allowed)
    with (u +:+ String "=" (join "," allowed)).
  rewrite find_from_sep by done. rewrite Z.add_0_l.
  destruct (_ =? npos) eqn:Hn; [apply Z.eqb_eq in Hn; lia|].
  unfold substr, substr_from.
  change (Z.to_nat 0) with 0%nat. cbn [str_drop].
  rewrite Nat2Z.id, str_take_app.
  replace (Z.to_nat (Z.of_nat (String.length u) + 1))
    with (S (String.length u)) by lia.
  rewrite str_drop_app.
  rewrite (split_join "," allowed Hne); [done|].
  eapply Forall_impl; [exact Hall|]. by intros a (? & ? & _).
Qed.

(** A piece without '=' ends the process. *)
Lemma parse_proxy_entry_exit (config : string) (m : ProxyUserMap) :
  str_forallb (λ c, negb (Ascii.eqb c "=")) config = true →
  parse_proxy_entry config m = None.
Proof.
  intros Hno. unfold parse_proxy_entry, find.
  by rewrite find_from_none.
Qed.

Lemma parse_entries_exit (pieces : list string) (config : string)
    (acc : option ProxyUserMap) :
  config ∈ pieces →
  str_forallb (λ c, negb (Ascii.eqb c "=")) config = true →
  foldl (λ acc config, m ← acc; parse_proxy_entry config m) acc pieces = None.
Proof.
  intros Hin Hno. revert acc.
  induction pieces as [|p rest IH]; intros acc; [by apply elem_of_nil in Hin|].
  simpl. apply elem_of_cons in Hin as [<-|Hin].
  - assert (Hnone : (m ← acc; parse_proxy_entry config m) = None).
    { destruct acc; [by apply parse_proxy_entry_exit|done]. }
    rewrite Hnone. clear. induction rest as [|p rest IH]; [done|]. exact IH.
  - by apply IH.
Qed.

Lemma parse_entries_text (entries : list (string * list string))
    (m : ProxyUserMap) :
  Forall proxy_entry_wf entries →
  foldl (λ acc config, m ← acc; parse_proxy_entry config m) (Some m)
        ((λ e, e.1 +:+ "=" +:+ join "," e.2) <$> entries)
  = Some (foldl (λ m e, map_insert_new e.1 (list_to_set e.2) m) m entries).
Proof.
  intros Hall. revert m. induction Hall as [|e l He Hl IH]; intros m; [done|].
  simpl. rewrite parse_proxy_entry_text by done. apply IH.
Qed.

Lemma insert_new_entries_lookup (entries : list (string * list string))
    (m : ProxyUserMap) (u : string) :
  foldl (λ m e, map_insert_new e.1 (list_to_set e.2) m) m entries !! u
  = match m !! u with
    | Some allowed => Some allowed
    | None =>
        (λ ie : nat * (string * list string), list_to_set ie.2.2)
          <$> list_find (λ e, e.1 = u) entries
    end.
Proof.
  revert m. induction entries as [|e l IH]; intros m; simpl.
  - by destruct (m !! u).
  - rewrite IH. unfold map_insert_new.
    destruct (decide (e.1 = u)) as [<-|Hne].
    + destruct (m !! e.1) as [a|] eqn:Hm; [by rewrite Hm|].
      by rewrite lookup_insert_eq.
    + destruct (m !! e.1) as [a|] eqn:Hm.
      * destruct (m !! u); [done|]. by destruct (list_find _ l).
      * rewrite lookup_insert_ne by done.
        destruct (m !! u); [done|]. by destruct (list_find _ l).
Qed.

(** X22. Reading the proxy-user flag back. For a non-empty list of entries
    whose users hold no ';' and no '=' and whose allowed names are
    non-empty, at least one per entry, and free of ',' and ';', the
    constructor reads the text user=name,name;user=name without leaving
    the process, and the configuration it builds takes for every user the
    names of the first entry written for this user; later entries for the
    same user are dropped, and a user without an entry is no key. *)
Theorem parse_authorized_proxy_user_config_text
    (entries : list (string * list string)) :
  entries ≠ [] →
  Forall proxy_entry_wf entries →
  ∃ cfg : ProxyUserMap,
    parse_authorized_proxy_user_config (proxy_config_text entries) = Some cfg
    ∧ ∀ user : string,
        cfg !! user
        = (λ ie : nat * (string * list string), list_to_set ie.2.2)
            <$> list_find (λ e, e.1 = user) entries.
Proof.
  intros Hne Hall.
  exists (foldl (λ m e, map_insert_new e.1 (list_to_set e.2) m) ∅ entries).
  split.
  - unfold parse_authorized_proxy_user_config, proxy_config_text.
    rewrite bool_decide_eq_false_2.
    + rewrite (split_join ";").
      * by apply parse_entries_text.
      * by destruct entries.
      * apply Forall_fmap. eapply Forall_impl; [exact Hall|].
        intros [u allowed] (_ & Hsemi & _ & Hne' & Hnames). simpl in *.
        split; [by destruct u|].
        rewrite !str_forallb_app, Hsemi. simpl.
        apply str_forallb_join; [done|].
        eapply Forall_impl; [exact Hnames|]. by intros a (_ & _ & ?).
    + destruct entries as [|[u allowed] rest]; [done|]. simpl.
      destruct rest; simpl; by destruct u.
  - intros user. rewrite insert_new_entries_lookup. by rewrite lookup_empty.
Qed.

(** X23. Flag texts that end the process. A non-empty flag one of whose
    pieces between ';' holds no '=' makes the constructor call exit(1); so
    does every flag that ends in ';', its last piece being empty. The
    empty flag is read as the empty configuration. *)
Theorem parse_authorized_proxy_user_config_exits :
  (∀ flag config : string,
     flag ≠ "" →
     config ∈ split (is_any_of ";") flag →
     str_forallb (λ c, negb (Ascii.eqb c "=")) config = true →
     parse_authorized_proxy_user_config flag = None)
  ∧ (∀ flag : string,
       parse_authorized_proxy_user_config (flag +:+ ";") = None)
  ∧ parse_authorized_proxy_user_config "" = Some ∅.
Proof.
  assert (Hexit : ∀ flag config : string,
     flag ≠ "" →
     config ∈ split (is_any_of ";") flag →
     str_forallb (λ c, negb (Ascii.eqb c "=")) config = true →
     parse_authorized_proxy_user_config flag = None).
  { intros flag config Hne Hin Hno. unfold parse_authorized_proxy_user_config.
    rewrite bool_decide_eq_false_2 by done.
    by eapply parse_entries_exit. }
  split; [done|]. split; [|done].
  intros flag. apply (Hexit _ "").
  - by destruct flag.
  - by apply split_go_trailing.
  - done.
Qed.

End ProxyConfigProofs.

(** ** Query options: pieces, keys and the default configuration *)

Module OptionsMoreProofs.
Import Options DefaultOptions.

(** After a separator, the pieces are those of a fresh split, up to empty
    ones. *)
Lemma split_go_after_sep (pred : ascii → bool) (b : bool) (s : string) :
  filter (λ t, t ≠ "") (split_go pred "" b s)
  = filter (λ t, t ≠ "") (split pred s).
Proof.
  unfold split. destruct s as [|c r]; simpl; [done|].
  destruct (pred c); [|done]. destruct b; [|done].
  by rewrite filter_cons_False by (by intros ?).
Qed.

(** The non-empty pieces of a text with a separator in it. *)
Lemma split_go_app (pred : ascii → bool) (tok : string) (p : bool)
    (a b : string) (c : ascii) :
  pred c = true →
  (p = true → tok = "") →
  filter (λ t, t ≠ "") (split_go pred tok p (a +:+ String c b))
  = filter (λ t, t ≠ "") (split_go pred tok p a)
    ++ filter (λ t, t ≠ "") (split pred b).
Proof.
  intros Hc. revert tok p. induction a as [|d r IH]; intros tok p Hp; simpl.
  - rewrite Hc. destruct p.
    + rewrite (Hp eq_refl). rewrite filter_cons_False by (by intros ?).
      simpl. apply split_go_after_sep.
    + rewrite filter_cons, (filter_cons _ tok []).
      rewrite split_go_after_sep. by destruct (decide (tok ≠ "")).
  - destruct (pred d).
    + destruct p.
      * by apply IH.
      * rewrite !filter_cons, IH by done. by destruct (decide (tok ≠ "")).
    + by apply IH.
Qed.

Section Parser.

Variable ParseMemSpec : string → Z * bool.

(** Empty pieces are passed over. *)
Lemma parse_kv_pairs_filter (kv_pairs : list string) (qo : TQueryOptions) :
  parse_kv_pairs ParseMemSpec (filter (λ t, t ≠ "") kv_pairs) qo
  = parse_kv_pairs ParseMemSpec kv_pairs qo.
Proof.
  revert qo. induction kv_pairs as [|t rest IH]; intros qo; [done|].
  rewrite filter_cons. destruct (decide (t ≠ "")) as [Hne|He].
  - simpl. case_bool_decide; [by apply IH|].
    destruct (split _ _) as [|key [|value [|]]]; try done.
    destruct (SetQueryOptions _ _ _ _) as [status qo'].
    destruct (ok status); [by apply IH|done].
  - apply dec_stable in He. subst t. simpl. by apply IH.
Qed.

Lemma parse_kv_pairs_app (l1 l2 : list string) (qo : TQueryOptions) :
  parse_kv_pairs ParseMemSpec (l1 ++ l2) qo
  = parse_then (parse_kv_pairs ParseMemSpec l1)
               (parse_kv_pairs ParseMemSpec l2) qo.
Proof.
  unfold parse_then. revert qo.
  induction l1 as [|t rest IH]; intros qo; [done|].
  simpl. case_bool_decide; [by apply IH|].
  destruct (split _ _) as [|key [|value [|]]]; try done.
  destruct (SetQueryOptions _ _ _ _) as [status qo'].
  destruct (ok status) eqn:Hok; [by apply IH|]. simpl. by rewrite Hok.
Qed.

Lemma ParseQueryOptions_pieces (options : string) (qo : TQueryOptions) :
  ParseQueryOptions ParseMemSpec options qo
  = parse_kv_pairs ParseMemSpec (split (is_any_of ",") options) qo.
Proof.
  unfold ParseQueryOptions. case_bool_decide as He; [|done]. by subst.
Qed.

(** X24. An option string is read from left to right, piece by piece:
    parsing a,b is parsing a and then, if that went well, parsing b from
    the options a has left. So a later setting of an option wins, and
    when a piece is refused the settings before it stay made while those
    after it are not looked at; the error is that of the first refused
    piece. *)
Theorem ParseQueryOptions_sequence (a b : string) (qo : TQueryOptions) :
  ParseQueryOptions ParseMemSpec (a +:+ "," +:+ b) qo
  = parse_then (ParseQueryOptions ParseMemSpec a)
               (ParseQueryOptions ParseMemSpec b) qo.
Proof.
  unfold parse_then. rewrite !ParseQueryOptions_pieces.
  rewrite <- parse_kv_pairs_filter.
  change (a +:+ "," +:+ b) with (a +:+ String "," b).
  unfold split at 1. rewrite split_go_app by done.
  rewrite parse_kv_pairs_app. unfold parse_then.
  fold (split (is_any_of ",") a). rewrite !parse_kv_pairs_filter.
  destruct (ok _); done.
Qed.

End Parser.

(** Strings equal up to case compare alike with a third. *)
Lemma iequals_congr (a b c : string) :
  iequals a b = true → iequals a c = iequals b c.
Proof.
  revert b c. induction a as [|x a IH]; intros [|y b] [|z c]; simpl; try done.
  intros [Hxy Hab]%andb_true_iff. apply Ascii.eqb_eq in Hxy.
  rewrite Hxy. by rewrite (IH b c Hab).
Qed.

Lemma GetQueryOption_from_congr (key key' : string)
    (names : list (TImpalaQueryOptions * string)) :
  iequals key key' = true →
  GetQueryOption_from key names = GetQueryOption_from key' names.
Proof.
  intros Heq. induction names as [|itr rest IH]; simpl; [done|].
  by rewrite (iequals_congr key key' itr.2 Heq), IH.
Qed.

Lemma GetQueryOption_names :
  Forall (λ itr, GetQueryOption itr.2 = Some itr.1)
         _TImpalaQueryOptions_VALUES_TO_NAMES.
Proof.
  unfold _TImpalaQueryOptions_VALUES_TO_NAMES.
  repeat (apply Forall_cons; split; [vm_compute; reflexivity|]).
  apply Forall_nil. done.
Qed.

(** X25. Option keys are matched up to case. A key equal up to case to
    the name of an option selects this option, so that every option can be
    set under its name in any case; two keys equal up to case have the
    same effect when they name an option; and a key that no option name
    equals up to case is refused with an error that quotes it, the options
    being left as they were. *)
Theorem SetQueryOptions_key_case (ParseMemSpec : string → Z * bool) :
  (∀ (option : TImpalaQueryOptions) (name key : string),
     (option, name) ∈ _TImpalaQueryOptions_VALUES_TO_NAMES →
     iequals key name = true →
     GetQueryOption key = Some option)
  ∧ (∀ (key key' value : string) (qo : TQueryOptions),
       iequals key key' = true →
       is_Some (GetQueryOption key) →
       SetQueryOptions ParseMemSpec key value qo
       = SetQueryOptions ParseMemSpec key' value qo)
  ∧ (∀ (key value : string) (qo : TQueryOptions),
       Forall (λ itr, iequals key itr.2 = false)
              _TImpalaQueryOptions_VALUES_TO_NAMES →
       SetQueryOptions ParseMemSpec key value qo
       = (Status_of_msg ("Ignoring invalid configuration option: " +:+ key),
          qo)).
Proof.
  split; [|split].
  - intros option name key Hin Heq. unfold GetQueryOption.
    rewrite (GetQueryOption_from_congr key name _ Heq).
    pose proof GetQueryOption_names as Hall.
    rewrite Forall_forall in Hall. exact (Hall _ Hin).
  - intros key key' value qo Heq [option Ho].
    unfold SetQueryOptions, GetQueryOption in *.
    rewrite <- (GetQueryOption_from_congr key key' _ Heq), Ho. done.
  - intros key value qo Hall. unfold SetQueryOptions, GetQueryOption.
    assert (Hnone : GetQueryOption_from key _TImpalaQueryOptions_VALUES_TO_NAMES
                    = None).
    { induction Hall as [|itr rest Hitr _ IH]; simpl; [done|].
      by rewrite Hitr. }
    by rewrite Hnone.
Qed.

Lemma push_back_each (configs l : list (string * string)) :
  foldl (λ configs itr, configs ++ [(itr.1, itr.2)]) configs l = configs ++ l.
Proof.
  revert configs. induction l as [|[k v] l IH]; intros configs; simpl.
  - by rewrite app_nil_r.
  - rewrite IH. by rewrite <- app_assoc.
Qed.

Lemma options_by_name_values (f : TImpalaQueryOptions → string) :
  (λ itr : TImpalaQueryOptions * string, (itr.2, f itr.1)) <$> options_by_name
  = config_entries
      (foldl (λ configuration itr, <[itr.2 := f itr.1]> configuration)
             ∅ _TImpalaQueryOptions_VALUES_TO_NAMES).
Proof. rewrite OptionsProofs.config_entries_by_name. vm_compute. reflexivity. Qed.

(** X26. The default configuration. [InitializeConfigVariables] ends the
    process exactly when the flag of default options does not parse.
    Otherwise the default options are those parsed, and the configuration
    variables appended are one per query option, under the option's name
    and in the order of the names, each with the value of the option as
    [TQueryOptionsToMap] prints it, followed by support_start_over=false. *)
Theorem InitializeConfigVariables_configs (ParseMemSpec : string → Z * bool)
    (FLAGS_default_query_options : string)
    (default_query_options_ : TQueryOptions)
    (default_configs_ : list (string * string)) :
  let r := ParseQueryOptions ParseMemSpec FLAGS_default_query_options
                             default_query_options_ in
  InitializeConfigVariables ParseMemSpec FLAGS_default_query_options
                            default_query_options_ default_configs_
  = if ok r.1 then
      Some (r.2,
            default_configs_
            ++ ((λ itr : TImpalaQueryOptions * string,
                   (itr.2, option_value itr.1 r.2)) <$> options_by_name)
            ++ [("support_start_over", "false")])
    else None.
Proof.
  intros r. unfold InitializeConfigVariables. subst r.
  destruct (ParseQueryOptions _ _ _) as [status qo]. cbn [fst snd].
  destruct (ok status); cbn [negb]; [|done].
  cbv zeta. rewrite push_back_each.
  rewrite (options_by_name_values (λ option, option_value option qo)).
  unfold TQueryOptionsToMap. by rewrite <- app_assoc.
Qed.

End OptionsMoreProofs.

(** ** Detection of node-manager failures *)

Lemma split_all_go_nosep (pred : ascii → bool) (tok v : string) :
  str_forallb (λ c, negb (pred c)) v = true →
  split_all_go pred tok v = [tok +:+ v].
Proof.
  revert tok. induction v as [|c r IH]; intros tok; simpl.
  - intros _. by rewrite str_app_nil_r.
  - intros [Hc Hr]%andb_true_iff. apply negb_true_iff in Hc. rewrite Hc.
    rewrite IH by done. by rewrite str_app_assoc, str_app_cons, str_app_nil_l.
Qed.

Lemma split_all_go_sep (pred : ascii → bool) (tok a b : string) (c : ascii) :
  str_forallb (λ c, negb (pred c)) a = true →
  pred c = true →
  split_all_go pred tok (a +:+ String c b)
  = (tok +:+ a) :: split_all_go pred "" b.
Proof.
  intros Ha Hc. revert tok Ha. induction a as [|d r IH]; intros tok; simpl.
  - intros _. by rewrite Hc, str_app_nil_r.
  - intros [Hd Hr]%andb_true_iff. apply negb_true_iff in Hd. rewrite Hd.
    rewrite IH by done. by rewrite str_app_assoc, str_app_cons, str_app_nil_l.
Qed.

Lemma to_lower_colon (c : ascii) :
  Ascii.eqb (to_lower c) (to_lower ":") = true → c = ":"%char.
Proof.
  destruct c as [[] [] [] [] [] [] [] []]; vm_compute; intros; done.
Qed.

Lemma to_lower_colon_l (c : ascii) :
  Ascii.eqb (to_lower ":") (to_lower c) = true → c = ":"%char.
Proof.
  destruct c as [[] [] [] [] [] [] [] []]; vm_compute; intros; done.
Qed.

(** A text that starts, up to case, with a test text holding a ':' has its
    first ':' where the test text has it. *)
Lemma istarts_with_colon (t1 t2 a b : string) :
  str_forallb (λ c, negb (Ascii.eqb c ":")) t1 = true →
  str_forallb (λ c, negb (Ascii.eqb c ":")) a = true →
  istarts_with (a +:+ String ":" b) (t1 +:+ String ":" t2) = true →
  istarts_with b t2 = true.
Proof.
  revert a. induction t1 as [|t t1 IH]; intros [|c a]; simpl.
  - intros _ _. by destruct (istarts_with b t2).
  - intros _ [Hc _]%andb_true_iff [Heq _]%andb_true_iff.
    apply to_lower_colon in Heq. subst c. done.
  - intros [Ht _]%andb_true_iff _ [Heq _]%andb_true_iff.
    apply to_lower_colon_l in Heq. by subst t.
  - intros [_ Ht1]%andb_true_iff [_ Ha]%andb_true_iff [_ Hst]%andb_true_iff.
    by apply (IH a).
Qed.

(** A text without ':' starts with no test text that holds one. *)
Lemma istarts_with_no_colon (t1 t2 a : string) :
  str_forallb (λ c, negb (Ascii.eqb c ":")) a = true →
  istarts_with a (t1 +:+ String ":" t2) = false.
Proof.
  revert a. induction t1 as [|t t1 IH]; intros [|c a]; simpl; try done.
  - intros [Hc _]%andb_true_iff.
    destruct (Ascii.eqb (to_lower c) _) eqn:Heq; [|done].
    apply to_lower_colon in Heq. by subst c.
  - intros [_ Ha]%andb_true_iff. rewrite IH by done. apply andb_false_r.
Qed.

Lemma number_not_slashes (s : string) :
  str_forallb Options.is_number_char s = true → istarts_with s "//" = false.
Proof.
  destruct s as [|c r]; simpl; [done|]. intros [Hc _]%andb_true_iff.
  destruct c as [[] [] [] [] [] [] [] []]; vm_compute in Hc |- *; done.
Qed.

Lemma number_no_colon (s : string) :
  str_forallb Options.is_number_char s = true →
  str_forallb (λ c, negb (is_any_of ":" c)) s = true.
Proof.
  apply str_forallb_impl. intros c.
  destruct c as [[] [] [] [] [] [] [] []]; vm_compute; intros; done.
Qed.

Lemma no_colon_any_of (s : string) :
  str_forallb (λ c, negb (Ascii.eqb c ":")) s = true →
  str_forallb (λ c, negb (is_any_of ":" c)) s = true.
Proof.
  apply str_forallb_impl. intros c. simpl. by rewrite orb_false_r.
Qed.

(** The address read from a text without prefix. *)
Lemma nm_addr_of_plain (host : string) (p : Z) :
  str_forallb (λ c, negb (Ascii.eqb c ":")) host = true →
  Options.in_int32 p →
  nm_addr_of (host +:+ ":" +:+ Options.print_int p)
  = Some (host +:+ ":" +:+ Options.print_int p,
          MakeNetworkAddress host p, Options.print_int p).
Proof.
  intros Hhost Hp. unfold nm_addr_of.
  change (host +:+ ":" +:+ Options.print_int p)
    with (host +:+ String ":" (Options.print_int p)).
  rewrite bool_decide_eq_false_2 by (by destruct host).
  pose proof (OptionsProofs.print_int_number p) as Hnum.
  assert (H1 : istarts_with (host +:+ String ":" (Options.print_int p))
                            "http://" = false).
  { destruct (istarts_with _ "http://") eqn:Hst; [|done].
    apply (istarts_with_colon "http" "//") in Hst; [|done..].
    by rewrite number_not_slashes in Hst. }
  assert (H2 : istarts_with (host +:+ String ":" (Options.print_int p))
                            "https://" = false).
  { destruct (istarts_with _ "https://") eqn:Hst; [|done].
    apply (istarts_with_colon "https" "//") in Hst; [|done..].
    by rewrite number_not_slashes in Hst. }
  rewrite H1, H2. cbv zeta. unfold split_all.
  rewrite split_all_go_sep; [|by apply no_colon_any_of|done].
  rewrite split_all_go_nosep by (by apply number_no_colon).
  rewrite !str_app_nil_l.
  by rewrite OptionsProofs.atoi_print_int.
Qed.

(** X27. The address of the node manager. For a host name without ':' and
    a port that fits an int, the flag host:port, with or without http://
    or https:// before it, gives the address of this host and port, and
    the flag is written back without the prefix. A flag that holds no ':'
    after the prefix, and so the empty flag, gives no address: the
    detection is not started. *)
Theorem nm_addr_of_url (scheme host : string) (p : Z) :
  scheme ∈ [""; "http://"; "https://"] →
  str_forallb (λ c, negb (Ascii.eqb c ":")) host = true →
  (Options.in_int32 p →
   nm_addr_of (scheme +:+ host +:+ ":" +:+ Options.print_int p)
   = Some (host +:+ ":" +:+ Options.print_int p,
           {| hostname := host; port := p |}, Options.print_int p))
  ∧ nm_addr_of (scheme +:+ host) = None.
Proof.
  intros Hscheme Hhost.
  assert (Hnone : ∀ rest, str_forallb (λ c, negb (Ascii.eqb c ":")) rest = true →
            match split_all (is_any_of ":") rest with
            | c0 :: c1 :: _ =>
                Some (rest, MakeNetworkAddress c0 (Options.atoi c1), c1)
            | _ => None
            end = None).
  { intros rest Hrest. unfold split_all.
    by rewrite split_all_go_nosep by (by apply no_colon_any_of). }
  assert (Hsome : Options.in_int32 p →
            match split_all (is_any_of ":")
                    (host +:+ ":" +:+ Options.print_int p) with
            | c0 :: c1 :: _ =>
                Some (host +:+ ":" +:+ Options.print_int p,
                      MakeNetworkAddress c0 (Options.atoi c1), c1)
            | _ => None
            end
            = Some (host +:+ ":" +:+ Options.print_int p,
                    {| hostname := host; port := p |}, Options.print_int p)).
  { intros Hp. unfold split_all.
    change (host +:+ ":" +:+ Options.print_int p)
      with (host +:+ String ":" (Options.print_int p)).
    rewrite split_all_go_sep; [|by apply no_colon_any_of|done].
    rewrite split_all_go_nosep
      by (apply number_no_colon, OptionsProofs.print_int_number).
    rewrite !str_app_nil_l.
    by rewrite OptionsProofs.atoi_print_int. }
  repeat (apply elem_of_cons in Hscheme as [->|Hscheme]);
    [| | |by apply elem_of_nil in Hscheme].
  - split; [intros Hp; by apply nm_addr_of_plain|].
    rewrite str_app_nil_l. unfold nm_addr_of.
    case_bool_decide; [done|].
    rewrite (istarts_with_no_colon "http" "//") by done.
    rewrite (istarts_with_no_colon "https" "//") by done.
    by apply Hnone.
  - assert (Hstrip : ∀ rest, nm_addr_of ("http://" +:+ rest)
              = match split_all (is_any_of ":") rest with
                | c0 :: c1 :: _ =>
                    Some (rest, MakeNetworkAddress c0 (Options.atoi c1), c1)
                | _ => None
                end).
    { intros rest. unfold nm_addr_of.
      rewrite bool_decide_eq_false_2 by done. reflexivity. }
    rewrite !Hstrip. split; [intros Hp; exact (Hsome Hp)|]. by apply Hnone.
  - assert (Hstrip : ∀ rest, nm_addr_of ("https://" +:+ rest)
              = match split_all (is_any_of ":") rest with
                | c0 :: c1 :: _ =>
                    Some (rest, MakeNetworkAddress c0 (Options.atoi c1), c1)
                | _ => None
                end).
    { intros rest. unfold nm_addr_of.
      rewrite bool_decide_eq_false_2 by done. reflexivity. }
    rewrite !Hstrip. split; [intros Hp; exact (Hsome Hp)|]. by apply Hnone.
Qed.

Section NmFailuresProofs.

Context {QBody : Type} `{QueryExecStateOps QBody}.
Variable flags : Flags.
Variable env : ExecEnv.
Context {FailureDetector : Type}.
Variable new_MissedHeartbeatFailureDetector : Z → Z → FailureDetector.
Variable UpdateHeartbeat : string → bool → FailureDetector → FailureDetector.
Variable GetPeerState_is_FAILED : string → FailureDetector → bool.
Variable getaddrinfo : string → string → bool.

#[local] Abbreviation SrvN := (ImpalaServer (QBody:=QBody)).

(** What the rounds of the loop keep: the detector has seen every probe,
    [last_failure_state] is the offline flag of the server, which after a
    round is the state of the detector, and nothing else is written. *)
Lemma DetectNmFailures_rounds (peer : string) (probes : list Probe)
    (failure_detector : FailureDetector) (s : SrvN) :
  let r := foldl (DetectNmFailures_round UpdateHeartbeat
                    GetPeerState_is_FAILED peer)
                 (failure_detector, is_offline_ s, s) probes in
  r.1.1 = foldl (λ fd probe, report_probe UpdateHeartbeat peer probe fd)
                failure_detector probes
  ∧ r.1.2 = is_offline_ r.2
  ∧ r.2 = SetOffline (is_offline_ r.2) s
  ∧ (probes ≠ [] → is_offline_ r.2 = GetPeerState_is_FAILED peer r.1.1).
Proof.
  revert failure_detector s.
  induction probes as [|probe rest IH] using rev_ind; intros fd s; simpl.
  - split; [done|]. split; [done|]. split; [by destruct s|done].
  - rewrite !foldl_app. simpl.
    destruct (IH fd s) as (Hfd & Hlast & Hs & _).
    destruct (foldl _ (fd, is_offline_ s, s) rest) as [[fd' last] s'].
    simpl in *. subst fd' last.
    set (fd' := report_probe _ _ _ _).
    destruct (GetPeerState_is_FAILED peer fd') eqn:Hf,
             (is_offline_ s') eqn:Ho; simpl;
      (split; [done|]); (split; [done|]);
      (split; [|by intros _]); rewrite ?Ho; try done;
      rewrite Hs; done.
Qed.

(** An offline server executes nothing. *)
Lemma Execute_when_offline (now : Z) (query_uuid : TUniqueId)
    (query_ctx : TQueryCtx) (session_state : SessionPtr) (s : SrvN) :
  is_offline_ s = true →
  Execute flags env now query_uuid query_ctx session_state s
  = Returns
      (Status_of_msg
         "This Impala server is offline. Please retry your query later.",
       None) s.
Proof.
  intros Hoff. unfold Execute, ExecuteInternal. by rewrite Hoff.
Qed.

(** X28. The offline flag follows the node manager. Started on a server
    that is not offline, as the constructor leaves it, the detection loop
    writes nothing but the offline flag; when no address is read from the
    flag or the address does not resolve it does nothing at all; and
    otherwise, after every round, the server is offline exactly when the
    failure detector, having been told the outcome of every probe so far,
    reports the node manager as failed. While it is offline, [Execute]
    answers that the server is offline and changes nothing. *)
Theorem DetectNmFailures_offline (FLAGS_local_nodemanager_url : string)
    (probes : list Probe) (s : SrvN) :
  is_offline_ s = false →
  let s' := DetectNmFailures new_MissedHeartbeatFailureDetector
              UpdateHeartbeat GetPeerState_is_FAILED getaddrinfo
              FLAGS_local_nodemanager_url probes s in
  s' = SetOffline (is_offline_ s') s
  ∧ match nm_addr_of FLAGS_local_nodemanager_url with
    | None => s' = s
    | Some (peer, nm_addr, service) =>
        if getaddrinfo (Options.c_str (hostname nm_addr))
                       (Options.c_str service)
        then s' = s
        else
          probes ≠ [] →
          is_offline_ s'
          = GetPeerState_is_FAILED peer
              (foldl (λ fd probe, report_probe UpdateHeartbeat peer probe fd)
                     (new_MissedHeartbeatFailureDetector
                        MAX_NM_MISSED_HEARTBEATS
                        (MAX_NM_MISSED_HEARTBEATS / 2))
                     probes)
    end
  ∧ (is_offline_ s' = true →
     ∀ now query_uuid query_ctx session_state,
       Execute flags env now query_uuid query_ctx session_state s'
       = Returns
           (Status_of_msg
              "This Impala server is offline. Please retry your query later.",
            None) s').
Proof.
  intros Hoff s'.
  assert (Hexec : is_offline_ s' = true →
     ∀ now query_uuid query_ctx session_state,
       Execute flags env now query_uuid query_ctx session_state s'
       = Returns
           (Status_of_msg
              "This Impala server is offline. Please retry your query later.",
            None) s').
  { intros Hs' now query_uuid query_ctx session_state.
    by apply Execute_when_offline. }
  match goal with
  | |- ?A ∧ ?B ∧ _ => cut (A ∧ B); [by intros [? ?]|]
  end.
  clear Hexec.
  subst s'. unfold DetectNmFailures.
  destruct (nm_addr_of FLAGS_local_nodemanager_url) as [[[peer nm_addr] service]|].
  2:{ split; [by destruct s|done]. }
  destruct (getaddrinfo _ _).
  { split; [by destruct s|done]. }
  pose proof (DetectNmFailures_rounds peer probes
                (new_MissedHeartbeatFailureDetector MAX_NM_MISSED_HEARTBEATS
                   (MAX_NM_MISSED_HEARTBEATS / 2)) s) as Hr.
  rewrite Hoff in Hr. cbv zeta in Hr.
  destruct Hr as (Hfd & _ & Hs & Hlast).
  split; [exact Hs|]. intros Hne. rewrite (Hlast Hne). by rewrite Hfd.
Qed.

End NmFailuresProofs.

(** ** Closed examples of the further properties *)

(** Witness of X2: three archived queries, a log of size 2. *)
Lemma query_log_index_agrees_witness :
  let flags := example_flags 2 0 in
  let s := archive_all flags 0
             [example_query 1 0; example_query 2 0; example_query 3 0]
             initial_server in
  NoDup (id <$> query_log_ s) ∧ log_index_agree s.
Proof.
  intros flags s.
  apply (query_log_index_agrees flags 0
           [example_query 1 0; example_query 2 0; example_query 3 0]).
  apply (bool_decide_unpack _). vm_compute. exact I.
Defined.

(** Witness of X3: a registered query is unregistered and its profile is
    read from the log. *)
Lemma profile_across_UnregisterQuery_witness :
  let flags := example_flags 25 0 in
  let env := example_env Status_OK Status_OK in
  let s := (RegisterQuery flags env 0 1%positive (example_query 7 0)
                          (example_server 0)).2 in
  ∃ s' r,
    UnregisterQuery flags env 1 (example_id 7) None s = Returns true s'
    ∧ head (query_log_ s') = Some r
    ∧ GetRuntimeProfileStr env (example_id 7) false "" s'
      = (Status_OK, profile_str r)
    ∧ GetExecSummary env (example_id 7) "" s
      = (Status_of_msg "Query id id not found.", "").
Proof.
  intros flags env s.
  destruct (UnregisterQuery flags env 1 (example_id 7) None s)
    as [b s'|] eqn:Hu; [|vm_compute in Hu; discriminate].
  assert (Hb : b = true) by (vm_compute in Hu; congruence). subst b.
  destruct (profile_across_UnregisterQuery flags env 1 (example_id 7) None
              s s' (example_query 7 0) true)
    as (_ & Hsum & _ & Hlog).
  - vm_compute. reflexivity.
  - reflexivity.
  - vm_compute. intros Hin. inversion Hin.
  - vm_compute. reflexivity.
  - exact Hu.
  - destruct Hlog as (r & _ & Hhead & Hprofile & _).
    + vm_compute. discriminate.
    + exists s', r. split; [done|]. split; [exact Hhead|].
      split; [exact (Hprofile "")|]. exact (Hsum "").
Defined.

(** Witness of X4: a query that plans and runs. *)
Lemma Execute_OK_registered_witness :
  let flags := example_flags 25 0 in
  let env := example_env Status_OK Status_OK in
  ∃ e s',
    Execute flags env 0 (example_id 7) example_ctx 1%positive
            (example_server 0) = Returns (Status_OK, Some e) s'
    ∧ query_exec_state_map_ s' !! example_id 7 = Some e
    ∧ session e = 1%positive.
Proof.
  intros flags env.
  destruct (Execute flags env 0 (example_id 7) example_ctx 1%positive
              (example_server 0)) as [[st oe] s'|] eqn:Hex;
    [|vm_compute in Hex; discriminate].
  assert (Hst : st = Status_OK)
    by (vm_compute in Hex; injection Hex as Hst _ _; by rewrite <- Hst).
  subst st.
  destruct (Execute_OK_registered flags env 0 (example_id 7) example_ctx
              1%positive (example_server 0) s' oe Hex)
    as (_ & _ & e & ss & -> & Hmap & _ & Hsess & _).
  by exists e, s'.
Defined.

(** Witness of X5: the id of a registered query is drawn again. *)
Lemma Execute_registration_refused_witness :
  let flags := example_flags 25 0 in
  let env := example_env Status_OK Status_OK in
  let s := (RegisterQuery flags env 0 1%positive (example_query 7 0)
                          (example_server 0)).2 in
  ∃ oe,
    Execute flags env 1 (example_id 7) example_ctx 1%positive s
    = Returns (Status_of_code TStatusCode_INTERNAL_ERROR
                 "query id id already exists", oe) s.
Proof.
  intros flags env s.
  destruct (session_heap s !! 1%positive) as [ss|] eqn:Hss;
    [|vm_compute in Hss; discriminate].
  assert (Hopen : closed ss = false) by (vm_compute in Hss; by simplify_eq).
  destruct (Execute_registration_refused flags env 1 (example_id 7)
              example_ctx 1%positive s ss) as [oe Hex].
  - reflexivity.
  - exact Hss.
  - right. vm_compute. by eexists.
  - rewrite Hopen in Hex. by exists oe.
Defined.

(** Witness of X7: the session of the example server is closed. *)
Lemma closed_session_refuses_witness :
  let flags := example_flags 25 0 in
  let env := example_env Status_OK Status_OK in
  ∃ s',
    CloseSessionInternal flags env 1 (example_id 100) false (example_server 0)
    = Returns Status_OK s'
    ∧ GetSessionState flags env (example_id 100) None true s'
      = (Status_of_msg "Invalid session id", None, s')
    ∧ CloseSessionInternal flags env 2 (example_id 100) false s'
      = Returns (Status_of_msg "Invalid session ID") s'.
Proof.
  intros flags env.
  destruct (CloseSessionInternal flags env 1 (example_id 100) false
              (example_server 0)) as [st s'|] eqn:Hclose;
    [|vm_compute in Hclose; discriminate].
  assert (Hst : st = Status_OK)
    by (vm_compute in Hclose; injection Hclose as Hst _; by rewrite <- Hst).
  subst st.
  destruct (closed_session_refuses flags env 1 (example_id 100) false
              (example_server 0) s' Status_OK 1%positive (example_session 0)
              eq_refl eq_refl Hclose) as (Hget & _ & Hagain).
  exists s'. split; [done|]. split; [exact (Hget None true)|exact (Hagain 2)].
Defined.

(** Witness of X13: a queue of one entry, due at the time of the pass. *)
Lemma ExpireQueries_pass_queue_witness :
  let flags := example_flags 25 10 in
  let env := example_env Status_OK Status_OK in
  let s := (RegisterQuery flags env 0 1%positive (example_query 7 5)
                          (example_server 0)).2 in
  ∃ s', ExpireQueries_pass flags env 6000 s = Some s'
        ∧ queue_sorted (queries_by_timestamp_ s').
Proof.
  intros flags env s.
  destruct (ExpireQueries_pass_queue flags env 6000 s) as (s' & Hpass & Hq & _).
  - unfold queue_sorted. vm_compute queries_by_timestamp_.
    repeat constructor.
  - by exists s'.
Defined.

(** Witness of X18: the delta with the CATALOG object of version 7. *)
Lemma CatalogUpdateCallback_applies_witness :
  let res := CatalogCallback.CatalogUpdateCallback example_deserialize
               (λ _, None) (λ _, None) example_frontend_update
               example_catalog_deltas
               (example_catalog_state 3 0 0 (example_id 1)) in
  CatalogCallback.notified res = true
  ∧ Catalog.min_subscriber_catalog_topic_version_ (CatalogCallback.guarded res)
    = 9
  ∧ Catalog.catalog_update_info_ (CatalogCallback.guarded res)
    = {| Catalog.catalog_version := 7; Catalog.catalog_topic_version := 12;
         Catalog.catalog_service_id := example_id 1 |}.
Proof.
  intros res.
  destruct (CatalogCallbackProofs.CatalogUpdateCallback_applies
              example_deserialize (λ _, None) (λ _, None)
              example_frontend_update example_catalog_deltas
              example_catalog_delta
              (example_catalog_state 3 0 0 (example_id 1)))
    as (Hnotified & Hmin & Hok & _).
  - reflexivity.
  - left. discriminate.
  - split; [exact Hnotified|]. split; [exact Hmin|].
    destruct Hok as [Hinfo _]; [reflexivity|]. exact Hinfo.
Defined.

(** Witness of X19: a thread that waits for version 5 is released by the
    delta that brings version 7. *)
Lemma CatalogUpdateCallback_releases_witness :
  let res := CatalogCallback.CatalogUpdateCallback example_deserialize
               (λ _, None) (λ _, None) example_frontend_update
               example_catalog_deltas
               (example_catalog_state 3 0 0 (example_id 1)) in
  Catalog.ProcessCatalogUpdateResult (λ _, Status_OK) example_update_result
    false (example_catalog_state 3 0 0 (example_id 1))
    ([example_catalog_state 4 0 0 (example_id 1)]
     ++ [CatalogCallback.guarded res])
  = Some Status_OK.
Proof.
  intros res.
  apply (CatalogCallbackProofs.CatalogUpdateCallback_releases
           example_deserialize (λ _, None) (λ _, None)
           example_frontend_update example_catalog_deltas
           example_catalog_delta
           (example_catalog_state 3 0 0 (example_id 1))
           example_update_result (λ _, Status_OK)
           (example_catalog_state 3 0 0 (example_id 1))
           [example_catalog_state 4 0 0 (example_id 1)]).
  - reflexivity.
  - left. discriminate.
  - reflexivity.
  - left. vm_compute. discriminate.
  - reflexivity.
  - reflexivity.
Defined.


(** Witness of X21: a fragment comes, runs and ends. *)
Lemma fragment_lifecycle_witness :
  let Prepare := (λ _, Status_OK)
                 : Fragments.TExecPlanFragmentParams → Status in
  let Cancel := (λ _, Status_OK) : Fragments.FragPtr → Status in
  let print_id := (λ _, "id") : TUniqueId → string in
  let r := Fragments.ExecPlanFragment Prepare (example_fragment 1)
             Fragments.initial_backend in
  r.1 = ToThrift Status_OK
  ∧ Fragments.fragment_exec_state_map_ r.2 = {[ example_id 1 := 0%nat ]}
  ∧ Fragments.fragment_exec_state_map_
      (Fragments.RunExecPlanFragment_done (example_fragment 1) r.2) = ∅.
Proof.
  intros Prepare Cancel print_id r.
  pose proof (FragmentsMoreProofs.fragment_lifecycle Prepare Cancel print_id
                Fragments.initial_backend (example_fragment 1) eq_refl)
    as Hlife.
  cbv zeta in Hlife. change (true && ok Status_OK) with true in Hlife.
  destruct Hlife as (Hst & Hmap & _ & Hdone & _).
  split; [exact Hst|]. split; [exact Hmap|exact Hdone].
Defined.

(** Witness of X22: the flag root=alice,bob;svc=*;root=carol. *)
Lemma parse_authorized_proxy_user_config_text_witness :
  ∃ cfg : Proxy.ProxyUserMap,
    Proxy.parse_authorized_proxy_user_config "root=alice,bob;svc=*;root=carol"
    = Some cfg
    ∧ cfg !! "root" = Some (list_to_set ["alice"; "bob"])
    ∧ cfg !! "svc" = Some (list_to_set ["*"])
    ∧ cfg !! "carol" = None.
Proof.
  destruct (ProxyConfigProofs.parse_authorized_proxy_user_config_text
              example_proxy_entries) as (cfg & Hparse & Hcfg).
  - discriminate.
  - repeat (apply Forall_cons; split;
              [repeat split; try reflexivity; try discriminate;
               repeat (apply Forall_cons; split;
                         [repeat split; try reflexivity; discriminate|]);
               apply Forall_nil; exact I|]).
    apply Forall_nil. exact I.
  - exists cfg. split; [exact Hparse|].
    split; [exact (Hcfg "root")|]. split; [exact (Hcfg "svc")|].
    exact (Hcfg "carol").
Defined.

(** Witness of X27: the flag http://localhost:8042. *)
Lemma nm_addr_of_url_witness :
  nm_addr_of "http://localhost:8042"
  = Some ("localhost:8042", {| hostname := "localhost"; port := 8042 |},
          "8042")
  ∧ nm_addr_of "http://localhost" = None.
Proof.
  destruct (nm_addr_of_url "http://" "localhost" 8042) as [Hsome Hnone].
  - apply elem_of_cons. right. apply elem_of_cons. by left.
  - reflexivity.
  - split; [|exact Hnone]. apply Hsome. unfold Options.in_int32. lia.
Defined.

(** Witness of X28: six probes in a row fail to connect. *)
Lemma DetectNmFailures_offline_witness :
  let s' := DetectNmFailures (λ _ _, 0%nat) example_UpdateHeartbeat
              example_is_FAILED (λ _ _, false) "http://localhost:8042"
              [ConnectFailed; ConnectFailed; ConnectFailed; ConnectFailed;
               ConnectFailed; ConnectFailed]
              (example_server 0) in
  s' = SetOffline (is_offline_ s') (example_server 0)
  ∧ is_offline_ s' = true.
Proof.
  intros s'.
  destruct (DetectNmFailures_offline (example_flags 25 0)
              (example_env Status_OK Status_OK)
              (λ _ _, 0%nat) example_UpdateHeartbeat example_is_FAILED
              (λ _ _, false) "http://localhost:8042"
              [ConnectFailed; ConnectFailed; ConnectFailed; ConnectFailed;
               ConnectFailed; ConnectFailed]
              (example_server 0) eq_refl) as (Hs & _ & _).
  split; [exact Hs|]. vm_compute. reflexivity.
Defined.
